(** * FQ-CoDel with a cuckoo-hashed flow table and a two-level empty-slot bitmask

    A shallow embedding of [net/sched/debug/sch_fq_codel_cuckoo_bitmask.c].

    - Machine integers are [Z] with the wrap-around written out ([u32],
      [u16], [u8], [s32]).
    - C arrays are lists read and written through [arr_get] and [arr_set],
      which fault outside the allocation; a NULL packet pointer is the
      empty queue, and [dequeue_head] of an empty queue faults.
    - Functions that mutate [struct fq_codel_sched_data] or [struct Qdisc]
      live in a state-and-fault monad [M]; the loops that the source bounds
      by a counter or that end with the data ([cuckoo_rehash], the scan and
      the drop loop of [fq_codel_drop]) recurse on that bound, the
      [goto begin] loop of [fq_codel_dequeue] takes fuel.
    - Kernel helpers ([ffs], [memset], [min], [max], [reciprocal_scale],
      [TC_H_MAJ], [TC_H_MIN]) are written out from their kernel definitions;
      the keyed hash [skb_get_hash_perturb] is a field of the packet, and
      the decisions of [codel_dequeue] are a parameter.
    - [fq_codel_walk] takes the callback as a function that reads the
      scheduler, the class and the walker; [fq_codel_dump_class_stats]
      returns what it hands to the two copy helpers, which succeed.
    - Left out: time stamps, CoDel's per-flow variables and parameters,
      byte and packet statistics, [fq_codel_dump], [fq_codel_dump_stats],
      the class operations that only return a constant, and the module
      glue. The classifier is the one built with [CONFIG_NET_CLS_ACT]. *)

From stdpp Require Import base list.
From Stdlib Require Import ZArith Lia Bool.

Local Open Scope Z_scope.

(** ** Machine words *)

Definition u32 (x : Z) : Z := x mod 2 ^ 32.
Definition u16 (x : Z) : Z := x mod 2 ^ 16.
Definition u8 (x : Z) : Z := x mod 2 ^ 8.

(** [~x] on a 32-bit word. *)
Definition not32 (x : Z) : Z := Z.lxor (u32 x) 0xFFFFFFFF.

(** [min]/[max] of the kernel, on unsigned words. *)
Definition min_u (a b : Z) : Z := if a <? b then a else b.
Definition max_u (a b : Z) : Z := if a >? b then a else b.

(** Number of trailing zero bits of a positive number. *)
Fixpoint pos_ctz (p : positive) : Z :=
  match p with
  | xO p' => 1 + pos_ctz p'
  | _ => 0
  end.

(** [ffs(x)]: one plus the index of the least significant set bit of the
    32-bit pattern of [x], and 0 when no bit is set. *)
Definition ffs (x : Z) : Z :=
  match u32 x with
  | Zpos p => 1 + pos_ctz p
  | _ => 0
  end.

(** [memset(p, c, n * sizeof(u32))] seen from the [n] 32-bit words at [p]:
    every byte of every word is [c]. *)
Definition memset_word (c : Z) : Z :=
  let b := u8 c in
  Z.lor b (Z.lor (Z.shiftl b 8) (Z.lor (Z.shiftl b 16) (Z.shiftl b 24))).

Definition memset_u32 (c : Z) (n : nat) : list Z := repeat (memset_word c) n.

(** [reciprocal_scale(val, ep_ro)] of include/linux/kernel.h:
    [(u32)(((u64) val * ep_ro) >> 32)]. *)
Definition reciprocal_scale (val ep_ro : Z) : Z :=
  u32 (Z.shiftr (u32 val * u32 ep_ro) 32).

(** [TC_H_MAJ] and [TC_H_MIN] of include/uapi/linux/pkt_sched.h. *)
Definition TC_H_MAJ (h : Z) : Z := Z.land h 0xFFFF0000.
Definition TC_H_MIN (h : Z) : Z := Z.land h 0x0000FFFF.

(** ** Faults and the state monad *)

Inductive fault : Type :=
| OOB_hashtable (i : Z)   (* hashtable[i] outside [0, 2 * flows_cnt) *)
| OOB_flows (i : Z)       (* flows[i] outside [0, flows_cnt) *)
| OOB_backlogs (i : Z)    (* backlogs[i] outside [0, flows_cnt) *)
| OOB_mask (i : Z)        (* empty_flow_mask[i] outside [0, 32) *)
| NULL_skb                (* dereference of a NULL sk_buff *)
| Bad_shift (k : Z)       (* 1 << k with k outside [0, 32) *)
| Out_of_fuel.            (* the loop bound given to the model was too small *)

Inductive result (A : Type) : Type :=
| Ok (a : A)
| Fault (f : fault).
Arguments Ok {A} a.
Arguments Fault {A} f.

Definition rbind {A B} (r : result A) (k : A -> result B) : result B :=
  match r with
  | Ok a => k a
  | Fault f => Fault f
  end.

Definition M (S A : Type) : Type := S -> result (A * S).

Definition pure {S A} (a : A) : M S A := fun s => Ok (a, s).
Definition bind {S A B} (m : M S A) (k : A -> M S B) : M S B :=
  fun s => match m s with
           | Ok (a, s') => k a s'
           | Fault f => Fault f
           end.
Definition get {S} : M S S := fun s => Ok (s, s).
Definition gets {S A} (f : S -> A) : M S A := fun s => Ok (f s, s).
Definition modify {S} (f : S -> S) : M S unit := fun s => Ok (tt, f s).
Definition lift {S A} (r : S -> result A) : M S A :=
  fun s => match r s with
           | Ok a => Ok (a, s)
           | Fault f => Fault f
           end.
Definition throw {S A} (f : fault) : M S A := fun _ => Fault f.

Declare Scope monad_scope.
Delimit Scope monad_scope with monad.
Notation "x <- m ;; k" := (bind m (fun x => k))
  (at level 100, m at next level, right associativity) : monad_scope.
Notation "m ;;; k" := (bind m (fun _ => k))
  (at level 100, right associativity) : monad_scope.
Notation "x <-r m ;; k" := (rbind m (fun x => k))
  (at level 100, m at next level, right associativity) : monad_scope.
Local Open Scope monad_scope.

(** ** C arrays *)

Definition arr_get {A} (oob : Z -> fault) (l : list A) (i : Z) : result A :=
  if 0 <=? i then
    match l !! Z.to_nat i with
    | Some x => Ok x
    | None => Fault (oob i)
    end
  else Fault (oob i).

Definition arr_set {A} (oob : Z -> fault) (l : list A) (i : Z) (x : A)
  : result (list A) :=
  if (0 <=? i) && (i <? Z.of_nat (length l))
  then Ok (<[Z.to_nat i := x]> l)
  else Fault (oob i).

(** ** Packets, flows and the scheduler's private data *)

(** What the scheduler reads from a [struct sk_buff]. [skb_keys seed] is
    [skb_get_hash_perturb(skb, seed)], the keyed hash of the packet's flow
    keys; [skb_hash] is [skb_get_hash(skb)]. The [mem_usage] control-block
    field is written from [truesize] at enqueue and only read afterwards. *)
Record sk_buff : Type := mk_skb {
  skb_hash : Z;
  skb_keys : Z -> Z;
  pkt_len : Z;
  truesize : Z;
  priority : Z;
}.

Definition skb_get_hash (skb : sk_buff) : Z := u32 (skb_hash skb).
Definition skb_get_hash_perturb (skb : sk_buff) (seed : Z) : Z :=
  u32 (skb_keys skb seed).
Definition qdisc_pkt_len (skb : sk_buff) : Z := u32 (pkt_len skb).
Definition mem_usage (skb : sk_buff) : Z := u32 (truesize skb).

(** [head] is the FIFO from [flow->head] to [flow->tail]; [[]] is
    [head == NULL]. Membership of [flowchain] in a scheduling list is kept in
    the lists of [fq_codel_sched_data]. CoDel's [cvars] are not modelled. *)
Record fq_codel_flow : Type := mk_flow {
  head : list sk_buff;
  deficit : Z;
  dropped : Z;
}.

Definition empty_flow : fq_codel_flow := mk_flow [] 0 0.

Record codel_stats : Type := mk_cstats {
  drop_count : Z;
  drop_len : Z;
  ecn_mark : Z;
}.

(** The external classifier chain: [tcf_classify] gives a verdict and a
    class id. *)
Definition tcf_proto : Type := sk_buff -> Z * Z.

Record fq_codel_sched_data : Type := mk_q {
  filter_list : option tcf_proto;
  hashtable : list Z;
  random_seed : Z * Z;
  empty_flow_mask : list Z;
  flow_mask_index : Z;
  flows : list fq_codel_flow;
  backlogs : list Z;
  flows_cnt : Z;
  quantum : Z;
  drop_batch_size : Z;
  memory_limit : Z;
  cstats : codel_stats;
  memory_usage : Z;
  drop_overmemory : Z;
  drop_overlimit : Z;
  new_flow_count : Z;
  new_flows : list Z;
  old_flows : list Z;
}.

(** Field updates ([q->f = v]). *)
Definition set_filter_list (v : option tcf_proto) (q : fq_codel_sched_data)
  : fq_codel_sched_data :=
  mk_q v (hashtable q) (random_seed q) (empty_flow_mask q) (flow_mask_index q)
    (flows q) (backlogs q) (flows_cnt q) (quantum q) (drop_batch_size q)
    (memory_limit q) (cstats q) (memory_usage q) (drop_overmemory q)
    (drop_overlimit q) (new_flow_count q) (new_flows q) (old_flows q).
Definition set_hashtable (v : list Z) (q : fq_codel_sched_data)
  : fq_codel_sched_data :=
  mk_q (filter_list q) v (random_seed q) (empty_flow_mask q)
    (flow_mask_index q) (flows q) (backlogs q) (flows_cnt q) (quantum q)
    (drop_batch_size q) (memory_limit q) (cstats q) (memory_usage q)
    (drop_overmemory q) (drop_overlimit q) (new_flow_count q) (new_flows q)
    (old_flows q).
Definition set_random_seed (v : Z * Z) (q : fq_codel_sched_data)
  : fq_codel_sched_data :=
  mk_q (filter_list q) (hashtable q) v (empty_flow_mask q) (flow_mask_index q)
    (flows q) (backlogs q) (flows_cnt q) (quantum q) (drop_batch_size q)
    (memory_limit q) (cstats q) (memory_usage q) (drop_overmemory q)
    (drop_overlimit q) (new_flow_count q) (new_flows q) (old_flows q).
Definition set_empty_flow_mask (v : list Z) (q : fq_codel_sched_data)
  : fq_codel_sched_data :=
  mk_q (filter_list q) (hashtable q) (random_seed q) v (flow_mask_index q)
    (flows q) (backlogs q) (flows_cnt q) (quantum q) (drop_batch_size q)
    (memory_limit q) (cstats q) (memory_usage q) (drop_overmemory q)
    (drop_overlimit q) (new_flow_count q) (new_flows q) (old_flows q).
Definition set_flow_mask_index (v : Z) (q : fq_codel_sched_data)
  : fq_codel_sched_data :=
  mk_q (filter_list q) (hashtable q) (random_seed q) (empty_flow_mask q) v
    (flows q) (backlogs q) (flows_cnt q) (quantum q) (drop_batch_size q)
    (memory_limit q) (cstats q) (memory_usage q) (drop_overmemory q)
    (drop_overlimit q) (new_flow_count q) (new_flows q) (old_flows q).
Definition set_flows (v : list fq_codel_flow) (q : fq_codel_sched_data)
  : fq_codel_sched_data :=
  mk_q (filter_list q) (hashtable q) (random_seed q) (empty_flow_mask q)
    (flow_mask_index q) v (backlogs q) (flows_cnt q) (quantum q)
    (drop_batch_size q) (memory_limit q) (cstats q) (memory_usage q)
    (drop_overmemory q) (drop_overlimit q) (new_flow_count q) (new_flows q)
    (old_flows q).
Definition set_backlogs (v : list Z) (q : fq_codel_sched_data)
  : fq_codel_sched_data :=
  mk_q (filter_list q) (hashtable q) (random_seed q) (empty_flow_mask q)
    (flow_mask_index q) (flows q) v (flows_cnt q) (quantum q)
    (drop_batch_size q) (memory_limit q) (cstats q) (memory_usage q)
    (drop_overmemory q) (drop_overlimit q) (new_flow_count q) (new_flows q)
    (old_flows q).
Definition set_flows_cnt (v : Z) (q : fq_codel_sched_data)
  : fq_codel_sched_data :=
  mk_q (filter_list q) (hashtable q) (random_seed q) (empty_flow_mask q)
    (flow_mask_index q) (flows q) (backlogs q) v (quantum q)
    (drop_batch_size q) (memory_limit q) (cstats q) (memory_usage q)
    (drop_overmemory q) (drop_overlimit q) (new_flow_count q) (new_flows q)
    (old_flows q).
Definition set_quantum (v : Z) (q : fq_codel_sched_data)
  : fq_codel_sched_data :=
  mk_q (filter_list q) (hashtable q) (random_seed q) (empty_flow_mask q)
    (flow_mask_index q) (flows q) (backlogs q) (flows_cnt q) v
    (drop_batch_size q) (memory_limit q) (cstats q) (memory_usage q)
    (drop_overmemory q) (drop_overlimit q) (new_flow_count q) (new_flows q)
    (old_flows q).
Definition set_drop_batch_size (v : Z) (q : fq_codel_sched_data)
  : fq_codel_sched_data :=
  mk_q (filter_list q) (hashtable q) (random_seed q) (empty_flow_mask q)
    (flow_mask_index q) (flows q) (backlogs q) (flows_cnt q) (quantum q) v
    (memory_limit q) (cstats q) (memory_usage q) (drop_overmemory q)
    (drop_overlimit q) (new_flow_count q) (new_flows q) (old_flows q).
Definition set_memory_limit (v : Z) (q : fq_codel_sched_data)
  : fq_codel_sched_data :=
  mk_q (filter_list q) (hashtable q) (random_seed q) (empty_flow_mask q)
    (flow_mask_index q) (flows q) (backlogs q) (flows_cnt q) (quantum q)
    (drop_batch_size q) v (cstats q) (memory_usage q) (drop_overmemory q)
    (drop_overlimit q) (new_flow_count q) (new_flows q) (old_flows q).
Definition set_cstats (v : codel_stats) (q : fq_codel_sched_data)
  : fq_codel_sched_data :=
  mk_q (filter_list q) (hashtable q) (random_seed q) (empty_flow_mask q)
    (flow_mask_index q) (flows q) (backlogs q) (flows_cnt q) (quantum q)
    (drop_batch_size q) (memory_limit q) v (memory_usage q)
    (drop_overmemory q) (drop_overlimit q) (new_flow_count q) (new_flows q)
    (old_flows q).
Definition set_memory_usage (v : Z) (q : fq_codel_sched_data)
  : fq_codel_sched_data :=
  mk_q (filter_list q) (hashtable q) (random_seed q) (empty_flow_mask q)
    (flow_mask_index q) (flows q) (backlogs q) (flows_cnt q) (quantum q)
    (drop_batch_size q) (memory_limit q) (cstats q) v (drop_overmemory q)
    (drop_overlimit q) (new_flow_count q) (new_flows q) (old_flows q).
Definition set_drop_overmemory (v : Z) (q : fq_codel_sched_data)
  : fq_codel_sched_data :=
  mk_q (filter_list q) (hashtable q) (random_seed q) (empty_flow_mask q)
    (flow_mask_index q) (flows q) (backlogs q) (flows_cnt q) (quantum q)
    (drop_batch_size q) (memory_limit q) (cstats q) (memory_usage q) v
    (drop_overlimit q) (new_flow_count q) (new_flows q) (old_flows q).
Definition set_drop_overlimit (v : Z) (q : fq_codel_sched_data)
  : fq_codel_sched_data :=
  mk_q (filter_list q) (hashtable q) (random_seed q) (empty_flow_mask q)
    (flow_mask_index q) (flows q) (backlogs q) (flows_cnt q) (quantum q)
    (drop_batch_size q) (memory_limit q) (cstats q) (memory_usage q)
    (drop_overmemory q) v (new_flow_count q) (new_flows q) (old_flows q).
Definition set_new_flow_count (v : Z) (q : fq_codel_sched_data)
  : fq_codel_sched_data :=
  mk_q (filter_list q) (hashtable q) (random_seed q) (empty_flow_mask q)
    (flow_mask_index q) (flows q) (backlogs q) (flows_cnt q) (quantum q)
    (drop_batch_size q) (memory_limit q) (cstats q) (memory_usage q)
    (drop_overmemory q) (drop_overlimit q) v (new_flows q) (old_flows q).
Definition set_new_flows (v : list Z) (q : fq_codel_sched_data)
  : fq_codel_sched_data :=
  mk_q (filter_list q) (hashtable q) (random_seed q) (empty_flow_mask q)
    (flow_mask_index q) (flows q) (backlogs q) (flows_cnt q) (quantum q)
    (drop_batch_size q) (memory_limit q) (cstats q) (memory_usage q)
    (drop_overmemory q) (drop_overlimit q) (new_flow_count q) v (old_flows q).
Definition set_old_flows (v : list Z) (q : fq_codel_sched_data)
  : fq_codel_sched_data :=
  mk_q (filter_list q) (hashtable q) (random_seed q) (empty_flow_mask q)
    (flow_mask_index q) (flows q) (backlogs q) (flows_cnt q) (quantum q)
    (drop_batch_size q) (memory_limit q) (cstats q) (memory_usage q)
    (drop_overmemory q) (drop_overlimit q) (new_flow_count q) (new_flows q) v.

(** [struct Qdisc], as far as the scheduler uses it; [priv] is
    [qdisc_priv(sch)]. *)
Record Qdisc : Type := mk_sch {
  handle : Z;
  limit : Z;
  qlen : Z;
  qstats_backlog : Z;
  qstats_drops : Z;
  priv : fq_codel_sched_data;
}.

Definition set_limit (v : Z) (sch : Qdisc) : Qdisc :=
  mk_sch (handle sch) v (qlen sch) (qstats_backlog sch) (qstats_drops sch)
    (priv sch).
Definition set_qlen (v : Z) (sch : Qdisc) : Qdisc :=
  mk_sch (handle sch) (limit sch) v (qstats_backlog sch) (qstats_drops sch)
    (priv sch).
Definition set_qstats_backlog (v : Z) (sch : Qdisc) : Qdisc :=
  mk_sch (handle sch) (limit sch) (qlen sch) v (qstats_drops sch) (priv sch).
Definition set_qstats_drops (v : Z) (sch : Qdisc) : Qdisc :=
  mk_sch (handle sch) (limit sch) (qlen sch) (qstats_backlog sch) v (priv sch).
Definition set_priv (v : fq_codel_sched_data) (sch : Qdisc) : Qdisc :=
  mk_sch (handle sch) (limit sch) (qlen sch) (qstats_backlog sch)
    (qstats_drops sch) v.

(** Run a computation on [qdisc_priv(sch)]. *)
Definition on_priv {A} (m : M fq_codel_sched_data A) : M Qdisc A :=
  fun sch => match m (priv sch) with
             | Ok (a, q') => Ok (a, set_priv q' sch)
             | Fault f => Fault f
             end.

(** ** The empty-slot bitmask *)

(** [1 << k] on a 32-bit word; a shift count outside [0, 32) is undefined. *)
Definition shl1 (k : Z) : result Z :=
  if (0 <=? k) && (k <? 32) then Ok (u32 (Z.shiftl 1 k)) else Fault (Bad_shift k).

Definition get_next_empty_flow (q : fq_codel_sched_data) : result Z :=
  if ffs (flow_mask_index q) =? 0 then Ok 0
  else
    let right_most_set_zone := u8 (32 - ffs (flow_mask_index q)) in
    w <-r arr_get OOB_mask (empty_flow_mask q) right_most_set_zone ;;
    Ok (u32 (right_most_set_zone * 32 + (32 - ffs w))).

Definition mark_flow_as_empty (idx : Z) : M fq_codel_sched_data unit :=
  fun q =>
    bz <-r shl1 (32 - (idx ÷ 32 + 1)) ;;
    let q1 := set_flow_mask_index (Z.lor (flow_mask_index q) bz) q in
    w <-r arr_get OOB_mask (empty_flow_mask q1) (idx ÷ 32) ;;
    bi <-r shl1 (32 - (Z.rem idx 32 + 1)) ;;
    m <-r arr_set OOB_mask (empty_flow_mask q1) (idx ÷ 32) (Z.lor w bi) ;;
    Ok (tt, set_empty_flow_mask m q1).

Definition mark_flow_as_non_empty (idx : Z) : M fq_codel_sched_data unit :=
  fun q =>
    w <-r arr_get OOB_mask (empty_flow_mask q) (idx ÷ 32) ;;
    bi <-r shl1 (32 - (Z.rem idx 32 + 1)) ;;
    let w' := Z.land w (not32 bi) in
    m <-r arr_set OOB_mask (empty_flow_mask q) (idx ÷ 32) w' ;;
    let q1 := set_empty_flow_mask m q in
    if w' =? 0 then
      bz <-r shl1 (32 - (idx ÷ 32 + 1)) ;;
      Ok (tt, set_flow_mask_index (Z.land (flow_mask_index q1) (not32 bz)) q1)
    else Ok (tt, q1).

(** ** The two hashes *)

Definition seed_of (q : fq_codel_sched_data) (table_num : Z) : Z :=
  if table_num =? 0 then fst (random_seed q) else snd (random_seed q).

Definition fq_codel_hash (q : fq_codel_sched_data) (skb : sk_buff) : Z :=
  reciprocal_scale (skb_get_hash skb) (flows_cnt q).

Definition fq_codel_hash_modified (q : fq_codel_sched_data) (skb : sk_buff)
    (table_num : Z) : Z :=
  u32 (flows_cnt q * table_num
       + reciprocal_scale (skb_get_hash_perturb skb (seed_of q table_num))
           (flows_cnt q)).

(** ** Cuckoo displacement *)

(** Conversion of an unsigned word to [int]. *)
Definition s32 (x : Z) : Z :=
  if u32 x <? 2 ^ 31 then u32 x else u32 x - 2 ^ 32.

(** What one round of [cuckoo_rehash] does to the bucket it addresses. *)
Inductive ht_event : Type :=
| Place (idx v : Z)      (* hashtable[idx] was 0 and receives v *)
| Swap (idx v old : Z)   (* hashtable[idx] held old and receives v *)
| Wild (idx : Z).        (* idx is outside the table *)

Definition is_swap (e : ht_event) : bool :=
  match e with Swap _ _ _ => true | _ => false end.

Definition is_wild (e : ht_event) : bool :=
  match e with Wild _ => true | _ => false end.

(** The buckets gone through all lie in the table. *)
Definition in_table (tr : list ht_event) : bool :=
  forallb (fun e => negb (is_wild e)) tr.

Definition ev_index (e : ht_event) : Z :=
  match e with Place i _ | Swap i _ _ | Wild i => i end.

(** [temp_index = fq_codel_hash_modified(q, skb, table_num) - 1]. *)
Definition temp_index (q : fq_codel_sched_data) (skb : sk_buff)
    (table_num : Z) : Z :=
  s32 (fq_codel_hash_modified q skb table_num - 1).

(** The test-and-place or swap on [hashtable[temp_index]]; the value left in
    [value_to_insert] after a swap is returned. *)
Definition cuckoo_try (q : fq_codel_sched_data) (skb : sk_buff)
    (table_num value_to_insert : Z)
  : ht_event * result (fq_codel_sched_data * option Z) :=
  let ti := temp_index q skb table_num in
  match arr_get OOB_hashtable (hashtable q) ti with
  | Fault f => (Wild ti, Fault f)
  | Ok old =>
      let q' :=
        set_hashtable (<[Z.to_nat ti := u16 value_to_insert]> (hashtable q)) q in
      if old =? 0 then (Place ti value_to_insert, Ok (q', None))
      else (Swap ti value_to_insert old, Ok (q', Some old))
  end.

(** The three ways out of [cuckoo_rehash]. *)
Inductive rehash_exit : Type :=
| Exit_placed       (* an empty bucket took [value_to_insert] *)
| Exit_exhausted    (* [i] reached [flows_cnt] *)
| Exit_empty_head.  (* the flow displaced last has no packet *)

(** One pass through the body of the [for] loop of [cuckoo_rehash], entered
    with [i < flows_cnt]: the buckets it went through, and either the way
    the function is left or the packet and value the next pass starts
    from. *)
Inductive round_result : Type :=
| Round_done (r : result (rehash_exit * fq_codel_sched_data))
| Round_next (q : fq_codel_sched_data) (skb : sk_buff) (value_to_insert : Z).

Definition rehash_round (q : fq_codel_sched_data) (i : Z) (skb : sk_buff)
    (value_to_insert : Z) : list ht_event * round_result :=
  let (e1, r1) := cuckoo_try q skb 0 value_to_insert in
  match r1 with
  | Fault f => ([e1], Round_done (Fault f))
  | Ok (q1, None) => ([e1], Round_done (Ok (Exit_placed, q1)))
  | Ok (q1, Some v1) =>
    let i1 := i + 1 in
    if i1 >=? flows_cnt q1 then ([e1], Round_done (Ok (Exit_exhausted, q1)))
    else
      match arr_get OOB_flows (flows q1) (v1 - 1) with
      | Fault f => ([e1], Round_done (Fault f))
      | Ok fl1 =>
        match head fl1 with
        | [] => ([e1], Round_done (Ok (Exit_empty_head, q1)))
        | skb1 :: _ =>
          let (e2, r2) := cuckoo_try q1 skb1 1 v1 in
          match r2 with
          | Fault f => ([e1; e2], Round_done (Fault f))
          | Ok (q2, None) => ([e1; e2], Round_done (Ok (Exit_placed, q2)))
          | Ok (q2, Some v2) =>
            match arr_get OOB_flows (flows q2) (v2 - 1) with
            | Fault f => ([e1; e2], Round_done (Fault f))
            | Ok fl2 =>
              match head fl2 with
              | [] => ([e1; e2], Round_done (Ok (Exit_empty_head, q2)))
              | skb2 :: _ => ([e1; e2], Round_next q2 skb2 v2)
              end
            end
          end
        end
      end
  end.

(** The [for] loop of [cuckoo_rehash], one pass per unit of [fuel]; [i] has
    been incremented once inside the pass and once by the loop header when
    the next pass starts. *)
Fixpoint cuckoo_rehash_loop (fuel : nat) (q : fq_codel_sched_data) (i : Z)
    (skb : sk_buff) (value_to_insert : Z)
  : list ht_event * result (rehash_exit * fq_codel_sched_data) :=
  match fuel with
  | O => ([], Fault Out_of_fuel)
  | S fuel' =>
    if negb (i <? flows_cnt q) then ([], Ok (Exit_exhausted, q))
    else
      match rehash_round q i skb value_to_insert with
      | (tr, Round_done r) => (tr, r)
      | (tr, Round_next q2 skb2 v2) =>
        let (tr', r) := cuckoo_rehash_loop fuel' q2 (i + 1 + 1) skb2 v2 in
        (tr ++ tr', r)
      end
  end.

(** Every iteration advances [i] by two, so [flows_cnt + 1] units of fuel are
    never used up ([cuckoo_rehash_loop_fuel]). *)
Definition cuckoo_rehash_trace (q : fq_codel_sched_data) (skb : sk_buff)
    (value_to_insert : Z)
  : list ht_event * result (rehash_exit * fq_codel_sched_data) :=
  cuckoo_rehash_loop (S (Z.to_nat (flows_cnt q))) q 0 skb value_to_insert.

Definition cuckoo_rehash (skb : sk_buff) (value_to_insert : Z)
  : M fq_codel_sched_data unit :=
  fun q =>
    done <-r snd (cuckoo_rehash_trace q skb value_to_insert) ;;
    Ok (tt, snd done).

(** ** Classification *)

Definition ht_read (i : Z) : M fq_codel_sched_data Z :=
  lift (fun q => arr_get OOB_hashtable (hashtable q) i).

Definition ht_write (i v : Z) : M fq_codel_sched_data unit :=
  fun q =>
    ht <-r arr_set OOB_hashtable (hashtable q) i (u16 v) ;;
    Ok (tt, set_hashtable ht q).

Definition flow_head (idx : Z) : M fq_codel_sched_data (list sk_buff) :=
  lift (fun q => fl <-r arr_get OOB_flows (flows q) idx ;; Ok (head fl)).

(** [q->hashtable[h] = get_next_empty_flow(q) + 1; return q->hashtable[h];] *)
Definition install_next_empty (h : Z) : M fq_codel_sched_data Z :=
  e <- lift get_next_empty_flow ;;
  ht_write h (u32 (e + 1)) ;;;
  ht_read h.

(** [flows[idx].head] is not NULL and has the flow hash of [skb]
    ([reuse] is returned), or the packet gets what [otherwise] gives. *)
Definition same_flow_or (skb : sk_buff) (hd : list sk_buff)
    (reuse otherwise : M fq_codel_sched_data Z) : M fq_codel_sched_data Z :=
  match hd with
  | [] => reuse
  | p :: _ => if skb_get_hash p =? skb_get_hash skb then reuse else otherwise
  end.

(** The end of [fq_codel_cuckoo_hash] when both buckets are taken by other
    flows: a new slot is allocated and its value displaced into the
    table. *)
Definition displace (skb : sk_buff) : M fq_codel_sched_data Z :=
  e <- lift get_next_empty_flow ;;
  let value_to_insert := u32 (e + 1) in
  cuckoo_rehash skb (s32 value_to_insert) ;;;
  pure value_to_insert.

(** The value a computation returns, without the state. *)
Definition answer {S A} (r : result (A * S)) : option A :=
  match r with
  | Ok (a, _) => Some a
  | Fault _ => None
  end.

(** The tests of [fq_codel_cuckoo_hash] that lead to [displace]: both
    buckets of [skb] hold a slot, and the head packets of the two slots
    are of other flows. *)
Definition reaches_displace (q : fq_codel_sched_data) (skb : sk_buff)
  : bool :=
  match answer (ht_read (fq_codel_hash_modified q skb 0) q),
        answer (ht_read (fq_codel_hash_modified q skb 1) q) with
  | Some a, Some b =>
    negb (a =? 0) && negb (b =? 0)
    && match answer (flow_head (a - 1) q), answer (flow_head (b - 1) q) with
       | Some (p :: _), Some (p2 :: _) =>
         negb (skb_get_hash p =? skb_get_hash skb)
         && negb (skb_get_hash p2 =? skb_get_hash skb)
       | _, _ => false
       end
  | _, _ => false
  end.

(** The buckets that [displace] goes through when [fq_codel_cuckoo_hash]
    runs it for [skb] in state [q]; none when the packet is classified
    without a displacement. *)
Definition displace_trace (q : fq_codel_sched_data) (skb : sk_buff)
  : list ht_event :=
  if reaches_displace q skb then
    match get_next_empty_flow q with
    | Ok e => fst (cuckoo_rehash_trace q skb (s32 (u32 (e + 1))))
    | Fault _ => []
    end
  else [].

Definition fq_codel_cuckoo_hash (skb : sk_buff) : M fq_codel_sched_data Z :=
  hash1 <- gets (fun q => fq_codel_hash_modified q skb 0) ;;
  hash2 <- gets (fun q => fq_codel_hash_modified q skb 1) ;;
  a <- ht_read hash1 ;;
  b <- ht_read hash2 ;;
  if (a =? 0) && (b =? 0) then install_next_empty hash1
  else if negb (a =? 0) && (b =? 0) then
    hd <- flow_head (a - 1) ;;
    same_flow_or skb hd (ht_read hash1) (install_next_empty hash2)
  else if (a =? 0) && negb (b =? 0) then
    hd <- flow_head (b - 1) ;;
    same_flow_or skb hd (ht_read hash2) (install_next_empty hash1)
  else
    hd <- flow_head (a - 1) ;;
    match hd with
    | [] => ht_read hash1
    | p :: _ =>
      hd2 <- flow_head (b - 1) ;;
      match hd2 with
      | [] => ht_read hash2
      | p2 :: _ =>
        if skb_get_hash p =? skb_get_hash skb then ht_read hash1
        else if skb_get_hash p2 =? skb_get_hash skb then ht_read hash2
        else displace skb
      end
    end.

(** Return codes and classifier verdicts (include/linux/netdevice.h,
    include/net/sch_generic.h, include/uapi/linux/pkt_cls.h). *)
Definition NET_XMIT_SUCCESS : Z := 0.
Definition NET_XMIT_CN : Z := 2.
Definition __NET_XMIT_STOLEN : Z := 0x00010000.
Definition __NET_XMIT_BYPASS : Z := 0x00020000.
Definition TC_ACT_SHOT : Z := 2.
Definition TC_ACT_STOLEN : Z := 4.
Definition TC_ACT_QUEUED : Z := 5.
Definition TC_ACT_TRAP : Z := 8.
Definition EINVAL : Z := 22.

(** [fq_codel_classify(skb, sch, &qerr)]: the class and the value left in
    [qerr], which is [qerr0] when the function does not write it. *)
Definition fq_codel_classify (skb : sk_buff) (qerr0 : Z) : M Qdisc (Z * Z) :=
  fun sch =>
    let q := priv sch in
    let prio := u32 (priority skb) in
    if (TC_H_MAJ prio =? handle sch) && (TC_H_MIN prio >? 0)
       && (TC_H_MIN prio <=? flows_cnt q)
    then Ok ((TC_H_MIN prio, qerr0), sch)
    else
      match filter_list q with
      | None =>
        on_priv (num <- fq_codel_cuckoo_hash skb ;; pure (num, qerr0)) sch
      | Some filter =>
        let qerr := Z.lor NET_XMIT_SUCCESS __NET_XMIT_BYPASS in
        let (result, classid) := filter skb in
        if result >=? 0 then
          if (result =? TC_ACT_STOLEN) || (result =? TC_ACT_QUEUED)
             || (result =? TC_ACT_TRAP)
          then Ok ((0, Z.lor NET_XMIT_SUCCESS __NET_XMIT_STOLEN), sch)
          else if result =? TC_ACT_SHOT then Ok ((0, qerr), sch)
          else if TC_H_MIN classid <=? flows_cnt q
               then Ok ((TC_H_MIN classid, qerr), sch)
               else Ok ((0, qerr), sch)
        else Ok ((0, qerr), sch)
      end.

(** ** Per-flow queues *)

Definition flow_read (idx : Z) : M fq_codel_sched_data fq_codel_flow :=
  lift (fun q => arr_get OOB_flows (flows q) idx).

Definition flow_write (idx : Z) (fl : fq_codel_flow)
  : M fq_codel_sched_data unit :=
  fun q =>
    fs <-r arr_set OOB_flows (flows q) idx fl ;;
    Ok (tt, set_flows fs q).

Definition backlog_read (idx : Z) : M fq_codel_sched_data Z :=
  lift (fun q => arr_get OOB_backlogs (backlogs q) idx).

Definition backlog_write (idx v : Z) : M fq_codel_sched_data unit :=
  fun q =>
    bs <-r arr_set OOB_backlogs (backlogs q) idx v ;;
    Ok (tt, set_backlogs bs q).

(** [dequeue_head(flow)]: the head packet and the flow without it. *)
Definition dequeue_head (fl : fq_codel_flow)
  : result (sk_buff * fq_codel_flow) :=
  match head fl with
  | [] => Fault NULL_skb
  | skb :: rest => Ok (skb, mk_flow rest (deficit fl) (dropped fl))
  end.

(** [flow_queue_add(flow, skb)]. *)
Definition flow_queue_add (fl : fq_codel_flow) (skb : sk_buff)
  : fq_codel_flow :=
  mk_flow (head fl ++ [skb]) (deficit fl) (dropped fl).

(** [list_empty(&flow->flowchain)]: the flow is on neither list. *)
Definition in_list (idx : Z) (l : list Z) : bool := existsb (Z.eqb idx) l.
Definition flowchain_empty (q : fq_codel_sched_data) (idx : Z) : bool :=
  negb (in_list idx (new_flows q) || in_list idx (old_flows q)).

(** ** Fat-flow drop *)

(** The scan of [backlogs[0 .. flows_cnt)], from [i] on. *)
Fixpoint fat_flow_scan (n : nat) (q : fq_codel_sched_data)
    (i maxbacklog idx : Z) : result (Z * Z) :=
  match n with
  | O => Ok (maxbacklog, idx)
  | S n' =>
    b <-r arr_get OOB_backlogs (backlogs q) i ;;
    if b >? maxbacklog then fat_flow_scan n' q (i + 1) b i
    else fat_flow_scan n' q (i + 1) maxbacklog idx
  end.

(** The [do ... while (++i < max_packets && len < threshold)] loop on the
    queue of the fat flow: what is left of the queue, the packets handed to
    [to_free], and the final [i], [len] and [mem]. *)
Fixpoint drop_loop (queue : list sk_buff) (max_packets threshold : Z)
    (i len mem : Z) : result (list sk_buff * list sk_buff * (Z * Z * Z)) :=
  match queue with
  | [] => Fault NULL_skb
  | skb :: rest =>
    let len := u32 (len + qdisc_pkt_len skb) in
    let mem := u32 (mem + mem_usage skb) in
    let i := u32 (i + 1) in
    if (i <? max_packets) && (len <? threshold) then
      r <-r drop_loop rest max_packets threshold i len mem ;;
      let '(rest', freed, cnt) := r in
      Ok (rest', skb :: freed, cnt)
    else Ok (rest, [skb], (i, len, mem))
  end.

(** [fq_codel_drop(sch, max_packets, to_free)]: the index of the fat flow and
    the packets put on [to_free]. *)
Definition fq_codel_drop (max_packets : Z) : M Qdisc (Z * list sk_buff) :=
  fun sch =>
    let q := priv sch in
    scan <-r fat_flow_scan (Z.to_nat (flows_cnt q)) q 0 0 0 ;;
    let '(maxbacklog, idx) := scan in
    let threshold := Z.shiftr maxbacklog 1 in
    flow <-r arr_get OOB_flows (flows q) idx ;;
    dropped_now <-r drop_loop (head flow) max_packets threshold 0 0 0 ;;
    let '(rest, freed, (i, len, mem)) := dropped_now in
    let flow' := mk_flow rest (deficit flow) (u32 (dropped flow + i)) in
    fs <-r arr_set OOB_flows (flows q) idx flow' ;;
    let q1 := set_flows fs q in
    b <-r arr_get OOB_backlogs (backlogs q1) idx ;;
    bs <-r arr_set OOB_backlogs (backlogs q1) idx (u32 (b - len)) ;;
    let q2 := set_backlogs bs q1 in
    let q3 := set_memory_usage (u32 (memory_usage q2 - mem)) q2 in
    Ok ((idx, freed),
        set_priv q3
          (set_qlen (u32 (qlen sch - i))
             (set_qstats_backlog (u32 (qstats_backlog sch - len))
                (set_qstats_drops (u32 (qstats_drops sch + i)) sch)))).

(** ** Enqueue *)

Definition sch_gets {A} (f : Qdisc -> A) : M Qdisc A := gets f.
Definition sch_modify (f : Qdisc -> Qdisc) : M Qdisc unit := modify f.
Definition q_modify (f : fq_codel_sched_data -> fq_codel_sched_data)
  : M Qdisc unit :=
  on_priv (modify f).

(** [fq_codel_enqueue(skb, sch, to_free)]: the return code and the packets
    put on [to_free]. [ret0] is the indeterminate initial value of [ret]. *)
Definition fq_codel_enqueue (skb : sk_buff) (ret0 : Z)
  : M Qdisc (Z * list sk_buff) :=
  cls <- fq_codel_classify skb ret0 ;;
  let (idx, ret) := cls in
  if idx =? 0 then
    (if negb (Z.land ret __NET_XMIT_BYPASS =? 0)
     then sch_modify (fun sch => set_qstats_drops (u32 (qstats_drops sch + 1)) sch)
     else pure tt) ;;;
    pure (ret, [skb])
  else
    let idx := u32 (idx - 1) in
    flow <- on_priv (flow_read idx) ;;
    on_priv (flow_write idx (flow_queue_add flow skb)) ;;;
    b <- on_priv (backlog_read idx) ;;
    on_priv (backlog_write idx (u32 (b + qdisc_pkt_len skb))) ;;;
    sch_modify (fun sch =>
      set_qstats_backlog (u32 (qstats_backlog sch + qdisc_pkt_len skb)) sch) ;;;
    on_priv (mark_flow_as_non_empty (s32 idx)) ;;;
    unlinked <- on_priv (gets (fun q => flowchain_empty q idx)) ;;
    (if unlinked : bool then
       flow <- on_priv (flow_read idx) ;;
       quantum <- on_priv (gets quantum) ;;
       q_modify (fun q =>
         set_new_flows (new_flows q ++ [idx])
           (set_new_flow_count (u32 (new_flow_count q + 1)) q)) ;;;
       on_priv (flow_write idx (mk_flow (head flow) (s32 quantum) 0))
     else pure tt) ;;;
    q_modify (fun q => set_memory_usage (u32 (memory_usage q + mem_usage skb)) q) ;;;
    memory_limited <- on_priv (gets (fun q => memory_usage q >? memory_limit q)) ;;
    sch_modify (fun sch => set_qlen (u32 (qlen sch + 1)) sch) ;;;
    within <- sch_gets (fun sch => qlen sch <=? limit sch) ;;
    if (within : bool) && negb memory_limited then pure (NET_XMIT_SUCCESS, [])
    else
      prev_backlog <- sch_gets qstats_backlog ;;
      prev_qlen <- sch_gets qlen ;;
      drop_batch_size <- on_priv (gets drop_batch_size) ;;
      fat <- fq_codel_drop drop_batch_size ;;
      let (ret, to_free) := fat in
      now_qlen <- sch_gets qlen ;;
      let prev_qlen := u32 (prev_qlen - now_qlen) in
      q_modify (fun q => set_drop_overlimit (u32 (drop_overlimit q + prev_qlen)) q) ;;;
      (if memory_limited : bool then
         q_modify (fun q =>
           set_drop_overmemory (u32 (drop_overmemory q + prev_qlen)) q)
       else pure tt) ;;;
      if ret =? idx then pure (NET_XMIT_CN, to_free)
      else pure (NET_XMIT_SUCCESS, to_free).

(** ** Dequeue *)

(** [dequeue_func(vars, ctx)] for the flow at index [idx]. *)
Definition dequeue_func (idx : Z) : M Qdisc (option sk_buff) :=
  flow <- on_priv (flow_read idx) ;;
  match head flow with
  | [] => pure None
  | skb :: rest =>
    on_priv (flow_write idx (mk_flow rest (deficit flow) (dropped flow))) ;;;
    b <- on_priv (backlog_read idx) ;;
    on_priv (backlog_write idx (u32 (b - qdisc_pkt_len skb))) ;;;
    q_modify (fun q => set_memory_usage (u32 (memory_usage q - mem_usage skb)) q) ;;;
    sch_modify (fun sch =>
      set_qlen (u32 (qlen sch - 1))
        (set_qstats_backlog (u32 (qstats_backlog sch - qdisc_pkt_len skb)) sch)) ;;;
    pure (Some skb)
  end.

(** [drop_func(skb, ctx)] together with CoDel's accounting of the drop in
    [stats->drop_len] and [stats->drop_count]. *)
Definition codel_drop (skb : sk_buff) : M Qdisc unit :=
  q_modify (fun q =>
    set_cstats (mk_cstats (u32 (drop_count (cstats q) + 1))
                  (u32 (drop_len (cstats q) + qdisc_pkt_len skb))
                  (ecn_mark (cstats q))) q) ;;;
  sch_modify (fun sch => set_qstats_drops (u32 (qstats_drops sch + 1)) sch).

(** [codel_dequeue] of include/net/codel_impl.h is outside this file. It
    takes packets from the flow through [dequeue_func], hands the ones its
    control law condemns to [drop_func], and returns the first packet it
    keeps, or NULL as soon as [dequeue_func] finds the flow empty. How many
    packets the control law condemns is the argument [ndrop]; ECN marking,
    which leaves the queues alone, is left out. *)
Fixpoint codel_dequeue (ndrop : nat) (idx : Z) : M Qdisc (option sk_buff) :=
  match ndrop with
  | O => dequeue_func idx
  | S n =>
    skb <- dequeue_func idx ;;
    match skb with
    | None => pure None
    | Some p => codel_drop p ;;; codel_dequeue n idx
    end
  end.

(** CoDel's decisions: the number of head packets it drops when asked to
    dequeue from flow [idx] in state [sch]. *)
Definition codel_law : Type := Qdisc -> Z -> nat.

(** [list_move_tail(&flow->flowchain, &q->old_flows)] and
    [list_del_init(&flow->flowchain)] for the flow at the head of the list
    it was picked from. *)
Definition move_head_to_old (from_new : bool) (idx : Z)
    (q : fq_codel_sched_data) : fq_codel_sched_data :=
  if from_new
  then set_old_flows (old_flows q ++ [idx]) (set_new_flows (tail (new_flows q)) q)
  else set_old_flows (tail (old_flows q) ++ [idx]) q.

Definition del_head (from_new : bool) (q : fq_codel_sched_data)
  : fq_codel_sched_data :=
  if from_new then set_new_flows (tail (new_flows q)) q
  else set_old_flows (tail (old_flows q)) q.

(** The flow [fq_codel_dequeue] serves next: the first entry of [new_flows],
    else of [old_flows]. *)
Definition pick_flow (q : fq_codel_sched_data) : option (bool * Z) :=
  match new_flows q with
  | idx :: _ => Some (true, idx)
  | [] =>
    match old_flows q with
    | idx :: _ => Some (false, idx)
    | [] => None
    end
  end.

(** The tail of [fq_codel_dequeue], run when the served flow has no packet
    left: the slot is marked empty and the two buckets of the packet just
    dequeued are cleared when they hold the slot. *)
Definition release_flow (empty_id : Z) (skb : sk_buff)
  : M fq_codel_sched_data unit :=
  mark_flow_as_empty empty_id ;;;
  h1 <- gets (fun q => s32 (fq_codel_hash_modified q skb 0)) ;;
  h2 <- gets (fun q => s32 (fq_codel_hash_modified q skb 1)) ;;
  t1 <- ht_read h1 ;;
  (if t1 =? empty_id + 1 then ht_write h1 0 else pure tt) ;;;
  t2 <- ht_read h2 ;;
  (if t2 =? empty_id + 1 then ht_write h2 0 else pure tt).

(** The end of [fq_codel_dequeue] once CoDel has handed over the packet
    [skb] of the flow at [idx]: the deficit is charged, the deferred drop
    statistics are flushed, and a flow left without packets is released. *)
Definition deliver (idx : Z) (skb : sk_buff) : M Qdisc (option sk_buff) :=
  flow <- on_priv (flow_read idx) ;;
  on_priv (flow_write idx
    (mk_flow (head flow) (s32 (deficit flow - qdisc_pkt_len skb))
       (dropped flow))) ;;;
  dc <- on_priv (gets (fun q => drop_count (cstats q))) ;;
  ql <- sch_gets qlen ;;
  (if negb (dc =? 0) && negb (ql =? 0)
   then q_modify (fun q => set_cstats (mk_cstats 0 0 (ecn_mark (cstats q))) q)
   else pure tt) ;;;
  (match head flow with
   | [] => on_priv (release_flow (s32 idx) skb)
   | _ :: _ => pure tt
   end) ;;;
  pure (Some skb).

(** [fq_codel_dequeue(sch)]; each [goto begin] takes one unit of [fuel]. *)
Fixpoint fq_codel_dequeue (codel : codel_law) (fuel : nat)
  : M Qdisc (option sk_buff) :=
  match fuel with
  | O => throw Out_of_fuel
  | S fuel' =>
    picked <- on_priv (gets pick_flow) ;;
    match picked with
    | None => pure None
    | Some (from_new, idx) =>
      flow <- on_priv (flow_read idx) ;;
      if deficit flow <=? 0 then
        quantum <- on_priv (gets quantum) ;;
        on_priv (flow_write idx
          (mk_flow (head flow) (s32 (deficit flow + quantum)) (dropped flow))) ;;;
        q_modify (move_head_to_old from_new idx) ;;;
        fq_codel_dequeue codel fuel'
      else
        prev_drop_count <- on_priv (gets (fun q => drop_count (cstats q))) ;;
        prev_ecn_mark <- on_priv (gets (fun q => ecn_mark (cstats q))) ;;
        ndrop <- sch_gets (fun sch => codel sch idx) ;;
        skb <- codel_dequeue ndrop idx ;;
        now_drop_count <- on_priv (gets (fun q => drop_count (cstats q))) ;;
        now_ecn_mark <- on_priv (gets (fun q => ecn_mark (cstats q))) ;;
        flow <- on_priv (flow_read idx) ;;
        on_priv (flow_write idx
          (mk_flow (head flow) (deficit flow)
             (u32 (u32 (dropped flow + (now_drop_count - prev_drop_count))
                   + (now_ecn_mark - prev_ecn_mark))))) ;;;
        match skb with
        | None =>
          some_old <- on_priv (gets (fun q =>
            match old_flows q with [] => false | _ => true end)) ;;
          (if from_new && some_old
           then q_modify (move_head_to_old from_new idx)
           else q_modify (del_head from_new)) ;;;
          fq_codel_dequeue codel fuel'
        | Some p => deliver idx p
        end
    end
  end.

(** ** Reset *)

Definition fq_codel_flow_purge (flow : fq_codel_flow) : fq_codel_flow :=
  mk_flow [] (deficit flow) (dropped flow).

(** [fq_codel_reset(sch)]. The arrays have [flows_cnt], [2 * flows_cnt] and
    32 entries. *)
Definition fq_codel_reset (sch : Qdisc) : Qdisc :=
  let q := priv sch in
  let n := Z.to_nat (flows_cnt q) in
  let q1 := set_old_flows [] (set_new_flows [] q) in
  let q2 := set_flows (map fq_codel_flow_purge (flows q1)) q1 in
  let q3 := set_backlogs (repeat 0 n) q2 in
  let q4 := set_hashtable (repeat 0 (2 * n)%nat) q3 in
  let q5 := set_empty_flow_mask (memset_u32 1 32) q4 in
  let q6 := set_flow_mask_index (memset_word 1) q5 in
  set_priv (set_memory_usage 0 q6) (set_qstats_backlog 0 (set_qlen 0 sch)).

(** ** Configuration *)

(** The attributes of a netlink request that touch the state modelled here
    (the CoDel parameters [TARGET], [INTERVAL], [CE_THRESHOLD] and [ECN] are
    left out with [cparams]). *)
Record fq_codel_opts : Type := mk_opts {
  TCA_FQ_CODEL_LIMIT : option Z;
  TCA_FQ_CODEL_FLOWS : option Z;
  TCA_FQ_CODEL_QUANTUM : option Z;
  TCA_FQ_CODEL_DROP_BATCH_SIZE : option Z;
  TCA_FQ_CODEL_MEMORY_LIMIT : option Z;
}.

Definition nla_get_u32 (v : Z) : Z := u32 v.

(** The assignments of [fq_codel_change] made under the tree lock. *)
Definition apply_opts (tb : fq_codel_opts) (sch : Qdisc) : Qdisc :=
  let sch1 :=
    match TCA_FQ_CODEL_LIMIT tb with
    | Some v => set_limit (nla_get_u32 v) sch
    | None => sch
    end in
  let q := priv sch1 in
  let q1 :=
    match TCA_FQ_CODEL_QUANTUM tb with
    | Some v => set_quantum (max_u 256 (nla_get_u32 v)) q
    | None => q
    end in
  let q2 :=
    match TCA_FQ_CODEL_DROP_BATCH_SIZE tb with
    | Some v => set_drop_batch_size (min_u 1 (nla_get_u32 v)) q1
    | None => q1
    end in
  let q3 :=
    match TCA_FQ_CODEL_MEMORY_LIMIT tb with
    | Some v => set_memory_limit (min_u (u32 (Z.shiftl 1 31)) (nla_get_u32 v)) q2
    | None => q2
    end in
  set_priv q3 sch1.

(** The [while] loop of [fq_codel_change] that dequeues until the new limits
    hold; [dq_fuel] bounds each [fq_codel_dequeue]. *)
Fixpoint change_trim (codel : codel_law) (dq_fuel fuel : nat) : M Qdisc unit :=
  match fuel with
  | O => throw Out_of_fuel
  | S fuel' =>
    over <- sch_gets (fun sch =>
      (qlen sch >? limit sch)
      || (memory_usage (priv sch) >? memory_limit (priv sch))) ;;
    if over : bool then
      skb <- fq_codel_dequeue codel dq_fuel ;;
      match skb with
      | None => throw NULL_skb
      | Some p =>
        q_modify (fun q =>
          set_cstats (mk_cstats (u32 (drop_count (cstats q) + 1))
                        (u32 (drop_len (cstats q) + qdisc_pkt_len p))
                        (ecn_mark (cstats q))) q) ;;;
        change_trim codel dq_fuel fuel'
      end
    else pure tt
  end.

(** [fq_codel_change(sch, opt, extack)]: 0 or a negative error code. A NULL
    [q->flows] is the empty list: an allocated table has at least one flow. *)
Definition fq_codel_change (codel : codel_law) (dq_fuel fuel : nat)
    (opt : option fq_codel_opts) : M Qdisc Z :=
  match opt with
  | None => pure (- EINVAL)
  | Some tb =>
    allocated <- on_priv (gets (fun q =>
      match flows q with [] => false | _ => true end)) ;;
    let rest : M Qdisc Z :=
      sch_modify (apply_opts tb) ;;;
      change_trim codel dq_fuel fuel ;;;
      q_modify (fun q => set_cstats (mk_cstats 0 0 (ecn_mark (cstats q))) q) ;;;
      pure 0 in
    match TCA_FQ_CODEL_FLOWS tb with
    | Some n =>
      if allocated : bool then pure (- EINVAL)
      else
        q_modify (set_flows_cnt (nla_get_u32 n)) ;;;
        if (nla_get_u32 n =? 0) || (nla_get_u32 n >? 65536)
        then pure (- EINVAL)
        else rest
    | None => rest
    end
  end.

(** ** Initialisation *)

(** The zeroed [struct Qdisc] that [qdisc_alloc] hands to [fq_codel_init]. *)
Definition qdisc_alloc (handle : Z) : Qdisc :=
  mk_sch handle 0 0 0 0
    (mk_q None [] (0, 0) [] 0 [] [] 0 0 0 0 (mk_cstats 0 0 0) 0 0 0 0 [] []).

(** [fq_codel_init(sch, opt, extack)]. [mtu] is [psched_mtu(qdisc_dev(sch))],
    [seed0] and [seed1] are the two results of [get_random_u32()];
    allocations and [tcf_block_get] succeed. *)
Definition fq_codel_init (codel : codel_law) (dq_fuel fuel : nat)
    (mtu seed0 seed1 : Z) (opt : option fq_codel_opts) : M Qdisc Z :=
  sch_modify (set_limit (10 * 1024)) ;;;
  q_modify (fun q =>
    set_old_flows [] (set_new_flows []
      (set_quantum (u32 mtu) (set_drop_batch_size 64
        (set_memory_limit (Z.shiftl 32 20) (set_flows_cnt 1024 q)))))) ;;;
  err <- match opt with
         | Some _ => fq_codel_change codel dq_fuel fuel opt
         | None => pure 0
         end ;;
  if negb (err =? 0) then
    q_modify (set_flows_cnt 0) ;;; pure err
  else
    allocated <- on_priv (gets (fun q =>
      match flows q with [] => false | _ => true end)) ;;
    (if allocated : bool then pure tt
     else
       q_modify (fun q =>
         let n := Z.to_nat (flows_cnt q) in
         set_flow_mask_index (memset_word 1)
           (set_empty_flow_mask (memset_u32 1 32)
             (set_random_seed (u32 seed0, u32 seed1)
               (set_hashtable (repeat 0 (2 * n)%nat)
                 (set_backlogs (repeat 0 n)
                   (set_flows (repeat empty_flow n) q))))))) ;;;
    pure 0.

(** A scheduler as [tc qdisc add ... fq_codel flows n] leaves it, with no
    external filter. *)
Definition no_drop : codel_law := fun _ _ => O.

Definition fresh_qdisc (handle n mtu seed0 seed1 : Z) : result (Z * Qdisc) :=
  fq_codel_init no_drop 0 1 mtu seed0 seed1
    (Some (mk_opts None (Some n) None None None)) (qdisc_alloc handle).

(** The scheduler with the default 1024 flows. *)
Definition default_qdisc (handle mtu seed0 seed1 : Z) : result (Z * Qdisc) :=
  fq_codel_init no_drop 0 1 mtu seed0 seed1 None (qdisc_alloc handle).

(** * Invariants *)

(** The bit of slot [idx] in its word of [empty_flow_mask], and the bit of
    zone [g] in [flow_mask_index]: both count from the most significant
    end, as [mark_flow_as_empty] shifts them. *)
Definition slot_bit (idx : Z) : Z := 32 - (idx mod 32 + 1).
Definition zone_bit (g : Z) : Z := 32 - (g + 1).

Definition slot_marked_empty (q : fq_codel_sched_data) (idx : Z) : bool :=
  match empty_flow_mask q !! Z.to_nat (idx / 32) with
  | Some w => Z.testbit w (slot_bit idx)
  | None => false
  end.

Definition zone_marked (q : fq_codel_sched_data) (g : Z) : bool :=
  Z.testbit (flow_mask_index q) (zone_bit g).

(** The bitmask is 32 words of 32 bits next to a 32-bit index. *)
Definition mask_wf (q : fq_codel_sched_data) : Prop :=
  length (empty_flow_mask q) = 32%nat
  /\ 0 <= flow_mask_index q < 2 ^ 32
  /\ Forall (fun w => 0 <= w < 2 ^ 32) (empty_flow_mask q).

(** A zone marked in the index has a non-zero word. *)
Definition mask_index_sound (q : fq_codel_sched_data) : Prop :=
  forall g w, 0 <= g < 32 -> empty_flow_mask q !! Z.to_nat g = Some w ->
    zone_marked q g = true -> w <> 0.

(** A zone is marked in the index exactly when its word is non-zero. *)
Definition mask_index_exact (q : fq_codel_sched_data) : Prop :=
  forall g w, 0 <= g < 32 -> empty_flow_mask q !! Z.to_nat g = Some w ->
    (zone_marked q g = true <-> w <> 0).

(** * Example states and packets *)

(** A packet of 100 bytes: [k0] and [k1] are its keyed hashes under the
    seeds 11 and 22 that the example schedulers are initialised with. *)
Definition example_skb (hash k0 k1 prio : Z) : sk_buff :=
  mk_skb hash (fun seed => if seed =? 11 then k0 else k1) 100 256 prio.

Definition state_of (r : result (Z * Qdisc)) : Qdisc :=
  match r with
  | Ok (_, sch) => sch
  | Fault _ => qdisc_alloc 0
  end.

(** [handle 1:], the default 1024 flows, MTU 1500. *)
Definition sch_1024 : Qdisc := state_of (default_qdisc 0x10000 1500 11 22).

(** The same with [flows 4]. *)
Definition sch_4 : Qdisc := state_of (fresh_qdisc 0x10000 4 1500 11 22).

(** Marking a list of slots occupied, one after the other. *)
Fixpoint occupy (slots : list Z) (q : fq_codel_sched_data)
  : fq_codel_sched_data :=
  match slots with
  | [] => q
  | idx :: rest =>
    match mark_flow_as_non_empty idx q with
    | Ok (_, q') => occupy rest q'
    | Fault _ => q
    end
  end.

(** All 1024 slots taken. *)
Definition q_full : fq_codel_sched_data :=
  occupy (map Z.of_nat (seq 0 1024)) (priv sch_1024).

(** [q_full] after slot 0 is released. *)
Definition q_slot0 : fq_codel_sched_data :=
  match mark_flow_as_empty 0 q_full with
  | Ok (_, q') => q'
  | Fault _ => q_full
  end.

(** Enqueueing a list of packets in order. *)
Fixpoint enqueue_all (skbs : list sk_buff) : M Qdisc unit :=
  match skbs with
  | [] => pure tt
  | skb :: rest => fq_codel_enqueue skb 0 ;;; enqueue_all rest
  end.

Definition after_enqueues (skbs : list sk_buff) (sch : Qdisc) : Qdisc :=
  match enqueue_all skbs sch with
  | Ok (_, sch') => sch'
  | Fault _ => sch
  end.

(** With 1024 flows the keyed hash [b * 2 ^ 22] scales to bucket [b]. *)
Definition key_of_bucket (b : Z) : Z := b * 2 ^ 22.

(** Three packets of three flows that hash to bucket 0 of both tables. *)
Definition skb_a : sk_buff := example_skb 1 0 0 0.
Definition skb_b : sk_buff := example_skb 2 0 0 0.
Definition skb_c : sk_buff := example_skb 3 0 0 0.

(** [sch_1024] with [skb_a] and [skb_b] queued: buckets 0 and 1024 are
    taken by two live flows. *)
Definition sch_ab : Qdisc := after_enqueues [skb_a; skb_b] sch_1024.

(** The number of swaps among the buckets gone through. *)
Definition swaps (tr : list ht_event) : nat := length (List.filter is_swap tr).

(** The whole state but the hashtable is as in [q]. *)
Definition only_hashtable_changed (q q' : fq_codel_sched_data) : Prop :=
  q' = set_hashtable (hashtable q') q
  /\ length (hashtable q') = length (hashtable q).

(** The arrays have the sizes [fq_codel_init] gives them, and the buckets
    hold 0 or one plus a slot the bitmask covers. *)
Definition table_wf (q : fq_codel_sched_data) : Prop :=
  length (hashtable q) = Z.to_nat (2 * flows_cnt q)
  /\ length (flows q) = Z.to_nat (flows_cnt q)
  /\ Forall (fun v => 0 <= v <= 1024) (hashtable q).

Definition classifier_wf (q : fq_codel_sched_data) : Prop :=
  1024 <= flows_cnt q <= 65536
  /\ table_wf q /\ mask_wf q /\ mask_index_sound q.

(** The bucket gone through last holds what was written to it. *)
Definition last_written (tr : list ht_event) (q' : fq_codel_sched_data)
  : Prop :=
  match last tr with
  | Some (Place i w) | Some (Swap i w _) =>
    0 <= i /\ hashtable q' !! Z.to_nat i = Some (u16 w)
  | Some (Wild _) => False
  | None => True
  end.

(** A packet of flow [hash] with first-table bucket [b0] and second-table
    bucket [1024 + b1]. *)
Definition skb_at (hash b0 b1 : Z) : sk_buff :=
  example_skb hash (key_of_bucket b0) (key_of_bucket b1) 0.

(** A packet that hashes to bucket 5 of the first table. *)
Definition skb_d : sk_buff := skb_at 4 5 0.

(** Five live flows whose buckets chain into each other, and a packet of a
    sixth flow that finds both its buckets taken. *)
Definition skb_x : sk_buff := skb_at 10 0 5.
Definition skb_z : sk_buff := skb_at 11 2 7.
Definition skb_y : sk_buff := skb_at 12 2 4.
Definition skb_w : sk_buff := skb_at 13 1 9.
Definition skb_v : sk_buff := skb_at 14 1 8.
Definition skb_n : sk_buff := skb_at 15 1 8.

Definition sch_chain : Qdisc :=
  after_enqueues [skb_x; skb_z; skb_y; skb_w; skb_v] sch_1024.

(** Executable forms of the invariants, for concrete states. *)
Definition table_wfb (q : fq_codel_sched_data) : bool :=
  (length (hashtable q) =? Z.to_nat (2 * flows_cnt q))%nat
  && (length (flows q) =? Z.to_nat (flows_cnt q))%nat
  && forallb (fun v => (0 <=? v) && (v <=? 1024)) (hashtable q).

Definition mask_wfb (q : fq_codel_sched_data) : bool :=
  (length (empty_flow_mask q) =? 32)%nat
  && (0 <=? flow_mask_index q) && (flow_mask_index q <? 2 ^ 32)
  && forallb (fun w => (0 <=? w) && (w <? 2 ^ 32)) (empty_flow_mask q).

Definition mask_index_soundb (q : fq_codel_sched_data) : bool :=
  forallb
    (fun g =>
       match empty_flow_mask q !! g with
       | Some w => implb (zone_marked q (Z.of_nat g)) (negb (w =? 0))
       | None => true
       end)
    (seq 0 32).

Definition classifier_wfb (q : fq_codel_sched_data) : bool :=
  (1024 <=? flows_cnt q) && (flows_cnt q <=? 65536)
  && table_wfb q && mask_wfb q && mask_index_soundb q.

(** * Accounting *)

(** Bytes and memory held by a list of packets. *)
Definition bytes (l : list sk_buff) : Z :=
  fold_right (fun p acc => qdisc_pkt_len p + acc) 0 l.
Definition mem_bytes (l : list sk_buff) : Z :=
  fold_right (fun p acc => mem_usage p + acc) 0 l.

(** [backlogs[i]] is the byte count of the queue of flow [i], a 32-bit
    number, and a queue has fewer than 2^32 packets. *)
Definition backlogs_wf (q : fq_codel_sched_data) : Prop :=
  length (backlogs q) = Z.to_nat (flows_cnt q)
  /\ length (flows q) = Z.to_nat (flows_cnt q)
  /\ forall i fl b, flows q !! i = Some fl -> backlogs q !! i = Some b ->
       b = bytes (head fl) /\ b < 2 ^ 32
       /\ Z.of_nat (length (head fl)) < 2 ^ 32.

(** [idx] is the first slot whose backlog is the largest, [maxbacklog];
    slot 0 when every backlog is zero. *)
Definition is_fat_flow (q : fq_codel_sched_data) (idx maxbacklog : Z) : Prop :=
  (forall j b, backlogs q !! j = Some b -> b <= maxbacklog)
  /\ ((maxbacklog = 0 /\ idx = 0)
      \/ (0 < maxbacklog
          /\ backlogs q !! Z.to_nat idx = Some maxbacklog
          /\ 0 <= idx < flows_cnt q
          /\ forall j b, (j < Z.to_nat idx)%nat ->
               backlogs q !! j = Some b -> b < maxbacklog)).

Definition backlogs_wfb (q : fq_codel_sched_data) : bool :=
  (length (backlogs q) =? Z.to_nat (flows_cnt q))%nat
  && (length (flows q) =? Z.to_nat (flows_cnt q))%nat
  && forallb
       (fun fb : fq_codel_flow * Z =>
          (snd fb =? bytes (head (fst fb))) && (snd fb <? 2 ^ 32)
          && (Z.of_nat (length (head (fst fb))) <? 2 ^ 32))
       (zip (flows q) (backlogs q)).

(** Nine packets of one flow and two of another on a scheduler limited to
    ten packets: what ten of them leave, and the eleventh. *)
Definition skb_fat : sk_buff := skb_at 30 1 5.
Definition skb_thin : sk_buff := skb_at 31 3 6.

Definition sch_limit_10 : Qdisc :=
  state_of
    (fq_codel_change no_drop 1 1
       (Some (mk_opts (Some 10) None None None None)) sch_1024).

Definition sch_fat : Qdisc :=
  after_enqueues (repeat skb_fat 9 ++ [skb_thin]) sch_limit_10.

(** Dequeueing [n] times with a CoDel that drops nothing: the packets
    returned and the state left. *)
Fixpoint dequeue_n (n : nat) (sch : Qdisc) : list (option sk_buff) * Qdisc :=
  match n with
  | O => ([], sch)
  | S n' =>
    match fq_codel_dequeue no_drop 4 sch with
    | Ok (skb, sch') =>
      let (out, sch'') := dequeue_n n' sch' in (skb :: out, sch'')
    | Fault _ => ([], sch)
    end
  end.

(** A packet classified by the hashtable into slot 1023, and a packet sent
    to the same slot by its priority [1:400] (minor number 1024). *)
Definition skb_first : sk_buff := skb_at 40 3 4.
Definition skb_prio : sk_buff :=
  mk_skb 41 (fun _ => key_of_bucket 7) 100 256 0x10400.

Definition sch_shared : Qdisc := after_enqueues [skb_first; skb_prio] sch_1024.

(** The scheduling lists are the same in both states. *)
Definition same_lists (sch sch' : Qdisc) : Prop :=
  new_flows (priv sch') = new_flows (priv sch)
  /\ old_flows (priv sch') = old_flows (priv sch).

(** Counting the swaps of an explicit list of events. *)
Ltac count_swaps :=
  unfold swaps; cbn [List.filter is_swap length]; lia.

(** The two states agree on everything the classifier's invariant reads. *)
Definition same_tables (q q' : fq_codel_sched_data) : Prop :=
  flows_cnt q' = flows_cnt q
  /\ hashtable q' = hashtable q
  /\ empty_flow_mask q' = empty_flow_mask q
  /\ flow_mask_index q' = flow_mask_index q
  /\ length (flows q') = length (flows q).

(** The states of the scheduler: what [fq_codel_init] leaves of the qdisc
    that [qdisc_alloc] hands to it when it returns 0, whatever the option
    block, and what the operations make of such a state when they return:
    the attachment or removal of an external filter, [fq_codel_enqueue],
    [fq_codel_dequeue], [fq_codel_reset] and [fq_codel_change]. *)
Inductive reachable : Qdisc -> Prop :=
| reach_init codel dq_fuel fuel mtu seed0 seed1 opt handle sch :
    fq_codel_init codel dq_fuel fuel mtu seed0 seed1 opt (qdisc_alloc handle)
    = Ok (0, sch) ->
    reachable sch
| reach_filter sch filter :
    reachable sch ->
    reachable (set_priv (set_filter_list filter (priv sch)) sch)
| reach_enqueue sch skb ret0 r sch' :
    reachable sch -> fq_codel_enqueue skb ret0 sch = Ok (r, sch') ->
    reachable sch'
| reach_dequeue codel fuel sch r sch' :
    reachable sch -> fq_codel_dequeue codel fuel sch = Ok (r, sch') ->
    reachable sch'
| reach_reset sch :
    reachable sch -> reachable (fq_codel_reset sch)
| reach_change codel dq_fuel fuel opt sch r sch' :
    reachable sch ->
    fq_codel_change codel dq_fuel fuel opt sch = Ok (r, sch') ->
    reachable sch'.

(** A computation keeps an invariant of the state: whenever it returns, the
    invariant holds again. *)
Definition preserves {S A} (I : S -> Prop) (m : M S A) : Prop :=
  forall s a s', I s -> m s = Ok (a, s') -> I s'.

(** The classifier's invariant as an invariant of the qdisc. *)
Definition sch_wf (sch : Qdisc) : Prop := classifier_wf (priv sch).

(** The decidable form of [mask_index_exact]. *)
Definition mask_index_exactb (q : fq_codel_sched_data) : bool :=
  forallb
    (fun g =>
       match empty_flow_mask q !! g with
       | Some w => Bool.eqb (zone_marked q (Z.of_nat g)) (negb (w =? 0))
       | None => true
       end)
    (seq 0 32).

(** [q_full] after the slots 0 and 700 are released. *)
Definition q_two_free : fq_codel_sched_data :=
  match mark_flow_as_empty 700 q_slot0 with
  | Ok (_, q') => q'
  | Fault _ => q_slot0
  end.

(** [sch_shared] after its two packets have been dequeued: slot 1023 is
    free again, bucket 3 still holds 1024. *)
Definition sch_stale : Qdisc := snd (dequeue_n 2 sch_shared).

(** A packet of another flow that hashes to bucket 3 of the first table. *)
Definition skb_other : sk_buff := skb_at 99 3 6.

(** * Reasoning about runs *)

(** [wp m Q s]: if [m] returns from state [s], its result and final state
    satisfy [Q]. *)
Definition wp {S A} (m : M S A) (Q : A -> S -> Prop) (s : S) : Prop :=
  match m s with
  | Ok (a, s') => Q a s'
  | Fault _ => True
  end.

(** The sum of [f] over the queues of all flows. *)
Definition flow_sum (f : list sk_buff -> Z) (fls : list fq_codel_flow) : Z :=
  fold_right (fun fl acc => f (head fl) + acc) 0 fls.

Definition packets (l : list sk_buff) : Z := Z.of_nat (length l).

(** The counters agree with the queues: [backlogs[i]] is the byte count of
    the queue of flow [i], [sch->q.qlen] the number of queued packets,
    [sch->qstats.backlog] their bytes and [memory_usage] their memory, all
    as 32-bit numbers. *)
Definition accounting_wf (sch : Qdisc) : Prop :=
  let q := priv sch in
  length (flows q) = Z.to_nat (flows_cnt q)
  /\ length (backlogs q) = Z.to_nat (flows_cnt q)
  /\ (forall i fl b, flows q !! i = Some fl -> backlogs q !! i = Some b ->
        b = u32 (bytes (head fl)))
  /\ qlen sch = u32 (flow_sum packets (flows q))
  /\ qstats_backlog sch = u32 (flow_sum bytes (flows q))
  /\ memory_usage q = u32 (flow_sum mem_bytes (flows q)).

(** The scheduling lists name no flow twice, and every flow that holds a
    packet is on one of them. *)
Definition scheduled_wf (q : fq_codel_sched_data) : Prop :=
  NoDup (new_flows q ++ old_flows q)
  /\ forall i fl, flows q !! i = Some fl -> head fl <> [] ->
       Z.of_nat i ∈ new_flows q ++ old_flows q.

Definition sch_scheduled_wf (sch : Qdisc) : Prop := scheduled_wf (priv sch).

(** What taking packets off the queue of slot [idx] leaves: the invariant,
    the lists as they were, and an empty queue when no packet came back. *)
Definition drained_post (idx : Z) (sch : Qdisc) (r : option sk_buff)
    (s' : Qdisc) : Prop :=
  scheduled_wf (priv s')
  /\ new_flows (priv s') = new_flows (priv sch)
  /\ old_flows (priv s') = old_flows (priv sch)
  /\ (r = None ->
      forall fl, flows (priv s') !! Z.to_nat idx = Some fl -> head fl = []).

(** [sch_stale] after one more dequeue, which finds slot 1023 without
    packets and takes it off the list. *)
Definition sch_idle : Qdisc := snd (dequeue_n 1 sch_stale).

(** [sch_1024] with an external classifier attached that sends the flow
    hash 7 to class 3, lets [TC_ACT_SHOT] fall on the flow hash 8, steals
    the flow hash 9 and fails on everything else. *)
Definition example_filter : tcf_proto :=
  fun skb =>
    if skb_hash skb =? 7 then (0, 0x10003)
    else if skb_hash skb =? 8 then (TC_ACT_SHOT, 0)
    else if skb_hash skb =? 9 then (TC_ACT_STOLEN, 0)
    else (-1, 0).

Definition sch_filtered : Qdisc :=
  set_priv (set_filter_list (Some example_filter) (priv sch_1024)) sch_1024.

(** [dequeue_head] applied [n] times: the packets taken, oldest first, and
    the flow that is left. *)
Fixpoint dequeue_heads (n : nat) (fl : fq_codel_flow)
  : result (list sk_buff * fq_codel_flow) :=
  match n with
  | O => Ok ([], fl)
  | S n' =>
    r <-r dequeue_head fl ;;
    let (p, fl1) := r in
    r' <-r dequeue_heads n' fl1 ;;
    let (ps, fl2) := r' in
    Ok (p :: ps, fl2)
  end.

(** [sch_chain], which holds five packets, after [tc qdisc change ... limit
    2]. *)
Definition opts_limit_2 : fq_codel_opts := mk_opts (Some 2) None None None None.

Definition sch_trimmed : Qdisc :=
  state_of (fq_codel_change no_drop 4 10 (Some opts_limit_2) sch_chain).

(** A change request: limit 10, quantum 100, memory limit 3000000000. *)
Definition opts_example : fq_codel_opts :=
  mk_opts (Some 10) None (Some 100) None (Some 3000000000).

(** * Class operations *)

(** [struct qdisc_walker] of include/net/sch_generic.h: three [int]s and
    the callback [fn(sch, cl, arg)], which is given the scheduler, the class
    and the walker to read and answers with an [int]. *)
Record qdisc_walker : Type := mk_walker {
  w_stop : Z;
  w_skip : Z;
  w_count : Z;
}.

Definition walker_fn : Type := Qdisc -> Z -> qdisc_walker -> Z.

Definition count_inc (arg : qdisc_walker) : qdisc_walker :=
  mk_walker (w_stop arg) (w_skip arg) (s32 (w_count arg + 1)).

(** The [for] loop of [fq_codel_walk] from [i] on, with [n] iterations to
    go: the walker it leaves and the classes [fn] was called on, in the
    order of the calls. *)
Fixpoint walk_loop (fn : walker_fn) (sch : Qdisc) (n : nat) (i : Z)
    (arg : qdisc_walker) (called : list Z)
  : result (qdisc_walker * list Z) :=
  match n with
  | O => Ok (arg, called)
  | S n' =>
    _ <-r arr_get OOB_flows (flows (priv sch)) i ;;
    if flowchain_empty (priv sch) i || (w_count arg <? w_skip arg)
    then walk_loop fn sch n' (i + 1) (count_inc arg) called
    else if fn sch (i + 1) arg <? 0
    then Ok (mk_walker 1 (w_skip arg) (w_count arg), called ++ [i + 1])
    else walk_loop fn sch n' (i + 1) (count_inc arg) (called ++ [i + 1])
  end.

(** [fq_codel_walk(sch, arg)]. *)
Definition fq_codel_walk (fn : walker_fn) (arg : qdisc_walker) (sch : Qdisc)
  : result (qdisc_walker * list Z) :=
  if negb (w_stop arg =? 0) then Ok (arg, [])
  else walk_loop fn sch (Z.to_nat (flows_cnt (priv sch))) 0 arg [].

(** What [fq_codel_dump_class_stats] hands to [gnet_stats_copy_queue] and
    [gnet_stats_copy_app]: the queue statistics, and the deficit of the
    class statistics when they are copied (CoDel's variables are left
    out). *)
Record class_dump : Type := mk_class_dump {
  qs_qlen : Z;
  qs_backlog : Z;
  qs_drops : Z;
  xstats_deficit : option Z;
}.

(** [fq_codel_dump_class_stats(sch, cl, d)], the two copies succeeding. *)
Definition fq_codel_dump_class_stats (cl : Z) (sch : Qdisc)
  : result class_dump :=
  let q := priv sch in
  let idx := u32 (cl - 1) in
  if idx <? flows_cnt q then
    flow <-r arr_get OOB_flows (flows q) idx ;;
    b <-r arr_get OOB_backlogs (backlogs q) idx ;;
    Ok (mk_class_dump (u32 (Z.of_nat (length (head flow)))) b (dropped flow)
          (Some (deficit flow)))
  else Ok (mk_class_dump 0 0 0 None).

(** The slots below [n], in order. *)
Definition slots_below (n : nat) : list Z := map Z.of_nat (seq 0 n).

(** A callback that accepts every class. *)
Definition accept_all : walker_fn := fun _ _ _ => 0.

(** A walker at its start: nothing to skip, nothing counted. *)
Definition walker_0 : qdisc_walker := mk_walker 0 0 0.

(** A second packet of the flow of [skb_d], longer than the first. *)
Definition skb_d2 : sk_buff :=
  mk_skb (skb_hash skb_d) (skb_keys skb_d) 1400 2048 0.

Definition sch_d : Qdisc := after_enqueues [skb_d] sch_1024.

(** [sch_chain] after one dequeue. *)
Definition sch_served : Qdisc := snd (dequeue_n 1 sch_chain).

(** The scheduler has [n] flows. *)
Definition flows_cnt_is (n : Z) (sch : Qdisc) : Prop :=
  flows_cnt (priv sch) = n.

(** [sch_4] with two packets sent to slot 0 by their priority [1:1]. *)
Definition skb_prio_1 : sk_buff :=
  mk_skb 50 (fun _ => key_of_bucket 2) 100 256 0x10001.

Definition sch_4_two : Qdisc := after_enqueues [skb_prio_1; skb_prio_1] sch_4.

(** The fresh scheduler's bitmask after slot 1023 is taken. *)
Definition q_1023_taken : fq_codel_sched_data :=
  match mark_flow_as_non_empty 1023 (priv sch_1024) with
  | Ok (_, q') => q'
  | Fault _ => priv sch_1024
  end.

(** [twp m Q s]: [m] returns from state [s], and its result and final
    state satisfy [Q]. *)
Definition twp {S A} (m : M S A) (Q : A -> S -> Prop) (s : S) : Prop :=
  match m s with
  | Ok (a, s') => Q a s'
  | Fault _ => False
  end.

(** [sch_fat] after [tc qdisc change ... drop_batch 0]. *)
Definition opts_batch_0 : fq_codel_opts :=
  mk_opts None None None (Some 0) None.

Definition sch_fat_0 : Qdisc :=
  state_of (fq_codel_change no_drop 1 1 (Some opts_batch_0) sch_fat).

(** [skb'] is a packet of the flow of [skb] that leaves its class to the
    hashtable: the same flow hash, the same keyed hashes, and no class in
    its priority. *)
Definition same_flow (skb skb' : sk_buff) : Prop :=
  skb_get_hash skb' = skb_get_hash skb
  /\ (forall seed,
        skb_get_hash_perturb skb' seed = skb_get_hash_perturb skb seed)
  /\ TC_H_MIN (u32 (priority skb')) = 0.

(** The packets [skbs] are enqueued one after the other, with nothing in
    between, and each is accepted: [fq_codel_enqueue] returns
    [NET_XMIT_SUCCESS] and puts nothing on [to_free]. *)
Fixpoint accepted_all (skbs : list sk_buff) (sch sch' : Qdisc) : Prop :=
  match skbs with
  | [] => sch' = sch
  | skb :: rest =>
    exists ret0 s1,
      fq_codel_enqueue skb ret0 sch = Ok ((NET_XMIT_SUCCESS, []), s1)
      /\ accepted_all rest s1 sch'
  end.

(** Three packets of one flow on the fresh scheduler. *)
Definition sch_d3 : Qdisc := after_enqueues [skb_d; skb_d2; skb_d] sch_1024.

(** * Properties *)

(** ** Words and arrays *)

Lemma u32_range x : 0 <= u32 x < 2 ^ 32.
Proof. unfold u32. apply Z.mod_pos_bound. lia. Qed.

Lemma u32_small x : 0 <= x < 2 ^ 32 -> u32 x = x.
Proof. intros H. unfold u32. apply Z.mod_small. exact H. Qed.

Lemma u16_small x : 0 <= x < 2 ^ 16 -> u16 x = x.
Proof. intros H. unfold u16. apply Z.mod_small. exact H. Qed.

Lemma s32_small x : 0 <= x < 2 ^ 31 -> s32 x = x.
Proof.
  intros H. unfold s32. rewrite u32_small by lia.
  destruct (Z.ltb_spec x (2 ^ 31)); lia.
Qed.

Lemma arr_get_Ok {A} oob (l : list A) i x :
  arr_get oob l i = Ok x <-> 0 <= i /\ l !! Z.to_nat i = Some x.
Proof.
  unfold arr_get. destruct (Z.leb_spec 0 i).
  - destruct (l !! Z.to_nat i); split; intros H'; try discriminate.
    + inversion H'. auto.
    + destruct H' as [_ H']. inversion H'. reflexivity.
    + destruct H' as [_ H']. discriminate.
  - split; [discriminate | lia].
Qed.

Lemma arr_get_in {A} oob (l : list A) i :
  0 <= i < Z.of_nat (length l) -> exists x, arr_get oob l i = Ok x.
Proof.
  intros H. destruct (lookup_lt_is_Some_2 l (Z.to_nat i)) as [x Hx]; [lia|].
  exists x. apply arr_get_Ok. split; [lia | exact Hx].
Qed.

Lemma arr_get_lt {A} oob (l : list A) i x :
  arr_get oob l i = Ok x -> 0 <= i < Z.of_nat (length l).
Proof.
  intros H. apply arr_get_Ok in H as [H0 H]. apply lookup_lt_Some in H. lia.
Qed.

Lemma arr_get_fault {A} oob (l : list A) i f :
  arr_get oob l i = Fault f -> f = oob i.
Proof.
  unfold arr_get. destruct (0 <=? i); [destruct (l !! Z.to_nat i)|];
    congruence.
Qed.

Lemma arr_set_Ok {A} oob (l l' : list A) i x :
  arr_set oob l i x = Ok l' <->
  0 <= i < Z.of_nat (length l) /\ l' = <[Z.to_nat i := x]> l.
Proof.
  unfold arr_set.
  destruct (Z.leb_spec 0 i), (Z.ltb_spec i (Z.of_nat (length l))); simpl;
    split; intros H'; try discriminate; try lia.
  - inversion H'. split; [lia | reflexivity].
  - destruct H' as [_ ->]. reflexivity.
Qed.

Lemma arr_set_in {A} oob (l : list A) i x :
  0 <= i < Z.of_nat (length l) ->
  arr_set oob l i x = Ok (<[Z.to_nat i := x]> l).
Proof. intros H. apply arr_set_Ok. auto. Qed.

(** ** [ffs] *)

Lemma pos_ctz_nonneg p : 0 <= pos_ctz p.
Proof. induction p; simpl; lia. Qed.

Lemma pos_ctz_testbit p : Z.testbit (Zpos p) (pos_ctz p) = true.
Proof.
  induction p as [p IH | p IH |]; simpl pos_ctz; try reflexivity.
  pose proof (pos_ctz_nonneg p).
  change (Zpos p~0) with (2 * Zpos p).
  replace (1 + pos_ctz p) with (Z.succ (pos_ctz p)) by lia.
  rewrite Z.testbit_even_succ by lia. exact IH.
Qed.

Lemma pos_ctz_lowest p k : 0 <= k < pos_ctz p -> Z.testbit (Zpos p) k = false.
Proof.
  revert k. induction p as [p IH | p IH |]; simpl pos_ctz; intros k Hk; try lia.
  change (Zpos p~0) with (2 * Zpos p).
  destruct (Z.eq_dec k 0) as [-> | Hne].
  - apply Z.testbit_even_0.
  - replace k with (Z.succ (k - 1)) by lia.
    rewrite Z.testbit_even_succ by lia. apply IH. lia.
Qed.

Lemma pos_ctz_bound p n : 0 <= n -> Zpos p < 2 ^ n -> pos_ctz p < n.
Proof.
  intros Hn Hp. destruct (Z.lt_ge_cases (pos_ctz p) n) as [|Hge]; [assumption|].
  pose proof (pos_ctz_testbit p) as Hb.
  assert (Z.log2 (Zpos p) < n) as Hlog by (apply Z.log2_lt_pow2; lia).
  rewrite Z.bits_above_log2 in Hb; [discriminate | lia | lia].
Qed.

Lemma ffs_0_iff x : ffs x = 0 <-> u32 x = 0.
Proof.
  unfold ffs. pose proof (u32_range x).
  destruct (u32 x) as [|p|p]; split; intros; try reflexivity; try lia.
  pose proof (pos_ctz_nonneg p). lia.
Qed.

Lemma ffs_range x : u32 x <> 0 -> 1 <= ffs x <= 32.
Proof.
  intros Hx. unfold ffs. pose proof (u32_range x) as Hr.
  destruct (u32 x) as [|p|p]; try lia.
  pose proof (pos_ctz_nonneg p). pose proof (pos_ctz_bound p 32). lia.
Qed.

Lemma ffs_bounds x : 0 <= ffs x <= 32.
Proof.
  destruct (Z.eq_dec (u32 x) 0) as [H | H].
  - apply ffs_0_iff in H. lia.
  - pose proof (ffs_range x H). lia.
Qed.

Lemma ffs_testbit x : u32 x <> 0 -> Z.testbit (u32 x) (ffs x - 1) = true.
Proof.
  intros Hx. unfold ffs. pose proof (u32_range x) as Hr.
  destruct (u32 x) as [|p|p]; try lia.
  replace (1 + pos_ctz p - 1) with (pos_ctz p) by lia.
  apply pos_ctz_testbit.
Qed.

Lemma ffs_lowest x k : 0 <= k < ffs x - 1 -> Z.testbit (u32 x) k = false.
Proof.
  unfold ffs. destruct (u32 x) as [|p|p]; intros Hk; try lia.
  apply pos_ctz_lowest. lia.
Qed.

(** ** Bits of 32-bit words *)

Lemma u32_bits_high x j : 0 <= x < 2 ^ 32 -> 32 <= j -> Z.testbit x j = false.
Proof.
  intros Hx Hj. destruct (Z.eq_dec x 0) as [-> | Hne].
  - apply Z.bits_0.
  - apply Z.bits_above_log2; [lia|].
    assert (Z.log2 x < 32) by (apply Z.log2_lt_pow2; lia). lia.
Qed.

Lemma u32_of_bits x :
  0 <= x -> (forall j, 32 <= j -> Z.testbit x j = false) -> x < 2 ^ 32.
Proof.
  intros Hx Hb. destruct (Z.lt_ge_cases x (2 ^ 32)) as [|Hge]; [assumption|].
  assert (32 <= Z.log2 x) as Hl by (apply Z.log2_le_pow2; lia).
  specialize (Hb _ Hl). rewrite Z.bit_log2 in Hb by lia. discriminate.
Qed.

Lemma lor_u32 a b : 0 <= a < 2 ^ 32 -> 0 <= b < 2 ^ 32 -> 0 <= Z.lor a b < 2 ^ 32.
Proof.
  intros Ha Hb. split.
  - apply Z.lor_nonneg. lia.
  - apply u32_of_bits; [apply Z.lor_nonneg; lia|].
    intros j Hj. rewrite Z.lor_spec, !u32_bits_high by assumption. reflexivity.
Qed.

Lemma land_u32 a b : 0 <= a < 2 ^ 32 -> 0 <= Z.land a b < 2 ^ 32.
Proof.
  intros Ha. split.
  - apply Z.land_nonneg. lia.
  - apply u32_of_bits; [apply Z.land_nonneg; lia|].
    intros j Hj. rewrite Z.land_spec, (u32_bits_high a) by assumption.
    reflexivity.
Qed.

Lemma shl1_Ok k b : shl1 k = Ok b <-> 0 <= k < 32 /\ b = 2 ^ k.
Proof.
  unfold shl1.
  destruct (Z.leb_spec 0 k), (Z.ltb_spec k 32); simpl;
    split; intros H'; try discriminate; try lia.
  - inversion H'. split; [lia|].
    rewrite Z.shiftl_1_l. apply u32_small. split; [lia|].
    apply Z.pow_lt_mono_r; lia.
  - destruct H' as [_ ->]. f_equal.
    rewrite Z.shiftl_1_l. apply u32_small. split; [lia|].
    apply Z.pow_lt_mono_r; lia.
Qed.

Lemma pow2_u32 k : 0 <= k < 32 -> 0 <= 2 ^ k < 2 ^ 32.
Proof. intros H. split; [lia | apply Z.pow_lt_mono_r; lia]. Qed.

Lemma not32_pow2_bits k j :
  0 <= k < 32 -> 0 <= j < 32 -> Z.testbit (not32 (2 ^ k)) j = negb (j =? k).
Proof.
  intros Hk Hj. unfold not32. rewrite u32_small by (apply pow2_u32; lia).
  rewrite Z.lxor_spec, Z.pow2_bits_eqb by lia.
  change 0xFFFFFFFF with (Z.ones 32). rewrite Z.ones_spec_low by lia.
  rewrite (Z.eqb_sym k j). destruct (j =? k); reflexivity.
Qed.

Lemma land_not32_bits w k j :
  0 <= w < 2 ^ 32 -> 0 <= k < 32 -> 0 <= j ->
  Z.testbit (Z.land w (not32 (2 ^ k))) j = Z.testbit w j && negb (j =? k).
Proof.
  intros Hw Hk Hj. rewrite Z.land_spec.
  destruct (Z.lt_ge_cases j 32).
  - rewrite not32_pow2_bits by lia. reflexivity.
  - rewrite (u32_bits_high w) by lia. reflexivity.
Qed.

Lemma lor_pow2_bits w k j :
  0 <= k -> 0 <= j ->
  Z.testbit (Z.lor w (2 ^ k)) j = Z.testbit w j || (j =? k).
Proof.
  intros Hk Hj. rewrite Z.lor_spec, Z.pow2_bits_eqb by lia.
  rewrite (Z.eqb_sym k j). reflexivity.
Qed.

Lemma lor_pow2_nonzero w k : 0 <= k -> Z.lor w (2 ^ k) <> 0.
Proof.
  intros Hk H0. pose proof (lor_pow2_bits w k k Hk Hk) as Hb.
  rewrite H0, Z.bits_0, Z.eqb_refl, orb_true_r in Hb. discriminate.
Qed.

(** ** The empty-slot bitmask *)

Lemma slot_zone idx :
  0 <= idx < 1024 ->
  idx ÷ 32 = idx / 32 /\ Z.rem idx 32 = idx mod 32
  /\ 0 <= idx / 32 < 32 /\ 0 <= idx mod 32 < 32.
Proof.
  intros H. rewrite Z.quot_div_nonneg, Z.rem_mod_nonneg by lia.
  repeat split; try lia.
  - apply Z.div_pos; lia.
  - apply Z.div_lt_upper_bound; lia.
  - apply Z.mod_pos_bound; lia.
  - apply Z.mod_pos_bound; lia.
Qed.

Lemma mask_word q g :
  mask_wf q -> 0 <= g < 32 ->
  exists w, empty_flow_mask q !! Z.to_nat g = Some w /\ 0 <= w < 2 ^ 32.
Proof.
  intros (Hlen & _ & Hall) Hg.
  destruct (lookup_lt_is_Some_2 (empty_flow_mask q) (Z.to_nat g)) as [w Hw];
    [lia|].
  exists w. split; [exact Hw|].
  rewrite Forall_lookup in Hall. exact (Hall _ _ Hw).
Qed.

Lemma mark_flow_as_empty_eq q idx w :
  mask_wf q -> 0 <= idx < 1024 ->
  empty_flow_mask q !! Z.to_nat (idx / 32) = Some w ->
  mark_flow_as_empty idx q =
  Ok (tt,
      set_empty_flow_mask
        (<[Z.to_nat (idx / 32) := Z.lor w (2 ^ slot_bit idx)]>
           (empty_flow_mask q))
        (set_flow_mask_index
           (Z.lor (flow_mask_index q) (2 ^ zone_bit (idx / 32))) q)).
Proof.
  intros (Hlen & _ & _) Hidx Hw.
  destruct (slot_zone idx Hidx) as (Hq & Hr & Hg & Hb).
  unfold mark_flow_as_empty. rewrite Hq, Hr.
  assert (shl1 (32 - (idx / 32 + 1)) = Ok (2 ^ zone_bit (idx / 32))) as ->
    by (apply shl1_Ok; unfold zone_bit; split; [lia | reflexivity]).
  assert (shl1 (32 - (idx mod 32 + 1)) = Ok (2 ^ slot_bit idx)) as ->
    by (apply shl1_Ok; unfold slot_bit; split; [lia | reflexivity]).
  simpl.
  assert (arr_get OOB_mask (empty_flow_mask q) (idx / 32) = Ok w) as ->
    by (apply arr_get_Ok; split; [lia | exact Hw]).
  simpl. rewrite arr_set_in by lia. reflexivity.
Qed.

Lemma mark_flow_as_non_empty_eq q idx w :
  mask_wf q -> 0 <= idx < 1024 ->
  empty_flow_mask q !! Z.to_nat (idx / 32) = Some w ->
  let w' := Z.land w (not32 (2 ^ slot_bit idx)) in
  let q1 :=
    set_empty_flow_mask (<[Z.to_nat (idx / 32) := w']> (empty_flow_mask q)) q in
  mark_flow_as_non_empty idx q =
  Ok (tt,
      if w' =? 0
      then set_flow_mask_index
             (Z.land (flow_mask_index q) (not32 (2 ^ zone_bit (idx / 32)))) q1
      else q1).
Proof.
  intros (Hlen & _ & _) Hidx Hw w' q1.
  destruct (slot_zone idx Hidx) as (Hq & Hr & Hg & Hb).
  unfold mark_flow_as_non_empty. rewrite Hq, Hr.
  assert (arr_get OOB_mask (empty_flow_mask q) (idx / 32) = Ok w) as ->
    by (apply arr_get_Ok; split; [lia | exact Hw]).
  simpl.
  assert (shl1 (32 - (idx mod 32 + 1)) = Ok (2 ^ slot_bit idx)) as ->
    by (apply shl1_Ok; unfold slot_bit; split; [lia | reflexivity]).
  simpl. rewrite arr_set_in by lia. simpl. fold w'.
  destruct (w' =? 0); [|reflexivity].
  assert (shl1 (32 - (idx / 32 + 1)) = Ok (2 ^ zone_bit (idx / 32))) as ->
    by (apply shl1_Ok; unfold zone_bit; split; [lia | reflexivity]).
  reflexivity.
Qed.

(** Marking a slot empty sets its bit and the bit of its zone. *)
Lemma mark_flow_as_empty_marks q q' idx :
  mask_wf q -> 0 <= idx < 1024 ->
  mark_flow_as_empty idx q = Ok (tt, q') ->
  slot_marked_empty q' idx = true /\ zone_marked q' (idx / 32) = true.
Proof.
  intros Hwf Hidx Hrun.
  destruct (slot_zone idx Hidx) as (_ & _ & Hg & Hb).
  destruct (mask_word q (idx / 32) Hwf Hg) as (w & Hw & Hwr).
  rewrite (mark_flow_as_empty_eq q idx w Hwf Hidx Hw) in Hrun.
  inversion Hrun; subst q'; clear Hrun.
  destruct Hwf as (Hlen & _ & _).
  unfold slot_marked_empty, zone_marked. simpl. split.
  - rewrite list_lookup_insert_eq by lia.
    unfold slot_bit. rewrite lor_pow2_bits by lia.
    rewrite Z.eqb_refl. apply orb_true_r.
  - unfold zone_bit. rewrite lor_pow2_bits by lia.
    rewrite Z.eqb_refl. apply orb_true_r.
Qed.

Lemma mark_flow_as_empty_wf q q' idx :
  mask_wf q -> 0 <= idx < 1024 ->
  mark_flow_as_empty idx q = Ok (tt, q') -> mask_wf q'.
Proof.
  intros Hwf Hidx Hrun.
  destruct (slot_zone idx Hidx) as (_ & _ & Hg & Hb).
  destruct (mask_word q (idx / 32) Hwf Hg) as (w & Hw & Hwr).
  rewrite (mark_flow_as_empty_eq q idx w Hwf Hidx Hw) in Hrun.
  inversion Hrun; subst q'; clear Hrun.
  destruct Hwf as (Hlen & Hmi & Hall).
  unfold mask_wf. simpl. rewrite length_insert. repeat split; try lia.
  - apply lor_u32; [lia | apply pow2_u32; unfold zone_bit; lia].
  - apply lor_u32; [lia | apply pow2_u32; unfold zone_bit; lia].
  - apply Forall_insert; [exact Hall|].
    apply lor_u32; [lia | apply pow2_u32; unfold slot_bit; lia].
Qed.

Lemma mark_flow_as_non_empty_wf q q' idx :
  mask_wf q -> 0 <= idx < 1024 ->
  mark_flow_as_non_empty idx q = Ok (tt, q') -> mask_wf q'.
Proof.
  intros Hwf Hidx Hrun.
  destruct (slot_zone idx Hidx) as (_ & _ & Hg & Hb).
  destruct (mask_word q (idx / 32) Hwf Hg) as (w & Hw & Hwr).
  rewrite (mark_flow_as_non_empty_eq q idx w Hwf Hidx Hw) in Hrun.
  inversion Hrun; subst q'; clear Hrun.
  destruct Hwf as (Hlen & Hmi & Hall).
  assert (Forall (fun w0 => 0 <= w0 < 2 ^ 32)
            (<[Z.to_nat (idx / 32) := Z.land w (not32 (2 ^ slot_bit idx))]>
               (empty_flow_mask q))) as Hall'
    by (apply Forall_insert; [exact Hall | apply land_u32; lia]).
  destruct (Z.land w (not32 (2 ^ slot_bit idx)) =? 0);
    unfold mask_wf; simpl; rewrite length_insert;
    repeat split; try lia; try exact Hall'.
  - apply land_u32; lia.
  - apply land_u32; lia.
Qed.

(** [mark_flow_as_empty] keeps index and words in step. *)
Lemma mark_flow_as_empty_exact q q' idx :
  mask_wf q -> 0 <= idx < 1024 -> mask_index_exact q ->
  mark_flow_as_empty idx q = Ok (tt, q') -> mask_index_exact q'.
Proof.
  intros Hwf Hidx Hex Hrun.
  destruct (slot_zone idx Hidx) as (_ & _ & Hg & Hb).
  destruct (mask_word q (idx / 32) Hwf Hg) as (w & Hw & Hwr).
  rewrite (mark_flow_as_empty_eq q idx w Hwf Hidx Hw) in Hrun.
  inversion Hrun; subst q'; clear Hrun.
  destruct Hwf as (Hlen & Hmi & Hall).
  intros g w1 Hg1. unfold zone_marked. simpl. intros Hw1.
  unfold zone_bit. rewrite lor_pow2_bits by lia.
  destruct (Z.eq_dec g (idx / 32)) as [-> | Hne].
  - rewrite list_lookup_insert_eq in Hw1 by lia. inversion Hw1; subst w1.
    rewrite Z.eqb_refl, orb_true_r. split; [|reflexivity].
    intros _. apply lor_pow2_nonzero. unfold slot_bit. lia.
  - rewrite list_lookup_insert_ne in Hw1 by lia.
    replace (32 - (g + 1) =? 32 - (idx / 32 + 1)) with false
      by (symmetry; apply Z.eqb_neq; lia).
    rewrite orb_false_r. apply (Hex g w1 Hg1 Hw1).
Qed.

Lemma mark_flow_as_empty_sound q q' idx :
  mask_wf q -> 0 <= idx < 1024 -> mask_index_sound q ->
  mark_flow_as_empty idx q = Ok (tt, q') -> mask_index_sound q'.
Proof.
  intros Hwf Hidx Hex Hrun.
  destruct (slot_zone idx Hidx) as (_ & _ & Hg & Hb).
  destruct (mask_word q (idx / 32) Hwf Hg) as (w & Hw & Hwr).
  rewrite (mark_flow_as_empty_eq q idx w Hwf Hidx Hw) in Hrun.
  inversion Hrun; subst q'; clear Hrun.
  destruct Hwf as (Hlen & Hmi & Hall).
  intros g w1 Hg1. unfold zone_marked. simpl. intros Hw1.
  unfold zone_bit. rewrite lor_pow2_bits by lia.
  destruct (Z.eq_dec g (idx / 32)) as [-> | Hne].
  - rewrite list_lookup_insert_eq in Hw1 by lia. inversion Hw1; subst w1.
    intros _. apply lor_pow2_nonzero. unfold slot_bit. lia.
  - rewrite list_lookup_insert_ne in Hw1 by lia.
    replace (32 - (g + 1) =? 32 - (idx / 32 + 1)) with false
      by (symmetry; apply Z.eqb_neq; lia).
    rewrite orb_false_r. apply (Hex g w1 Hg1 Hw1).
Qed.

(** [mark_flow_as_non_empty] keeps index and words in step. *)
Lemma mark_flow_as_non_empty_exact q q' idx :
  mask_wf q -> 0 <= idx < 1024 -> mask_index_exact q ->
  mark_flow_as_non_empty idx q = Ok (tt, q') -> mask_index_exact q'.
Proof.
  intros Hwf Hidx Hex Hrun.
  destruct (slot_zone idx Hidx) as (_ & _ & Hg & Hb).
  destruct (mask_word q (idx / 32) Hwf Hg) as (w & Hw & Hwr).
  rewrite (mark_flow_as_non_empty_eq q idx w Hwf Hidx Hw) in Hrun.
  inversion Hrun; subst q'; clear Hrun.
  destruct Hwf as (Hlen & Hmi & Hall).
  intros g w1 Hg1.
  destruct (Z.eqb_spec (Z.land w (not32 (2 ^ slot_bit idx))) 0) as [Hz | Hnz];
    unfold zone_marked; simpl; intros Hw1.
  - rewrite land_not32_bits by (unfold zone_bit; lia).
    destruct (Z.eq_dec g (idx / 32)) as [-> | Hne].
    + rewrite list_lookup_insert_eq in Hw1 by lia. inversion Hw1; subst w1.
      rewrite Z.eqb_refl, andb_false_r. split; [discriminate | congruence].
    + rewrite list_lookup_insert_ne in Hw1 by lia.
      replace (zone_bit g =? zone_bit (idx / 32)) with false
        by (symmetry; apply Z.eqb_neq; unfold zone_bit; lia).
      rewrite andb_true_r. apply (Hex g w1 Hg1 Hw1).
  - destruct (Z.eq_dec g (idx / 32)) as [-> | Hne].
    + rewrite list_lookup_insert_eq in Hw1 by lia. inversion Hw1; subst w1.
      split; [intros _; exact Hnz|]. intros _.
      apply (Hex (idx / 32) w Hg Hw). intros ->.
      apply Hnz. apply Z.land_0_l.
    + rewrite list_lookup_insert_ne in Hw1 by lia.
      apply (Hex g w1 Hg1 Hw1).
Qed.

Lemma mark_flow_as_non_empty_sound q q' idx :
  mask_wf q -> 0 <= idx < 1024 -> mask_index_sound q ->
  mark_flow_as_non_empty idx q = Ok (tt, q') -> mask_index_sound q'.
Proof.
  intros Hwf Hidx Hex Hrun.
  destruct (slot_zone idx Hidx) as (_ & _ & Hg & Hb).
  destruct (mask_word q (idx / 32) Hwf Hg) as (w & Hw & Hwr).
  rewrite (mark_flow_as_non_empty_eq q idx w Hwf Hidx Hw) in Hrun.
  inversion Hrun; subst q'; clear Hrun.
  destruct Hwf as (Hlen & Hmi & Hall).
  intros g w1 Hg1.
  destruct (Z.eqb_spec (Z.land w (not32 (2 ^ slot_bit idx))) 0) as [Hz | Hnz];
    unfold zone_marked; simpl; intros Hw1.
  - rewrite land_not32_bits by (unfold zone_bit; lia).
    destruct (Z.eq_dec g (idx / 32)) as [-> | Hne].
    + rewrite Z.eqb_refl, andb_false_r. discriminate.
    + rewrite list_lookup_insert_ne in Hw1 by lia.
      replace (zone_bit g =? zone_bit (idx / 32)) with false
        by (symmetry; apply Z.eqb_neq; unfold zone_bit; lia).
      rewrite andb_true_r. apply (Hex g w1 Hg1 Hw1).
  - destruct (Z.eq_dec g (idx / 32)) as [-> | Hne].
    + rewrite list_lookup_insert_eq in Hw1 by lia. inversion Hw1; subst w1.
      intros _. exact Hnz.
    + rewrite list_lookup_insert_ne in Hw1 by lia.
      apply (Hex g w1 Hg1 Hw1).
Qed.

(** ** [get_next_empty_flow] *)

Lemma get_next_empty_flow_full q :
  u32 (flow_mask_index q) = 0 -> get_next_empty_flow q = Ok 0.
Proof.
  intros H. unfold get_next_empty_flow.
  apply ffs_0_iff in H. rewrite H. reflexivity.
Qed.

(** With a sound index the slot found is one of the 1024 the bitmask
    covers, and it is marked empty unless the index has no bit set. *)
Lemma get_next_empty_flow_range q :
  mask_wf q -> mask_index_sound q ->
  exists e, get_next_empty_flow q = Ok e /\ 0 <= e < 1024
    /\ (flow_mask_index q <> 0 -> slot_marked_empty q e = true).
Proof.
  intros Hwf Hsound. unfold get_next_empty_flow.
  pose proof Hwf as (Hlen & Hmi & Hall).
  destruct (Z.eqb_spec (ffs (flow_mask_index q)) 0) as [Hz | Hnz].
  - exists 0. split; [reflexivity|]. split; [lia|].
    intros Hne. apply ffs_0_iff in Hz. rewrite u32_small in Hz by lia. lia.
  - assert (u32 (flow_mask_index q) <> 0) as Hmne
      by (intros H0; apply Hnz, ffs_0_iff, H0).
    pose proof (ffs_range _ Hmne) as Hf.
    set (z := 32 - ffs (flow_mask_index q)).
    assert (u8 z = z) as -> by (unfold u8; apply Z.mod_small; lia).
    assert (0 <= z < 32) as Hz by lia.
    destruct (mask_word q z Hwf Hz) as (w & Hw & Hwr).
    assert (arr_get OOB_mask (empty_flow_mask q) z = Ok w) as ->
      by (apply arr_get_Ok; split; [lia | exact Hw]).
    simpl.
    assert (w <> 0) as Hwne.
    { apply (Hsound z w Hz Hw). unfold zone_marked, zone_bit.
      replace (32 - (z + 1)) with (ffs (flow_mask_index q) - 1) by lia.
      pose proof (ffs_testbit _ Hmne) as Hb.
      rewrite u32_small in Hb by lia. exact Hb. }
    assert (u32 w <> 0) as Hwne' by (rewrite u32_small by lia; exact Hwne).
    pose proof (ffs_range _ Hwne') as Hfw.
    exists (z * 32 + (32 - ffs w)).
    rewrite u32_small by lia. split; [reflexivity|]. split; [lia|].
    intros _. unfold slot_marked_empty, slot_bit.
    replace ((z * 32 + (32 - ffs w)) / 32) with z
      by (apply Z.div_unique_pos with (r := 32 - ffs w); lia).
    replace ((z * 32 + (32 - ffs w)) mod 32) with (32 - ffs w)
      by (apply Z.mod_unique_pos with (q := z); lia).
    rewrite Hw.
    replace (32 - (32 - ffs w + 1)) with (ffs w - 1) by lia.
    pose proof (ffs_testbit _ Hwne') as Hb.
    rewrite u32_small in Hb by lia. exact Hb.
Qed.

(** ** Reset and initialisation of the bitmask *)

Lemma default_qdisc_eq handle mtu seed0 seed1 :
  default_qdisc handle mtu seed0 seed1 =
  Ok (0, mk_sch handle 10240 0 0 0
           (mk_q None (repeat 0 2048) (u32 seed0, u32 seed1)
              (memset_u32 1 32) (memset_word 1)
              (repeat empty_flow 1024) (repeat 0 1024) 1024 (u32 mtu) 64
              (Z.shiftl 32 20) (mk_cstats 0 0 0) 0 0 0 0 [] [])).
Proof. reflexivity. Qed.

(** C3. [fq_codel_reset] and [fq_codel_init] fill the bitmask with the byte
    1, not with set bits: every word of [empty_flow_mask], and
    [flow_mask_index], is 0x01010101. Slot 0 (bit 31 of word 0) and zone 0
    (bit 31 of the index) are not marked, and only 4 bits of each word are
    set. *)
Theorem reset_fills_mask_with_byte_1 sch handle mtu seed0 seed1 :
  let q := priv (fq_codel_reset sch) in
  let q0 := priv (state_of (default_qdisc handle mtu seed0 seed1)) in
  empty_flow_mask q = repeat 0x01010101 32
  /\ flow_mask_index q = 0x01010101
  /\ empty_flow_mask q0 = repeat 0x01010101 32
  /\ flow_mask_index q0 = 0x01010101
  /\ slot_marked_empty q 0 = false /\ zone_marked q 0 = false
  /\ slot_marked_empty q0 0 = false /\ zone_marked q0 0 = false
  /\ filter (Z.testbit 0x01010101) (map Z.of_nat (seq 0 32)) = [0; 8; 16; 24].
Proof. repeat split. Qed.

(** C4. After [fq_codel_reset] (and after [fq_codel_init]) the index and the
    words disagree: every word is non-zero, yet zone 1 is marked in
    [flow_mask_index] under neither bit order (bits 30 and 1 are both
    clear). The invariant does not hold in the state reset produces. *)
Theorem reset_breaks_mask_index_exact sch :
  let q := priv (fq_codel_reset sch) in
  empty_flow_mask q !! 1%nat = Some 0x01010101
  /\ Z.testbit (flow_mask_index q) (zone_bit 1) = false
  /\ Z.testbit (flow_mask_index q) 1 = false
  /\ ~ mask_index_exact q
  /\ ~ mask_index_exact (priv sch_1024).
Proof.
  repeat split.
  - intros Hex. specialize (Hex 1 0x01010101).
    destruct Hex as [_ Hex]; [lia | reflexivity |].
    assert (zone_marked (priv (fq_codel_reset sch)) 1 = true) as Hb
      by (apply Hex; discriminate).
    discriminate Hb.
  - intros Hex. specialize (Hex 1 0x01010101).
    destruct Hex as [_ Hex]; [lia | reflexivity |].
    assert (zone_marked (priv sch_1024) 1 = true) as Hb
      by (apply Hex; discriminate).
    discriminate Hb.
Qed.

(** What reset does establish is the implication from index to words. *)
Lemma reset_mask_sound sch :
  mask_wf (priv (fq_codel_reset sch))
  /\ mask_index_sound (priv (fq_codel_reset sch)).
Proof.
  split.
  - unfold mask_wf. simpl. split; [reflexivity|].
    split; [split; [discriminate | reflexivity]|].
    unfold memset_u32. apply Forall_forall. intros w Hw.
    apply list_elem_of_In, repeat_spec in Hw. subst w.
    split; [discriminate | reflexivity].
  - intros g w Hg Hw _. simpl in Hw. unfold memset_u32 in Hw.
    apply list_elem_of_lookup_2, list_elem_of_In, repeat_spec in Hw.
    subst w. discriminate.
Qed.

(** ** A full bitmask *)

(** C6, counterexample. With every slot taken ([q_full]: no bit set in the
    index or in any word) [get_next_empty_flow] answers 0, and it answers 0
    again when slot 0 is the one free slot ([q_slot0]): the two answers
    cannot be told apart. *)
Lemma next_empty_full_is_slot0 :
  flow_mask_index q_full = 0
  /\ empty_flow_mask q_full = repeat 0 32
  /\ slot_marked_empty q_slot0 0 = true
  /\ get_next_empty_flow q_full = Ok 0
  /\ get_next_empty_flow q_slot0 = Ok 0.
Proof. vm_compute. repeat split. Qed.

(** C6, as the code has it. With no bit set in [flow_mask_index],
    [get_next_empty_flow] returns 0, and the caller uses it as slot 0: it
    stores 1 in the bucket and classifies the packet into slot 0. *)
Theorem next_empty_full_gives_slot0 q h :
  u32 (flow_mask_index q) = 0 ->
  0 <= h < Z.of_nat (length (hashtable q)) ->
  get_next_empty_flow q = Ok 0
  /\ install_next_empty h q
     = Ok (1, set_hashtable (<[Z.to_nat h := 1]> (hashtable q)) q).
Proof.
  intros Hfull Hh.
  pose proof (get_next_empty_flow_full q Hfull) as Hnext.
  split; [exact Hnext|].
  unfold install_next_empty, bind, lift, ht_write, ht_read. rewrite Hnext.
  change (u32 (0 + 1)) with 1. change (u16 1) with 1.
  rewrite arr_set_in by exact Hh. simpl.
  assert (arr_get OOB_hashtable (<[Z.to_nat h := 1]> (hashtable q)) h = Ok 1)
    as Hread.
  { apply arr_get_Ok. split; [lia|]. apply list_lookup_insert_eq. lia. }
  unfold lift. simpl. rewrite Hread. reflexivity.
Qed.

Lemma next_empty_full_gives_slot0_witness :
  u32 (flow_mask_index q_full) = 0
  /\ 0 <= 5 < Z.of_nat (length (hashtable q_full))
  /\ get_next_empty_flow q_full = Ok 0
  /\ install_next_empty 5 q_full
     = Ok (1, set_hashtable (<[Z.to_nat 5 := 1]> (hashtable q_full)) q_full).
Proof.
  assert (u32 (flow_mask_index q_full) = 0) as H1 by (vm_compute; reflexivity).
  assert (0 <= 5 < Z.of_nat (length (hashtable q_full))) as H2
    by (vm_compute; split; [discriminate | reflexivity]).
  split; [exact H1|]. split; [exact H2|].
  exact (next_empty_full_gives_slot0 q_full 5 H1 H2).
Defined.

(** ** Classification by priority *)

(** C10. A packet whose priority has the qdisc's handle as major number and a
    minor number [m] with [1 <= m <= flows_cnt] is classified as [m]: the
    state, [qerr] included, is left as it was (no slot is allocated, no
    bucket written), and the answer is the same whatever the hashtable holds
    and whatever external filter is installed. *)
Theorem classify_priority_direct sch skb qerr :
  TC_H_MAJ (u32 (priority skb)) = handle sch ->
  1 <= TC_H_MIN (u32 (priority skb)) <= flows_cnt (priv sch) ->
  fq_codel_classify skb qerr sch
  = Ok ((TC_H_MIN (u32 (priority skb)), qerr), sch)
  /\ forall ht filter,
       let sch' :=
         set_priv (set_filter_list filter (set_hashtable ht (priv sch))) sch in
       fq_codel_classify skb qerr sch'
       = Ok ((TC_H_MIN (u32 (priority skb)), qerr), sch').
Proof.
  intros Hmaj Hmin.
  assert (forall s, handle s = handle sch ->
                    flows_cnt (priv s) = flows_cnt (priv sch) ->
            fq_codel_classify skb qerr s
            = Ok ((TC_H_MIN (u32 (priority skb)), qerr), s)) as Hgen.
  { intros s Hh Hn. unfold fq_codel_classify. rewrite Hh, Hn, Hmaj.
    rewrite Z.eqb_refl. simpl.
    destruct (Z.gtb_spec (TC_H_MIN (u32 (priority skb))) 0); [|lia].
    destruct (Z.leb_spec (TC_H_MIN (u32 (priority skb)))
                (flows_cnt (priv sch))); [|lia].
    reflexivity. }
  split.
  - apply Hgen; reflexivity.
  - intros ht filter sch'. apply Hgen; reflexivity.
Qed.

Lemma classify_priority_direct_witness :
  let skb := example_skb 7 0 0 0x10005 in
  TC_H_MAJ (u32 (priority skb)) = handle sch_1024
  /\ 1 <= TC_H_MIN (u32 (priority skb)) <= flows_cnt (priv sch_1024)
  /\ fq_codel_classify skb 0 sch_1024 = Ok ((5, 0), sch_1024).
Proof.
  intros skb.
  assert (TC_H_MAJ (u32 (priority skb)) = handle sch_1024) as H1
    by reflexivity.
  assert (1 <= TC_H_MIN (u32 (priority skb)) <= flows_cnt (priv sch_1024))
    as H2 by (split; discriminate).
  split; [exact H1|]. split; [exact H2|].
  exact (proj1 (classify_priority_direct sch_1024 skb 0 H1 H2)).
Defined.

(** ** DROP_BATCH_SIZE *)

Lemma drop_loop_batch_1 skb rest threshold :
  drop_loop (skb :: rest) 1 threshold 0 0 0
  = Ok (rest, [skb], (1, qdisc_pkt_len skb, mem_usage skb)).
Proof.
  unfold drop_loop.
  replace (u32 (0 + qdisc_pkt_len skb)) with (qdisc_pkt_len skb)
    by (rewrite Z.add_0_l; symmetry; apply u32_small, u32_range).
  replace (u32 (0 + mem_usage skb)) with (mem_usage skb)
    by (rewrite Z.add_0_l; symmetry; apply u32_small, u32_range).
  reflexivity.
Qed.

(** C8. [fq_codel_change] stores [min(1, v)]: whatever [v >= 1] is given
    for DROP_BATCH_SIZE, [drop_batch_size] becomes 1 (and 0 for [v = 0]),
    through [fq_codel_change] as well when the limits need no trimming; a
    fat-flow drop with this cap frees exactly one packet. *)
Theorem drop_batch_size_is_min_1 v limit flows quantum memory_limit sch :
  let tb := mk_opts limit flows quantum (Some v) memory_limit in
  drop_batch_size (priv (apply_opts tb sch))
  = (if nla_get_u32 v =? 0 then 0 else 1)
  /\ (exists sch',
        fq_codel_change no_drop 1 1
          (Some (mk_opts None None None (Some 64) None)) sch_1024
        = Ok (0, sch')
        /\ drop_batch_size (priv sch') = 1)
  /\ forall skb rest threshold,
       drop_loop (skb :: rest) 1 threshold 0 0 0
       = Ok (rest, [skb], (1, qdisc_pkt_len skb, mem_usage skb)).
Proof.
  intros tb. split; [|split].
  - unfold apply_opts, tb. simpl.
    assert (forall q : fq_codel_sched_data,
              drop_batch_size
                (match memory_limit with
                 | Some v0 =>
                   set_memory_limit
                     (min_u (u32 (Z.shiftl 1 31)) (nla_get_u32 v0)) q
                 | None => q
                 end) = drop_batch_size q) as ->
      by (intros q; destruct memory_limit; reflexivity).
    simpl. unfold min_u. pose proof (u32_range v) as Hr. unfold nla_get_u32.
    destruct (Z.ltb_spec 1 (u32 v)), (Z.eqb_spec (u32 v) 0); lia.
  - eexists. split; [vm_compute; reflexivity | reflexivity].
  - apply drop_loop_batch_1.
Qed.

(** ** The two hashes *)

Lemma reciprocal_scale_range val n :
  0 < n < 2 ^ 32 -> 0 <= reciprocal_scale val n < n.
Proof.
  intros Hn. unfold reciprocal_scale.
  pose proof (u32_range val) as Hv.
  rewrite (u32_small n) by lia.
  rewrite Z.shiftr_div_pow2 by lia.
  assert (0 <= u32 val * n / 2 ^ 32 < n) as Hr.
  { split.
    - apply Z.div_pos; nia.
    - apply Z.div_lt_upper_bound; nia. }
  rewrite u32_small by lia. exact Hr.
Qed.

Lemma hash_modified_0_range q skb :
  0 < flows_cnt q <= 65536 ->
  0 <= fq_codel_hash_modified q skb 0 < flows_cnt q.
Proof.
  intros Hn. unfold fq_codel_hash_modified.
  pose proof (reciprocal_scale_range
                (skb_get_hash_perturb skb (seed_of q 0)) (flows_cnt q)) as Hr.
  rewrite Z.mul_0_r, Z.add_0_l, u32_small; lia.
Qed.

Lemma hash_modified_1_range q skb :
  0 < flows_cnt q <= 65536 ->
  flows_cnt q <= fq_codel_hash_modified q skb 1 < 2 * flows_cnt q.
Proof.
  intros Hn. unfold fq_codel_hash_modified.
  pose proof (reciprocal_scale_range
                (skb_get_hash_perturb skb (seed_of q 1)) (flows_cnt q)) as Hr.
  rewrite Z.mul_1_r, u32_small; lia.
Qed.

(** ** One bucket of the displacement *)

Lemma cuckoo_try_inv q skb t v :
  let ti := temp_index q skb t in
  let q1 := set_hashtable (<[Z.to_nat ti := u16 v]> (hashtable q)) q in
  (~ 0 <= ti < Z.of_nat (length (hashtable q))
   /\ cuckoo_try q skb t v = (Wild ti, Fault (OOB_hashtable ti)))
  \/ (0 <= ti < Z.of_nat (length (hashtable q))
      /\ hashtable q !! Z.to_nat ti = Some 0
      /\ cuckoo_try q skb t v = (Place ti v, Ok (q1, None)))
  \/ (exists old,
        0 <= ti < Z.of_nat (length (hashtable q))
        /\ hashtable q !! Z.to_nat ti = Some old /\ old <> 0
        /\ cuckoo_try q skb t v = (Swap ti v old, Ok (q1, Some old))).
Proof.
  intros ti q1. unfold cuckoo_try. fold ti.
  destruct (arr_get OOB_hashtable (hashtable q) ti) as [old | f] eqn:Hget.
  - pose proof (arr_get_lt _ _ _ _ Hget) as Hin.
    apply arr_get_Ok in Hget as [_ Hget].
    destruct (Z.eqb_spec old 0) as [-> | Hne].
    + right. left. auto.
    + right. right. exists old. auto.
  - left. split.
    + intros Hin. destruct (arr_get_in OOB_hashtable (hashtable q) ti Hin)
        as [x Hx]. congruence.
    + unfold arr_get in Hget.
      destruct (0 <=? ti); [destruct (hashtable q !! Z.to_nat ti)|];
        congruence.
Qed.

Lemma insert_only_hashtable q i v :
  only_hashtable_changed q (set_hashtable (<[i := v]> (hashtable q)) q).
Proof. split; [reflexivity | apply length_insert]. Qed.

Lemma only_hashtable_changed_refl q : only_hashtable_changed q q.
Proof. split; [destruct q; reflexivity | reflexivity]. Qed.

Lemma only_hashtable_changed_trans q1 q2 q3 :
  only_hashtable_changed q1 q2 -> only_hashtable_changed q2 q3 ->
  only_hashtable_changed q1 q3.
Proof.
  intros [H1 L1] [H2 L2]. split; [|congruence].
  rewrite H2 at 1. rewrite H1. reflexivity.
Qed.

Lemma only_hashtable_changed_fields q q' :
  only_hashtable_changed q q' ->
  flows_cnt q' = flows_cnt q /\ flows q' = flows q
  /\ random_seed q' = random_seed q
  /\ empty_flow_mask q' = empty_flow_mask q
  /\ flow_mask_index q' = flow_mask_index q
  /\ forall skb t,
       fq_codel_hash_modified q' skb t = fq_codel_hash_modified q skb t.
Proof.
  intros [H _]. rewrite H. repeat split.
Qed.

(** ** One pass of the displacement loop *)

Lemma try_written q ti w :
  0 <= ti < Z.of_nat (length (hashtable q)) ->
  0 <= ti
  /\ hashtable (set_hashtable (<[Z.to_nat ti := u16 w]> (hashtable q)) q)
       !! Z.to_nat ti = Some (u16 w).
Proof.
  intros Hin. split; [lia|]. simpl. apply list_lookup_insert_eq. lia.
Qed.

Lemma rehash_round_spec q i skb v :
  match rehash_round q i skb v with
  | (tr, Round_done r) =>
    (Z.of_nat (swaps tr) <= 1
     \/ (Z.of_nat (swaps tr) = 2 /\ i + 1 < flows_cnt q))
    /\ r <> Fault Out_of_fuel
    /\ forall how q', r = Ok (how, q') ->
         only_hashtable_changed q q' /\ last_written tr q'
  | (tr, Round_next q2 skb2 v2) =>
    Z.of_nat (swaps tr) = 2 /\ i + 1 < flows_cnt q
    /\ only_hashtable_changed q q2 /\ last_written tr q2
  end.
Proof.
  unfold rehash_round.
  destruct (cuckoo_try_inv q skb 0 v)
    as [[_ E] | [(Hin & _ & E) | (old & Hin & _ & _ & E)]]; rewrite E; clear E.
  - split; [left; count_swaps|]. split; [discriminate|]. discriminate.
  - split; [left; count_swaps|]. split; [discriminate|].
    intros how q' Hq. inversion Hq; subst. split.
    + apply insert_only_hashtable.
    + apply try_written, Hin.
  - set (q1 := set_hashtable _ q).
    assert (only_hashtable_changed q q1) as H1 by apply insert_only_hashtable.
    assert (last_written [Swap (temp_index q skb 0) v old] q1) as W1
      by (apply try_written, Hin).
    change (flows_cnt q1) with (flows_cnt q).
    destruct (Z.geb_spec (i + 1) (flows_cnt q)) as [Hge | Hlt].
    { split; [left; count_swaps|]. split; [discriminate|].
      intros how q' Hq. inversion Hq; subst. auto. }
    destruct (arr_get OOB_flows (flows q1) (old - 1)) as [fl1 | f] eqn:Hf1.
    2:{ split; [left; count_swaps|]. split; [|discriminate].
        apply arr_get_fault in Hf1. subst f. discriminate. }
    destruct (head fl1) as [| skb1 rest1].
    { split; [left; count_swaps|]. split; [discriminate|].
      intros how q' Hq. inversion Hq; subst. auto. }
    destruct (cuckoo_try_inv q1 skb1 1 old)
      as [[_ E] | [(Hin2 & _ & E) | (old2 & Hin2 & _ & _ & E)]];
      rewrite E; clear E.
    + split; [left; count_swaps|]. split; [discriminate|]. discriminate.
    + split; [left; count_swaps|]. split; [discriminate|].
      intros how q' Hq. inversion Hq; subst. split.
      * eapply only_hashtable_changed_trans; [exact H1|].
        apply insert_only_hashtable.
      * apply try_written, Hin2.
    + set (q2 := set_hashtable _ q1).
      assert (only_hashtable_changed q q2) as H2
        by (eapply only_hashtable_changed_trans; [exact H1|];
            apply insert_only_hashtable).
      assert (last_written
                [Swap (temp_index q skb 0) v old;
                 Swap (temp_index q1 skb1 1) old old2] q2) as W2
        by (apply try_written, Hin2).
      destruct (arr_get OOB_flows (flows q2) (old2 - 1)) as [fl2 | f] eqn:Hf.
      2:{ split; [right; count_swaps|]. split; [|discriminate].
          apply arr_get_fault in Hf. subst f. discriminate. }
      destruct (head fl2) as [| skb2 rest2].
      { split; [right; count_swaps|]. split; [discriminate|].
        intros how q' Hq. inversion Hq; subst. auto. }
      split; [count_swaps|]. auto.
Qed.

(** ** The displacement loop *)

Lemma swaps_app tr tr' : swaps (tr ++ tr') = (swaps tr + swaps tr')%nat.
Proof. unfold swaps. rewrite List.filter_app, length_app. reflexivity. Qed.

Lemma last_written_app tr tr' q' :
  tr' <> [] -> last_written tr' q' -> last_written (tr ++ tr') q'.
Proof.
  intros Hne H. unfold last_written in *.
  destruct tr' as [| e tr'] using rev_ind; [congruence|].
  rewrite app_assoc, last_snoc. rewrite last_snoc in H. exact H.
Qed.

Lemma rehash_round_trace q i skb v : fst (rehash_round q i skb v) <> [].
Proof.
  unfold rehash_round.
  destruct (cuckoo_try q skb 0 v) as [e1 [[q1 [v1|]] | f]]; try discriminate.
  destruct (i + 1 >=? flows_cnt q1); try discriminate.
  destruct (arr_get OOB_flows (flows q1) (v1 - 1)) as [fl1 | f];
    try discriminate.
  destruct (head fl1) as [| skb1 rest1]; try discriminate.
  destruct (cuckoo_try q1 skb1 1 v1) as [e2 [[q2 [v2|]] | f]];
    try discriminate.
  destruct (arr_get OOB_flows (flows q2) (v2 - 1)) as [fl2 | f];
    try discriminate.
  destruct (head fl2); discriminate.
Qed.

Lemma cuckoo_rehash_loop_spec fuel : forall q i skb v,
  let tr := fst (cuckoo_rehash_loop fuel q i skb v) in
  let r := snd (cuckoo_rehash_loop fuel q i skb v) in
  Z.of_nat (swaps tr) <= Z.max 0 (flows_cnt q - i)
  /\ (Z.max 1 (flows_cnt q - i + 1) <= Z.of_nat fuel ->
      r <> Fault Out_of_fuel)
  /\ forall how q', r = Ok (how, q') ->
       only_hashtable_changed q q' /\ (tr = [] -> q' = q)
       /\ last_written tr q'.
Proof.
  induction fuel as [| fuel IH]; intros q i skb v; cbn [cuckoo_rehash_loop].
  - cbn [fst snd]. split; [count_swaps|]. split; [lia|]. discriminate.
  - destruct (Z.ltb_spec i (flows_cnt q)) as [Hlt | Hge]; cbn [negb].
    2:{ cbn [fst snd]. split; [count_swaps|]. split; [discriminate|].
        intros how q' Hq. inversion Hq; subst.
        split; [apply only_hashtable_changed_refl|]. split; [auto | exact I]. }
    pose proof (rehash_round_spec q i skb v) as Hround.
    pose proof (rehash_round_trace q i skb v) as Hne.
    destruct (rehash_round q i skb v) as [tr [r | q2 skb2 v2]];
      cbn [fst] in Hne.
    + destruct Hround as (Hsw & Hfuel & Hok). cbn [fst snd].
      split; [lia|]. split; [auto|].
      intros how q' Hq. destruct (Hok how q' Hq) as [H1 H2].
      split; [exact H1|]. split; [congruence | exact H2].
    + destruct Hround as (Hsw & Hlt2 & Hch & Hw).
      specialize (IH q2 (i + 1 + 1) skb2 v2).
      destruct (cuckoo_rehash_loop fuel q2 (i + 1 + 1) skb2 v2) as [tr' r].
      cbn [fst snd] in *.
      destruct (only_hashtable_changed_fields _ _ Hch) as (Hn & _).
      rewrite Hn in IH. destruct IH as (IHsw & IHfuel & IHok).
      rewrite swaps_app, Nat2Z.inj_add.
      split; [lia|]. split; [intros Hf; apply IHfuel; lia|].
      intros how q' Hq. destruct (IHok how q' Hq) as (H1 & H2 & H3).
      split; [eapply only_hashtable_changed_trans; eassumption|].
      split; [intros Happ; apply app_eq_nil in Happ as [? _]; congruence|].
      destruct tr' as [| e tr'].
      * rewrite app_nil_r. rewrite (H2 eq_refl). exact Hw.
      * apply last_written_app; [discriminate | exact H3].
Qed.

(** Fuel beyond what the loop needs changes nothing. *)
Lemma cuckoo_rehash_loop_fuel fuel : forall fuel' q i skb v,
  Z.max 1 (flows_cnt q - i + 1) <= Z.of_nat fuel -> (fuel <= fuel')%nat ->
  cuckoo_rehash_loop fuel' q i skb v = cuckoo_rehash_loop fuel q i skb v.
Proof.
  induction fuel as [| fuel IH]; intros fuel' q i skb v Hfuel Hle; [lia|].
  destruct fuel' as [| fuel']; [lia|]. cbn [cuckoo_rehash_loop].
  destruct (Z.ltb_spec i (flows_cnt q)) as [Hlt | Hge]; cbn [negb];
    [|reflexivity].
  pose proof (rehash_round_spec q i skb v) as Hround.
  destruct (rehash_round q i skb v) as [tr [r | q2 skb2 v2]]; [reflexivity|].
  destruct Hround as (_ & Hlt2 & Hch & _).
  destruct (only_hashtable_changed_fields _ _ Hch) as (Hn & _).
  rewrite (IH fuel' q2 (i + 1 + 1) skb2 v2) by lia. reflexivity.
Qed.

(** ** Cuckoo displacement *)

(** C2. [cuckoo_rehash] addresses [hashtable[H - 1]], not the bucket [H]
    that [fq_codel_hash_modified] designates. For [skb_c], whose first hash
    is 0, the bucket addressed is -1, outside the table, and classification
    stops there; for [skb_d], whose first hash is 5, the value is placed in
    bucket 4. *)
Theorem cuckoo_rehash_addresses_bucket_before :
  (forall q skb t v,
     ev_index (fst (cuckoo_try q skb t v))
     = s32 (fq_codel_hash_modified q skb t - 1))
  /\ fq_codel_hash_modified (priv sch_ab) skb_c 0 = 0
  /\ cuckoo_rehash_trace (priv sch_ab) skb_c 1008
     = ([Wild (-1)], Fault (OOB_hashtable (-1)))
  /\ fq_codel_cuckoo_hash skb_c (priv sch_ab) = Fault (OOB_hashtable (-1))
  /\ fq_codel_hash_modified (priv sch_ab) skb_d 0 = 5
  /\ fst (cuckoo_rehash_trace (priv sch_ab) skb_d 1008) = [Place 4 1008].
Proof.
  split.
  - intros q skb t v.
    destruct (cuckoo_try_inv q skb t v)
      as [[_ E] | [(_ & _ & E) | (old & _ & _ & _ & E)]];
      rewrite E; reflexivity.
  - vm_compute. repeat split.
Qed.

(** C9. The displacement loop never runs out of the [flows_cnt + 1] passes
    it is given and makes at most [flows_cnt] swaps, whatever the state;
    more fuel changes nothing. When it leaves because the bound is
    exhausted or because the flow displaced last has no packet,
    [cuckoo_rehash] returns: only the hashtable has changed, the bucket
    swapped last holds the value written to it, and the classifier returns
    the class it allocated. *)
Theorem cuckoo_rehash_terminates q skb v :
  let tr := fst (cuckoo_rehash_trace q skb v) in
  let r := snd (cuckoo_rehash_trace q skb v) in
  (swaps tr <= Z.to_nat (flows_cnt q))%nat
  /\ r <> Fault Out_of_fuel
  /\ (forall fuel, (S (Z.to_nat (flows_cnt q)) <= fuel)%nat ->
        cuckoo_rehash_loop fuel q 0 skb v = cuckoo_rehash_trace q skb v)
  /\ forall q',
       r = Ok (Exit_exhausted, q') \/ r = Ok (Exit_empty_head, q') ->
       cuckoo_rehash skb v q = Ok (tt, q')
       /\ only_hashtable_changed q q' /\ last_written tr q'
       /\ forall e, get_next_empty_flow q = Ok e -> v = s32 (u32 (e + 1)) ->
            displace skb q = Ok (u32 (e + 1), q').
Proof.
  intros tr r.
  pose proof (cuckoo_rehash_loop_spec (S (Z.to_nat (flows_cnt q))) q 0 skb v)
    as (Hsw & Hfuel & Hok).
  fold (cuckoo_rehash_trace q skb v) in Hsw, Hfuel, Hok. fold tr in Hsw, Hok.
  fold r in Hfuel, Hok.
  split; [lia|]. split; [apply Hfuel; lia|]. split.
  - intros fuel Hle. unfold cuckoo_rehash_trace.
    apply cuckoo_rehash_loop_fuel; lia.
  - intros q' Hexit.
    assert (exists how, r = Ok (how, q')) as [how Hr]
      by (destruct Hexit; eauto).
    destruct (Hok how q' Hr) as (H1 & _ & H3).
    assert (cuckoo_rehash skb v q = Ok (tt, q')) as Hrun
      by (unfold cuckoo_rehash; fold r; rewrite Hr; reflexivity).
    split; [exact Hrun|]. split; [exact H1|]. split; [exact H3|].
    intros e He Hv. unfold displace, bind, lift. rewrite He, <- Hv, Hrun.
    reflexivity.
Qed.

Lemma cuckoo_rehash_terminates_witness :
  exists q',
    snd (cuckoo_rehash_trace (priv sch_chain) skb_n 760)
    = Ok (Exit_empty_head, q')
    /\ swaps (fst (cuckoo_rehash_trace (priv sch_chain) skb_n 760)) = 5%nat
    /\ cuckoo_rehash skb_n 760 (priv sch_chain) = Ok (tt, q')
    /\ only_hashtable_changed (priv sch_chain) q'
    /\ last_written (fst (cuckoo_rehash_trace (priv sch_chain) skb_n 760)) q'
    /\ displace skb_n (priv sch_chain) = Ok (760, q').
Proof.
  destruct (snd (cuckoo_rehash_trace (priv sch_chain) skb_n 760))
    as [[how q'] | f] eqn:Hr.
  - exists q'.
    assert (how = Exit_empty_head) as ->.
    { assert (match snd (cuckoo_rehash_trace (priv sch_chain) skb_n 760) with
              | Ok (h, _) => h
              | Fault _ => Exit_placed
              end = Exit_empty_head) as Hh by (vm_compute; reflexivity).
      rewrite Hr in Hh. exact Hh. }
    split; [reflexivity|].
    split; [vm_compute; reflexivity|].
    destruct (cuckoo_rehash_terminates (priv sch_chain) skb_n 760)
      as (_ & _ & _ & Hexit).
    destruct (Hexit q' (or_intror Hr)) as (H1 & H2 & H3 & H4).
    split; [exact H1|]. split; [exact H2|]. split; [exact H3|].
    apply (H4 759); vm_compute; reflexivity.
  - exfalso.
    assert (match snd (cuckoo_rehash_trace (priv sch_chain) skb_n 760) with
            | Ok _ => true
            | Fault _ => false
            end = true) as Hh by (vm_compute; reflexivity).
    rewrite Hr in Hh. discriminate.
Defined.

(** ** Displacement on a well-formed table *)

Lemma temp_index_1_range q skb :
  0 < flows_cnt q <= 65536 ->
  flows_cnt q - 1 <= temp_index q skb 1 < 2 * flows_cnt q - 1.
Proof.
  intros Hn. unfold temp_index.
  pose proof (hash_modified_1_range q skb Hn).
  rewrite s32_small; lia.
Qed.

Lemma table_wf_insert q ti v :
  table_wf q -> 0 <= v <= 1024 ->
  table_wf (set_hashtable (<[ti := u16 v]> (hashtable q)) q).
Proof.
  intros (Hl & Hf & Hall) Hv. unfold table_wf. simpl.
  rewrite length_insert. split; [exact Hl|]. split; [exact Hf|].
  apply Forall_insert; [exact Hall|]. rewrite u16_small; lia.
Qed.

Lemma table_entry_range q i old :
  table_wf q -> hashtable q !! i = Some old -> 0 <= old <= 1024.
Proof.
  intros (_ & _ & Hall) Hi. rewrite Forall_lookup in Hall.
  exact (Hall _ _ Hi).
Qed.

Lemma table_flow q v :
  1024 <= flows_cnt q -> table_wf q -> 1 <= v <= 1024 ->
  exists fl, arr_get OOB_flows (flows q) (v - 1) = Ok fl
             /\ flows q !! Z.to_nat (v - 1) = Some fl.
Proof.
  intros Hn (_ & Hf & _) Hv.
  destruct (arr_get_in OOB_flows (flows q) (v - 1)) as [fl Hfl]; [lia|].
  exists fl. split; [exact Hfl|]. apply arr_get_Ok in Hfl. tauto.
Qed.

(** A pass that stays inside the table does not fault. *)
Lemma rehash_round_ok q i skb v :
  1024 <= flows_cnt q <= 65536 -> table_wf q -> 1 <= v <= 1024 ->
  in_table (fst (rehash_round q i skb v)) = true ->
  match snd (rehash_round q i skb v) with
  | Round_done r => exists how q', r = Ok (how, q') /\ table_wf q'
  | Round_next q2 skb2 v2 => table_wf q2 /\ 1 <= v2 <= 1024
  end.
Proof.
  intros Hn Hwf Hv. unfold rehash_round.
  pose proof Hwf as (Hlen & _ & _).
  destruct (cuckoo_try_inv q skb 0 v)
    as [[_ E] | [(Hin & _ & E) | (old & Hin & Hold & Hne & E)]];
    rewrite E; clear E.
  - cbn. discriminate.
  - intros _. cbn [snd]. eexists _, _. split; [reflexivity|].
    apply table_wf_insert; [exact Hwf | lia].
  - set (q1 := set_hashtable _ q).
    assert (table_wf q1) as Hwf1 by (apply table_wf_insert; [exact Hwf | lia]).
    pose proof (table_entry_range q _ old Hwf Hold) as Hor.
    change (flows_cnt q1) with (flows_cnt q).
    destruct (i + 1 >=? flows_cnt q).
    { intros _. cbn [snd]. eauto. }
    destruct (table_flow q1 old ltac:(simpl; lia) Hwf1 ltac:(lia))
      as (fl1 & -> & Hfl1).
    destruct (head fl1) as [| skb1 rest1] eqn:Hhd1.
    { intros _. cbn [snd]. eauto. }
    pose proof (temp_index_1_range q1 skb1 ltac:(simpl; lia)) as Ht1.
    pose proof Hwf1 as (Hlen1 & _ & _).
    change (flows_cnt q1) with (flows_cnt q) in Ht1, Hlen1.
    destruct (cuckoo_try_inv q1 skb1 1 old)
      as [[Hout _] | [(Hin2 & _ & E) | (old2 & Hin2 & Hold2 & Hne2 & E)]];
      [lia | rewrite E; clear E ..].
    + intros _. cbn [snd]. eexists _, _. split; [reflexivity|].
      apply table_wf_insert; [exact Hwf1 | lia].
    + set (q2 := set_hashtable _ q1).
      assert (table_wf q2) as Hwf2
        by (apply table_wf_insert; [exact Hwf1 | lia]).
      pose proof (table_entry_range q1 _ old2 Hwf1 Hold2) as Hor2.
      destruct (table_flow q2 old2 ltac:(simpl; lia) Hwf2 ltac:(lia))
        as (fl2 & -> & Hfl2).
      destruct (head fl2) as [| skb2 rest2] eqn:Hhd2.
      { intros _. cbn [snd]. eauto. }
      intros _. cbn [snd]. split; [exact Hwf2 | lia].
Qed.

(** A pass, and a loop, that does not fault stayed inside the table. *)
Lemma rehash_round_in_table q i skb v :
  match rehash_round q i skb v with
  | (tr, Round_done (Fault _)) => True
  | (tr, _) => in_table tr = true
  end.
Proof.
  unfold rehash_round.
  destruct (cuckoo_try_inv q skb 0 v)
    as [[_ E] | [(_ & _ & E) | (old & _ & _ & _ & E)]]; rewrite E; clear E;
    [exact I | reflexivity |].
  set (q1 := set_hashtable _ q).
  destruct (i + 1 >=? flows_cnt q1); [reflexivity|].
  destruct (arr_get OOB_flows (flows q1) (old - 1)) as [fl1 | f]; [|exact I].
  destruct (head fl1) as [| skb1 rest1]; [reflexivity|].
  destruct (cuckoo_try_inv q1 skb1 1 old)
    as [[_ E] | [(_ & _ & E) | (old2 & _ & _ & _ & E)]]; rewrite E; clear E;
    [exact I | reflexivity |].
  set (q2 := set_hashtable _ q1).
  destruct (arr_get OOB_flows (flows q2) (old2 - 1)) as [fl2 | f]; [|exact I].
  destruct (head fl2); reflexivity.
Qed.

Lemma in_table_app tr tr' :
  in_table (tr ++ tr') = in_table tr && in_table tr'.
Proof. unfold in_table. apply forallb_app. Qed.

Lemma cuckoo_rehash_loop_in_table fuel : forall q i skb v r,
  snd (cuckoo_rehash_loop fuel q i skb v) = Ok r ->
  in_table (fst (cuckoo_rehash_loop fuel q i skb v)) = true.
Proof.
  induction fuel as [| fuel IH]; intros q i skb v r; cbn [cuckoo_rehash_loop];
    [discriminate|].
  destruct (negb (i <? flows_cnt q)); [reflexivity|].
  pose proof (rehash_round_in_table q i skb v) as Hround.
  destruct (rehash_round q i skb v) as [tr [[ok | f] | q2 skb2 v2]];
    cbn [fst snd]; try discriminate; [intros _; exact Hround|].
  specialize (IH q2 (i + 1 + 1) skb2 v2 r).
  destruct (cuckoo_rehash_loop fuel q2 (i + 1 + 1) skb2 v2) as [tr' r'].
  cbn [fst snd] in *. intros Hr. rewrite in_table_app, Hround, (IH Hr).
  reflexivity.
Qed.

Lemma cuckoo_rehash_loop_ok fuel : forall q i skb v,
  Z.max 1 (flows_cnt q - i + 1) <= Z.of_nat fuel ->
  1024 <= flows_cnt q <= 65536 -> table_wf q -> 1 <= v <= 1024 ->
  in_table (fst (cuckoo_rehash_loop fuel q i skb v)) = true ->
  exists how q',
    snd (cuckoo_rehash_loop fuel q i skb v) = Ok (how, q')
    /\ table_wf q' /\ only_hashtable_changed q q'.
Proof.
  induction fuel as [| fuel IH]; intros q i skb v Hfuel Hn Hwf Hv; [lia|].
  pose proof (cuckoo_rehash_loop_spec (S fuel) q i skb v) as (_ & _ & Hch).
  cbn [cuckoo_rehash_loop] in *.
  destruct (Z.ltb_spec i (flows_cnt q)) as [Hlt | Hge]; cbn [negb] in *.
  2:{ intros _. cbn [snd]. eexists _, _. split; [reflexivity|].
      split; [exact Hwf | apply only_hashtable_changed_refl]. }
  pose proof (rehash_round_ok q i skb v Hn Hwf Hv) as Hok.
  pose proof (rehash_round_spec q i skb v) as Hround.
  destruct (rehash_round q i skb v) as [tr [r | q2 skb2 v2]];
    cbn [fst snd] in Hok.
  - cbn [fst snd] in *. intros Htr.
    destruct (Hok Htr) as (how & q' & -> & Hwf').
    exists how, q'. split; [reflexivity|]. split; [exact Hwf'|].
    apply (Hch how q' eq_refl).
  - destruct Hround as (_ & Hlt2 & Hch2 & _).
    destruct (only_hashtable_changed_fields _ _ Hch2) as (Hcnt & _).
    specialize (IH q2 (i + 1 + 1) skb2 v2).
    destruct (cuckoo_rehash_loop fuel q2 (i + 1 + 1) skb2 v2) as [tr' r'].
    cbn [fst snd] in *. rewrite in_table_app. intros Htr.
    apply andb_true_iff in Htr as [Htr Htr'].
    destruct (Hok Htr) as (Hwf2 & Hv2).
    destruct (IH ltac:(lia) ltac:(lia) Hwf2 Hv2 Htr')
      as (how & q' & Hr & Hwf' & Hch').
    exists how, q'. split; [exact Hr|]. split; [exact Hwf'|].
    eapply only_hashtable_changed_trans; eassumption.
Qed.

(** ** The cuckoo classifier on a well-formed state *)

Lemma ht_read_in q h :
  0 <= h < Z.of_nat (length (hashtable q)) ->
  exists x, ht_read h q = Ok (x, q) /\ hashtable q !! Z.to_nat h = Some x.
Proof.
  intros Hh. destruct (arr_get_in OOB_hashtable (hashtable q) h Hh) as [x Hx].
  exists x. unfold ht_read, lift. rewrite Hx. split; [reflexivity|].
  apply arr_get_Ok in Hx. tauto.
Qed.

Lemma install_next_empty_ok q h :
  mask_wf q -> mask_index_sound q ->
  0 <= h < Z.of_nat (length (hashtable q)) ->
  exists v,
    install_next_empty h q
    = Ok (v, set_hashtable (<[Z.to_nat h := u16 v]> (hashtable q)) q)
    /\ 1 <= v <= 1024.
Proof.
  intros Hm Hs Hh.
  destruct (get_next_empty_flow_range q Hm Hs) as (e & He & Her & _).
  exists (e + 1). split; [|lia].
  unfold install_next_empty, bind, lift, ht_write. rewrite He.
  rewrite (u32_small (e + 1)) by lia.
  rewrite arr_set_in by exact Hh. cbn [rbind].
  destruct (ht_read_in
              (set_hashtable (<[Z.to_nat h := u16 (e + 1)]> (hashtable q)) q) h)
    as (x & Hx & Hlx).
  { simpl. rewrite length_insert. exact Hh. }
  rewrite Hx. simpl in Hlx. rewrite list_lookup_insert_eq in Hlx by lia.
  inversion Hlx. rewrite u16_small by lia. reflexivity.
Qed.

Lemma flow_head_ok q v :
  1024 <= flows_cnt q -> table_wf q -> 1 <= v <= 1024 ->
  exists fl, flow_head (v - 1) q = Ok (head fl, q)
             /\ flows q !! Z.to_nat (v - 1) = Some fl.
Proof.
  intros Hn Hwf Hv. destruct (table_flow q v Hn Hwf Hv) as (fl & Hfl & Hl).
  exists fl. unfold flow_head, lift. rewrite Hfl. split; [reflexivity | exact Hl].
Qed.

(** On a well-formed state the classifier returns a class whose slot the
    bitmask covers, and changes nothing but the hashtable, provided the
    displacement it may need stays inside the table, which it did if the
    classifier returned at all. *)
Lemma fq_codel_cuckoo_hash_ok q skb :
  classifier_wf q ->
  in_table (displace_trace q skb) = true
  \/ (exists r, fq_codel_cuckoo_hash skb q = Ok r) ->
  exists v q',
    fq_codel_cuckoo_hash skb q = Ok (v, q')
    /\ 1 <= v <= 1024 /\ only_hashtable_changed q q' /\ table_wf q'.
Proof.
  intros (Hn & Hwf & Hm & Hs) Htable.
  pose proof Hwf as (Hlen & Hflen & Hall).
  pose proof (hash_modified_0_range q skb ltac:(lia)) as Hh1.
  pose proof (hash_modified_1_range q skb ltac:(lia)) as Hh2.
  assert (exists body, body = fq_codel_cuckoo_hash skb q) as (body & Hbody)
    by eauto.
  rewrite <- Hbody. rewrite <- Hbody in Htable.
  unfold fq_codel_cuckoo_hash, bind, gets in Hbody.
  set (hash1 := fq_codel_hash_modified q skb 0) in *.
  set (hash2 := fq_codel_hash_modified q skb 1) in *.
  destruct (ht_read_in q hash1 ltac:(lia)) as (a & Ha & Hla).
  destruct (ht_read_in q hash2 ltac:(lia)) as (b & Hb & Hlb).
  pose proof (table_entry_range q _ a Hwf Hla) as Har.
  pose proof (table_entry_range q _ b Hwf Hlb) as Hbr.
  rewrite Ha, Hb in Hbody.
  assert (forall h, 0 <= h < Z.of_nat (length (hashtable q)) ->
            exists v q',
              install_next_empty h q = Ok (v, q')
              /\ 1 <= v <= 1024 /\ only_hashtable_changed q q'
              /\ table_wf q') as Hinstall.
  { intros h Hh. destruct (install_next_empty_ok q h Hm Hs Hh) as (v & Hv & Hvr).
    eexists v, _. split; [exact Hv|]. split; [exact Hvr|].
    split; [apply insert_only_hashtable | apply table_wf_insert; [auto | lia]]. }
  assert (forall x h, ht_read h q = Ok (x, q) -> 1 <= x <= 1024 ->
            exists v q',
              ht_read h q = Ok (v, q')
              /\ 1 <= v <= 1024 /\ only_hashtable_changed q q'
              /\ table_wf q') as Hreuse.
  { intros x h Hx Hxr. exists x, q. split; [exact Hx|]. split; [exact Hxr|].
    split; [apply only_hashtable_changed_refl | exact Hwf]. }
  destruct (Z.eqb_spec a 0) as [Ha0 | Ha0], (Z.eqb_spec b 0) as [Hb0 | Hb0];
    cbn [andb negb] in Hbody.
  - subst body. apply Hinstall. lia.
  - destruct (flow_head_ok q b ltac:(lia) Hwf ltac:(lia)) as (fl & Hfl & _).
    rewrite Hfl in Hbody. unfold same_flow_or in Hbody.
    destruct (head fl) as [| p rest].
    + subst body. apply (Hreuse b); [exact Hb | lia].
    + destruct (skb_get_hash p =? skb_get_hash skb); subst body.
      * apply (Hreuse b); [exact Hb | lia].
      * apply Hinstall. lia.
  - destruct (flow_head_ok q a ltac:(lia) Hwf ltac:(lia)) as (fl & Hfl & _).
    rewrite Hfl in Hbody. unfold same_flow_or in Hbody.
    destruct (head fl) as [| p rest].
    + subst body. apply (Hreuse a); [exact Ha | lia].
    + destruct (skb_get_hash p =? skb_get_hash skb); subst body.
      * apply (Hreuse a); [exact Ha | lia].
      * apply Hinstall. lia.
  - destruct (flow_head_ok q a ltac:(lia) Hwf ltac:(lia)) as (fl & Hfl & _).
    rewrite Hfl in Hbody.
    destruct (head fl) as [| p rest] eqn:Hhd.
    { subst body. apply (Hreuse a); [exact Ha | lia]. }
    destruct (flow_head_ok q b ltac:(lia) Hwf ltac:(lia)) as (fl2 & Hfl2 & _).
    rewrite Hfl2 in Hbody.
    destruct (head fl2) as [| p2 rest2] eqn:Hhd2.
    { subst body. apply (Hreuse b); [exact Hb | lia]. }
    destruct (skb_get_hash p =? skb_get_hash skb) eqn:Hp.
    { subst body. apply (Hreuse a); [exact Ha | lia]. }
    destruct (skb_get_hash p2 =? skb_get_hash skb) eqn:Hp2.
    { subst body. apply (Hreuse b); [exact Hb | lia]. }
    subst body.
    assert (reaches_displace q skb = true) as Hreach.
    { unfold reaches_displace. fold hash1 hash2.
      rewrite Ha, Hb. cbn [answer]. rewrite Hfl, Hfl2. cbn [answer].
      rewrite ?Hhd, ?Hhd2, Hp, Hp2.
      destruct (Z.eqb_spec a 0), (Z.eqb_spec b 0); try contradiction.
      reflexivity. }
    destruct (get_next_empty_flow_range q Hm Hs) as (e & He & Her & _).
    unfold displace, displace_trace, bind, lift in *.
    rewrite Hreach, He in *.
    rewrite (u32_small (e + 1)), (s32_small (e + 1)) in * by lia.
    assert (in_table (fst (cuckoo_rehash_trace q skb (e + 1))) = true)
      as Hin.
    { destruct Htable as [Htable | [r Hr]]; [exact Htable|].
      unfold cuckoo_rehash in Hr.
      destruct (snd (cuckoo_rehash_trace q skb (e + 1))) as [done |] eqn:Hd;
        [|discriminate].
      exact (cuckoo_rehash_loop_in_table _ _ _ _ _ _ Hd). }
    destruct (cuckoo_rehash_loop_ok (S (Z.to_nat (flows_cnt q))) q 0 skb (e + 1)
                ltac:(lia) Hn Hwf ltac:(lia) Hin)
      as (how & q' & Hr & Hwf' & Hch).
    unfold cuckoo_rehash, cuckoo_rehash_trace. rewrite Hr. cbn [rbind snd].
    exists (e + 1), q'. split; [reflexivity|]. split; [lia|]. auto.
Qed.

(** ** Checking the invariants on a concrete state *)

Lemma forallb_Forall {A} (f : A -> bool) (P : A -> Prop) l :
  (forall x, f x = true -> P x) -> forallb f l = true -> Forall P l.
Proof.
  intros Hf Hl. apply Forall_forall. intros x Hx.
  apply Hf. rewrite forallb_forall in Hl. apply Hl.
  apply list_elem_of_In. exact Hx.
Qed.

Lemma table_wfb_sound q : table_wfb q = true -> table_wf q.
Proof.
  unfold table_wfb, table_wf. rewrite !andb_true_iff, !Nat.eqb_eq.
  intros [[H1 H2] H3]. split; [exact H1|]. split; [exact H2|].
  refine (forallb_Forall _ _ _ _ H3). intros x Hx.
  apply andb_true_iff in Hx as [Hx1 Hx2]. lia.
Qed.

Lemma mask_wfb_sound q : mask_wfb q = true -> mask_wf q.
Proof.
  unfold mask_wfb, mask_wf. rewrite !andb_true_iff, Nat.eqb_eq.
  intros [[[H1 H2] H3] H4]. split; [exact H1|]. split; [lia|].
  refine (forallb_Forall _ _ _ _ H4). intros x Hx.
  apply andb_true_iff in Hx as [Hx1 Hx2]. lia.
Qed.

Lemma mask_index_soundb_sound q :
  mask_index_soundb q = true -> mask_index_sound q.
Proof.
  unfold mask_index_soundb, mask_index_sound.
  rewrite forallb_forall. intros Hall g w Hg Hw Hz.
  specialize (Hall (Z.to_nat g)). rewrite Hw, Z2Nat.id, Hz in Hall by lia.
  assert (implb true (negb (w =? 0)) = true) as Hi
    by (apply Hall, in_seq; lia).
  simpl in Hi. destruct (Z.eqb_spec w 0); [discriminate | assumption].
Qed.

Lemma classifier_wfb_sound q : classifier_wfb q = true -> classifier_wf q.
Proof.
  unfold classifier_wfb, classifier_wf. rewrite !andb_true_iff.
  intros [[[[H1 H2] H3] H4] H5]. split; [lia|].
  auto using table_wfb_sound, mask_wfb_sound, mask_index_soundb_sound.
Qed.

(** ** The range of the cuckoo classifier *)

(** C1. [fq_codel_init] accepts [flows 4], and on the scheduler it leaves
    the first packet classified by the hashtable gets class 1024, that is
    slot 1023, outside [0, 4): [get_next_empty_flow] hands out the slots
    of the 32x32 bitmask and never looks at [flows_cnt], although the
    priority and filter paths of [fq_codel_classify] bound the class by
    [flows_cnt]. Enqueueing the packet then reads [flows[1023]]. *)
Lemma classify_out_of_range_flows_4 :
  flows_cnt (priv sch_4) = 4
  /\ filter_list (priv sch_4) = None
  /\ answer (fq_codel_cuckoo_hash skb_a (priv sch_4)) = Some 1024
  /\ answer (fq_codel_classify skb_a 0 sch_4) = Some (1024, 0)
  /\ ~ (0 <= 1024 - 1 < flows_cnt (priv sch_4))
  /\ fq_codel_enqueue skb_a 0 sch_4 = Fault (OOB_flows 1023).
Proof. vm_compute. repeat split; intros [H1 H2]; discriminate. Qed.



(** ** Fat-flow drop *)

Lemma bytes_nonneg l : 0 <= bytes l.
Proof.
  induction l as [| p l IH]; simpl; [lia|].
  pose proof (u32_range (pkt_len p)). unfold qdisc_pkt_len. lia.
Qed.

Lemma bytes_app l l' : bytes (l ++ l') = bytes l + bytes l'.
Proof. induction l as [| p l IH]; simpl; lia. Qed.

Lemma mem_bytes_app l l' : mem_bytes (l ++ l') = mem_bytes l + mem_bytes l'.
Proof. induction l as [| p l IH]; simpl; lia. Qed.

Lemma u32_add_u32 a b : u32 (u32 a + b) = u32 (a + b).
Proof. unfold u32. rewrite Zplus_mod_idemp_l. reflexivity. Qed.

Lemma u32_sub_u32 a b : u32 (a - u32 b) = u32 (a - b).
Proof. unfold u32. rewrite Zminus_mod_idemp_r. reflexivity. Qed.

(** The scan keeps the first largest backlog seen. *)
Lemma fat_flow_scan_spec n : forall q i maxbacklog idx,
  (Z.to_nat i + n <= length (backlogs q))%nat -> 0 <= i ->
  exists maxbacklog' idx',
    fat_flow_scan n q i maxbacklog idx = Ok (maxbacklog', idx')
    /\ maxbacklog <= maxbacklog'
    /\ (forall j b, (Z.to_nat i <= j < Z.to_nat i + n)%nat ->
          backlogs q !! j = Some b -> b <= maxbacklog')
    /\ ((maxbacklog' = maxbacklog /\ idx' = idx)
        \/ (maxbacklog < maxbacklog' /\ i <= idx' < i + Z.of_nat n
            /\ backlogs q !! Z.to_nat idx' = Some maxbacklog'
            /\ forall j b, (Z.to_nat i <= j < Z.to_nat idx')%nat ->
                 backlogs q !! j = Some b -> b < maxbacklog')).
Proof.
  induction n as [| n IH]; intros q i maxbacklog idx Hlen Hi.
  - exists maxbacklog, idx. simpl. split; [reflexivity|]. split; [lia|].
    split; [intros; lia | left; auto].
  - cbn [fat_flow_scan].
    destruct (arr_get_in OOB_backlogs (backlogs q) i ltac:(lia)) as [b Hb].
    rewrite Hb. cbn [rbind]. apply arr_get_Ok in Hb as [_ Hb].
    destruct (Z.gtb_spec b maxbacklog) as [Hgt | Hle].
    + destruct (IH q (i + 1) b i ltac:(lia) ltac:(lia))
        as (m' & idx' & Hrun & Hm & Hall & Hcase).
      exists m', idx'. split; [exact Hrun|]. split; [lia|]. split.
      * intros j b' Hj Hb'.
        destruct (Nat.eq_dec j (Z.to_nat i)) as [-> | Hne].
        -- rewrite Hb in Hb'. inversion Hb'; subst. lia.
        -- apply (Hall j b'); [lia | exact Hb'].
      * right. destruct Hcase as [[-> ->] | (Hlt & Hr & Hl & Hfirst)].
        -- split; [lia|]. split; [lia|]. split; [exact Hb|]. intros; lia.
        -- split; [lia|]. split; [lia|]. split; [exact Hl|].
           intros j b' Hj Hb'.
           destruct (Nat.eq_dec j (Z.to_nat i)) as [-> | Hne].
           ++ rewrite Hb in Hb'. inversion Hb'; subst. lia.
           ++ apply (Hfirst j b'); [lia | exact Hb'].
    + destruct (IH q (i + 1) maxbacklog idx ltac:(lia) ltac:(lia))
        as (m' & idx' & Hrun & Hm & Hall & Hcase).
      exists m', idx'. split; [exact Hrun|]. split; [lia|]. split.
      * intros j b' Hj Hb'.
        destruct (Nat.eq_dec j (Z.to_nat i)) as [-> | Hne].
        -- rewrite Hb in Hb'. inversion Hb'; subst. lia.
        -- apply (Hall j b'); [lia | exact Hb'].
      * destruct Hcase as [[-> ->] | (Hlt & Hr & Hl & Hfirst)];
          [left; auto | right].
        split; [lia|]. split; [lia|]. split; [exact Hl|].
        intros j b' Hj Hb'.
        destruct (Nat.eq_dec j (Z.to_nat i)) as [-> | Hne].
        -- rewrite Hb in Hb'. inversion Hb'; subst. lia.
        -- apply (Hfirst j b'); [lia | exact Hb'].
Qed.

Lemma fat_flow_scan_fat q :
  length (backlogs q) = Z.to_nat (flows_cnt q) ->
  (forall j b, backlogs q !! j = Some b -> 0 <= b) ->
  exists maxbacklog idx,
    fat_flow_scan (Z.to_nat (flows_cnt q)) q 0 0 0 = Ok (maxbacklog, idx)
    /\ is_fat_flow q idx maxbacklog.
Proof.
  intros Hlen Hnn.
  destruct (fat_flow_scan_spec (Z.to_nat (flows_cnt q)) q 0 0 0)
    as (m & idx & Hrun & Hm & Hall & Hcase); [lia | lia |].
  exists m, idx. split; [exact Hrun|]. split.
  - intros j b Hb. apply (Hall j b); [|exact Hb].
    apply lookup_lt_Some in Hb. lia.
  - destruct Hcase as [[-> ->] | (Hlt & Hr & Hl & Hfirst)]; [left; auto|].
    right. split; [lia|]. split; [exact Hl|]. split; [lia|].
    intros j b Hj Hb. apply (Hfirst j b); [lia | exact Hb].
Qed.

(** The [do ... while] loop frees a prefix of the queue: it goes on while
    the count is below [max_packets] and the bytes freed are below
    [threshold], and stops at the first packet after which one of the two
    fails. *)
Lemma drop_loop_spec queue : forall max_packets threshold i len mem,
  queue <> [] -> threshold <= len + bytes queue ->
  0 <= i -> 0 <= len -> len + bytes queue < 2 ^ 32 ->
  i + Z.of_nat (length queue) < 2 ^ 32 ->
  exists freed rest,
    drop_loop queue max_packets threshold i len mem
    = Ok (rest, freed,
          (i + Z.of_nat (length freed), len + bytes freed,
           u32 (mem + mem_bytes freed)))
    /\ queue = freed ++ rest
    /\ 1 <= Z.of_nat (length freed)
    /\ (max_packets <= i + Z.of_nat (length freed)
        \/ threshold <= len + bytes freed)
    /\ forall j, 1 <= j < Z.of_nat (length freed) ->
         i + j < max_packets
         /\ len + bytes (take (Z.to_nat j) queue) < threshold.
Proof.
  induction queue as [| skb rest IH];
    intros max_packets threshold i len mem Hne Hthr Hi Hlen Hb Hcnt;
    [congruence|].
  cbn [drop_loop]. cbn [bytes fold_right length] in Hthr, Hb, Hcnt.
  fold (bytes rest) in Hthr, Hb.
  pose proof (bytes_nonneg rest) as Hrest.
  pose proof (u32_range (pkt_len skb)) as Hl. fold (qdisc_pkt_len skb) in Hl.
  rewrite (u32_small (len + qdisc_pkt_len skb)) by lia.
  rewrite (u32_small (i + 1)) by lia.
  destruct (Z.ltb_spec (i + 1) max_packets) as [Hlt | Hge];
    [destruct (Z.ltb_spec (len + qdisc_pkt_len skb) threshold) as [Hlt2 | Hge2]|];
    cbn [andb].
  - assert (rest <> []) as Hne' by (intros ->; simpl in *; lia).
    destruct (IH max_packets threshold (i + 1) (len + qdisc_pkt_len skb)
                (u32 (mem + mem_usage skb)) Hne' ltac:(lia) ltac:(lia)
                ltac:(lia) ltac:(lia) ltac:(lia))
      as (freed & rest' & -> & Hq & Hk & Hstop & Hgo).
    cbn [rbind]. exists (skb :: freed), rest'.
    cbn [length bytes mem_bytes fold_right].
    fold (bytes freed). fold (mem_bytes freed).
    rewrite u32_add_u32. split.
    { replace (i + Z.of_nat (S (length freed)))
        with (i + 1 + Z.of_nat (length freed)) by lia.
      rewrite !Z.add_assoc. reflexivity. }
    split; [simpl; congruence|]. split; [lia|]. split; [lia|].
    intros j Hj. destruct (Z.eq_dec j 1) as [-> | Hj1].
    + simpl. lia.
    + destruct (Hgo (j - 1) ltac:(lia)) as [Hg1 Hg2]. split; [lia|].
      replace (Z.to_nat j) with (S (Z.to_nat (j - 1))) by lia.
      cbn [take bytes fold_right]. fold (bytes (take (Z.to_nat (j - 1)) rest)).
      lia.
  - exists [skb], rest. cbn [length bytes mem_bytes fold_right].
    rewrite !Z.add_0_r. split; [reflexivity|]. split; [reflexivity|].
    split; [lia|]. split; [lia|]. intros; lia.
  - exists [skb], rest. cbn [length bytes mem_bytes fold_right].
    rewrite !Z.add_0_r. split; [reflexivity|]. split; [reflexivity|].
    split; [lia|]. split; [lia|]. intros; lia.
Qed.

(** [fq_codel_drop] picks the first slot with the largest backlog and
    frees packets from the head of its queue: at least one, going on
    exactly while the count is below [max_packets] and the bytes freed are
    below half the backlog ([maxbacklog >> 1]). The flow's drop counter,
    its backlog, the memory in use, and the qdisc's drop, backlog and
    length counters move by what was freed; the overlimit counters are
    left to the caller. *)
Lemma fq_codel_drop_fat sch max_packets :
  backlogs_wf (priv sch) ->
  (exists j b, backlogs (priv sch) !! j = Some b /\ 0 < b) ->
  exists idx maxbacklog fl freed rest sch',
    fq_codel_drop max_packets sch = Ok ((idx, freed), sch')
    /\ is_fat_flow (priv sch) idx maxbacklog
    /\ 0 < maxbacklog
    /\ flows (priv sch) !! Z.to_nat idx = Some fl
    /\ head fl = freed ++ rest
    /\ 1 <= Z.of_nat (length freed)
    /\ (max_packets <= Z.of_nat (length freed)
        \/ maxbacklog / 2 <= bytes freed)
    /\ (forall j, 1 <= j < Z.of_nat (length freed) ->
          j < max_packets
          /\ bytes (take (Z.to_nat j) (head fl)) < maxbacklog / 2)
    /\ flows (priv sch')
       = <[Z.to_nat idx :=
             mk_flow rest (deficit fl)
               (u32 (dropped fl + Z.of_nat (length freed)))]>
           (flows (priv sch))
    /\ backlogs (priv sch')
       = <[Z.to_nat idx := maxbacklog - bytes freed]> (backlogs (priv sch))
    /\ memory_usage (priv sch')
       = u32 (memory_usage (priv sch) - mem_bytes freed)
    /\ qstats_drops sch' = u32 (qstats_drops sch + Z.of_nat (length freed))
    /\ qstats_backlog sch' = u32 (qstats_backlog sch - bytes freed)
    /\ qlen sch' = u32 (qlen sch - Z.of_nat (length freed))
    /\ drop_overlimit (priv sch') = drop_overlimit (priv sch)
    /\ drop_overmemory (priv sch') = drop_overmemory (priv sch).
Proof.
  intros (Hbl & Hfl & Hacc) (j0 & b0 & Hj0 & Hb0).
  set (q := priv sch) in *.
  assert (forall j b, backlogs q !! j = Some b -> 0 <= b) as Hnn.
  { intros j b Hb.
    destruct (lookup_lt_is_Some_2 (flows q) j) as [fl Hflj].
    { apply lookup_lt_Some in Hb. lia. }
    destruct (Hacc j fl b Hflj Hb) as (-> & _). apply bytes_nonneg. }
  destruct (fat_flow_scan_fat q Hbl Hnn) as (m & idx & Hscan & Hfat).
  pose proof Hfat as (Hall & Hcase).
  destruct Hcase as [[-> _] | (Hpos & Hidx & Hir & Hfirst)].
  { specialize (Hall j0 b0 Hj0). lia. }
  destruct (lookup_lt_is_Some_2 (flows q) (Z.to_nat idx)) as [fl Hflow];
    [lia|].
  destruct (Hacc _ fl m Hflow Hidx) as (Hm & Hm32 & Hcount).
  assert (Z.shiftr m 1 = m / 2) as Hhalf
    by (rewrite Z.shiftr_div_pow2 by lia; reflexivity).
  assert (head fl <> []) as Hne by (intros E; rewrite E in Hm; simpl in Hm; lia).
  destruct (drop_loop_spec (head fl) max_packets (m / 2) 0 0 0 Hne)
    as (freed & rest & Hloop & Hsplit & Hk & Hstop & Hgo); try lia.
  { rewrite <- Hm. apply Z.div_le_upper_bound; lia. }
  rewrite !Z.add_0_l in Hloop.
  assert (bytes freed <= m) as Hfreed.
  { rewrite Hm, Hsplit, bytes_app. pose proof (bytes_nonneg rest). lia. }
  pose proof (bytes_nonneg freed) as Hfnn.
  exists idx, m, fl, freed, rest.
  unfold fq_codel_drop. fold q. rewrite Hscan. cbn [rbind]. rewrite Hhalf.
  assert (arr_get OOB_flows (flows q) idx = Ok fl) as ->
    by (apply arr_get_Ok; split; [lia | exact Hflow]).
  cbn [rbind]. rewrite Hloop. cbn [rbind].
  rewrite arr_set_in by lia. cbn [rbind].
  assert (arr_get OOB_backlogs (backlogs q) idx = Ok m) as Hbget
    by (apply arr_get_Ok; split; [lia | exact Hidx]).
  change (backlogs (set_flows _ q)) with (backlogs q).
  rewrite Hbget. cbn [rbind]. rewrite arr_set_in by lia. cbn [rbind].
  eexists. split; [reflexivity|].
  split; [exact Hfat|]. split; [exact Hpos|]. split; [exact Hflow|].
  split; [exact Hsplit|].
  split; [lia|]. split; [lia|].
  split; [intros j Hj; destruct (Hgo j Hj); lia|].
  cbn. rewrite (u32_small (m - bytes freed)) by lia.
  rewrite u32_sub_u32. repeat split.
Qed.

Lemma backlogs_wfb_sound q : backlogs_wfb q = true -> backlogs_wf q.
Proof.
  unfold backlogs_wfb, backlogs_wf. rewrite !andb_true_iff, !Nat.eqb_eq.
  intros [[H1 H2] H3]. split; [exact H1|]. split; [exact H2|].
  intros i fl b Hfl Hb. rewrite forallb_forall in H3.
  specialize (H3 (fl, b)). cbn [fst snd] in H3.
  rewrite !andb_true_iff in H3.
  destruct H3 as [[E1 E2] E3]; [|lia].
  apply list_elem_of_In, list_elem_of_lookup. exists i.
  rewrite lookup_zip_with, Hfl. simpl. rewrite Hb. reflexivity.
Qed.

(** The eleventh packet on a scheduler limited to ten: the enqueue runs the
    fat-flow drop with the default cap of 64, which frees five of the nine
    100-byte packets of the fat flow (400 bytes are below half of 900, 500
    are not) and reports success, the drop having hit another flow. *)
Lemma enqueue_over_limit_drops_from_fat_flow :
  limit sch_fat = 10 /\ qlen sch_fat = 10
  /\ drop_batch_size (priv sch_fat) = 64
  /\ answer (fq_codel_enqueue skb_thin 0 sch_fat)
     = Some (NET_XMIT_SUCCESS, repeat skb_fat 5)
  /\ (qlen <$> (snd <$> match fq_codel_enqueue skb_thin 0 sch_fat with
                        | Ok r => Some r
                        | Fault _ => None
                        end)) = Some 6.
Proof. vm_compute. repeat split. Qed.

(** ** Running the monad backwards *)

Lemma bind_Ok_inv {S A B} (m : M S A) (k : A -> M S B) s b s2 :
  bind m k s = Ok (b, s2) ->
  exists a s1, m s = Ok (a, s1) /\ k a s1 = Ok (b, s2).
Proof.
  unfold bind. destruct (m s) as [[a s1] | f]; [eauto | discriminate].
Qed.

Lemma on_priv_Ok_inv {A} (m : M fq_codel_sched_data A) sch a sch' :
  on_priv m sch = Ok (a, sch') ->
  exists q', m (priv sch) = Ok (a, q') /\ sch' = set_priv q' sch.
Proof.
  unfold on_priv. destruct (m (priv sch)) as [[a' q'] | f]; [|discriminate].
  intros H. inversion H. eauto.
Qed.

Lemma rbind_Ok_inv {A B} (r : result A) (k : A -> result B) b :
  rbind r k = Ok b -> exists a, r = Ok a /\ k a = Ok b.
Proof. destruct r as [a | f]; [eauto | discriminate]. Qed.

(** ** Releasing a drained flow *)

Lemma mark_flow_as_empty_Ok s q q' :
  mark_flow_as_empty s q = Ok (tt, q') ->
  0 <= s < 1024
  /\ slot_marked_empty q' s = true /\ zone_marked q' (s / 32) = true
  /\ hashtable q' = hashtable q /\ flows q' = flows q
  /\ new_flows q' = new_flows q /\ old_flows q' = old_flows q
  /\ flows_cnt q' = flows_cnt q /\ random_seed q' = random_seed q.
Proof.
  unfold mark_flow_as_empty. intros H.
  apply rbind_Ok_inv in H as (bz & Hbz & H).
  apply rbind_Ok_inv in H as (w & Hw & H).
  apply rbind_Ok_inv in H as (bi & Hbi & H).
  apply rbind_Ok_inv in H as (m & Hm & H).
  inversion H; subst q'; clear H.
  apply shl1_Ok in Hbz as [Hz ->]. apply shl1_Ok in Hbi as [Hb ->].
  apply arr_set_Ok in Hm as [Hin ->]. simpl in Hin, Hw.
  assert (0 <= s < 1024) as Hs.
  { pose proof (Z.quot_rem' s 32). lia. }
  destruct (slot_zone s Hs) as (Hq & Hr & _ & _).
  rewrite Hq, Hr in *.
  split; [exact Hs|]. unfold slot_marked_empty, zone_marked. simpl.
  rewrite list_lookup_insert_eq by lia.
  unfold slot_bit, zone_bit. rewrite !lor_pow2_bits by lia.
  rewrite !Z.eqb_refl, !orb_true_r. repeat split.
Qed.

Lemma ht_read_Ok_inv h q x q' :
  ht_read h q = Ok (x, q') ->
  q' = q /\ 0 <= h /\ hashtable q !! Z.to_nat h = Some x.
Proof.
  unfold ht_read, lift.
  destruct (arr_get OOB_hashtable (hashtable q) h) as [y | f] eqn:Hy;
    [|discriminate].
  intros H. inversion H; subst. apply arr_get_Ok in Hy. tauto.
Qed.

Lemma ht_write_Ok_inv h v q q' :
  ht_write h v q = Ok (tt, q') ->
  0 <= h < Z.of_nat (length (hashtable q))
  /\ q' = set_hashtable (<[Z.to_nat h := u16 v]> (hashtable q)) q.
Proof.
  unfold ht_write. intros H. apply rbind_Ok_inv in H as (ht & Hht & H).
  inversion H; subst. apply arr_set_Ok in Hht as [Hin ->]. auto.
Qed.

(** Clearing a bucket that holds [v]: after it the bucket does not hold
    [v], and no bucket that did not hold [v] does. *)
Lemma clear_bucket_Ok h v q q' :
  v <> 0 ->
  (t <- ht_read h ;; if t =? v then ht_write h 0 else pure tt)%monad q
  = Ok (tt, q') ->
  0 <= h
  /\ hashtable q' !! Z.to_nat h <> Some v
  /\ (forall i, hashtable q !! i <> Some v -> hashtable q' !! i <> Some v)
  /\ q' = set_hashtable (hashtable q') q.
Proof.
  intros Hv H. apply bind_Ok_inv in H as (t & q1 & Hread & H).
  apply ht_read_Ok_inv in Hread as (-> & Hh & Ht).
  split; [exact Hh|].
  destruct (Z.eqb_spec t v) as [-> | Hne].
  - apply ht_write_Ok_inv in H as [Hin ->]. simpl. change (u16 0) with 0.
    split; [rewrite list_lookup_insert_eq by lia; congruence|].
    split; [|reflexivity].
    intros i Hi. destruct (Nat.eq_dec i (Z.to_nat h)) as [-> | Hneq].
    + rewrite list_lookup_insert_eq by lia. congruence.
    + rewrite list_lookup_insert_ne by lia. exact Hi.
  - inversion H; subst q'. split; [congruence|]. split; [auto|].
    destruct q; reflexivity.
Qed.

Lemma release_flow_Ok s skb q q' :
  release_flow s skb q = Ok (tt, q') ->
  0 <= s < 1024
  /\ slot_marked_empty q' s = true /\ zone_marked q' (s / 32) = true
  /\ hashtable q' !! Z.to_nat (s32 (fq_codel_hash_modified q skb 0))
     <> Some (s + 1)
  /\ hashtable q' !! Z.to_nat (s32 (fq_codel_hash_modified q skb 1))
     <> Some (s + 1)
  /\ flows q' = flows q
  /\ new_flows q' = new_flows q /\ old_flows q' = old_flows q
  /\ flows_cnt q' = flows_cnt q /\ random_seed q' = random_seed q.
Proof.
  unfold release_flow. intros H.
  apply bind_Ok_inv in H as ([] & q1 & Hmark & H).
  apply mark_flow_as_empty_Ok in Hmark
    as (Hs & Hslot & Hzone & Hht & Hfl & Hnew & Hold & Hcnt & Hseed).
  apply bind_Ok_inv in H as (h1 & q2 & Hg1 & H).
  inversion Hg1; subst h1 q2; clear Hg1.
  apply bind_Ok_inv in H as (h2 & q2 & Hg2 & H).
  inversion Hg2; subst h2 q2; clear Hg2.
  assert (forall t, fq_codel_hash_modified q1 skb t
                    = fq_codel_hash_modified q skb t) as Hhash
    by (intros t; unfold fq_codel_hash_modified, seed_of;
        rewrite Hcnt, Hseed; reflexivity).
  rewrite !Hhash in H.
  set (h1 := s32 (fq_codel_hash_modified q skb 0)) in *.
  set (h2 := s32 (fq_codel_hash_modified q skb 1)) in *.
  change (bind (ht_read h1)
            (fun t1 => bind (if t1 =? s + 1 then ht_write h1 0 else pure tt)
               (fun _ => bind (ht_read h2)
                  (fun t2 => if t2 =? s + 1 then ht_write h2 0 else pure tt)))
            q1 = Ok (tt, q')) in H.
  apply bind_Ok_inv in H as (t1 & q1' & Hr1 & H).
  apply bind_Ok_inv in H as ([] & q2 & Hw1 & H).
  assert ((t <- ht_read h1 ;; if t =? s + 1 then ht_write h1 0 else pure tt)%monad
            q1 = Ok (tt, q2)) as Hc1
    by (unfold bind at 1; rewrite Hr1; exact Hw1).
  apply clear_bucket_Ok in Hc1 as (_ & Hc1 & _ & Hq2); [|lia].
  apply clear_bucket_Ok in H as (_ & Hc2 & Hkeep & Hq'); [|lia].
  split; [exact Hs|].
  rewrite Hq', Hq2. simpl. fold h1 h2.
  unfold slot_marked_empty, zone_marked in *. simpl.
  repeat split; auto.
Qed.

Lemma flow_read_Ok_inv idx q fl q' :
  flow_read idx q = Ok (fl, q') ->
  q' = q /\ 0 <= idx /\ flows q !! Z.to_nat idx = Some fl.
Proof.
  unfold flow_read, lift.
  destruct (arr_get OOB_flows (flows q) idx) as [y | f] eqn:Hy;
    [|discriminate].
  intros H. inversion H; subst. apply arr_get_Ok in Hy. tauto.
Qed.

Lemma flow_write_Ok_inv idx fl q q' :
  flow_write idx fl q = Ok (tt, q') ->
  0 <= idx < Z.of_nat (length (flows q))
  /\ q' = set_flows (<[Z.to_nat idx := fl]> (flows q)) q.
Proof.
  unfold flow_write. intros H. apply rbind_Ok_inv in H as (fs & Hfs & H).
  inversion H; subst. apply arr_set_Ok in Hfs as [Hin ->]. auto.
Qed.

(** What [deliver] leaves: the packet is returned, the scheduling lists are
    as before, and when the flow is left without packets its slot is
    marked empty and the two buckets of the packet do not hold the slot. *)
Lemma deliver_Ok idx p sch r sch' :
  deliver idx p sch = Ok (r, sch') ->
  r = Some p
  /\ new_flows (priv sch') = new_flows (priv sch)
  /\ old_flows (priv sch') = old_flows (priv sch)
  /\ 0 <= idx
  /\ exists fl,
       flows (priv sch') !! Z.to_nat idx = Some fl
       /\ (head fl = [] ->
           let s := s32 idx in
           0 <= s < 1024
           /\ slot_marked_empty (priv sch') s = true
           /\ zone_marked (priv sch') (s / 32) = true
           /\ hashtable (priv sch')
                !! Z.to_nat (s32 (fq_codel_hash_modified (priv sch') p 0))
              <> Some (s + 1)
           /\ hashtable (priv sch')
                !! Z.to_nat (s32 (fq_codel_hash_modified (priv sch') p 1))
              <> Some (s + 1)).
Proof.
  unfold deliver. intros H.
  apply bind_Ok_inv in H as (flow & s1 & Hread & H).
  apply on_priv_Ok_inv in Hread as (q1 & Hread & ->).
  apply flow_read_Ok_inv in Hread as (-> & Hidx & Hflow).
  apply bind_Ok_inv in H as ([] & s2 & Hwrite & H).
  apply on_priv_Ok_inv in Hwrite as (q2 & Hwrite & ->).
  apply flow_write_Ok_inv in Hwrite as (Hin & ->).
  cbn [priv set_priv] in Hin.
  apply bind_Ok_inv in H as (dc & s3 & Hdc & H).
  inversion Hdc; subst dc s3; clear Hdc.
  apply bind_Ok_inv in H as (ql & s4 & Hql & H).
  inversion Hql; subst ql s4; clear Hql.
  apply bind_Ok_inv in H as ([] & s5 & Hflush & H).
  apply bind_Ok_inv in H as ([] & s6 & Hrel & H).
  inversion H; subst r sch'; clear H.
  split; [reflexivity|].
  set (fl' := mk_flow (head flow) (s32 (deficit flow - qdisc_pkt_len p))
                (dropped flow)) in *.
  assert (new_flows (priv s5) = new_flows (priv sch)
          /\ old_flows (priv s5) = old_flows (priv sch)
          /\ flows (priv s5) = <[Z.to_nat idx := fl']> (flows (priv sch))
          /\ flows_cnt (priv s5) = flows_cnt (priv sch)
          /\ random_seed (priv s5) = random_seed (priv sch)) as Hs5.
  { match type of Hflush with
    | (if ?c then _ else _) _ = _ => destruct c
    end; inversion Hflush; subst s5; simpl; auto. }
  destruct Hs5 as (Hn5 & Ho5 & Hf5 & Hc5 & Hr5).
  destruct (head flow) as [| p0 rest] eqn:Hhd.
  - apply on_priv_Ok_inv in Hrel as (q6 & Hrel & ->).
    apply release_flow_Ok in Hrel
      as (Hs & Hslot & Hzone & Hh1 & Hh2 & Hfl & Hnew & Hold & Hcnt & Hseed).
    cbn [priv set_priv].
    split; [congruence|]. split; [congruence|]. split; [exact Hidx|].
    exists fl'. split.
    { rewrite Hfl, Hf5. apply list_lookup_insert_eq. lia. }
    intros _. cbv zeta.
    assert (forall t, fq_codel_hash_modified q6 p t
                      = fq_codel_hash_modified (priv s5) p t) as Hhash
      by (intros t; unfold fq_codel_hash_modified, seed_of;
          rewrite Hcnt, Hseed; reflexivity).
    rewrite !Hhash. auto.
  - inversion Hrel; subst s6; clear Hrel.
    split; [congruence|]. split; [congruence|]. split; [exact Hidx|].
    exists fl'. split.
    { rewrite Hf5. apply list_lookup_insert_eq. lia. }
    subst fl'. simpl. discriminate.
Qed.

(** ** Dequeue *)

Lemma same_lists_refl sch : same_lists sch sch.
Proof. split; reflexivity. Qed.

Lemma same_lists_trans s1 s2 s3 :
  same_lists s1 s2 -> same_lists s2 s3 -> same_lists s1 s3.
Proof. intros [H1 H2] [H3 H4]. split; congruence. Qed.

Lemma same_lists_pick sch sch' :
  same_lists sch sch' -> pick_flow (priv sch') = pick_flow (priv sch).
Proof. intros [H1 H2]. unfold pick_flow. rewrite H1, H2. reflexivity. Qed.

Lemma on_priv_flow_read_inv idx sch fl sch' :
  on_priv (flow_read idx) sch = Ok (fl, sch') ->
  same_lists sch sch' /\ priv sch' = priv sch.
Proof.
  intros H. apply on_priv_Ok_inv in H as (q & H & ->).
  apply flow_read_Ok_inv in H as (-> & _). split; [split|]; reflexivity.
Qed.

Lemma on_priv_flow_write_inv idx fl sch sch' :
  on_priv (flow_write idx fl) sch = Ok (tt, sch') -> same_lists sch sch'.
Proof.
  intros H. apply on_priv_Ok_inv in H as (q & H & ->).
  apply flow_write_Ok_inv in H as (_ & ->). split; reflexivity.
Qed.

Lemma on_priv_backlog_read_inv idx sch b sch' :
  on_priv (backlog_read idx) sch = Ok (b, sch') -> same_lists sch sch'.
Proof.
  intros H. apply on_priv_Ok_inv in H as (q & H & ->).
  unfold backlog_read, lift in H.
  destruct (arr_get OOB_backlogs (backlogs (priv sch)) idx); [|discriminate].
  inversion H; subst. split; reflexivity.
Qed.

Lemma on_priv_backlog_write_inv idx v sch sch' :
  on_priv (backlog_write idx v) sch = Ok (tt, sch') -> same_lists sch sch'.
Proof.
  intros H. apply on_priv_Ok_inv in H as (q & H & ->).
  unfold backlog_write in H. apply rbind_Ok_inv in H as (bs & _ & H).
  inversion H; subst. split; reflexivity.
Qed.

Lemma dequeue_func_lists idx sch r sch' :
  dequeue_func idx sch = Ok (r, sch') -> same_lists sch sch'.
Proof.
  unfold dequeue_func. intros H.
  apply bind_Ok_inv in H as (flow & s1 & Hread & H).
  apply on_priv_flow_read_inv in Hread as [L1 _].
  destruct (head flow) as [| skb rest].
  { inversion H; subst. exact L1. }
  apply bind_Ok_inv in H as ([] & s2 & Hw & H).
  apply on_priv_flow_write_inv in Hw.
  apply bind_Ok_inv in H as (b & s3 & Hb & H).
  apply on_priv_backlog_read_inv in Hb.
  apply bind_Ok_inv in H as ([] & s4 & Hbw & H).
  apply on_priv_backlog_write_inv in Hbw.
  apply bind_Ok_inv in H as ([] & s5 & Hm & H).
  inversion Hm; subst s5; clear Hm.
  apply bind_Ok_inv in H as ([] & s6 & Hs & H).
  inversion Hs; subst s6; clear Hs.
  inversion H; subst r sch'; clear H.
  repeat (eapply same_lists_trans; [eassumption|]).
  split; reflexivity.
Qed.

Lemma codel_dequeue_lists ndrop : forall idx sch r sch',
  codel_dequeue ndrop idx sch = Ok (r, sch') -> same_lists sch sch'.
Proof.
  induction ndrop as [| n IH]; intros idx sch r sch' H; cbn [codel_dequeue] in H.
  - eapply dequeue_func_lists, H.
  - apply bind_Ok_inv in H as (skb & s1 & Hd & H).
    apply dequeue_func_lists in Hd.
    destruct skb as [p |].
    + apply bind_Ok_inv in H as ([] & s2 & Hdrop & H).
      apply IH in H.
      eapply same_lists_trans; [exact Hd|].
      eapply same_lists_trans; [|exact H].
      unfold codel_drop in Hdrop.
      apply bind_Ok_inv in Hdrop as ([] & s3 & Hc & Hdrop).
      inversion Hc; subst s3. inversion Hdrop; subst s2.
      split; reflexivity.
    + inversion H; subst. exact Hd.
Qed.

(** A dequeue that returns a packet leaves the flow it served at the head of
    the scheduling lists; if that flow has no packet left, its slot is
    marked empty and the two buckets of the returned packet do not hold
    the slot. *)
Lemma fq_codel_dequeue_served codel fuel : forall sch p sch',
  fq_codel_dequeue codel fuel sch = Ok (Some p, sch') ->
  exists from_new idx fl,
    pick_flow (priv sch') = Some (from_new, idx)
    /\ 0 <= idx
    /\ flows (priv sch') !! Z.to_nat idx = Some fl
    /\ (head fl = [] ->
        let s := s32 idx in
        0 <= s < 1024
        /\ slot_marked_empty (priv sch') s = true
        /\ zone_marked (priv sch') (s / 32) = true
        /\ hashtable (priv sch')
             !! Z.to_nat (s32 (fq_codel_hash_modified (priv sch') p 0))
           <> Some (s + 1)
        /\ hashtable (priv sch')
             !! Z.to_nat (s32 (fq_codel_hash_modified (priv sch') p 1))
           <> Some (s + 1)).
Proof.
  induction fuel as [| fuel IH]; intros sch p sch' H;
    cbn [fq_codel_dequeue] in H; [discriminate|].
  apply bind_Ok_inv in H as (picked & s1 & Hpick & H).
  inversion Hpick; subst picked s1; clear Hpick.
  cbn [priv set_priv] in H.
  destruct (pick_flow (priv sch)) as [[from_new idx] |] eqn:Hpicked;
    [|discriminate].
  apply bind_Ok_inv in H as (flow & s1 & Hread & H).
  apply on_priv_flow_read_inv in Hread as [L1 P1].
  destruct (deficit flow <=? 0).
  - apply bind_Ok_inv in H as (quantum & s2 & Hq & H).
    apply bind_Ok_inv in H as ([] & s3 & Hw & H).
    apply bind_Ok_inv in H as ([] & s4 & Hm & H).
    exact (IH _ _ _ H).
  - apply bind_Ok_inv in H as (pdc & s2 & Hpdc & H).
    inversion Hpdc; subst pdc s2; clear Hpdc.
    apply bind_Ok_inv in H as (pem & s2 & Hpem & H).
    inversion Hpem; subst pem s2; clear Hpem.
    apply bind_Ok_inv in H as (ndrop & s2 & Hnd & H).
    inversion Hnd; subst ndrop s2; clear Hnd.
    apply bind_Ok_inv in H as (skb & s2 & Hcodel & H).
    apply codel_dequeue_lists in Hcodel.
    apply bind_Ok_inv in H as (ndc & s3 & Hndc & H).
    inversion Hndc; subst ndc s3; clear Hndc.
    apply bind_Ok_inv in H as (nem & s3 & Hnem & H).
    inversion Hnem; subst nem s3; clear Hnem.
    apply bind_Ok_inv in H as (flow2 & s3 & Hread2 & H).
    apply on_priv_flow_read_inv in Hread2 as [L3 _].
    apply bind_Ok_inv in H as ([] & s4 & Hw & H).
    apply on_priv_flow_write_inv in Hw.
    destruct skb as [p0 |].
    + pose proof (deliver_Ok _ _ _ _ _ H) as (Hr & Hn & Ho & Hidx & fl & Hfl & Hrel).
      inversion Hr; subst p0.
      assert (same_lists sch sch') as L.
      { unfold same_lists in *. cbn [priv set_priv] in *.
        destruct L1, Hcodel, L3, Hw. split; congruence. }
      exists from_new, idx, fl.
      rewrite (same_lists_pick _ _ L), Hpicked. auto.
    + apply bind_Ok_inv in H as (some_old & s5 & Hso & H).
      apply bind_Ok_inv in H as ([] & s6 & Hmv & H).
      exact (IH _ _ _ H).
Qed.

(** C5, counterexample. Slot 1023 holds a packet classified through bucket
    3 of the hashtable and, behind it, a packet sent to the slot by its
    priority. The second dequeue returns the latter and leaves the queue
    empty: the slot is marked empty, bucket 3 still holds 1024. *)
Lemma dequeue_leaves_bucket_of_drained_slot :
  let served := fst (dequeue_n 2 sch_shared) in
  let sch' := snd (dequeue_n 2 sch_shared) in
  served = [Some skb_first; Some skb_prio]
  /\ pick_flow (priv sch') = Some (true, 1023)
  /\ (head <$> flows (priv sch') !! 1023%nat) = Some []
  /\ slot_marked_empty (priv sch') 1023 = true
  /\ hashtable (priv sch') !! 3%nat = Some (1023 + 1).
Proof. vm_compute. repeat split. Qed.

(** C5, as the code has it. After a dequeue that returns a packet and
    leaves the flow it served, slot [s], without packets, the bit of [s] in
    [empty_flow_mask] and the bit of its zone in [flow_mask_index] are set,
    [s] is below 1024, and the two buckets the returned packet hashes to do
    not hold [s + 1]. The scheduler has its 1 to 65536 flows. *)
Theorem dequeue_releases_drained_flow codel fuel sch p sch' from_new s fl :
  fq_codel_dequeue codel fuel sch = Ok (Some p, sch') ->
  pick_flow (priv sch') = Some (from_new, s) ->
  flows (priv sch') !! Z.to_nat s = Some fl ->
  head fl = [] ->
  0 < flows_cnt (priv sch') <= 65536 ->
  length (flows (priv sch')) = Z.to_nat (flows_cnt (priv sch')) ->
  0 <= s < 1024
  /\ slot_marked_empty (priv sch') s = true
  /\ zone_marked (priv sch') (s / 32) = true
  /\ hashtable (priv sch')
       !! Z.to_nat (fq_codel_hash_modified (priv sch') p 0)
     <> Some (s + 1)
  /\ hashtable (priv sch')
       !! Z.to_nat (fq_codel_hash_modified (priv sch') p 1)
     <> Some (s + 1).
Proof.
  intros Hrun Hpick Hfl Hhd Hcnt Hlen.
  destruct (fq_codel_dequeue_served codel fuel sch p sch' Hrun)
    as (from_new' & idx & fl' & Hpick' & Hidx & Hfl' & Hrel).
  rewrite Hpick in Hpick'. inversion Hpick'; subst from_new' idx.
  rewrite Hfl in Hfl'. inversion Hfl'; subst fl'.
  apply lookup_lt_Some in Hfl.
  pose proof (hash_modified_0_range (priv sch') p Hcnt) as Hr0.
  pose proof (hash_modified_1_range (priv sch') p Hcnt) as Hr1.
  rewrite (s32_small s) in Hrel by lia.
  rewrite !s32_small in Hrel by lia.
  exact (Hrel Hhd).
Qed.

Lemma dequeue_releases_drained_flow_witness :
  let sch1 := snd (dequeue_n 1 sch_shared) in
  let sch' := snd (dequeue_n 2 sch_shared) in
  fq_codel_dequeue no_drop 4 sch1 = Ok (Some skb_prio, sch')
  /\ pick_flow (priv sch') = Some (true, 1023)
  /\ flows (priv sch') !! Z.to_nat 1023 = Some (mk_flow [] 1300 0)
  /\ 0 <= 1023 < 1024
  /\ slot_marked_empty (priv sch') 1023 = true
  /\ zone_marked (priv sch') (1023 / 32) = true
  /\ hashtable (priv sch')
       !! Z.to_nat (fq_codel_hash_modified (priv sch') skb_prio 0)
     <> Some (1023 + 1)
  /\ hashtable (priv sch')
       !! Z.to_nat (fq_codel_hash_modified (priv sch') skb_prio 1)
     <> Some (1023 + 1).
Proof.
  intros sch1 sch'.
  assert (fq_codel_dequeue no_drop 4 sch1 = Ok (Some skb_prio, sch')) as H1
    by (vm_compute; reflexivity).
  assert (pick_flow (priv sch') = Some (true, 1023)) as H2
    by (vm_compute; reflexivity).
  assert (flows (priv sch') !! Z.to_nat 1023 = Some (mk_flow [] 1300 0)) as H3
    by (vm_compute; reflexivity).
  assert (0 < flows_cnt (priv sch') <= 65536) as H4
    by (vm_compute; split; [reflexivity | discriminate]).
  assert (length (flows (priv sch')) = Z.to_nat (flows_cnt (priv sch'))) as H5
    by (vm_compute; reflexivity).
  split; [exact H1|]. split; [exact H2|]. split; [exact H3|].
  exact (dequeue_releases_drained_flow no_drop 4 sch1 skb_prio sch' true 1023
           (mk_flow [] 1300 0) H1 H2 H3 eq_refl H4 H5).
Defined.

(** ** The classifier's invariant in every reachable state *)

Lemma same_tables_refl q : same_tables q q.
Proof. repeat split. Qed.

Lemma same_tables_trans q1 q2 q3 :
  same_tables q1 q2 -> same_tables q2 q3 -> same_tables q1 q3.
Proof.
  intros (A1 & A2 & A3 & A4 & A5) (B1 & B2 & B3 & B4 & B5).
  repeat split; congruence.
Qed.

Lemma classifier_wf_same_tables q q' :
  same_tables q q' -> classifier_wf q -> classifier_wf q'.
Proof.
  intros (E1 & E2 & E3 & E4 & E5) (Hn & (Hl & Hf & Hall) & (Hml & Hmi & Hmw) & Hs).
  unfold classifier_wf, table_wf, mask_wf, mask_index_sound, zone_marked.
  rewrite E1, E2, E3, E4, E5. auto 10.
Qed.

Lemma flow_write_tables idx fl q q' :
  flow_write idx fl q = Ok (tt, q') -> same_tables q q'.
Proof.
  intros H. apply flow_write_Ok_inv in H as (_ & ->).
  repeat split. simpl. apply length_insert.
Qed.

Lemma backlog_write_tables idx v q q' :
  backlog_write idx v q = Ok (tt, q') -> same_tables q q'.
Proof.
  unfold backlog_write. intros H. apply rbind_Ok_inv in H as (bs & _ & H).
  inversion H; subst. repeat split.
Qed.

Lemma lift_state {S A} (r : S -> result A) s a s' :
  lift r s = Ok (a, s') -> s' = s.
Proof. unfold lift. destruct (r s); [|discriminate]. congruence. Qed.

Lemma fq_codel_drop_tables max_packets sch r sch' :
  fq_codel_drop max_packets sch = Ok (r, sch') ->
  same_tables (priv sch) (priv sch').
Proof.
  unfold fq_codel_drop. intros H.
  apply rbind_Ok_inv in H as ([m idx] & _ & H).
  apply rbind_Ok_inv in H as (flow & _ & H).
  apply rbind_Ok_inv in H as ([[rest freed] [[i len] mem]] & _ & H).
  apply rbind_Ok_inv in H as (fs & Hfs & H).
  apply rbind_Ok_inv in H as (b & _ & H).
  apply rbind_Ok_inv in H as (bs & _ & H).
  inversion H; subst. apply arr_set_Ok in Hfs as [_ ->].
  repeat split. simpl. apply length_insert.
Qed.

Lemma mark_flow_as_non_empty_classifier_wf s q q' :
  classifier_wf q -> mark_flow_as_non_empty s q = Ok (tt, q') ->
  classifier_wf q'.
Proof.
  intros (Hn & Hwf & Hm & Hs) Hrun.
  assert (0 <= s < 1024) as Hrange.
  { unfold mark_flow_as_non_empty in Hrun.
    apply rbind_Ok_inv in Hrun as (w & Hw & Hrun).
    apply rbind_Ok_inv in Hrun as (bi & Hbi & _).
    apply arr_get_lt in Hw. apply shl1_Ok in Hbi as [Hb _].
    destruct Hm as (Hlen & _). pose proof (Z.quot_rem' s 32). lia. }
  pose proof (mark_flow_as_non_empty_wf q q' s Hm Hrange Hrun) as Hm'.
  pose proof (mark_flow_as_non_empty_sound q q' s Hm Hrange Hs Hrun) as Hs'.
  destruct (slot_zone s Hrange) as (_ & _ & Hg & _).
  destruct (mask_word q (s / 32) Hm Hg) as (w & Hw & _).
  rewrite (mark_flow_as_non_empty_eq q s w Hm Hrange Hw) in Hrun.
  inversion Hrun; subst q'; clear Hrun.
  split; [|split; [|split; [exact Hm' | exact Hs']]];
    destruct (Z.land w (not32 (2 ^ slot_bit s)) =? 0); assumption.
Qed.

Lemma mark_flow_as_empty_classifier_wf s q q' :
  classifier_wf q -> mark_flow_as_empty s q = Ok (tt, q') ->
  classifier_wf q'.
Proof.
  intros (Hn & Hwf & Hm & Hs) Hrun.
  pose proof (mark_flow_as_empty_Ok s q q' Hrun)
    as (Hrange & _ & _ & Hht & Hfl & _ & _ & Hcnt & _).
  pose proof (mark_flow_as_empty_wf q q' s Hm Hrange Hrun) as Hm'.
  pose proof (mark_flow_as_empty_sound q q' s Hm Hrange Hs Hrun) as Hs'.
  split; [rewrite Hcnt; exact Hn|]. split; [|split; [exact Hm' | exact Hs']].
  unfold table_wf. rewrite Hht, Hfl, Hcnt. exact Hwf.
Qed.

Lemma fq_codel_classify_wf skb qerr sch r sch' :
  classifier_wf (priv sch) ->
  fq_codel_classify skb qerr sch = Ok (r, sch') ->
  classifier_wf (priv sch').
Proof.
  intros Hwf. unfold fq_codel_classify.
  destruct ((TC_H_MAJ (u32 (priority skb)) =? handle sch)
            && (TC_H_MIN (u32 (priority skb)) >? 0)
            && (TC_H_MIN (u32 (priority skb)) <=? flows_cnt (priv sch))).
  { intros H. inversion H; subst. exact Hwf. }
  destruct (filter_list (priv sch)) as [filter |].
  - destruct (filter skb) as [result classid].
    repeat match goal with
           | |- context [if ?c then _ else _] => destruct c
           end; intros H; inversion H; subst; exact Hwf.
  - intros H. apply on_priv_Ok_inv in H as (q' & H & ->).
    apply bind_Ok_inv in H as (num & q1 & Hrun & H).
    inversion H; subst; clear H. cbn [priv set_priv].
    destruct (fq_codel_cuckoo_hash_ok (priv sch) skb Hwf
                (or_intror (ex_intro _ _ Hrun)))
      as (v & q2 & Hrun' & _ & Hch & Hwf').
    rewrite Hrun in Hrun'. inversion Hrun'; subst.
    destruct Hwf as (Hn & _ & (Hml & Hmi & Hmall) & Hs).
    destruct (only_hashtable_changed_fields _ _ Hch)
      as (Hcnt & _ & _ & Hmask & Hidx & _).
    split; [rewrite Hcnt; exact Hn|]. split; [exact Hwf'|]. split.
    + unfold mask_wf. rewrite Hmask, Hidx. auto.
    + unfold mask_index_sound, zone_marked. rewrite Hmask, Hidx. exact Hs.
Qed.

(** Invariants through the monad. *)

Lemma preserves_pure {S A} (I : S -> Prop) (a : A) : preserves I (pure a).
Proof. intros s a' s' Hs H. inversion H; subst. exact Hs. Qed.

Lemma preserves_bind {S A B} (I : S -> Prop) (m : M S A) (k : A -> M S B) :
  preserves I m -> (forall a, preserves I (k a)) -> preserves I (bind m k).
Proof.
  intros Hm Hk s b s2 Hs H. apply bind_Ok_inv in H as (a & s1 & H1 & H2).
  exact (Hk a s1 b s2 (Hm s a s1 Hs H1) H2).
Qed.

Lemma preserves_gets {S A} (I : S -> Prop) (f : S -> A) : preserves I (gets f).
Proof. intros s a s' Hs H. inversion H; subst. exact Hs. Qed.

Lemma preserves_lift {S A} (I : S -> Prop) (r : S -> result A) :
  preserves I (lift r).
Proof. intros s a s' Hs H. apply lift_state in H. subst. exact Hs. Qed.

Lemma preserves_modify {S} (I : S -> Prop) (f : S -> S) :
  (forall s, I s -> I (f s)) -> preserves I (modify f).
Proof. intros Hf s a s' Hs H. inversion H; subst. auto. Qed.

Lemma preserves_on_priv {A} (J : fq_codel_sched_data -> Prop)
    (m : M fq_codel_sched_data A) :
  preserves J m -> preserves (fun sch => J (priv sch)) (on_priv m).
Proof.
  intros Hm sch a sch' Hs H. apply on_priv_Ok_inv in H as (q' & H & ->).
  exact (Hm _ _ _ Hs H).
Qed.

Lemma preserves_tables {A} (m : M fq_codel_sched_data A) :
  (forall q a q', m q = Ok (a, q') -> same_tables q q') ->
  preserves classifier_wf m.
Proof.
  intros Hm q a q' Hq H. exact (classifier_wf_same_tables _ _ (Hm _ _ _ H) Hq).
Qed.

Lemma preserves_sch_tables {A} (m : M Qdisc A) :
  (forall s a s', m s = Ok (a, s') -> same_tables (priv s) (priv s')) ->
  preserves sch_wf m.
Proof.
  intros Hm s a s' Hs H.
  exact (classifier_wf_same_tables _ _ (Hm _ _ _ H) Hs).
Qed.

Lemma preserves_sch_gets {A} (f : Qdisc -> A) : preserves sch_wf (sch_gets f).
Proof. apply preserves_gets. Qed.

Lemma preserves_sch_modify (f : Qdisc -> Qdisc) :
  (forall s, priv (f s) = priv s) -> preserves sch_wf (sch_modify f).
Proof.
  intros Hf. apply preserves_modify. intros s Hs. unfold sch_wf.
  rewrite Hf. exact Hs.
Qed.

Lemma preserves_q_modify (f : fq_codel_sched_data -> fq_codel_sched_data) :
  (forall q, same_tables q (f q)) -> preserves sch_wf (q_modify f).
Proof.
  intros Hf. unfold q_modify.
  apply (preserves_on_priv classifier_wf), preserves_modify.
  intros q. apply classifier_wf_same_tables, Hf.
Qed.

Lemma preserves_flow_read idx : preserves classifier_wf (flow_read idx).
Proof. apply preserves_lift. Qed.

Lemma preserves_backlog_read idx : preserves classifier_wf (backlog_read idx).
Proof. apply preserves_lift. Qed.

Lemma preserves_ht_read h : preserves classifier_wf (ht_read h).
Proof. apply preserves_lift. Qed.

Lemma preserves_flow_write idx fl : preserves classifier_wf (flow_write idx fl).
Proof. apply preserves_tables. intros q [] q'. apply flow_write_tables. Qed.

Lemma preserves_backlog_write idx v :
  preserves classifier_wf (backlog_write idx v).
Proof. apply preserves_tables. intros q [] q'. apply backlog_write_tables. Qed.

Lemma preserves_mark_non_empty s :
  preserves classifier_wf (mark_flow_as_non_empty s).
Proof. intros q [] q' Hq H. exact (mark_flow_as_non_empty_classifier_wf _ _ _ Hq H). Qed.

Lemma preserves_mark_empty s : preserves classifier_wf (mark_flow_as_empty s).
Proof. intros q [] q' Hq H. exact (mark_flow_as_empty_classifier_wf _ _ _ Hq H). Qed.

Lemma preserves_ht_clear h : preserves classifier_wf (ht_write h 0).
Proof.
  intros q [] q' (Hn & Hwf & Hm & Hs) H.
  apply ht_write_Ok_inv in H as (_ & ->).
  split; [exact Hn|]. split; [|split; [exact Hm | exact Hs]].
  apply table_wf_insert; [exact Hwf | lia].
Qed.

Lemma preserves_classify skb qerr : preserves sch_wf (fq_codel_classify skb qerr).
Proof. intros s a s' Hs H. exact (fq_codel_classify_wf _ _ _ _ _ Hs H). Qed.

Lemma preserves_drop max_packets : preserves sch_wf (fq_codel_drop max_packets).
Proof. apply preserves_sch_tables. intros s a s'. apply fq_codel_drop_tables. Qed.

Lemma preserves_sch_on_priv {A} (m : M fq_codel_sched_data A) :
  preserves classifier_wf m -> preserves sch_wf (on_priv m).
Proof. apply (preserves_on_priv classifier_wf). Qed.

Create HintDb wf.
#[local] Hint Resolve preserves_pure preserves_gets preserves_lift
  preserves_sch_gets preserves_flow_read preserves_backlog_read
  preserves_ht_read preserves_flow_write preserves_backlog_write
  preserves_mark_non_empty preserves_mark_empty preserves_ht_clear
  preserves_classify preserves_drop preserves_sch_on_priv : wf.
#[local] Hint Extern 2 (preserves sch_wf (sch_modify _)) =>
  apply preserves_sch_modify; intros; reflexivity : wf.
#[local] Hint Extern 2 (preserves sch_wf (q_modify _)) =>
  apply preserves_q_modify; intros;
  unfold move_head_to_old, del_head;
  repeat match goal with |- context [if ?c then _ else _] => destruct c end;
  repeat split : wf.

(** Follow the structure of a computation down to the steps above. *)
Ltac preserves_steps :=
  repeat first
    [ solve [eauto with wf]
    | apply preserves_bind; [| intros ?]
    | match goal with
      | |- preserves _ (if ?c then _ else _) => destruct c
      | |- preserves _ (let (_, _) := ?p in _) => destruct p
      | |- preserves _ (match ?x with _ => _ end) => destruct x
      end ].

Lemma preserves_enqueue skb ret0 : preserves sch_wf (fq_codel_enqueue skb ret0).
Proof. unfold fq_codel_enqueue. preserves_steps. Qed.

Lemma preserves_dequeue_func idx : preserves sch_wf (dequeue_func idx).
Proof. unfold dequeue_func. preserves_steps. Qed.

Lemma preserves_codel_drop skb : preserves sch_wf (codel_drop skb).
Proof. unfold codel_drop. preserves_steps. Qed.

#[local] Hint Resolve preserves_dequeue_func preserves_codel_drop : wf.

Lemma preserves_codel_dequeue ndrop idx :
  preserves sch_wf (codel_dequeue ndrop idx).
Proof.
  induction ndrop as [| n IH]; cbn [codel_dequeue]; preserves_steps.
Qed.

Lemma preserves_release s skb : preserves classifier_wf (release_flow s skb).
Proof. unfold release_flow. preserves_steps. Qed.

#[local] Hint Resolve preserves_codel_dequeue preserves_release : wf.

Lemma preserves_deliver idx skb : preserves sch_wf (deliver idx skb).
Proof. unfold deliver. preserves_steps. Qed.

#[local] Hint Resolve preserves_deliver : wf.

Lemma preserves_dequeue codel fuel : preserves sch_wf (fq_codel_dequeue codel fuel).
Proof.
  induction fuel as [| fuel IH]; cbn [fq_codel_dequeue].
  - intros s a s' _ H. discriminate.
  - preserves_steps.
Qed.

Lemma Forall_repeat {A} (P : A -> Prop) x n : P x -> Forall P (repeat x n).
Proof.
  intros Hx. apply Forall_forall. intros y Hy.
  apply list_elem_of_In, repeat_spec in Hy. subst. exact Hx.
Qed.

(** A freshly allocated scheduler with [n] flows. *)
Lemma allocated_wf q n :
  1024 <= n <= 65536 ->
  flows_cnt q = n ->
  hashtable q = repeat 0 (2 * Z.to_nat n)%nat ->
  length (flows q) = Z.to_nat n ->
  empty_flow_mask q = memset_u32 1 32 ->
  flow_mask_index q = memset_word 1 ->
  classifier_wf q.
Proof.
  intros Hn Hcnt Hht Hfl Hmask Hidx.
  unfold classifier_wf, table_wf, mask_wf, mask_index_sound, zone_marked.
  rewrite Hcnt, Hht, Hfl, Hmask, Hidx, repeat_length.
  split; [exact Hn|]. split; [|split].
  - split; [lia|]. split; [reflexivity|]. apply Forall_repeat. lia.
  - split; [reflexivity|]. split; [split; [discriminate | reflexivity]|].
    apply Forall_repeat. split; [discriminate | reflexivity].
  - intros g w _ Hw _. unfold memset_u32 in Hw.
    apply list_elem_of_lookup_2, list_elem_of_In, repeat_spec in Hw.
    subst w. discriminate.
Qed.

Lemma fq_codel_reset_wf sch :
  classifier_wf (priv sch) -> classifier_wf (priv (fq_codel_reset sch)).
Proof.
  intros (Hn & (_ & Hfl & _) & _).
  apply (allocated_wf _ (flows_cnt (priv sch))); try reflexivity; [exact Hn|].
  simpl. rewrite length_map. exact Hfl.
Qed.

Lemma default_qdisc_wf handle mtu seed0 seed1 sch :
  default_qdisc handle mtu seed0 seed1 = Ok (0, sch) -> classifier_wf (priv sch).
Proof.
  rewrite default_qdisc_eq. intros H. inversion H; subst; clear H.
  apply (allocated_wf _ 1024); try reflexivity. lia.
Qed.

Lemma fresh_qdisc_eq hd n mtu seed0 seed1 :
  (nla_get_u32 n =? 0) || (nla_get_u32 n >? 65536) = false ->
  fresh_qdisc hd n mtu seed0 seed1 =
  Ok (0, mk_sch hd 10240 0 0 0
           (mk_q None (repeat 0 (2 * Z.to_nat (nla_get_u32 n))%nat)
              (u32 seed0, u32 seed1) (memset_u32 1 32) (memset_word 1)
              (repeat empty_flow (Z.to_nat (nla_get_u32 n)))
              (repeat 0 (Z.to_nat (nla_get_u32 n))) (nla_get_u32 n)
              (u32 mtu) 64 (Z.shiftl 32 20) (mk_cstats 0 0 0) 0 0 0 0 [] [])).
Proof.
  intros Hok.
  cbv beta iota delta
    [fresh_qdisc fq_codel_init fq_codel_change bind sch_modify q_modify
     on_priv modify gets pure sch_gets qdisc_alloc priv set_priv set_limit
     flows set_flows_cnt set_memory_limit set_drop_batch_size set_quantum
     set_new_flows set_old_flows TCA_FQ_CODEL_FLOWS filter_list hashtable
     random_seed empty_flow_mask flow_mask_index backlogs flows_cnt quantum
     drop_batch_size memory_limit cstats memory_usage drop_overmemory
     drop_overlimit new_flow_count new_flows old_flows handle limit qlen
     qstats_backlog qstats_drops].
  rewrite Hok. reflexivity.
Qed.

Lemma fresh_qdisc_rejected hd n mtu seed0 seed1 :
  (nla_get_u32 n =? 0) || (nla_get_u32 n >? 65536) = true ->
  exists sch, fresh_qdisc hd n mtu seed0 seed1 = Ok (-22, sch).
Proof.
  intros Hbad.
  cbv beta iota delta
    [fresh_qdisc fq_codel_init fq_codel_change bind sch_modify q_modify
     on_priv modify gets pure sch_gets qdisc_alloc priv set_priv set_limit
     flows set_flows_cnt set_memory_limit set_drop_batch_size set_quantum
     set_new_flows set_old_flows TCA_FQ_CODEL_FLOWS filter_list hashtable
     random_seed empty_flow_mask flow_mask_index backlogs flows_cnt quantum
     drop_batch_size memory_limit cstats memory_usage drop_overmemory
     drop_overlimit new_flow_count new_flows old_flows handle limit qlen
     qstats_backlog qstats_drops].
  rewrite Hbad. eexists. reflexivity.
Qed.

Lemma fresh_qdisc_wf hd n mtu seed0 seed1 sch :
  1024 <= nla_get_u32 n ->
  fresh_qdisc hd n mtu seed0 seed1 = Ok (0, sch) -> classifier_wf (priv sch).
Proof.
  intros Hn.
  destruct ((nla_get_u32 n =? 0) || (nla_get_u32 n >? 65536)) eqn:Hbad.
  - destruct (fresh_qdisc_rejected hd n mtu seed0 seed1 Hbad) as [sch' ->].
    discriminate.
  - rewrite (fresh_qdisc_eq _ _ _ _ _ Hbad).
    apply orb_false_iff in Hbad as [_ Hle].
    assert (nla_get_u32 n <= 65536) as Hle'
      by (destruct (Z.gtb_spec (nla_get_u32 n) 65536); [discriminate | lia]).
    intros H. inversion H; subst; clear H.
    apply (allocated_wf _ (nla_get_u32 n)).
    + lia.
    + reflexivity.
    + reflexivity.
    + apply repeat_length.
    + reflexivity.
    + reflexivity.
Qed.

(** * The bitmask as a slot allocator *)

Lemma slot_index_split j idx :
  0 <= j < 1024 -> 0 <= idx < 1024 -> j <> idx ->
  j / 32 <> idx / 32 \/ (j / 32 = idx / 32 /\ j mod 32 <> idx mod 32).
Proof.
  intros Hj Hi Hne.
  pose proof (Z.div_mod j 32 ltac:(lia)).
  pose proof (Z.div_mod idx 32 ltac:(lia)).
  destruct (Z.eq_dec (j / 32) (idx / 32)); [right | left]; lia.
Qed.

(** Writing [w'] into the word of slot [idx]: what the bitmask then says of
    slot [j]. *)
Lemma slot_marked_after_write q q' idx j w' :
  mask_wf q -> 0 <= idx < 1024 -> 0 <= j < 1024 ->
  empty_flow_mask q' = <[Z.to_nat (idx / 32) := w']> (empty_flow_mask q) ->
  slot_marked_empty q' j =
  if j / 32 =? idx / 32 then Z.testbit w' (slot_bit j)
  else slot_marked_empty q j.
Proof.
  intros (Hlen & _ & _) Hidx Hj Hmask.
  destruct (slot_zone idx Hidx) as (_ & _ & Hg & _).
  destruct (slot_zone j Hj) as (_ & _ & Hgj & _).
  unfold slot_marked_empty. rewrite Hmask.
  destruct (Z.eqb_spec (j / 32) (idx / 32)) as [-> | Hne].
  - rewrite list_lookup_insert_eq by lia. reflexivity.
  - rewrite list_lookup_insert_ne by lia. reflexivity.
Qed.

Lemma mark_flow_slots q idx :
  mask_wf q -> 0 <= idx < 1024 ->
  exists q1 q2,
    mark_flow_as_empty idx q = Ok (tt, q1)
    /\ mark_flow_as_non_empty idx q = Ok (tt, q2)
    /\ slot_marked_empty q1 idx = true
    /\ slot_marked_empty q2 idx = false
    /\ forall j, 0 <= j < 1024 -> j <> idx ->
         slot_marked_empty q1 j = slot_marked_empty q j
         /\ slot_marked_empty q2 j = slot_marked_empty q j.
Proof.
  intros Hwf Hidx.
  destruct (slot_zone idx Hidx) as (_ & _ & Hg & Hb).
  destruct (mask_word q (idx / 32) Hwf Hg) as (w & Hw & Hwr).
  pose proof (mark_flow_as_empty_eq q idx w Hwf Hidx Hw) as He.
  pose proof (mark_flow_as_non_empty_eq q idx w Hwf Hidx Hw) as Hn.
  cbv zeta in Hn.
  eexists _, _. split; [exact He|]. split; [exact Hn|].
  set (q1 := set_empty_flow_mask _ (set_flow_mask_index _ q)).
  set (w' := Z.land w (not32 (2 ^ slot_bit idx))).
  set (q2 := if w' =? 0 then _ else _).
  assert (empty_flow_mask q1
          = <[Z.to_nat (idx / 32) := Z.lor w (2 ^ slot_bit idx)]>
              (empty_flow_mask q)) as Hm1 by reflexivity.
  assert (empty_flow_mask q2
          = <[Z.to_nat (idx / 32) := w']> (empty_flow_mask q)) as Hm2
    by (unfold q2; destruct (w' =? 0); reflexivity).
  assert (forall j, 0 <= j < 1024 -> 0 <= slot_bit j < 32) as Hsb.
  { intros j Hj. destruct (slot_zone j Hj) as (_ & _ & _ & Hjb).
    unfold slot_bit. lia. }
  split; [|split].
  - rewrite (slot_marked_after_write q q1 idx idx _ Hwf Hidx Hidx Hm1).
    rewrite Z.eqb_refl, lor_pow2_bits by (apply Hsb; exact Hidx).
    rewrite Z.eqb_refl. apply orb_true_r.
  - rewrite (slot_marked_after_write q q2 idx idx _ Hwf Hidx Hidx Hm2).
    rewrite Z.eqb_refl. unfold w'.
    rewrite land_not32_bits by (try apply Hsb; try exact Hidx; lia).
    rewrite Z.eqb_refl. apply andb_false_r.
  - intros j Hj Hne.
    rewrite (slot_marked_after_write q q1 idx j _ Hwf Hidx Hj Hm1).
    rewrite (slot_marked_after_write q q2 idx j _ Hwf Hidx Hj Hm2).
    destruct (slot_index_split j idx Hj Hidx Hne) as [Hz | [Hz Hbit]].
    + destruct (Z.eqb_spec (j / 32) (idx / 32)); [contradiction | auto].
    + rewrite Hz, Z.eqb_refl. unfold slot_marked_empty. rewrite Hz, Hw.
      pose proof (Hsb j Hj) as Hbj. pose proof (Hsb idx Hidx) as Hbi.
      unfold w'. rewrite lor_pow2_bits, land_not32_bits by lia.
      assert ((slot_bit j =? slot_bit idx) = false) as ->
        by (apply Z.eqb_neq; unfold slot_bit; lia).
      rewrite orb_false_r, andb_true_r. auto.
Qed.

(** X1. On a bitmask of 32 words, [mark_flow_as_empty] and
    [mark_flow_as_non_empty] of a slot below 1024 never fault; the first
    sets the bit of the slot, the second clears it, and neither changes
    what the bitmask says of any other slot. *)
Theorem mark_flow_touches_one_slot q idx :
  mask_wf q -> 0 <= idx < 1024 ->
  exists q1 q2,
    mark_flow_as_empty idx q = Ok (tt, q1)
    /\ mark_flow_as_non_empty idx q = Ok (tt, q2)
    /\ slot_marked_empty q1 idx = true
    /\ slot_marked_empty q2 idx = false
    /\ forall j, 0 <= j < 1024 -> j <> idx ->
         slot_marked_empty q1 j = slot_marked_empty q j
         /\ slot_marked_empty q2 j = slot_marked_empty q j.
Proof. intros Hwf Hidx. exact (mark_flow_slots q idx Hwf Hidx). Qed.

Lemma mark_flow_touches_one_slot_witness :
  mask_wf (priv sch_1024) /\ 0 <= 37 < 1024
  /\ exists q1 q2,
       mark_flow_as_empty 37 (priv sch_1024) = Ok (tt, q1)
       /\ mark_flow_as_non_empty 37 (priv sch_1024) = Ok (tt, q2)
       /\ slot_marked_empty q1 37 = true
       /\ slot_marked_empty q2 37 = false
       /\ forall j, 0 <= j < 1024 -> j <> 37 ->
            slot_marked_empty q1 j = slot_marked_empty (priv sch_1024) j
            /\ slot_marked_empty q2 j = slot_marked_empty (priv sch_1024) j.
Proof.
  assert (mask_wf (priv sch_1024)) as H1
    by (apply mask_wfb_sound; vm_compute; reflexivity).
  assert (0 <= 37 < 1024) as H2 by lia.
  split; [exact H1|]. split; [exact H2|].
  exact (mark_flow_touches_one_slot (priv sch_1024) 37 H1 H2).
Defined.

Lemma lor_pow2_set w k : 0 <= k -> Z.testbit w k = true -> Z.lor w (2 ^ k) = w.
Proof.
  intros Hk Hb. apply Z.bits_inj'. intros j Hj.
  rewrite lor_pow2_bits by lia.
  destruct (Z.eqb_spec j k) as [-> | _].
  - rewrite Hb. reflexivity.
  - apply orb_false_r.
Qed.

Lemma lor_land_pow2_clear w k :
  0 <= w < 2 ^ 32 -> 0 <= k < 32 -> Z.testbit w k = false ->
  Z.land (Z.lor w (2 ^ k)) (not32 (2 ^ k)) = w.
Proof.
  intros Hw Hk Hb. apply Z.bits_inj'. intros j Hj.
  pose proof (pow2_u32 k Hk) as Hp.
  rewrite land_not32_bits by (try lia; apply lor_u32; lia).
  rewrite lor_pow2_bits by lia.
  destruct (Z.eqb_spec j k) as [-> | _].
  - rewrite Hb. reflexivity.
  - rewrite orb_false_r. apply andb_true_r.
Qed.

(** X2. Releasing a slot that was taken and taking it again gives back the
    state one started from, when the index agrees with the words: the two
    marking functions undo each other. *)
Theorem mark_empty_then_non_empty_restores q q1 idx :
  mask_wf q -> mask_index_exact q -> 0 <= idx < 1024 ->
  slot_marked_empty q idx = false ->
  mark_flow_as_empty idx q = Ok (tt, q1) ->
  mark_flow_as_non_empty idx q1 = Ok (tt, q).
Proof.
  intros Hwf Hex Hidx Hfree Hrun.
  pose proof (mark_flow_as_empty_wf q q1 idx Hwf Hidx Hrun) as Hwf1.
  destruct (slot_zone idx Hidx) as (_ & _ & Hg & Hb).
  destruct (mask_word q (idx / 32) Hwf Hg) as (w & Hw & Hwr).
  rewrite (mark_flow_as_empty_eq q idx w Hwf Hidx Hw) in Hrun.
  inversion Hrun; subst q1; clear Hrun.
  pose proof Hwf as (Hlen & Hmi & _).
  assert (Z.testbit w (slot_bit idx) = false) as Hbit
    by (unfold slot_marked_empty in Hfree; rewrite Hw in Hfree; exact Hfree).
  assert (0 <= slot_bit idx < 32) as Hsb by (unfold slot_bit; lia).
  assert (0 <= zone_bit (idx / 32) < 32) as Hzb by (unfold zone_bit; lia).
  rewrite (mark_flow_as_non_empty_eq _ idx (Z.lor w (2 ^ slot_bit idx)) Hwf1 Hidx)
    by (simpl; apply list_lookup_insert_eq; lia).
  cbv zeta. cbn [empty_flow_mask set_empty_flow_mask flow_mask_index
                 set_flow_mask_index].
  rewrite (lor_land_pow2_clear w _ Hwr Hsb Hbit).
  rewrite list_insert_insert_eq, (list_insert_id _ _ _ Hw).
  destruct (Hex (idx / 32) w Hg Hw) as [Hmarked Hnonzero].
  f_equal. f_equal.
  destruct (Z.eqb_spec w 0) as [Hz | Hnz].
  - assert (zone_marked q (idx / 32) = false) as Hzm.
    { destruct (zone_marked q (idx / 32)) eqn:E; [|reflexivity].
      exfalso. exact (Hmarked eq_refl Hz). }
    unfold zone_marked in Hzm.
    rewrite (lor_land_pow2_clear _ _ Hmi Hzb Hzm).
    destruct q; reflexivity.
  - pose proof (Hnonzero Hnz) as Hzm. unfold zone_marked in Hzm.
    rewrite (lor_pow2_set _ _ (proj1 Hzb) Hzm).
    destruct q; reflexivity.
Qed.

Lemma mark_empty_then_non_empty_restores_witness :
  mask_wf q_full /\ mask_index_exact q_full /\ 0 <= 0 < 1024
  /\ slot_marked_empty q_full 0 = false
  /\ mark_flow_as_empty 0 q_full = Ok (tt, q_slot0)
  /\ mark_flow_as_non_empty 0 q_slot0 = Ok (tt, q_full).
Proof.
  assert (mask_wf q_full) as H1
    by (apply mask_wfb_sound; vm_compute; reflexivity).
  assert (mask_index_exact q_full) as H2.
  { intros g w Hg Hw.
    assert (empty_flow_mask q_full = repeat 0 32) as Hm
      by (vm_compute; reflexivity).
    assert (flow_mask_index q_full = 0) as Hi by (vm_compute; reflexivity).
    rewrite Hm in Hw.
    apply list_elem_of_lookup_2, list_elem_of_In, repeat_spec in Hw.
    unfold zone_marked. rewrite Hi, Z.testbit_0_l. subst w.
    split; [discriminate | congruence]. }
  assert (0 <= 0 < 1024) as H3 by lia.
  assert (slot_marked_empty q_full 0 = false) as H4
    by (vm_compute; reflexivity).
  assert (mark_flow_as_empty 0 q_full = Ok (tt, q_slot0)) as H5
    by (vm_compute; reflexivity).
  split; [exact H1|]. split; [exact H2|]. split; [exact H3|].
  split; [exact H4|]. split; [exact H5|].
  exact (mark_empty_then_non_empty_restores q_full q_slot0 0 H1 H2 H3 H4 H5).
Defined.

Lemma mask_index_exactb_sound q :
  mask_index_exactb q = true -> mask_index_exact q.
Proof.
  unfold mask_index_exactb, mask_index_exact.
  rewrite forallb_forall. intros Hall g w Hg Hw.
  specialize (Hall (Z.to_nat g)). rewrite Hw, Z2Nat.id in Hall by lia.
  assert (Bool.eqb (zone_marked q g) (negb (w =? 0)) = true) as Hi
    by (apply Hall, in_seq; lia).
  apply eqb_prop in Hi. rewrite Hi.
  destruct (Z.eqb_spec w 0); simpl; split; congruence.
Qed.

(** X3. Both marking functions keep the bitmask well formed and keep the
    index exact: after either, a zone's bit in [flow_mask_index] is set
    exactly when the zone's word has a bit set. *)
Theorem mark_flow_keeps_index_exact q q' idx :
  mask_wf q -> mask_index_exact q -> 0 <= idx < 1024 ->
  mark_flow_as_empty idx q = Ok (tt, q')
  \/ mark_flow_as_non_empty idx q = Ok (tt, q') ->
  mask_wf q' /\ mask_index_exact q'.
Proof.
  intros Hwf Hex Hidx [Hrun | Hrun].
  - split.
    + exact (mark_flow_as_empty_wf q q' idx Hwf Hidx Hrun).
    + exact (mark_flow_as_empty_exact q q' idx Hwf Hidx Hex Hrun).
  - split.
    + exact (mark_flow_as_non_empty_wf q q' idx Hwf Hidx Hrun).
    + exact (mark_flow_as_non_empty_exact q q' idx Hwf Hidx Hex Hrun).
Qed.

Lemma mark_flow_keeps_index_exact_witness :
  mask_wf q_slot0 /\ mask_index_exact q_slot0 /\ 0 <= 700 < 1024
  /\ (mark_flow_as_empty 700 q_slot0 = Ok (tt, q_two_free)
      \/ mark_flow_as_non_empty 700 q_slot0 = Ok (tt, q_two_free))
  /\ mask_wf q_two_free /\ mask_index_exact q_two_free.
Proof.
  assert (mask_wf q_slot0) as H1
    by (apply mask_wfb_sound; vm_compute; reflexivity).
  assert (mask_index_exact q_slot0) as H2
    by (apply mask_index_exactb_sound; vm_compute; reflexivity).
  assert (0 <= 700 < 1024) as H3 by lia.
  assert (mark_flow_as_empty 700 q_slot0 = Ok (tt, q_two_free)
          \/ mark_flow_as_non_empty 700 q_slot0 = Ok (tt, q_two_free)) as H4
    by (left; vm_compute; reflexivity).
  split; [exact H1|]. split; [exact H2|]. split; [exact H3|].
  split; [exact H4|].
  exact (mark_flow_keeps_index_exact q_slot0 q_two_free 700 H1 H2 H3 H4).
Defined.

(** With an exact index the slot found is the highest-numbered slot that is
    marked empty. *)
Lemma get_next_empty_flow_max q :
  mask_wf q -> mask_index_exact q -> flow_mask_index q <> 0 ->
  exists e,
    get_next_empty_flow q = Ok e /\ 0 <= e < 1024
    /\ slot_marked_empty q e = true
    /\ forall j, 0 <= j < 1024 -> slot_marked_empty q j = true -> j <= e.
Proof.
  intros Hwf Hex Hne. unfold get_next_empty_flow.
  pose proof Hwf as (Hlen & Hmi & Hall).
  assert (u32 (flow_mask_index q) <> 0) as Hmne
    by (rewrite u32_small by lia; exact Hne).
  destruct (Z.eqb_spec (ffs (flow_mask_index q)) 0) as [Hz | Hnz];
    [apply ffs_0_iff in Hz; contradiction|].
  pose proof (ffs_range _ Hmne) as Hf.
  set (z := 32 - ffs (flow_mask_index q)).
  assert (u8 z = z) as -> by (unfold u8; apply Z.mod_small; lia).
  assert (0 <= z < 32) as Hz by lia.
  destruct (mask_word q z Hwf Hz) as (w & Hw & Hwr).
  assert (arr_get OOB_mask (empty_flow_mask q) z = Ok w) as ->
    by (apply arr_get_Ok; split; [lia | exact Hw]).
  simpl.
  assert (w <> 0) as Hwne.
  { apply (Hex z w Hz Hw). unfold zone_marked, zone_bit.
    replace (32 - (z + 1)) with (ffs (flow_mask_index q) - 1) by lia.
    pose proof (ffs_testbit _ Hmne) as Hb.
    rewrite u32_small in Hb by lia. exact Hb. }
  assert (u32 w <> 0) as Hwne' by (rewrite u32_small by lia; exact Hwne).
  pose proof (ffs_range _ Hwne') as Hfw.
  exists (z * 32 + (32 - ffs w)).
  rewrite u32_small by lia. split; [reflexivity|]. split; [lia|].
  split.
  - unfold slot_marked_empty, slot_bit.
    replace ((z * 32 + (32 - ffs w)) / 32) with z
      by (apply Z.div_unique_pos with (r := 32 - ffs w); lia).
    replace ((z * 32 + (32 - ffs w)) mod 32) with (32 - ffs w)
      by (apply Z.mod_unique_pos with (q := z); lia).
    rewrite Hw.
    replace (32 - (32 - ffs w + 1)) with (ffs w - 1) by lia.
    pose proof (ffs_testbit _ Hwne') as Hb.
    rewrite u32_small in Hb by lia. exact Hb.
  - intros j Hj Hmarked.
    destruct (slot_zone j Hj) as (_ & _ & Hgj & Hbj).
    pose proof (Z.div_mod j 32 ltac:(lia)) as Hdm.
    unfold slot_marked_empty in Hmarked.
    destruct (mask_word q (j / 32) Hwf Hgj) as (wj & Hwj & Hwjr).
    rewrite Hwj in Hmarked.
    assert (wj <> 0) as Hwjne
      by (intros ->; rewrite Z.testbit_0_l in Hmarked; discriminate).
    apply (Hex (j / 32) wj Hgj Hwj) in Hwjne.
    unfold zone_marked, zone_bit in Hwjne.
    assert (j / 32 <= z) as Hzone.
    { destruct (Z_le_gt_dec (j / 32) z) as [Hle | Hgt]; [exact Hle|].
      pose proof (ffs_lowest (flow_mask_index q) (32 - (j / 32 + 1))
                    ltac:(lia)) as Hlow.
      rewrite u32_small in Hlow by lia. congruence. }
    destruct (Z.eq_dec (j / 32) z) as [Heq | Hlt]; [|lia].
    rewrite Heq, Hw in Hwj. inversion Hwj; subst wj.
    unfold slot_bit in Hmarked.
    destruct (Z_le_gt_dec (j mod 32) (32 - ffs w)) as [Hle | Hgt]; [lia|].
    pose proof (ffs_lowest w (32 - (j mod 32 + 1)) ltac:(lia)) as Hlow.
    rewrite u32_small in Hlow by lia. congruence.
Qed.

(** X4. When the index agrees with the words and has a bit set,
    [get_next_empty_flow] returns a slot below 1024 that is marked empty,
    and it is the highest-numbered such slot. *)
Theorem get_next_empty_flow_highest q :
  mask_wf q -> mask_index_exact q -> flow_mask_index q <> 0 ->
  exists e,
    get_next_empty_flow q = Ok e /\ 0 <= e < 1024
    /\ slot_marked_empty q e = true
    /\ forall j, 0 <= j < 1024 -> slot_marked_empty q j = true -> j <= e.
Proof. exact (get_next_empty_flow_max q). Qed.

Lemma get_next_empty_flow_highest_witness :
  mask_wf q_two_free /\ mask_index_exact q_two_free
  /\ flow_mask_index q_two_free <> 0
  /\ exists e,
       get_next_empty_flow q_two_free = Ok e /\ 0 <= e < 1024
       /\ slot_marked_empty q_two_free e = true
       /\ forall j, 0 <= j < 1024 ->
            slot_marked_empty q_two_free j = true -> j <= e.
Proof.
  assert (mask_wf q_two_free) as H1
    by (apply mask_wfb_sound; vm_compute; reflexivity).
  assert (mask_index_exact q_two_free) as H2
    by (apply mask_index_exactb_sound; vm_compute; reflexivity).
  assert (flow_mask_index q_two_free <> 0) as H3
    by (vm_compute; discriminate).
  split; [exact H1|]. split; [exact H2|]. split; [exact H3|].
  exact (get_next_empty_flow_highest q_two_free H1 H2 H3).
Defined.

(** With an index that is only sound the slot found is marked empty, lies
    in a zone the index marks, and is the highest-numbered such slot. *)
Lemma get_next_empty_flow_listed q :
  mask_wf q -> mask_index_sound q -> flow_mask_index q <> 0 ->
  exists e,
    get_next_empty_flow q = Ok e /\ 0 <= e < 1024
    /\ slot_marked_empty q e = true /\ zone_marked q (e / 32) = true
    /\ forall j, 0 <= j < 1024 -> zone_marked q (j / 32) = true ->
         slot_marked_empty q j = true -> j <= e.
Proof.
  intros Hwf Hex Hne. unfold get_next_empty_flow.
  pose proof Hwf as (Hlen & Hmi & Hall).
  assert (u32 (flow_mask_index q) <> 0) as Hmne
    by (rewrite u32_small by lia; exact Hne).
  destruct (Z.eqb_spec (ffs (flow_mask_index q)) 0) as [Hz | Hnz];
    [apply ffs_0_iff in Hz; contradiction|].
  pose proof (ffs_range _ Hmne) as Hf.
  set (z := 32 - ffs (flow_mask_index q)).
  assert (u8 z = z) as -> by (unfold u8; apply Z.mod_small; lia).
  assert (0 <= z < 32) as Hz by lia.
  destruct (mask_word q z Hwf Hz) as (w & Hw & Hwr).
  assert (arr_get OOB_mask (empty_flow_mask q) z = Ok w) as ->
    by (apply arr_get_Ok; split; [lia | exact Hw]).
  simpl.
  assert (zone_marked q z = true) as Hzm.
  { unfold zone_marked, zone_bit.
    replace (32 - (z + 1)) with (ffs (flow_mask_index q) - 1) by lia.
    pose proof (ffs_testbit _ Hmne) as Hb.
    rewrite u32_small in Hb by lia. exact Hb. }
  assert (w <> 0) as Hwne by (exact (Hex z w Hz Hw Hzm)).
  assert (u32 w <> 0) as Hwne' by (rewrite u32_small by lia; exact Hwne).
  pose proof (ffs_range _ Hwne') as Hfw.
  exists (z * 32 + (32 - ffs w)).
  assert ((z * 32 + (32 - ffs w)) / 32 = z) as Hdiv
    by (symmetry; apply Z.div_unique_pos with (r := 32 - ffs w); lia).
  rewrite u32_small by lia. split; [reflexivity|]. split; [lia|].
  split; [|split].
  - unfold slot_marked_empty, slot_bit. rewrite Hdiv.
    replace ((z * 32 + (32 - ffs w)) mod 32) with (32 - ffs w)
      by (apply Z.mod_unique_pos with (q := z); lia).
    rewrite Hw.
    replace (32 - (32 - ffs w + 1)) with (ffs w - 1) by lia.
    pose proof (ffs_testbit _ Hwne') as Hb.
    rewrite u32_small in Hb by lia. exact Hb.
  - rewrite Hdiv. exact Hzm.
  - intros j Hj Hwjne Hmarked.
    destruct (slot_zone j Hj) as (_ & _ & Hgj & Hbj).
    pose proof (Z.div_mod j 32 ltac:(lia)) as Hdm.
    unfold slot_marked_empty in Hmarked.
    destruct (mask_word q (j / 32) Hwf Hgj) as (wj & Hwj & Hwjr).
    rewrite Hwj in Hmarked.
    unfold zone_marked, zone_bit in Hwjne.
    assert (j / 32 <= z) as Hzone.
    { destruct (Z_le_gt_dec (j / 32) z) as [Hle | Hgt]; [exact Hle|].
      pose proof (ffs_lowest (flow_mask_index q) (32 - (j / 32 + 1))
                    ltac:(lia)) as Hlow.
      rewrite u32_small in Hlow by lia. congruence. }
    destruct (Z.eq_dec (j / 32) z) as [Heq | Hlt]; [|lia].
    rewrite Heq, Hw in Hwj. inversion Hwj; subst wj.
    unfold slot_bit in Hmarked.
    destruct (Z_le_gt_dec (j mod 32) (32 - ffs w)) as [Hle | Hgt]; [lia|].
    pose proof (ffs_lowest w (32 - (j mod 32 + 1)) ltac:(lia)) as Hlow.
    rewrite u32_small in Hlow by lia. congruence.
Qed.

(** Taking a slot clears bits of the index and sets none. *)
Lemma mark_flow_as_non_empty_zones q q' idx g :
  mask_wf q -> 0 <= idx < 1024 -> 0 <= g < 32 ->
  mark_flow_as_non_empty idx q = Ok (tt, q') ->
  zone_marked q' g = true -> zone_marked q g = true.
Proof.
  intros Hwf Hidx Hg Hrun.
  destruct (slot_zone idx Hidx) as (_ & _ & Hgi & _).
  destruct (mask_word q (idx / 32) Hwf Hgi) as (w & Hw & _).
  rewrite (mark_flow_as_non_empty_eq q idx w Hwf Hidx Hw) in Hrun.
  injection Hrun as <-. unfold zone_marked.
  destruct (Z.land w (not32 (2 ^ slot_bit idx)) =? 0); simpl; [|auto].
  rewrite Z.land_spec. intros H. apply andb_true_iff in H. tauto.
Qed.

(** X5. On a well-formed bitmask whose index marks only zones that have a
    free slot (as [fq_codel_init] and [fq_codel_reset] leave it), taking
    the slot that [get_next_empty_flow] offers makes the next call offer
    another one: a strictly lower slot that was already free, as long as
    the index is not zero afterwards. *)
Theorem allocation_moves_down q e q' :
  mask_wf q -> mask_index_sound q -> flow_mask_index q <> 0 ->
  get_next_empty_flow q = Ok e ->
  mark_flow_as_non_empty e q = Ok (tt, q') ->
  flow_mask_index q' <> 0 ->
  exists e',
    get_next_empty_flow q' = Ok e' /\ 0 <= e' < e
    /\ slot_marked_empty q e' = true /\ slot_marked_empty q' e' = true.
Proof.
  intros Hwf Hex Hne Hnext Htake Hne'.
  destruct (get_next_empty_flow_listed q Hwf Hex Hne)
    as (e0 & Hnext0 & He & Hfree & _ & Hmax).
  rewrite Hnext in Hnext0. inversion Hnext0; subst e0; clear Hnext0.
  pose proof (mark_flow_as_non_empty_wf q q' e Hwf He Htake) as Hwf'.
  pose proof (mark_flow_as_non_empty_sound q q' e Hwf He Hex Htake) as Hex'.
  destruct (get_next_empty_flow_listed q' Hwf' Hex' Hne')
    as (e' & Hnext' & He' & Hfree' & Hzone' & _).
  destruct (mark_flow_slots q e Hwf He)
    as (q1 & q2 & _ & Htake2 & _ & Htaken & Hframe).
  rewrite Htake in Htake2. inversion Htake2; subst q2; clear Htake2.
  assert (e' <> e) as Hdiff by (intros ->; congruence).
  destruct (Hframe e' He' Hdiff) as [_ Hsame].
  destruct (slot_zone e' He') as (_ & _ & Hg' & _).
  pose proof (mark_flow_as_non_empty_zones q q' e (e' / 32) Hwf He Hg' Htake
                Hzone') as Hzone.
  exists e'. split; [exact Hnext'|].
  assert (slot_marked_empty q e' = true) as Hwas by congruence.
  pose proof (Hmax e' He' Hzone Hwas). repeat split; try assumption; lia.
Qed.

Lemma allocation_moves_down_witness :
  mask_wf (priv sch_1024) /\ mask_index_sound (priv sch_1024)
  /\ flow_mask_index (priv sch_1024) <> 0
  /\ get_next_empty_flow (priv sch_1024) = Ok 1023
  /\ mark_flow_as_non_empty 1023 (priv sch_1024) = Ok (tt, q_1023_taken)
  /\ flow_mask_index q_1023_taken <> 0
  /\ exists e',
       get_next_empty_flow q_1023_taken = Ok e' /\ 0 <= e' < 1023
       /\ slot_marked_empty (priv sch_1024) e' = true
       /\ slot_marked_empty q_1023_taken e' = true.
Proof.
  assert (mask_wf (priv sch_1024)) as H1
    by (apply mask_wfb_sound; vm_compute; reflexivity).
  assert (mask_index_sound (priv sch_1024)) as H2
    by (apply mask_index_soundb_sound; vm_compute; reflexivity).
  assert (flow_mask_index (priv sch_1024) <> 0) as H3
    by (vm_compute; discriminate).
  assert (get_next_empty_flow (priv sch_1024) = Ok 1023) as H4
    by (vm_compute; reflexivity).
  assert (mark_flow_as_non_empty 1023 (priv sch_1024)
          = Ok (tt, q_1023_taken)) as H5
    by (vm_compute; reflexivity).
  assert (flow_mask_index q_1023_taken <> 0) as H6
    by (vm_compute; discriminate).
  split; [exact H1|]. split; [exact H2|]. split; [exact H3|].
  split; [exact H4|]. split; [exact H5|]. split; [exact H6|].
  exact (allocation_moves_down (priv sch_1024) 1023 q_1023_taken
           H1 H2 H3 H4 H5 H6).
Defined.

(** * The two hash functions *)

(** X6. With 1 to 65536 flows [fq_codel_hash] and the first
    [fq_codel_hash_modified] give a bucket of the first table, the second
    [fq_codel_hash_modified] a bucket of the second table: the two buckets
    of a packet are different entries of the [2 * flows_cnt] entries. *)
Theorem hash_tables_disjoint q skb :
  0 < flows_cnt q <= 65536 ->
  0 <= fq_codel_hash q skb < flows_cnt q
  /\ 0 <= fq_codel_hash_modified q skb 0 < flows_cnt q
  /\ flows_cnt q <= fq_codel_hash_modified q skb 1 < 2 * flows_cnt q
  /\ fq_codel_hash_modified q skb 0 <> fq_codel_hash_modified q skb 1.
Proof.
  intros Hn.
  pose proof (hash_modified_0_range q skb Hn) as H0.
  pose proof (hash_modified_1_range q skb Hn) as H1.
  split; [|split; [exact H0 | split; [exact H1 | lia]]].
  unfold fq_codel_hash. apply reciprocal_scale_range. lia.
Qed.

Lemma hash_tables_disjoint_witness :
  0 < flows_cnt (priv sch_1024) <= 65536
  /\ 0 <= fq_codel_hash (priv sch_1024) skb_d < flows_cnt (priv sch_1024)
  /\ 0 <= fq_codel_hash_modified (priv sch_1024) skb_d 0
     < flows_cnt (priv sch_1024)
  /\ flows_cnt (priv sch_1024) <= fq_codel_hash_modified (priv sch_1024) skb_d 1
     < 2 * flows_cnt (priv sch_1024)
  /\ fq_codel_hash_modified (priv sch_1024) skb_d 0
     <> fq_codel_hash_modified (priv sch_1024) skb_d 1.
Proof.
  assert (0 < flows_cnt (priv sch_1024) <= 65536) as H
    by (vm_compute; split; [reflexivity | discriminate]).
  split; [exact H|].
  exact (hash_tables_disjoint (priv sch_1024) skb_d H).
Defined.

(** * Lookups in the cuckoo table *)

Lemma bind_eq {S A B} (m : M S A) (k : A -> M S B) s a s' :
  m s = Ok (a, s') -> bind m k s = k a s'.
Proof. intros H. unfold bind. rewrite H. reflexivity. Qed.

Lemma hash_modified_nonneg q skb t : 0 <= fq_codel_hash_modified q skb t.
Proof. unfold fq_codel_hash_modified. apply u32_range. Qed.

Lemma ht_read_eq q h x :
  0 <= h -> hashtable q !! Z.to_nat h = Some x -> ht_read h q = Ok (x, q).
Proof.
  intros Hh Hx. unfold ht_read, lift.
  assert (arr_get OOB_hashtable (hashtable q) h = Ok x) as ->
    by (apply arr_get_Ok; auto).
  reflexivity.
Qed.

Lemma flow_head_eq q i fl :
  0 <= i -> flows q !! Z.to_nat i = Some fl -> flow_head i q = Ok (head fl, q).
Proof.
  intros Hi Hfl. unfold flow_head, lift.
  assert (arr_get OOB_flows (flows q) i = Ok fl) as ->
    by (apply arr_get_Ok; auto).
  reflexivity.
Qed.

(** The start of [fq_codel_cuckoo_hash]: the two hashes and the two
    buckets. *)
Ltac cuckoo_hash_start Ha Hb :=
  unfold fq_codel_cuckoo_hash;
  rewrite (bind_eq (gets _) _ _ _ _ eq_refl);
  rewrite (bind_eq (gets _) _ _ _ _ eq_refl);
  rewrite (bind_eq _ _ _ _ _
             (ht_read_eq _ _ _ (hash_modified_nonneg _ _ _) Ha));
  rewrite (bind_eq _ _ _ _ _
             (ht_read_eq _ _ _ (hash_modified_nonneg _ _ _) Hb)).

Lemma cuckoo_hash_hit q skb a b fl p rest :
  hashtable q !! Z.to_nat (fq_codel_hash_modified q skb 0) = Some a ->
  hashtable q !! Z.to_nat (fq_codel_hash_modified q skb 1) = Some b ->
  1 <= a ->
  flows q !! Z.to_nat (a - 1) = Some fl ->
  head fl = p :: rest ->
  skb_get_hash p = skb_get_hash skb ->
  b = 0 \/ (1 <= b /\ exists fl2, flows q !! Z.to_nat (b - 1) = Some fl2
                                  /\ head fl2 <> []) ->
  fq_codel_cuckoo_hash skb q = Ok (a, q).
Proof.
  intros Ha Hb Hpos Hfl Hhd Hsame Hsecond.
  cuckoo_hash_start Ha Hb.
  assert ((a =? 0) = false) as -> by (apply Z.eqb_neq; lia).
  pose proof (ht_read_eq _ _ _ (hash_modified_nonneg q skb 0) Ha) as Hread.
  destruct Hsecond as [-> | (Hbpos & fl2 & Hfl2 & Hne)].
  - cbn [andb negb Z.eqb].
    rewrite (bind_eq _ _ _ _ _ (flow_head_eq q (a - 1) fl ltac:(lia) Hfl)).
    rewrite Hhd. unfold same_flow_or. rewrite Hsame, Z.eqb_refl. exact Hread.
  - assert ((b =? 0) = false) as -> by (apply Z.eqb_neq; lia).
    cbn [andb negb].
    rewrite (bind_eq _ _ _ _ _ (flow_head_eq q (a - 1) fl ltac:(lia) Hfl)).
    rewrite Hhd.
    rewrite (bind_eq _ _ _ _ _ (flow_head_eq q (b - 1) fl2 ltac:(lia) Hfl2)).
    destruct (head fl2) as [| p2 rest2]; [contradiction|].
    rewrite Hsame, Z.eqb_refl. exact Hread.
Qed.

(** X7. A packet whose first bucket holds a slot with a queued packet of
    the same flow hash is classified into that slot and nothing is
    written, provided its second bucket is free or holds a slot that has
    packets. *)
Theorem cuckoo_hash_hit_first_bucket q skb a b fl p rest :
  hashtable q !! Z.to_nat (fq_codel_hash_modified q skb 0) = Some a ->
  hashtable q !! Z.to_nat (fq_codel_hash_modified q skb 1) = Some b ->
  1 <= a ->
  flows q !! Z.to_nat (a - 1) = Some fl ->
  head fl = p :: rest ->
  skb_get_hash p = skb_get_hash skb ->
  b = 0 \/ (1 <= b /\ exists fl2, flows q !! Z.to_nat (b - 1) = Some fl2
                                  /\ head fl2 <> []) ->
  fq_codel_cuckoo_hash skb q = Ok (a, q).
Proof. exact (cuckoo_hash_hit q skb a b fl p rest). Qed.

Lemma cuckoo_hash_hit_first_bucket_witness :
  fq_codel_cuckoo_hash skb_a (priv sch_ab) = Ok (1024, priv sch_ab).
Proof.
  eapply (cuckoo_hash_hit_first_bucket (priv sch_ab) skb_a 1024 1016
            _ skb_a []).
  - vm_compute. reflexivity.
  - vm_compute. reflexivity.
  - lia.
  - vm_compute. reflexivity.
  - reflexivity.
  - reflexivity.
  - right. split; [lia|]. eexists. split; [vm_compute; reflexivity|].
    discriminate.
Defined.

(** X8. A bucket that holds a slot without packets captures every packet
    that hashes to it: whatever the packet's flow hash and whatever its
    second bucket holds, the packet is classified into that slot and
    nothing is written. *)
Theorem cuckoo_hash_reuses_drained_slot q skb a b fl :
  hashtable q !! Z.to_nat (fq_codel_hash_modified q skb 0) = Some a ->
  hashtable q !! Z.to_nat (fq_codel_hash_modified q skb 1) = Some b ->
  1 <= a ->
  flows q !! Z.to_nat (a - 1) = Some fl ->
  head fl = [] ->
  fq_codel_cuckoo_hash skb q = Ok (a, q).
Proof.
  intros Ha Hb Hpos Hfl Hhd.
  cuckoo_hash_start Ha Hb.
  assert ((a =? 0) = false) as -> by (apply Z.eqb_neq; lia).
  pose proof (ht_read_eq _ _ _ (hash_modified_nonneg q skb 0) Ha) as Hread.
  cbn [andb negb].
  destruct (b =? 0);
    rewrite (bind_eq _ _ _ _ _ (flow_head_eq q (a - 1) fl ltac:(lia) Hfl));
    rewrite Hhd; exact Hread.
Qed.

Lemma cuckoo_hash_reuses_drained_slot_witness :
  skb_get_hash skb_other <> skb_get_hash skb_first
  /\ fq_codel_cuckoo_hash skb_other (priv sch_stale)
     = Ok (1024, priv sch_stale).
Proof.
  split; [vm_compute; discriminate|].
  eapply (cuckoo_hash_reuses_drained_slot (priv sch_stale) skb_other 1024 0).
  - vm_compute. reflexivity.
  - vm_compute. reflexivity.
  - lia.
  - vm_compute. reflexivity.
  - reflexivity.
Defined.

Lemma install_next_empty_eq q h e :
  get_next_empty_flow q = Ok e ->
  0 <= h < Z.of_nat (length (hashtable q)) ->
  install_next_empty h q
  = Ok (u16 (u32 (e + 1)),
        set_hashtable (<[Z.to_nat h := u16 (u32 (e + 1))]> (hashtable q)) q).
Proof.
  intros Hnext Hh. unfold install_next_empty.
  assert (lift get_next_empty_flow q = Ok (e, q)) as Hl
    by (unfold lift; rewrite Hnext; reflexivity).
  rewrite (bind_eq _ _ _ _ _ Hl).
  assert (ht_write h (u32 (e + 1)) q
          = Ok (tt, set_hashtable
                      (<[Z.to_nat h := u16 (u32 (e + 1))]> (hashtable q)) q))
    as Hw by (unfold ht_write; rewrite arr_set_in by exact Hh; reflexivity).
  rewrite (bind_eq _ _ _ _ _ Hw).
  apply ht_read_eq; [lia|]. simpl. apply list_lookup_insert_eq. lia.
Qed.

Lemma cuckoo_hash_miss q skb :
  mask_wf q -> mask_index_sound q ->
  hashtable q !! Z.to_nat (fq_codel_hash_modified q skb 0) = Some 0 ->
  hashtable q !! Z.to_nat (fq_codel_hash_modified q skb 1) = Some 0 ->
  exists e,
    get_next_empty_flow q = Ok e /\ 0 <= e < 1024
    /\ fq_codel_cuckoo_hash skb q
       = Ok (e + 1,
             set_hashtable
               (<[Z.to_nat (fq_codel_hash_modified q skb 0) := e + 1]>
                  (hashtable q)) q).
Proof.
  intros Hwf Hsound Ha Hb.
  destruct (get_next_empty_flow_range q Hwf Hsound) as (e & Hnext & He & _).
  exists e. split; [exact Hnext|]. split; [exact He|].
  cuckoo_hash_start Ha Hb. cbn [Z.eqb andb].
  pose proof (hash_modified_nonneg q skb 0) as Hh.
  apply lookup_lt_Some in Ha.
  rewrite (install_next_empty_eq q _ e Hnext) by lia.
  rewrite (u32_small (e + 1)) by lia.
  assert (u16 (e + 1) = e + 1) as -> by (unfold u16; apply Z.mod_small; lia).
  reflexivity.
Qed.

(** X9. A packet that finds both its buckets free is given the slot that
    [get_next_empty_flow] offers: the class returned is that slot plus one,
    it is written into the packet's first bucket, and nothing else of the
    state changes (the slot's bit in the bitmask is left as it was). *)
Theorem cuckoo_hash_miss_installs q skb :
  mask_wf q -> mask_index_sound q ->
  hashtable q !! Z.to_nat (fq_codel_hash_modified q skb 0) = Some 0 ->
  hashtable q !! Z.to_nat (fq_codel_hash_modified q skb 1) = Some 0 ->
  exists e,
    get_next_empty_flow q = Ok e /\ 0 <= e < 1024
    /\ fq_codel_cuckoo_hash skb q
       = Ok (e + 1,
             set_hashtable
               (<[Z.to_nat (fq_codel_hash_modified q skb 0) := e + 1]>
                  (hashtable q)) q).
Proof. exact (cuckoo_hash_miss q skb). Qed.

Lemma cuckoo_hash_miss_installs_witness :
  exists e,
    get_next_empty_flow (priv sch_1024) = Ok e /\ 0 <= e < 1024
    /\ fq_codel_cuckoo_hash skb_d (priv sch_1024)
       = Ok (e + 1,
             set_hashtable
               (<[Z.to_nat (fq_codel_hash_modified (priv sch_1024) skb_d 0)
                  := e + 1]> (hashtable (priv sch_1024))) (priv sch_1024)).
Proof.
  apply (cuckoo_hash_miss_installs (priv sch_1024) skb_d).
  - apply mask_wfb_sound. vm_compute. reflexivity.
  - apply mask_index_soundb_sound. vm_compute. reflexivity.
  - vm_compute. reflexivity.
  - vm_compute. reflexivity.
Defined.

(** * Weakest preconditions *)

Lemma wp_Ok {S A} (m : M S A) Q s a s' :
  wp m Q s -> m s = Ok (a, s') -> Q a s'.
Proof. unfold wp. intros H E. rewrite E in H. exact H. Qed.

Lemma wp_intro {S A} (m : M S A) (Q : A -> S -> Prop) s :
  (forall a s', m s = Ok (a, s') -> Q a s') -> wp m Q s.
Proof. unfold wp. destruct (m s) as [[a s'] | f]; auto. Qed.

Lemma wp_mono {S A} (m : M S A) (Q Q' : A -> S -> Prop) s :
  wp m Q s -> (forall a s', Q a s' -> Q' a s') -> wp m Q' s.
Proof. unfold wp. destruct (m s) as [[a s'] | f]; auto. Qed.

Lemma wp_bind {S A B} (m : M S A) (k : A -> M S B) Q s :
  wp m (fun a s' => wp (k a) Q s') s -> wp (bind m k) Q s.
Proof. unfold wp, bind. destruct (m s) as [[a s'] | f]; auto. Qed.

Lemma wp_pure {S A} (a : A) (Q : A -> S -> Prop) s : Q a s -> wp (pure a) Q s.
Proof. auto. Qed.

Lemma wp_gets {S A} (f : S -> A) (Q : A -> S -> Prop) s :
  Q (f s) s -> wp (gets f) Q s.
Proof. auto. Qed.

Lemma wp_modify {S} (f : S -> S) (Q : unit -> S -> Prop) s :
  Q tt (f s) -> wp (modify f) Q s.
Proof. auto. Qed.

Lemma wp_throw {S A} f (Q : A -> S -> Prop) s : wp (throw f) Q s.
Proof. exact I. Qed.

Lemma wp_lift {S A} (r : S -> result A) (Q : A -> S -> Prop) s :
  (forall a, r s = Ok a -> Q a s) -> wp (lift r) Q s.
Proof. unfold wp, lift. destruct (r s) as [a | f]; auto. Qed.

Lemma wp_on_priv {A} (m : M fq_codel_sched_data A) Q sch :
  wp m (fun a q' => Q a (set_priv q' sch)) (priv sch) -> wp (on_priv m) Q sch.
Proof. unfold wp, on_priv. destruct (m (priv sch)) as [[a q'] | f]; auto. Qed.

Lemma wp_preserves {S A} (I : S -> Prop) (m : M S A) (Q : A -> S -> Prop) s :
  preserves I m -> I s -> (forall a s', I s' -> Q a s') -> wp m Q s.
Proof.
  intros Hm Hs HQ. apply wp_intro. intros a s' Hrun.
  exact (HQ a s' (Hm s a s' Hs Hrun)).
Qed.

Lemma preserves_wp {S A} (I : S -> Prop) (m : M S A) :
  (forall s, I s -> wp m (fun _ s' => I s') s) -> preserves I m.
Proof. intros H s a s' Hs Hrun. exact (wp_Ok _ _ _ _ _ (H s Hs) Hrun). Qed.

Lemma wp_flow_read idx (Q : fq_codel_flow -> fq_codel_sched_data -> Prop) q :
  (forall fl, 0 <= idx -> flows q !! Z.to_nat idx = Some fl -> Q fl q) ->
  wp (flow_read idx) Q q.
Proof.
  intros H. apply wp_lift. intros fl Hfl. apply arr_get_Ok in Hfl as [H0 Hfl].
  auto.
Qed.

Lemma wp_flow_write idx fl (Q : unit -> fq_codel_sched_data -> Prop) q :
  (0 <= idx < Z.of_nat (length (flows q)) ->
   Q tt (set_flows (<[Z.to_nat idx := fl]> (flows q)) q)) ->
  wp (flow_write idx fl) Q q.
Proof.
  intros H. apply wp_intro. intros [] q' Hrun.
  apply flow_write_Ok_inv in Hrun as [Hin ->]. auto.
Qed.

Lemma wp_backlog_read idx (Q : Z -> fq_codel_sched_data -> Prop) q :
  (forall b, 0 <= idx -> backlogs q !! Z.to_nat idx = Some b -> Q b q) ->
  wp (backlog_read idx) Q q.
Proof.
  intros H. apply wp_lift. intros b Hb. apply arr_get_Ok in Hb as [H0 Hb].
  auto.
Qed.

Lemma wp_backlog_write idx v (Q : unit -> fq_codel_sched_data -> Prop) q :
  (0 <= idx < Z.of_nat (length (backlogs q)) ->
   Q tt (set_backlogs (<[Z.to_nat idx := v]> (backlogs q)) q)) ->
  wp (backlog_write idx v) Q q.
Proof.
  intros H. apply wp_intro. intros [] q'. unfold backlog_write. intros Hrun.
  apply rbind_Ok_inv in Hrun as (bs & Hbs & Hrun).
  inversion Hrun; subst. apply arr_set_Ok in Hbs as [Hin ->]. auto.
Qed.

Lemma wp_ht_read h (Q : Z -> fq_codel_sched_data -> Prop) q :
  (forall x, 0 <= h -> hashtable q !! Z.to_nat h = Some x -> Q x q) ->
  wp (ht_read h) Q q.
Proof.
  intros H. apply wp_lift. intros x Hx. apply arr_get_Ok in Hx as [H0 Hx].
  auto.
Qed.

Lemma wp_ht_write h v (Q : unit -> fq_codel_sched_data -> Prop) q :
  (0 <= h < Z.of_nat (length (hashtable q)) ->
   Q tt (set_hashtable (<[Z.to_nat h := u16 v]> (hashtable q)) q)) ->
  wp (ht_write h v) Q q.
Proof.
  intros H. apply wp_intro. intros [] q' Hrun.
  apply ht_write_Ok_inv in Hrun as [Hin ->]. auto.
Qed.

(** The fields of the two records, reduced on explicit states. *)
Ltac state_simpl :=
  cbn [priv handle limit qlen qstats_backlog qstats_drops
       set_priv set_limit set_qlen set_qstats_backlog set_qstats_drops
       filter_list hashtable random_seed empty_flow_mask flow_mask_index
       flows backlogs flows_cnt quantum drop_batch_size memory_limit cstats
       memory_usage drop_overmemory drop_overlimit new_flow_count new_flows
       old_flows
       set_filter_list set_hashtable set_random_seed set_empty_flow_mask
       set_flow_mask_index set_flows set_backlogs set_flows_cnt set_quantum
       set_drop_batch_size set_memory_limit set_cstats set_memory_usage
       set_drop_overmemory set_drop_overlimit set_new_flow_count
       set_new_flows set_old_flows] in *.

Ltac goal_simpl :=
  cbn [priv handle limit qlen qstats_backlog qstats_drops
       set_priv set_limit set_qlen set_qstats_backlog set_qstats_drops
       filter_list hashtable random_seed empty_flow_mask flow_mask_index
       flows backlogs flows_cnt quantum drop_batch_size memory_limit cstats
       memory_usage drop_overmemory drop_overlimit new_flow_count new_flows
       old_flows
       set_filter_list set_hashtable set_random_seed set_empty_flow_mask
       set_flow_mask_index set_flows set_backlogs set_flows_cnt set_quantum
       set_drop_batch_size set_memory_limit set_cstats set_memory_usage
       set_drop_overmemory set_drop_overlimit set_new_flow_count
       set_new_flows set_old_flows].

Lemma set_priv_set_priv q q' sch : set_priv q (set_priv q' sch) = set_priv q sch.
Proof. reflexivity. Qed.

Lemma set_priv_priv sch : set_priv (priv sch) sch = sch.
Proof. destruct sch; reflexivity. Qed.

(** One step of a computation built from the monad's combinators and the
    array accesses. *)
Ltac wp_tidy := cbv beta; goal_simpl; rewrite ?set_priv_set_priv.

Ltac wp_step :=
  lazymatch goal with
  | |- wp (bind _ _) _ _ => apply wp_bind
  | |- wp (pure _) _ _ => apply wp_pure
  | |- wp (gets _) _ _ => apply wp_gets
  | |- wp (sch_gets _) _ _ => apply wp_gets
  | |- wp (modify _) _ _ => apply wp_modify
  | |- wp (sch_modify _) _ _ => apply wp_modify
  | |- wp (q_modify _) _ _ => apply wp_on_priv, wp_modify
  | |- wp (throw _) _ _ => apply wp_throw
  | |- wp (on_priv _) _ _ => apply wp_on_priv
  | |- wp (flow_read _) _ _ => apply wp_flow_read; wp_tidy; intros ? ? ?
  | |- wp (flow_write _ _) _ _ => apply wp_flow_write; wp_tidy; intros ?
  | |- wp (backlog_read _) _ _ => apply wp_backlog_read; wp_tidy; intros ? ? ?
  | |- wp (backlog_write _ _) _ _ => apply wp_backlog_write; wp_tidy; intros ?
  | |- wp (ht_read _) _ _ => apply wp_ht_read; wp_tidy; intros ? ? ?
  | |- wp (ht_write _ _) _ _ => apply wp_ht_write; wp_tidy; intros ?
  | |- wp (if ?c then _ else _) _ _ => destruct c eqn:?
  | |- wp (let (_, _) := ?p in _) _ _ => destruct p
  | |- wp (match ?x with _ => _ end) _ _ => destruct x eqn:?
  end; wp_tidy.

(** * What classification leaves alone *)

Lemma preserves_ht_read_any (I : fq_codel_sched_data -> Prop) h :
  preserves I (ht_read h).
Proof. apply preserves_lift. Qed.

Lemma preserves_flow_head_any (I : fq_codel_sched_data -> Prop) idx :
  preserves I (flow_head idx).
Proof. apply preserves_lift. Qed.

Lemma preserves_ht_write_frame q0 h v :
  preserves (only_hashtable_changed q0) (ht_write h v).
Proof.
  intros q [] q' Hq Hrun. apply ht_write_Ok_inv in Hrun as [_ ->].
  exact (only_hashtable_changed_trans _ _ _ Hq (insert_only_hashtable q _ _)).
Qed.

Lemma preserves_cuckoo_rehash_frame q0 skb v :
  preserves (only_hashtable_changed q0) (cuckoo_rehash skb v).
Proof.
  intros q [] q' Hq Hrun. unfold cuckoo_rehash in Hrun.
  apply rbind_Ok_inv in Hrun as ([how q1] & Hloop & Hrun).
  inversion Hrun; subst q'; clear Hrun. cbn [snd].
  unfold cuckoo_rehash_trace in Hloop.
  destruct (cuckoo_rehash_loop_spec (S (Z.to_nat (flows_cnt q))) q 0 skb v)
    as (_ & _ & Hspec).
  destruct (Hspec how q1 Hloop) as (Hch & _).
  exact (only_hashtable_changed_trans _ _ _ Hq Hch).
Qed.

#[local] Hint Resolve preserves_ht_read_any preserves_flow_head_any
  preserves_ht_write_frame preserves_cuckoo_rehash_frame : wf.

Lemma preserves_cuckoo_hash_frame q0 skb :
  preserves (only_hashtable_changed q0) (fq_codel_cuckoo_hash skb).
Proof.
  unfold fq_codel_cuckoo_hash, install_next_empty, displace, same_flow_or.
  preserves_steps.
Qed.

(** Classification writes nothing but buckets of the hashtable. *)
Lemma fq_codel_classify_frame skb qerr sch r sch' :
  fq_codel_classify skb qerr sch = Ok (r, sch') ->
  sch' = set_priv (set_hashtable (hashtable (priv sch')) (priv sch)) sch
  /\ length (hashtable (priv sch')) = length (hashtable (priv sch)).
Proof.
  unfold fq_codel_classify.
  assert (sch = set_priv (set_hashtable (hashtable (priv sch)) (priv sch)) sch)
    as Hid by (destruct sch as [? ? ? ? ? []]; reflexivity).
  destruct ((TC_H_MAJ (u32 (priority skb)) =? handle sch)
            && (TC_H_MIN (u32 (priority skb)) >? 0)
            && (TC_H_MIN (u32 (priority skb)) <=? flows_cnt (priv sch))).
  { intros H. inversion H; subst. auto. }
  destruct (filter_list (priv sch)) as [filter |].
  - destruct (filter skb) as [result classid].
    repeat match goal with
           | |- context [if ?c then _ else _] => destruct c
           end; intros H; inversion H; subst; auto.
  - intros H. apply on_priv_Ok_inv in H as (q' & H & ->).
    apply bind_Ok_inv in H as (num & q1 & Hrun & H).
    inversion H; subst; clear H. cbn [priv set_priv].
    destruct (preserves_cuckoo_hash_frame (priv sch) skb (priv sch) num q'
                (only_hashtable_changed_refl _) Hrun) as [Heq Hlen].
    split; [|exact Hlen]. rewrite Heq at 1. reflexivity.
Qed.

Lemma wp_classify skb qerr (Q : Z * Z -> Qdisc -> Prop) sch :
  (forall v e ht,
     length ht = length (hashtable (priv sch)) ->
     Q (v, e) (set_priv (set_hashtable ht (priv sch)) sch)) ->
  wp (fq_codel_classify skb qerr) Q sch.
Proof.
  intros H. apply wp_intro. intros [v e] sch' Hrun.
  apply fq_codel_classify_frame in Hrun as [-> Hlen]. apply H. exact Hlen.
Qed.

(** * Accounting *)

Lemma u32_add_l a b : u32 (u32 a + b) = u32 (a + b).
Proof. unfold u32. apply Zplus_mod_idemp_l. Qed.

Lemma u32_add_r a b : u32 (a + u32 b) = u32 (a + b).
Proof. unfold u32. apply Zplus_mod_idemp_r. Qed.

Lemma u32_sub_l a b : u32 (u32 a - b) = u32 (a - b).
Proof. unfold u32. apply Zminus_mod_idemp_l. Qed.

Lemma u32_sub_r a b : u32 (a - u32 b) = u32 (a - b).
Proof. unfold u32. apply Zminus_mod_idemp_r. Qed.

Lemma u32_u32 a : u32 (u32 a) = u32 a.
Proof. unfold u32. apply Zmod_mod. Qed.

(** Equations between 32-bit results of sums and differences. *)
Ltac u32_arith :=
  rewrite ?u32_add_l, ?u32_add_r, ?u32_sub_l, ?u32_sub_r, ?u32_u32;
  try (f_equal; lia).

Lemma flow_sum_app f l l' : flow_sum f (l ++ l') = flow_sum f l + flow_sum f l'.
Proof. induction l as [| x l IH]; simpl; [reflexivity | rewrite IH; lia]. Qed.

Lemma flow_sum_insert f l i x y :
  l !! i = Some x ->
  flow_sum f (<[i := y]> l) = flow_sum f l - f (head x) + f (head y).
Proof.
  revert i. induction l as [| z l IH]; intros [| i] Hx; try discriminate.
  - inversion Hx; subst. simpl. lia.
  - simpl in *. rewrite (IH i Hx). lia.
Qed.

Lemma flow_sum_same_head f l i x y :
  l !! i = Some x -> head y = head x -> flow_sum f (<[i := y]> l) = flow_sum f l.
Proof. intros Hx Hy. rewrite (flow_sum_insert f l i x y Hx), Hy. lia. Qed.

Lemma flow_sum_empty f l :
  f [] = 0 -> Forall (fun fl => head fl = []) l -> flow_sum f l = 0.
Proof.
  intros Hf. induction 1 as [| x l Hx _ IH]; simpl; [reflexivity|].
  rewrite Hx, Hf, IH. reflexivity.
Qed.

Lemma packets_app l l' : packets (l ++ l') = packets l + packets l'.
Proof. unfold packets. rewrite length_app. lia. Qed.

Lemma u32_sub_congr a b b' : u32 b = u32 b' -> u32 (a - b) = u32 (a - b').
Proof. intros H. rewrite <- (u32_sub_r a b), H, u32_sub_r. reflexivity. Qed.

Lemma u32_add_congr a b b' : u32 b = u32 b' -> u32 (a + b) = u32 (a + b').
Proof. intros H. rewrite <- (u32_add_r a b), H, u32_add_r. reflexivity. Qed.

(** What the drop loop takes off the queue and what it counts. *)
Lemma drop_loop_inv queue : forall max_packets threshold i len mem r,
  drop_loop queue max_packets threshold i len mem = Ok r ->
  let '(rest, freed, (i', len', mem')) := r in
  queue = freed ++ rest /\ freed <> []
  /\ u32 i' = u32 (i + packets freed)
  /\ u32 len' = u32 (len + bytes freed)
  /\ u32 mem' = u32 (mem + mem_bytes freed).
Proof.
  induction queue as [| skb queue IH]; intros mp th i len mem r; simpl;
    [discriminate|].
  destruct ((u32 (i + 1) <? mp)
            && (u32 (len + qdisc_pkt_len skb) <? th)).
  - intros H. apply rbind_Ok_inv in H as ([[rest' freed'] [[i' len'] mem']] & Hrec & H).
    inversion H; subst r; clear H.
    specialize (IH _ _ _ _ _ _ Hrec). cbv beta iota in IH.
    destruct IH as (-> & _ & Hi & Hl & Hm).
    split; [reflexivity|]. split; [discriminate|].
    rewrite Hi, Hl, Hm. unfold packets. cbn [length bytes mem_bytes fold_right].
    fold (bytes freed') (mem_bytes freed').
    repeat split; u32_arith.
  - intros H. inversion H; subst r; clear H.
    split; [reflexivity|]. split; [discriminate|].
    unfold packets. cbn [length bytes mem_bytes fold_right].
    repeat split; u32_arith.
Qed.

Lemma fq_codel_drop_accounting max_packets :
  preserves accounting_wf (fq_codel_drop max_packets).
Proof.
  intros sch [ret to_free] sch' (Hfl & Hbl & Hper & Hql & Hqb & Hmu) H.
  unfold fq_codel_drop in H.
  apply rbind_Ok_inv in H as ([m idx] & _ & H).
  apply rbind_Ok_inv in H as (flow & Hflow & H).
  apply rbind_Ok_inv in H as ([[rest freed] [[i len] mem]] & Hloop & H).
  apply rbind_Ok_inv in H as (fs & Hfs & H).
  apply rbind_Ok_inv in H as (b & Hb & H).
  apply rbind_Ok_inv in H as (bs & Hbs & H).
  inversion H; subst ret to_free sch'; clear H.
  apply arr_get_Ok in Hflow as [Hidx Hflow].
  apply arr_set_Ok in Hfs as [_ ->]. apply arr_set_Ok in Hbs as [_ ->].
  apply arr_get_Ok in Hb as [_ Hb]. state_simpl.
  pose proof (drop_loop_inv _ _ _ _ _ _ _ Hloop) as Hinv. cbv beta iota in Hinv.
  destruct Hinv as (Hq & _ & Hi & Hl & Hm). rewrite Z.add_0_l in Hi, Hl, Hm.
  pose proof (Hper _ _ _ Hflow Hb) as Hbv.
  unfold accounting_wf. state_simpl.
  rewrite !length_insert.
  rewrite !(flow_sum_insert _ _ _ _ _ Hflow). cbn [head]. rewrite Hq.
  split; [exact Hfl|]. split; [exact Hbl|]. split; [|split; [|split]].
  - intros j fl' b' Hfl' Hb'.
    destruct (Nat.eq_dec j (Z.to_nat idx)) as [-> | Hne].
    + rewrite list_lookup_insert_eq in Hfl'
        by (apply lookup_lt_Some in Hflow; lia).
      rewrite list_lookup_insert_eq in Hb'
        by (apply lookup_lt_Some in Hb; lia).
      inversion Hfl'; inversion Hb'; subst. cbn [head].
      rewrite Hq, bytes_app, (u32_sub_congr _ _ _ Hl). u32_arith.
    + rewrite list_lookup_insert_ne in Hfl' by lia.
      rewrite list_lookup_insert_ne in Hb' by lia.
      exact (Hper _ _ _ Hfl' Hb').
  - rewrite Hql, (u32_sub_congr _ _ _ Hi), packets_app. u32_arith.
  - rewrite Hqb, (u32_sub_congr _ _ _ Hl), bytes_app. u32_arith.
  - rewrite Hmu, (u32_sub_congr _ _ _ Hm), mem_bytes_app. u32_arith.
Qed.

(** The marking functions write the bitmask and nothing else. *)
Lemma wp_mark_non_empty s (Q : unit -> fq_codel_sched_data -> Prop) q :
  (forall m i, Q tt (set_flow_mask_index i (set_empty_flow_mask m q))) ->
  wp (mark_flow_as_non_empty s) Q q.
Proof.
  intros H. apply wp_intro. intros [] q'. unfold mark_flow_as_non_empty.
  intros Hrun.
  apply rbind_Ok_inv in Hrun as (w & _ & Hrun).
  apply rbind_Ok_inv in Hrun as (bi & _ & Hrun).
  apply rbind_Ok_inv in Hrun as (m & _ & Hrun).
  destruct (Z.land w (not32 bi) =? 0).
  - apply rbind_Ok_inv in Hrun as (bz & _ & Hrun).
    inversion Hrun; subst q'. apply H.
  - inversion Hrun; subst q'.
    exact (H m (flow_mask_index q)).
Qed.

Lemma wp_mark_empty s (Q : unit -> fq_codel_sched_data -> Prop) q :
  (forall m i, Q tt (set_flow_mask_index i (set_empty_flow_mask m q))) ->
  wp (mark_flow_as_empty s) Q q.
Proof.
  intros H. apply wp_intro. intros [] q'. unfold mark_flow_as_empty.
  intros Hrun.
  apply rbind_Ok_inv in Hrun as (bz & _ & Hrun).
  apply rbind_Ok_inv in Hrun as (w & _ & Hrun).
  apply rbind_Ok_inv in Hrun as (bi & _ & Hrun).
  apply rbind_Ok_inv in Hrun as (m & _ & Hrun).
  inversion Hrun; subst q'.
  exact (H m (Z.lor (flow_mask_index q) bz)).
Qed.

Lemma enqueue_accept_accounting sch idx fl b skb fls' (qlen' qb' mu' : Z) nf :
  accounting_wf sch ->
  flows (priv sch) !! Z.to_nat idx = Some fl ->
  backlogs (priv sch) !! Z.to_nat idx = Some b ->
  head nf = head fl ++ [skb] ->
  fls' = <[Z.to_nat idx := nf]> (flows (priv sch)) ->
  qlen' = u32 (qlen sch + 1) ->
  qb' = u32 (qstats_backlog sch + qdisc_pkt_len skb) ->
  mu' = u32 (memory_usage (priv sch) + mem_usage skb) ->
  forall sch',
    flows (priv sch') = fls' ->
    backlogs (priv sch')
    = <[Z.to_nat idx := u32 (b + qdisc_pkt_len skb)]> (backlogs (priv sch)) ->
    flows_cnt (priv sch') = flows_cnt (priv sch) ->
    qlen sch' = qlen' -> qstats_backlog sch' = qb' ->
    memory_usage (priv sch') = mu' ->
    accounting_wf sch'.
Proof.
  intros (Hfl & Hbl & Hper & Hql & Hqb & Hmu) Hflow Hb Hnf -> -> -> ->.
  intros sch' E1 E2 E3 E4 E5 E6. unfold accounting_wf.
  rewrite E1, E2, E3, E4, E5, E6, !length_insert.
  rewrite !(flow_sum_insert _ _ _ _ _ Hflow), Hnf.
  rewrite packets_app, bytes_app, mem_bytes_app.
  pose proof (Hper _ _ _ Hflow Hb) as Hbv.
  split; [exact Hfl|]. split; [exact Hbl|]. split; [|split; [|split]].
  - intros j fl' b' Hfl' Hb'.
    destruct (Nat.eq_dec j (Z.to_nat idx)) as [-> | Hne].
    + rewrite list_lookup_insert_eq in Hfl'
        by (apply lookup_lt_Some in Hflow; lia).
      rewrite list_lookup_insert_eq in Hb'
        by (apply lookup_lt_Some in Hb; lia).
      inversion Hfl'; inversion Hb'; subst. rewrite Hnf, bytes_app.
      change (bytes [skb]) with (qdisc_pkt_len skb + 0). u32_arith.
    + rewrite list_lookup_insert_ne in Hfl' by lia.
      rewrite list_lookup_insert_ne in Hb' by lia.
      exact (Hper _ _ _ Hfl' Hb').
  - rewrite Hql. change (packets [skb]) with 1. u32_arith.
  - rewrite Hqb. change (bytes [skb]) with (qdisc_pkt_len skb + 0). u32_arith.
  - rewrite Hmu. change (mem_bytes [skb]) with (mem_usage skb + 0). u32_arith.
Qed.

Lemma enqueue_accounting skb ret0 :
  preserves accounting_wf (fq_codel_enqueue skb ret0).
Proof.
  apply preserves_wp. intros sch HA. unfold fq_codel_enqueue.
  wp_step. apply wp_classify. intros v e ht Hht.
  destruct (v =? 0).
  - repeat wp_step. all: unfold accounting_wf in *; state_simpl; exact HA.
  - repeat wp_step. apply wp_mark_non_empty. intros m mi.
    set (idx := u32 (v - 1)) in *.
    wp_step. wp_step. wp_step.
    match goal with
    | |- wp (bind ?m0 _) _ ?s =>
      assert (wp m0 (fun _ s' =>
                exists nf, head nf = head fl ++ [skb]
                  /\ flows (priv s') = <[Z.to_nat idx := nf]> (flows (priv sch))
                  /\ backlogs (priv s')
                     = <[Z.to_nat idx := u32 (b + qdisc_pkt_len skb)]>
                         (backlogs (priv sch))
                  /\ flows_cnt (priv s') = flows_cnt (priv sch)
                  /\ qlen s' = qlen sch
                  /\ qstats_backlog s' = u32 (qstats_backlog sch + qdisc_pkt_len skb)
                  /\ memory_usage (priv s') = memory_usage (priv sch)) s) as Hblock
    end.
    { wp_step.
      - repeat wp_step. state_simpl.
        rewrite list_lookup_insert_eq in * by lia.
        match goal with H : Some _ = Some _ |- _ => inversion H; subst; clear H end.
        eexists. split; [|split; [apply list_insert_insert_eq|]].
        + reflexivity.
        + repeat split.
      - wp_step. state_simpl. eexists. split; [|split; [reflexivity|]].
        + reflexivity.
        + repeat split. }
    wp_step. eapply wp_mono; [exact Hblock|]. clear Hblock. cbv beta.
    intros [] s1 (nf & Hnf & E1 & E2 & E3 & E4 & E5 & E6).
    do 9 wp_step.
    match goal with
    | |- wp _ _ ?s => assert (accounting_wf s) as HA'
    end.
    { eapply (enqueue_accept_accounting sch idx fl b skb);
        try reflexivity; try eassumption; goal_simpl; try eassumption;
        try congruence. }
    wp_step.
    + wp_step. exact HA'.
    + repeat wp_step.
      eapply (wp_preserves accounting_wf);
        [apply fq_codel_drop_accounting | exact HA' |].
      intros [ret to_free] s2 HA2. repeat wp_step.
      all: unfold accounting_wf in *; goal_simpl; exact HA2.
Qed.

Lemma flow_sum_heads f fls :
  flow_sum f fls = fold_right (fun h acc => f h + acc) 0 (map head fls).
Proof. induction fls as [| x l IH]; simpl; [reflexivity | rewrite IH; reflexivity]. Qed.

Lemma heads_insert_same (l : list fq_codel_flow) i x y :
  l !! i = Some x -> head y = head x -> map head (<[i := y]> l) = map head l.
Proof.
  intros Hx Hy. change (map head) with (fmap (M := list) head).
  rewrite list_fmap_insert, Hy. apply list_insert_id.
  rewrite list_lookup_fmap, Hx. reflexivity.
Qed.

(** The accounting invariant reads the queues and the five counters only. *)
Lemma accounting_wf_ext sch sch' :
  accounting_wf sch ->
  map head (flows (priv sch')) = map head (flows (priv sch)) ->
  backlogs (priv sch') = backlogs (priv sch) ->
  flows_cnt (priv sch') = flows_cnt (priv sch) ->
  qlen sch' = qlen sch ->
  qstats_backlog sch' = qstats_backlog sch ->
  memory_usage (priv sch') = memory_usage (priv sch) ->
  accounting_wf sch'.
Proof.
  intros (Hfl & Hbl & Hper & Hql & Hqb & Hmu) E1 E2 E3 E4 E5 E6.
  unfold accounting_wf. rewrite E2, E3, E4, E5, E6, !flow_sum_heads, E1.
  rewrite <- !flow_sum_heads.
  split; [|split; [exact Hbl|split; [|auto]]].
  - rewrite <- Hfl, <- (length_map head), E1, length_map. reflexivity.
  - intros i fl' b Hfl' Hb.
    assert (map head (flows (priv sch')) !! i = Some (head fl')) as Hh
      by (change (map head) with (fmap (M := list) head);
          rewrite list_lookup_fmap, Hfl'; reflexivity).
    rewrite E1 in Hh. change (map head) with (fmap (M := list) head) in Hh.
    rewrite list_lookup_fmap in Hh.
    destruct (flows (priv sch) !! i) as [fl |] eqn:Hfl0; [|discriminate].
    injection Hh as Hhd. rewrite <- Hhd. exact (Hper i fl b Hfl0 Hb).
Qed.

(** Closing a goal [accounting_wf s] where [s] differs from a state with
    the invariant in fields the invariant does not read, or in a flow
    written back with its queue unchanged. *)
Ltac accounting_frame HA :=
  apply (accounting_wf_ext _ _ HA);
  unfold move_head_to_old, del_head;
  repeat match goal with
         | |- context [if ?c then _ else _] => destruct c
         end;
  goal_simpl;
  try reflexivity;
  try (eapply heads_insert_same;
       [eassumption | cbn [head]; first [reflexivity | congruence]]).

(** Steps through the marking functions as well. *)
Ltac wp_go :=
  repeat first
    [ wp_step
    | apply wp_mark_non_empty; intros ? ?; wp_tidy
    | apply wp_mark_empty; intros ? ?; wp_tidy ].

Lemma dequeue_pop_accounting sch idx fl b skb rest nf sch' :
  accounting_wf sch ->
  flows (priv sch) !! Z.to_nat idx = Some fl ->
  backlogs (priv sch) !! Z.to_nat idx = Some b ->
  head fl = skb :: rest -> head nf = rest ->
  flows (priv sch') = <[Z.to_nat idx := nf]> (flows (priv sch)) ->
  backlogs (priv sch')
  = <[Z.to_nat idx := u32 (b - qdisc_pkt_len skb)]> (backlogs (priv sch)) ->
  flows_cnt (priv sch') = flows_cnt (priv sch) ->
  qlen sch' = u32 (qlen sch - 1) ->
  qstats_backlog sch' = u32 (qstats_backlog sch - qdisc_pkt_len skb) ->
  memory_usage (priv sch') = u32 (memory_usage (priv sch) - mem_usage skb) ->
  accounting_wf sch'.
Proof.
  intros (Hfl & Hbl & Hper & Hql & Hqb & Hmu) Hflow Hb Hhd Hnf E1 E2 E3 E4 E5 E6.
  unfold accounting_wf.
  rewrite E1, E2, E3, E4, E5, E6, !length_insert.
  rewrite !(flow_sum_insert _ _ _ _ _ Hflow), Hnf, Hhd.
  pose proof (Hper _ _ _ Hflow Hb) as Hbv. rewrite Hhd in Hbv.
  assert (packets (skb :: rest) = 1 + packets rest) as ->
    by (unfold packets; cbn [length]; lia).
  change (bytes (skb :: rest)) with (qdisc_pkt_len skb + bytes rest) in *.
  change (mem_bytes (skb :: rest)) with (mem_usage skb + mem_bytes rest).
  split; [exact Hfl|]. split; [exact Hbl|]. split; [|split; [|split]].
  - intros j fl' b' Hfl' Hb'.
    destruct (Nat.eq_dec j (Z.to_nat idx)) as [-> | Hne].
    + rewrite list_lookup_insert_eq in Hfl'
        by (apply lookup_lt_Some in Hflow; lia).
      rewrite list_lookup_insert_eq in Hb'
        by (apply lookup_lt_Some in Hb; lia).
      inversion Hfl'; inversion Hb'; subst. u32_arith.
    + rewrite list_lookup_insert_ne in Hfl' by lia.
      rewrite list_lookup_insert_ne in Hb' by lia.
      exact (Hper _ _ _ Hfl' Hb').
  - rewrite Hql. u32_arith.
  - rewrite Hqb. u32_arith.
  - rewrite Hmu. u32_arith.
Qed.

Lemma dequeue_func_accounting idx : preserves accounting_wf (dequeue_func idx).
Proof.
  apply preserves_wp. intros sch HA. unfold dequeue_func.
  do 4 wp_step.
  - wp_step. exact HA.
  - repeat wp_step.
    eapply (dequeue_pop_accounting sch idx fl b s l);
      try eassumption; goal_simpl; try reflexivity.
    reflexivity.
Qed.

Lemma codel_drop_accounting skb : preserves accounting_wf (codel_drop skb).
Proof.
  apply preserves_wp. intros sch HA. unfold codel_drop.
  repeat wp_step. accounting_frame HA.
Qed.

Lemma codel_dequeue_accounting ndrop idx :
  preserves accounting_wf (codel_dequeue ndrop idx).
Proof.
  induction ndrop as [| n IH]; cbn [codel_dequeue].
  - apply dequeue_func_accounting.
  - apply preserves_bind; [apply dequeue_func_accounting|].
    intros [p |]; [|apply preserves_pure].
    apply preserves_bind; [apply codel_drop_accounting | intros _; exact IH].
Qed.

Lemma deliver_accounting idx skb : preserves accounting_wf (deliver idx skb).
Proof.
  apply preserves_wp. intros sch HA. unfold deliver, release_flow.
  wp_go. all: accounting_frame HA.
Qed.

Lemma fq_codel_dequeue_accounting codel fuel :
  preserves accounting_wf (fq_codel_dequeue codel fuel).
Proof.
  induction fuel as [| fuel IH]; cbn [fq_codel_dequeue].
  - intros s a s' _ H. discriminate.
  - apply preserves_wp. intros sch HA. wp_go.
    + eapply (wp_preserves accounting_wf);
        [exact IH | accounting_frame HA | auto].
    + eapply (wp_preserves accounting_wf);
        [apply codel_dequeue_accounting | accounting_frame HA |].
      intros r s2 HA2. wp_go.
      * eapply (wp_preserves accounting_wf);
          [apply deliver_accounting | accounting_frame HA2 | auto].
      * eapply (wp_preserves accounting_wf);
          [exact IH | accounting_frame HA2 | auto].
      * eapply (wp_preserves accounting_wf);
          [exact IH | accounting_frame HA2 | auto].
    + accounting_frame HA.
Qed.

(** A scheduler without packets, its counters at zero. *)
Lemma drained_accounting sch :
  Forall (fun fl => head fl = []) (flows (priv sch)) ->
  length (flows (priv sch)) = Z.to_nat (flows_cnt (priv sch)) ->
  backlogs (priv sch) = repeat 0 (Z.to_nat (flows_cnt (priv sch))) ->
  qlen sch = 0 -> qstats_backlog sch = 0 -> memory_usage (priv sch) = 0 ->
  accounting_wf sch.
Proof.
  intros Hall Hlen Hbl Hq Hb Hm. unfold accounting_wf.
  rewrite Hbl, Hq, Hb, Hm, repeat_length, !flow_sum_empty by auto.
  repeat split; try assumption.
  intros i fl b Hfl Hb0.
  apply list_elem_of_lookup_2, list_elem_of_In, repeat_spec in Hb0. subst b.
  rewrite Forall_lookup in Hall. rewrite (Hall i fl Hfl). reflexivity.
Qed.

Lemma fq_codel_reset_accounting sch :
  accounting_wf sch -> accounting_wf (fq_codel_reset sch).
Proof.
  intros (Hlen & _). apply drained_accounting; try reflexivity.
  - cbn. apply Forall_forall. intros fl Hfl.
    apply list_elem_of_In, in_map_iff in Hfl as (fl0 & <- & _). reflexivity.
  - cbn. rewrite length_map. exact Hlen.
Qed.

Lemma default_qdisc_accounting hd mtu seed0 seed1 sch :
  default_qdisc hd mtu seed0 seed1 = Ok (0, sch) -> accounting_wf sch.
Proof.
  rewrite default_qdisc_eq. intros H. injection H as <-.
  apply drained_accounting; try reflexivity.
  apply (Forall_repeat _ empty_flow 1024). reflexivity.
Qed.

Lemma fresh_qdisc_accounting hd n mtu seed0 seed1 sch :
  fresh_qdisc hd n mtu seed0 seed1 = Ok (0, sch) -> accounting_wf sch.
Proof.
  destruct ((nla_get_u32 n =? 0) || (nla_get_u32 n >? 65536)) eqn:Hbad.
  - destruct (fresh_qdisc_rejected hd n mtu seed0 seed1 Hbad) as [sch' ->].
    discriminate.
  - rewrite (fresh_qdisc_eq _ _ _ _ _ Hbad).
    intros H. injection H as <-.
    apply drained_accounting; try reflexivity.
    + apply (Forall_repeat _ empty_flow (Z.to_nat (nla_get_u32 n))).
      reflexivity.
    + apply (repeat_length empty_flow (Z.to_nat (nla_get_u32 n))).
Qed.

(** * The scheduling lists *)

Lemma in_list_elem_of idx l : in_list idx l = true <-> idx ∈ l.
Proof.
  unfold in_list. rewrite existsb_exists. split.
  - intros (x & Hx & Heq). apply Z.eqb_eq in Heq. subst x.
    apply list_elem_of_In. exact Hx.
  - intros Hin. exists idx. split; [apply list_elem_of_In; exact Hin|].
    apply Z.eqb_refl.
Qed.

Lemma flowchain_empty_spec q idx :
  flowchain_empty q idx = true <-> idx ∉ new_flows q ++ old_flows q.
Proof.
  unfold flowchain_empty. rewrite negb_true_iff, orb_false_iff.
  rewrite elem_of_app.
  destruct (in_list idx (new_flows q)) eqn:E1;
    destruct (in_list idx (old_flows q)) eqn:E2.
  all: try (apply in_list_elem_of in E1); try (apply in_list_elem_of in E2).
  all: split; try tauto; try (intros [? ?]; discriminate).
  intros _ [H | H]; apply in_list_elem_of in H; congruence.
Qed.

Lemma pick_flow_ext q q' :
  new_flows q' = new_flows q -> old_flows q' = old_flows q ->
  pick_flow q' = pick_flow q.
Proof. unfold pick_flow. intros -> ->. reflexivity. Qed.

(** Queues that only lose packets, with the lists as they were. *)
Lemma scheduled_wf_shrink q q' :
  scheduled_wf q ->
  new_flows q' = new_flows q -> old_flows q' = old_flows q ->
  (forall i fl', flows q' !! i = Some fl' -> head fl' <> [] ->
     exists fl, flows q !! i = Some fl /\ head fl <> []) ->
  scheduled_wf q'.
Proof.
  intros [Hnd Hin] En Eo Hsh. unfold scheduled_wf. rewrite En, Eo.
  split; [exact Hnd|]. intros i fl' Hfl' Hne.
  destruct (Hsh i fl' Hfl' Hne) as (fl & Hfl & Hne0). exact (Hin i fl Hfl Hne0).
Qed.

Lemma scheduled_wf_ext q q' :
  scheduled_wf q ->
  map head (flows q') = map head (flows q) ->
  new_flows q' = new_flows q -> old_flows q' = old_flows q ->
  scheduled_wf q'.
Proof.
  intros Hq E En Eo. apply (scheduled_wf_shrink q q' Hq En Eo).
  intros i fl' Hfl' Hne.
  assert (map head (flows q') !! i = Some (head fl')) as Hh
    by (change (map head) with (fmap (M := list) head);
        rewrite list_lookup_fmap, Hfl'; reflexivity).
  rewrite E in Hh. change (map head) with (fmap (M := list) head) in Hh.
  rewrite list_lookup_fmap in Hh.
  destruct (flows q !! i) as [fl |] eqn:Hfl0; [|discriminate].
  injection Hh as Hhd. exists fl. split; [reflexivity | congruence].
Qed.

Lemma scheduled_wf_move from_new idx q :
  scheduled_wf q -> pick_flow q = Some (from_new, idx) ->
  scheduled_wf (move_head_to_old from_new idx q).
Proof.
  intros [Hnd Hin] Hpick. unfold pick_flow in Hpick.
  assert (new_flows (move_head_to_old from_new idx q)
          ++ old_flows (move_head_to_old from_new idx q)
          ≡ₚ new_flows q ++ old_flows q) as Hperm.
  { unfold move_head_to_old.
    destruct (new_flows q) as [| x t] eqn:En.
    - destruct (old_flows q) as [| y t] eqn:Eo; [discriminate|].
      injection Hpick as <- <-. goal_simpl. rewrite ?En, ?Eo. cbn [tail app].
      symmetry. apply Permutation_cons_append.
    - injection Hpick as <- <-. goal_simpl. rewrite ?En. cbn [tail].
      rewrite app_assoc, <- Permutation_cons_append. reflexivity. }
  split.
  - rewrite Hperm. exact Hnd.
  - intros i fl Hfl Hne. rewrite Hperm. apply (Hin i fl); [|exact Hne].
    unfold move_head_to_old in Hfl. destruct from_new; exact Hfl.
Qed.

Lemma scheduled_wf_del from_new idx q :
  scheduled_wf q -> pick_flow q = Some (from_new, idx) ->
  (forall fl, flows q !! Z.to_nat idx = Some fl -> head fl = []) ->
  0 <= idx ->
  scheduled_wf (del_head from_new q).
Proof.
  intros [Hnd Hin] Hpick Hempty Hidx. unfold pick_flow in Hpick.
  assert (new_flows q ++ old_flows q
          = idx :: (new_flows (del_head from_new q)
                    ++ old_flows (del_head from_new q))
          /\ flows (del_head from_new q) = flows q) as [Hl Hf].
  { unfold del_head.
    destruct (new_flows q) as [| x t] eqn:En.
    - destruct (old_flows q) as [| y t] eqn:Eo; [discriminate|].
      injection Hpick as <- <-. goal_simpl. rewrite ?En, ?Eo. auto.
    - injection Hpick as <- <-. goal_simpl. rewrite ?En. auto. }
  rewrite Hl in Hnd, Hin. apply NoDup_cons in Hnd as [Hnotin Hnd].
  split; [exact Hnd|]. intros i fl Hfl Hne. rewrite Hf in Hfl.
  specialize (Hin i fl Hfl Hne). apply elem_of_cons in Hin as [Heq | Hin];
    [|exact Hin].
  exfalso. apply Hne, Hempty. rewrite <- Heq, Nat2Z.id. exact Hfl.
Qed.

(** A packet added to the queue of slot [idx], the slot linked to
    [new_flows] if it was on neither list. *)
Lemma scheduled_wf_add q q' idx nf :
  scheduled_wf q -> 0 <= idx ->
  flows q' = <[Z.to_nat idx := nf]> (flows q) ->
  old_flows q' = old_flows q ->
  ((idx ∉ new_flows q ++ old_flows q) /\ new_flows q' = new_flows q ++ [idx])
  \/ ((idx ∈ new_flows q ++ old_flows q) /\ new_flows q' = new_flows q) ->
  scheduled_wf q'.
Proof.
  intros [Hnd Hin] Hidx Ef Eo Hcase. unfold scheduled_wf. rewrite Ef, Eo.
  assert (forall i fl, <[Z.to_nat idx := nf]> (flows q) !! i = Some fl ->
            head fl <> [] -> i <> Z.to_nat idx ->
            Z.of_nat i ∈ new_flows q ++ old_flows q) as Hother.
  { intros i fl Hfl Hne Hi. rewrite list_lookup_insert_ne in Hfl by lia.
    exact (Hin i fl Hfl Hne). }
  destruct Hcase as [[Hnot ->] | [Hwas ->]].
  - assert ((new_flows q ++ [idx]) ++ old_flows q
            ≡ₚ idx :: (new_flows q ++ old_flows q)) as Hperm
      by (rewrite <- (Permutation_cons_append (new_flows q) idx); reflexivity).
    split.
    + rewrite Hperm. apply NoDup_cons. auto.
    + intros i fl Hfl Hne. rewrite Hperm.
      destruct (Nat.eq_dec i (Z.to_nat idx)) as [-> | Hi].
      * rewrite Z2Nat.id by lia. apply elem_of_cons. auto.
      * apply elem_of_cons. right. exact (Hother i fl Hfl Hne Hi).
  - split; [exact Hnd|]. intros i fl Hfl Hne.
    destruct (Nat.eq_dec i (Z.to_nat idx)) as [-> | Hi].
    + rewrite Z2Nat.id by lia. exact Hwas.
    + exact (Hother i fl Hfl Hne Hi).
Qed.

Ltac scheduled_frame HL :=
  apply (scheduled_wf_ext _ _ HL); goal_simpl;
  try reflexivity;
  try (eapply heads_insert_same;
       [eassumption | cbn [head]; first [reflexivity | congruence]]).

Lemma lookup_insert_shrink (l : list fq_codel_flow) i x y j fl' :
  l !! i = Some x -> (head y <> [] -> head x <> []) ->
  <[i := y]> l !! j = Some fl' -> head fl' <> [] ->
  exists fl, l !! j = Some fl /\ head fl <> [].
Proof.
  intros Hx Hxy Hfl' Hne.
  destruct (Nat.eq_dec j i) as [-> | Hji].
  - rewrite list_lookup_insert_eq in Hfl' by (apply lookup_lt_Some in Hx; lia).
    injection Hfl' as <-. eauto.
  - rewrite list_lookup_insert_ne in Hfl' by lia. eauto.
Qed.

Lemma fq_codel_drop_scheduled max_packets :
  preserves sch_scheduled_wf (fq_codel_drop max_packets).
Proof.
  intros sch [ret to_free] sch' HL H.
  unfold fq_codel_drop in H.
  apply rbind_Ok_inv in H as ([m idx] & _ & H).
  apply rbind_Ok_inv in H as (flow & Hflow & H).
  apply rbind_Ok_inv in H as ([[rest freed] [[i len] mem]] & Hloop & H).
  apply rbind_Ok_inv in H as (fs & Hfs & H).
  apply rbind_Ok_inv in H as (b & Hb & H).
  apply rbind_Ok_inv in H as (bs & Hbs & H).
  inversion H; subst ret to_free sch'; clear H.
  apply arr_get_Ok in Hflow as [Hidx Hflow].
  apply arr_set_Ok in Hfs as [_ ->]. apply arr_set_Ok in Hbs as [_ ->].
  pose proof (drop_loop_inv _ _ _ _ _ _ _ Hloop) as Hinv. cbv beta iota in Hinv.
  destruct Hinv as (Hq & _).
  unfold sch_scheduled_wf in *.
  apply (scheduled_wf_shrink _ _ HL); goal_simpl; try reflexivity.
  intros j fl' Hfl' Hne.
  apply (lookup_insert_shrink _ _ _ _ _ _ Hflow) in Hfl'; [exact Hfl' | | exact Hne].
  cbn [head]. rewrite Hq. intros Hr Happ. apply app_eq_nil in Happ as [_ ->].
  contradiction.
Qed.

Lemma flowchain_empty_false q idx :
  flowchain_empty q idx = false -> idx ∈ new_flows q ++ old_flows q.
Proof.
  intros H. destruct (decide (idx ∈ new_flows q ++ old_flows q)) as [Hin | Hnot];
    [exact Hin|].
  apply flowchain_empty_spec in Hnot. congruence.
Qed.

Lemma enqueue_scheduled skb ret0 :
  preserves sch_scheduled_wf (fq_codel_enqueue skb ret0).
Proof.
  apply preserves_wp. intros sch HL. unfold sch_scheduled_wf in HL.
  unfold fq_codel_enqueue.
  wp_step. apply wp_classify. intros v e ht Hht.
  destruct (v =? 0).
  - repeat wp_step. all: unfold sch_scheduled_wf; scheduled_frame HL.
  - set (idx := u32 (v - 1)) in *. wp_go.
    all: match goal with
         | H : flowchain_empty _ _ = true |- _ =>
           apply flowchain_empty_spec in H
         | H : flowchain_empty _ _ = false |- _ =>
           apply flowchain_empty_false in H
         end; state_simpl.
    all: match goal with
         | |- wp (fq_codel_drop _) _ ?s =>
           assert (sch_scheduled_wf s) as HL'
         | |- sch_scheduled_wf ?s => assert (sch_scheduled_wf s) as HL'
         end.
    all: try (unfold sch_scheduled_wf;
              eapply (scheduled_wf_add (priv sch) _ idx);
              [ exact HL | lia
              | goal_simpl; rewrite ?list_insert_insert_eq; reflexivity
              | goal_simpl; reflexivity
              | goal_simpl; auto ]).
    all: try exact HL'.
    all: eapply (wp_preserves sch_scheduled_wf);
      [apply fq_codel_drop_scheduled | exact HL' |];
      intros [ret to_free] s2 HL2; wp_go;
      unfold sch_scheduled_wf in *; scheduled_frame HL2.
Qed.

Lemma dequeue_func_scheduled idx sch :
  scheduled_wf (priv sch) ->
  wp (dequeue_func idx) (drained_post idx sch) sch.
Proof.
  intros HL. unfold dequeue_func, drained_post. wp_go.
  - split; [scheduled_frame HL|]. split; [reflexivity|].
    split; [reflexivity|]. intros _ fl' Hfl'. congruence.
  - split; [|split; [reflexivity | split; [reflexivity | discriminate]]].
    apply (scheduled_wf_shrink _ _ HL); goal_simpl; try reflexivity.
    intros j fl' Hfl' Hne.
    apply (lookup_insert_shrink _ _ _ _ _ _ H0) in Hfl';
      [exact Hfl' | | exact Hne].
    intros _. congruence.
Qed.

Lemma codel_dequeue_scheduled ndrop idx : forall sch,
  scheduled_wf (priv sch) ->
  wp (codel_dequeue ndrop idx) (drained_post idx sch) sch.
Proof.
  induction ndrop as [| n IH]; intros sch HL; cbn [codel_dequeue].
  - apply dequeue_func_scheduled, HL.
  - apply wp_bind.
    eapply wp_mono; [apply dequeue_func_scheduled, HL|]. cbv beta.
    intros [p |] s1 (HL1 & En & Eo & Hnone).
    + unfold codel_drop. wp_go.
      eapply wp_mono; [apply IH; scheduled_frame HL1|]. cbv beta.
      unfold drained_post. goal_simpl.
      intros r s2 (HL2 & En2 & Eo2 & Hnone2).
      rewrite En2, Eo2. auto.
    + wp_step. unfold drained_post. auto.
Qed.

Lemma deliver_scheduled idx skb : preserves sch_scheduled_wf (deliver idx skb).
Proof.
  apply preserves_wp. intros sch HL. unfold deliver, release_flow.
  unfold sch_scheduled_wf in *. wp_go. all: scheduled_frame HL.
Qed.

Lemma fq_codel_dequeue_scheduled codel fuel :
  preserves sch_scheduled_wf (fq_codel_dequeue codel fuel).
Proof.
  induction fuel as [| fuel IH]; cbn [fq_codel_dequeue].
  - intros s a s' _ H. discriminate.
  - apply preserves_wp. intros sch HL. unfold sch_scheduled_wf in HL. wp_go.
    + eapply (wp_preserves sch_scheduled_wf); [exact IH | | auto].
      apply scheduled_wf_move; [scheduled_frame HL|].
      rewrite <- Heqo. apply pick_flow_ext; reflexivity.
    + eapply wp_mono; [apply codel_dequeue_scheduled; scheduled_frame HL|].
      cbv beta. unfold drained_post. goal_simpl.
      intros r s2 (HL2 & En & Eo & Hnone).
      assert (pick_flow (priv s2) = Some (b, z)) as Hpick
        by (rewrite <- Heqo; apply pick_flow_ext; assumption).
      wp_go.
      * eapply (wp_preserves sch_scheduled_wf);
          [apply deliver_scheduled | | auto].
        unfold sch_scheduled_wf. scheduled_frame HL2.
      * eapply (wp_preserves sch_scheduled_wf); [exact IH | | auto].
        apply scheduled_wf_move; [scheduled_frame HL2|].
        rewrite <- Hpick. apply pick_flow_ext; reflexivity.
      * eapply (wp_preserves sch_scheduled_wf); [exact IH | | auto].
        apply (scheduled_wf_del b z); [scheduled_frame HL2 | | | lia].
        -- rewrite <- Hpick. apply pick_flow_ext; reflexivity.
        -- goal_simpl. rewrite list_lookup_insert_eq by lia.
           intros fl' Heq. injection Heq as <-. cbn [head].
           exact (Hnone eq_refl fl0 H2).
    + unfold sch_scheduled_wf. scheduled_frame HL.
Qed.

Lemma drained_scheduled q :
  Forall (fun fl => head fl = []) (flows q) ->
  new_flows q = [] -> old_flows q = [] -> scheduled_wf q.
Proof.
  intros Hall En Eo. unfold scheduled_wf. rewrite En, Eo. split.
  - apply NoDup_nil_2.
  - intros i fl Hfl Hne. rewrite Forall_lookup in Hall.
    exfalso. exact (Hne (Hall i fl Hfl)).
Qed.

Lemma purged_flows fls :
  Forall (fun fl => head fl = []) (map fq_codel_flow_purge fls).
Proof.
  apply Forall_forall. intros fl Hfl.
  apply list_elem_of_In, in_map_iff in Hfl as (fl0 & <- & _). reflexivity.
Qed.

Lemma fq_codel_reset_scheduled sch : scheduled_wf (priv (fq_codel_reset sch)).
Proof. apply drained_scheduled; try reflexivity. apply purged_flows. Qed.

Lemma default_qdisc_scheduled hd mtu seed0 seed1 sch :
  default_qdisc hd mtu seed0 seed1 = Ok (0, sch) -> scheduled_wf (priv sch).
Proof.
  rewrite default_qdisc_eq. intros H. injection H as <-.
  apply drained_scheduled; try reflexivity.
  apply (Forall_repeat _ empty_flow 1024). reflexivity.
Qed.

Lemma fresh_qdisc_scheduled hd n mtu seed0 seed1 sch :
  fresh_qdisc hd n mtu seed0 seed1 = Ok (0, sch) -> scheduled_wf (priv sch).
Proof.
  destruct ((nla_get_u32 n =? 0) || (nla_get_u32 n >? 65536)) eqn:Hbad.
  - destruct (fresh_qdisc_rejected hd n mtu seed0 seed1 Hbad) as [sch' ->].
    discriminate.
  - rewrite (fresh_qdisc_eq _ _ _ _ _ Hbad).
    intros H. injection H as <-.
    apply drained_scheduled; try reflexivity.
    apply (Forall_repeat _ empty_flow (Z.to_nat (nla_get_u32 n))).
    reflexivity.
Qed.

(** [fq_codel_dequeue] returns NULL only from the test that finds both
    lists empty. *)
Lemma fq_codel_dequeue_none codel fuel : forall sch,
  wp (fq_codel_dequeue codel fuel)
     (fun r s' => r = None ->
        new_flows (priv s') = [] /\ old_flows (priv s') = []) sch.
Proof.
  induction fuel as [| fuel IH]; intros sch; cbn [fq_codel_dequeue].
  - exact I.
  - wp_go.
    + apply IH.
    + apply wp_intro. intros r s2 _. wp_go.
      * apply wp_intro. intros r' s3 Hrun Hr'.
        apply deliver_Ok in Hrun as (-> & _). discriminate.
      * apply IH.
      * apply IH.
    + intros _. unfold pick_flow in *.
      destruct (new_flows (priv sch)); [|discriminate].
      destruct (old_flows (priv sch)); [auto | discriminate].
Qed.

(** * Invariants of the reachable states *)

(** ** The number of flows *)

Ltac flows_cnt_frame Hn :=
  unfold flows_cnt_is, move_head_to_old, del_head in *;
  repeat match goal with
         | |- context [if ?c then _ else _] => destruct c
         end;
  goal_simpl; exact Hn.

Lemma fq_codel_drop_flows_cnt n max_packets :
  preserves (flows_cnt_is n) (fq_codel_drop max_packets).
Proof.
  intros sch [ret to_free] sch' Hn H. unfold fq_codel_drop in H.
  apply rbind_Ok_inv in H as ([m idx] & _ & H).
  apply rbind_Ok_inv in H as (flow & _ & H).
  apply rbind_Ok_inv in H as ([[rest freed] [[i len] mem]] & _ & H).
  apply rbind_Ok_inv in H as (fs & _ & H).
  apply rbind_Ok_inv in H as (b & _ & H).
  apply rbind_Ok_inv in H as (bs & _ & H).
  inversion H; subst ret to_free sch'; clear H.
  unfold flows_cnt_is in *. goal_simpl. exact Hn.
Qed.

Lemma enqueue_flows_cnt n skb ret0 :
  preserves (flows_cnt_is n) (fq_codel_enqueue skb ret0).
Proof.
  apply preserves_wp. intros sch Hn. unfold fq_codel_enqueue.
  wp_step. apply wp_classify. intros v e ht Hht.
  wp_go.
  all: try exact Hn.
  all: eapply (wp_preserves (flows_cnt_is n));
    [apply fq_codel_drop_flows_cnt | exact Hn |];
    intros [ret to_free] s2 Hn2; wp_go; exact Hn2.
Qed.

Lemma dequeue_func_flows_cnt n idx :
  preserves (flows_cnt_is n) (dequeue_func idx).
Proof.
  apply preserves_wp. intros sch Hn. unfold dequeue_func.
  wp_go; exact Hn.
Qed.

Lemma codel_dequeue_flows_cnt n ndrop idx :
  preserves (flows_cnt_is n) (codel_dequeue ndrop idx).
Proof.
  induction ndrop as [| k IH]; cbn [codel_dequeue].
  - apply dequeue_func_flows_cnt.
  - apply preserves_bind; [apply dequeue_func_flows_cnt|].
    intros [p |]; [|apply preserves_pure].
    apply preserves_bind; [|intros _; exact IH].
    apply preserves_wp. intros sch Hn. unfold codel_drop. wp_go. exact Hn.
Qed.

Lemma deliver_flows_cnt n idx skb :
  preserves (flows_cnt_is n) (deliver idx skb).
Proof.
  apply preserves_wp. intros sch Hn. unfold deliver, release_flow.
  wp_go; exact Hn.
Qed.

Lemma fq_codel_dequeue_flows_cnt n codel fuel :
  preserves (flows_cnt_is n) (fq_codel_dequeue codel fuel).
Proof.
  induction fuel as [| fuel IH]; cbn [fq_codel_dequeue].
  - intros s a s' _ H. discriminate.
  - apply preserves_wp. intros sch Hn. wp_go.
    + eapply (wp_preserves (flows_cnt_is n));
        [exact IH | flows_cnt_frame Hn | auto].
    + eapply (wp_preserves (flows_cnt_is n));
        [apply codel_dequeue_flows_cnt | flows_cnt_frame Hn |].
      intros r s2 Hn2. wp_go.
      * eapply (wp_preserves (flows_cnt_is n));
          [apply deliver_flows_cnt | flows_cnt_frame Hn2 | auto].
      * eapply (wp_preserves (flows_cnt_is n));
          [exact IH | flows_cnt_frame Hn2 | auto].
      * eapply (wp_preserves (flows_cnt_is n));
          [exact IH | flows_cnt_frame Hn2 | auto].
    + exact Hn.
Qed.

(** ** Configuration changes *)

(** [fq_codel_change] assigns to the limits, the quantum and the batch
    size only. *)
Lemma apply_opts_fields tb sch :
  qlen (apply_opts tb sch) = qlen sch
  /\ qstats_backlog (apply_opts tb sch) = qstats_backlog sch
  /\ flows_cnt (priv (apply_opts tb sch)) = flows_cnt (priv sch)
  /\ hashtable (priv (apply_opts tb sch)) = hashtable (priv sch)
  /\ flows (priv (apply_opts tb sch)) = flows (priv sch)
  /\ backlogs (priv (apply_opts tb sch)) = backlogs (priv sch)
  /\ empty_flow_mask (priv (apply_opts tb sch)) = empty_flow_mask (priv sch)
  /\ flow_mask_index (priv (apply_opts tb sch)) = flow_mask_index (priv sch)
  /\ new_flows (priv (apply_opts tb sch)) = new_flows (priv sch)
  /\ old_flows (priv (apply_opts tb sch)) = old_flows (priv sch)
  /\ memory_usage (priv (apply_opts tb sch)) = memory_usage (priv sch).
Proof.
  unfold apply_opts.
  destruct (TCA_FQ_CODEL_LIMIT tb), (TCA_FQ_CODEL_QUANTUM tb),
    (TCA_FQ_CODEL_DROP_BATCH_SIZE tb), (TCA_FQ_CODEL_MEMORY_LIMIT tb);
    cbv zeta; goal_simpl; repeat split.
Qed.

Lemma apply_opts_limits tb sch :
  0 <= limit sch -> 0 <= memory_limit (priv sch) ->
  0 <= limit (apply_opts tb sch)
  /\ 0 <= memory_limit (priv (apply_opts tb sch)).
Proof.
  intros Hl Hm. unfold apply_opts, nla_get_u32.
  pose proof (fun v => proj1 (u32_range v)) as Hu.
  destruct (TCA_FQ_CODEL_LIMIT tb), (TCA_FQ_CODEL_QUANTUM tb),
    (TCA_FQ_CODEL_DROP_BATCH_SIZE tb), (TCA_FQ_CODEL_MEMORY_LIMIT tb);
    cbv zeta; goal_simpl; unfold min_u; split; auto;
    match goal with |- context [if ?c then _ else _] => destruct c end;
    auto.
Qed.

Lemma change_trim_keeps (I : Qdisc -> Prop) codel dq_fuel fuel :
  preserves I (fq_codel_dequeue codel dq_fuel) ->
  (forall c s, I s -> I (set_priv (set_cstats c (priv s)) s)) ->
  preserves I (change_trim codel dq_fuel fuel).
Proof.
  intros Hdq Hc.
  induction fuel as [| fuel IH]; cbn [change_trim].
  - intros s a s' _ H. discriminate.
  - apply preserves_wp. intros sch HI. wp_go; [|exact HI].
    eapply (wp_preserves I); [exact Hdq | exact HI |].
    intros [p |] s2 HI2; wp_go.
    eapply (wp_preserves I); [exact IH | apply Hc; exact HI2 | auto].
Qed.

(** Once the flow table is allocated, [fq_codel_change] keeps every
    invariant that dequeueing keeps and that does not read the fields it
    assigns to. *)
Lemma change_keeps (I : Qdisc -> Prop) codel dq_fuel fuel opt sch :
  preserves I (fq_codel_dequeue codel dq_fuel) ->
  (forall tb s, I s -> I (apply_opts tb s)) ->
  (forall c s, I s -> I (set_priv (set_cstats c (priv s)) s)) ->
  flows (priv sch) <> [] -> I sch ->
  wp (fq_codel_change codel dq_fuel fuel opt) (fun _ s' => I s') sch.
Proof.
  intros Hdq Ho Hc Hfl HI. unfold fq_codel_change.
  destruct opt as [tb |]; [|wp_step; exact HI].
  cbv zeta. wp_go; rewrite ?set_priv_priv; try exact HI.
  all: try (destruct (flows (priv sch)); [congruence | discriminate]).
  all: eapply (wp_preserves I);
    [apply change_trim_keeps; assumption | apply Ho; exact HI |];
    intros [] s1 HI1; wp_go; apply Hc; exact HI1.
Qed.

Lemma change_flows_cnt n codel dq_fuel fuel opt sch :
  flows (priv sch) <> [] -> flows_cnt_is n sch ->
  wp (fq_codel_change codel dq_fuel fuel opt) (fun _ s' => flows_cnt_is n s') sch.
Proof.
  apply change_keeps.
  - apply fq_codel_dequeue_flows_cnt.
  - intros tb s Hn. unfold flows_cnt_is in *.
    destruct (apply_opts_fields tb s) as (_ & _ & -> & _). exact Hn.
  - intros c s Hn. exact Hn.
Qed.

Lemma change_accounting codel dq_fuel fuel opt sch :
  flows (priv sch) <> [] -> accounting_wf sch ->
  wp (fq_codel_change codel dq_fuel fuel opt) (fun _ s' => accounting_wf s') sch.
Proof.
  apply change_keeps.
  - apply fq_codel_dequeue_accounting.
  - intros tb s HA.
    destruct (apply_opts_fields tb s)
      as (E1 & E2 & E3 & _ & E5 & E6 & _ & _ & _ & _ & E11).
    apply (accounting_wf_ext _ _ HA); try assumption. rewrite E5. reflexivity.
  - intros c s HA. accounting_frame HA.
Qed.

Lemma change_scheduled codel dq_fuel fuel opt sch :
  flows (priv sch) <> [] -> sch_scheduled_wf sch ->
  wp (fq_codel_change codel dq_fuel fuel opt)
     (fun _ s' => sch_scheduled_wf s') sch.
Proof.
  apply change_keeps.
  - apply fq_codel_dequeue_scheduled.
  - intros tb s HL. unfold sch_scheduled_wf in *.
    destruct (apply_opts_fields tb s)
      as (_ & _ & _ & _ & E5 & _ & _ & _ & E9 & E10 & _).
    apply (scheduled_wf_ext _ _ HL); try assumption. rewrite E5. reflexivity.
  - intros c s HL. unfold sch_scheduled_wf in *. scheduled_frame HL.
Qed.

Lemma change_classifier_wf codel dq_fuel fuel opt sch :
  sch_wf sch ->
  wp (fq_codel_change codel dq_fuel fuel opt) (fun _ s' => sch_wf s') sch.
Proof.
  intros Hwf. apply change_keeps; [| | | |exact Hwf].
  - apply preserves_dequeue.
  - intros tb s Hs. unfold sch_wf in *.
    destruct (apply_opts_fields tb s)
      as (_ & _ & E3 & E4 & E5 & _ & E7 & E8 & _).
    apply (classifier_wf_same_tables (priv s)); [|exact Hs].
    unfold same_tables. rewrite E3, E4, E5, E7, E8. auto.
  - intros c s Hs. exact Hs.
  - destruct Hwf as (Hn & (_ & Hlen & _) & _). intros E. rewrite E in Hlen.
    simpl in Hlen. lia.
Qed.

(** ** Initialisation *)

(** With nothing queued the loop of [fq_codel_change] does not run. *)
Lemma change_trim_idle codel dq_fuel fuel sch :
  qlen sch = 0 -> memory_usage (priv sch) = 0 ->
  0 <= limit sch -> 0 <= memory_limit (priv sch) ->
  wp (change_trim codel dq_fuel fuel) (fun _ s' => s' = sch) sch.
Proof.
  intros Hq Hm Hl Hml. destruct fuel as [| fuel]; cbn [change_trim]; [exact I|].
  apply wp_bind, wp_gets. rewrite Hq, Hm.
  destruct (Z.gtb_spec 0 (limit sch)); [lia|].
  destruct (Z.gtb_spec 0 (memory_limit (priv sch))); [lia|].
  apply wp_pure. reflexivity.
Qed.

(** [fq_codel_change] as [fq_codel_init] calls it, before the flow table is
    allocated and with nothing queued. *)
Lemma change_unallocated codel dq_fuel fuel opt sch :
  flows (priv sch) = [] -> 1 <= flows_cnt (priv sch) <= 65536 ->
  new_flows (priv sch) = [] -> old_flows (priv sch) = [] ->
  qlen sch = 0 -> qstats_backlog sch = 0 -> memory_usage (priv sch) = 0 ->
  0 <= limit sch -> 0 <= memory_limit (priv sch) ->
  wp (fq_codel_change codel dq_fuel fuel opt)
     (fun r s' =>
        r = 0 ->
        flows (priv s') = [] /\ 1 <= flows_cnt (priv s') <= 65536
        /\ new_flows (priv s') = [] /\ old_flows (priv s') = []
        /\ qlen s' = 0 /\ qstats_backlog s' = 0
        /\ memory_usage (priv s') = 0) sch.
Proof.
  intros Hfl Hn En Eo Hq Hb Hm Hl Hml. unfold fq_codel_change.
  destruct opt as [tb |]; [|wp_step; discriminate].
  cbv zeta.
  wp_go; try discriminate.
  all: match goal with
       | |- wp (change_trim _ _ _) _ (apply_opts ?t ?s) =>
         destruct (apply_opts_fields t s)
           as (E1 & E2 & E3 & _ & E5 & _ & _ & _ & E9 & E10 & E11);
         destruct (apply_opts_limits t s) as [L1 L2];
         [goal_simpl; assumption | goal_simpl; assumption |];
         revert E1 E2 E3 E5 E9 E10 E11; goal_simpl; intros;
         eapply wp_mono;
         [apply change_trim_idle; congruence|]
       end.
  all: cbv beta; intros [] s1 ->; wp_go; intros _.
  all: rewrite ?E1, ?E2, ?E3, ?E5, ?E9, ?E10, ?E11.
  all: repeat (split; [first [assumption | lia]|]); try assumption.
  apply orb_false_iff in Heqb0 as [H1 H2]. apply Z.eqb_neq in H1.
  pose proof (u32_range z) as Hz. fold (nla_get_u32 z) in Hz.
  destruct (Z.gtb_spec (nla_get_u32 z) 65536); [discriminate|].
  split; [lia | auto].
Qed.

(** What [fq_codel_init] leaves when it returns 0: between 1 and 65536
    flows, the tables as the allocation and the two [memset] leave them,
    and nothing queued. *)
Lemma fq_codel_init_Ok codel dq_fuel fuel mtu seed0 seed1 opt hd sch :
  fq_codel_init codel dq_fuel fuel mtu seed0 seed1 opt (qdisc_alloc hd)
  = Ok (0, sch) ->
  1 <= flows_cnt (priv sch) <= 65536
  /\ hashtable (priv sch) = repeat 0 (2 * Z.to_nat (flows_cnt (priv sch)))%nat
  /\ flows (priv sch) = repeat empty_flow (Z.to_nat (flows_cnt (priv sch)))
  /\ backlogs (priv sch) = repeat 0 (Z.to_nat (flows_cnt (priv sch)))
  /\ empty_flow_mask (priv sch) = memset_u32 1 32
  /\ flow_mask_index (priv sch) = memset_word 1
  /\ new_flows (priv sch) = [] /\ old_flows (priv sch) = []
  /\ qlen sch = 0 /\ qstats_backlog sch = 0 /\ memory_usage (priv sch) = 0.
Proof.
  intros Hrun.
  refine (wp_Ok _
            (fun r s' =>
               r = 0 ->
               1 <= flows_cnt (priv s') <= 65536
               /\ hashtable (priv s')
                  = repeat 0 (2 * Z.to_nat (flows_cnt (priv s')))%nat
               /\ flows (priv s')
                  = repeat empty_flow (Z.to_nat (flows_cnt (priv s')))
               /\ backlogs (priv s') = repeat 0 (Z.to_nat (flows_cnt (priv s')))
               /\ empty_flow_mask (priv s') = memset_u32 1 32
               /\ flow_mask_index (priv s') = memset_word 1
               /\ new_flows (priv s') = [] /\ old_flows (priv s') = []
               /\ qlen s' = 0 /\ qstats_backlog s' = 0
               /\ memory_usage (priv s') = 0)
            _ 0 sch _ Hrun eq_refl).
  unfold fq_codel_init, qdisc_alloc. do 5 wp_step.
  eapply (wp_mono _
            (fun r s1 =>
               r = 0 ->
               flows (priv s1) = [] /\ 1 <= flows_cnt (priv s1) <= 65536
               /\ new_flows (priv s1) = [] /\ old_flows (priv s1) = []
               /\ qlen s1 = 0 /\ qstats_backlog s1 = 0
               /\ memory_usage (priv s1) = 0)).
  { destruct opt as [tb |].
    - apply change_unallocated; goal_simpl; try reflexivity; try lia.
      all: try (apply Z.shiftl_nonneg; lia).
    - apply wp_pure. intros _. goal_simpl. repeat split; lia. }
  cbv beta. intros a s1 Hpost.
  destruct (Z.eqb_spec a 0) as [-> | Hne]; cbn [negb].
  - destruct (Hpost eq_refl) as (Hfl & Hn & En & Eo & Hq & Hb & Hm).
    wp_go; [rewrite Hfl in *; discriminate|].
    intros _. rewrite En, Eo, Hq, Hb, Hm. repeat split; lia.
  - wp_go. intros ->. congruence.
Qed.

(** ** The invariants *)

(** The three invariants hold together in every reachable state; the
    classifier's needs the 1024 slots of the bitmask to fit the flow
    table. *)
Lemma reachable_inv sch :
  reachable sch ->
  0 < flows_cnt (priv sch) /\ accounting_wf sch /\ scheduled_wf (priv sch)
  /\ (1024 <= flows_cnt (priv sch) -> classifier_wf (priv sch)).
Proof.
  induction 1 as [codel dq_fuel fuel mtu seed0 seed1 opt hd sch Hinit
                 | sch filter _ IH
                 | sch skb ret0 r sch' _ IH Hrun
                 | codel fuel sch r sch' _ IH Hrun
                 | sch _ IH
                 | codel dq_fuel fuel opt sch r sch' _ IH Hrun].
  - destruct (fq_codel_init_Ok _ _ _ _ _ _ _ _ _ Hinit)
      as (Hn & Hht & Hfl & Hbl & Hmask & Hidx & En & Eo & Hq & Hb & Hm).
    assert (Forall (fun fl => head fl = []) (flows (priv sch))) as Hall
      by (rewrite Hfl; apply Forall_repeat; reflexivity).
    split; [lia|]. split; [|split].
    + apply drained_accounting; try assumption.
      rewrite Hfl. apply repeat_length.
    + apply drained_scheduled; assumption.
    + intros H1024.
      apply (allocated_wf _ (flows_cnt (priv sch))); try assumption;
        [lia | reflexivity |].
      rewrite Hfl. apply repeat_length.
  - destruct IH as (Hpos & HA & HL & HC).
    split; [exact Hpos|]. split; [accounting_frame HA|].
    split; [scheduled_frame HL | exact HC].
  - destruct IH as (Hpos & HA & HL & HC).
    pose proof (enqueue_flows_cnt _ skb ret0 _ _ _ eq_refl Hrun) as Hcnt.
    unfold flows_cnt_is in Hcnt. rewrite Hcnt.
    split; [exact Hpos|].
    split; [exact (enqueue_accounting skb ret0 _ _ _ HA Hrun)|].
    split; [exact (enqueue_scheduled skb ret0 _ _ _ HL Hrun)|].
    intros H1024. exact (preserves_enqueue skb ret0 _ _ _ (HC H1024) Hrun).
  - destruct IH as (Hpos & HA & HL & HC).
    pose proof (fq_codel_dequeue_flows_cnt _ codel fuel _ _ _ eq_refl Hrun)
      as Hcnt.
    unfold flows_cnt_is in Hcnt. rewrite Hcnt.
    split; [exact Hpos|].
    split; [exact (fq_codel_dequeue_accounting codel fuel _ _ _ HA Hrun)|].
    split; [exact (fq_codel_dequeue_scheduled codel fuel _ _ _ HL Hrun)|].
    intros H1024. exact (preserves_dequeue codel fuel _ _ _ (HC H1024) Hrun).
  - destruct IH as (Hpos & HA & HL & HC).
    split; [exact Hpos|].
    split; [exact (fq_codel_reset_accounting _ HA)|].
    split; [apply fq_codel_reset_scheduled|].
    intros H1024. exact (fq_codel_reset_wf _ (HC H1024)).
  - destruct IH as (Hpos & HA & HL & HC).
    assert (flows (priv sch) <> []) as Hfl.
    { destruct HA as (Hlen & _). intros E. rewrite E in Hlen.
      simpl in Hlen. lia. }
    pose proof (wp_Ok _ _ _ _ _
                  (change_flows_cnt _ codel dq_fuel fuel opt sch Hfl eq_refl)
                  Hrun) as Hcnt.
    unfold flows_cnt_is in Hcnt. rewrite Hcnt.
    split; [exact Hpos|].
    split; [exact (wp_Ok _ _ _ _ _
                     (change_accounting codel dq_fuel fuel opt sch Hfl HA)
                     Hrun)|].
    split; [exact (wp_Ok _ _ _ _ _
                     (change_scheduled codel dq_fuel fuel opt sch Hfl HL)
                     Hrun)|].
    intros H1024.
    exact (wp_Ok _ _ _ _ _
             (change_classifier_wf codel dq_fuel fuel opt sch (HC H1024))
             Hrun).
Qed.

Lemma reachable_wf sch :
  reachable sch -> 1024 <= flows_cnt (priv sch) -> classifier_wf (priv sch).
Proof. intros H. apply (reachable_inv sch H). Qed.

Lemma reachable_accounting_wf sch : reachable sch -> accounting_wf sch.
Proof. intros H. apply (reachable_inv sch H). Qed.

Lemma reachable_scheduled_wf sch : reachable sch -> scheduled_wf (priv sch).
Proof. intros H. apply (reachable_inv sch H). Qed.

(** ** Reachable states *)

Lemma enqueue_all_reachable l : forall sch r sch',
  reachable sch -> enqueue_all l sch = Ok (r, sch') -> reachable sch'.
Proof.
  induction l as [| skb l IH]; intros sch r sch' Hsch Hrun; cbn in Hrun.
  - injection Hrun as _ <-. exact Hsch.
  - apply bind_Ok_inv in Hrun as (r1 & s1 & H1 & H2).
    exact (IH _ _ _ (reach_enqueue _ _ _ _ _ Hsch H1) H2).
Qed.

Lemma after_enqueues_reachable l sch :
  reachable sch -> reachable (after_enqueues l sch).
Proof.
  intros Hsch. unfold after_enqueues.
  destruct (enqueue_all l sch) as [[r sch'] | f] eqn:Hrun; [|exact Hsch].
  exact (enqueue_all_reachable l _ _ _ Hsch Hrun).
Qed.

Lemma dequeue_n_reachable n : forall sch,
  reachable sch -> reachable (snd (dequeue_n n sch)).
Proof.
  induction n as [| n IH]; intros sch Hsch; cbn [dequeue_n]; [exact Hsch|].
  destruct (fq_codel_dequeue no_drop 4 sch) as [[skb sch'] | f] eqn:Hrun;
    [|exact Hsch].
  specialize (IH sch' (reach_dequeue _ _ _ _ _ Hsch Hrun)).
  destruct (dequeue_n n sch') as [out sch'']. exact IH.
Qed.

Lemma default_qdisc_unfold hd mtu seed0 seed1 :
  fq_codel_init no_drop 0 1 mtu seed0 seed1 None (qdisc_alloc hd)
  = default_qdisc hd mtu seed0 seed1.
Proof. unfold default_qdisc. reflexivity. Qed.

Lemma fresh_qdisc_unfold hd n mtu seed0 seed1 :
  fq_codel_init no_drop 0 1 mtu seed0 seed1
    (Some (mk_opts None (Some n) None None None)) (qdisc_alloc hd)
  = fresh_qdisc hd n mtu seed0 seed1.
Proof. unfold fresh_qdisc. reflexivity. Qed.

Lemma sch_1024_reachable : reachable sch_1024.
Proof.
  apply (reach_init no_drop 0 1 1500 11 22 None 0x10000).
  rewrite default_qdisc_unfold. unfold sch_1024.
  rewrite default_qdisc_eq. reflexivity.
Qed.

Lemma sch_chain_reachable : reachable sch_chain.
Proof. apply after_enqueues_reachable, sch_1024_reachable. Qed.

Lemma sch_stale_reachable : reachable sch_stale.
Proof.
  apply dequeue_n_reachable, after_enqueues_reachable, sch_1024_reachable.
Qed.

(** A scheduler made with [flows 4] that holds two packets, and the
    five-packet scheduler after its limit was changed to 2. *)
Lemma sch_4_two_reachable : reachable sch_4_two.
Proof.
  apply after_enqueues_reachable.
  apply (reach_init no_drop 0 1 1500 11 22
           (Some (mk_opts None (Some 4) None None None)) 0x10000).
  rewrite fresh_qdisc_unfold. unfold sch_4.
  rewrite fresh_qdisc_eq by reflexivity. reflexivity.
Qed.

Lemma sch_trimmed_reachable : reachable sch_trimmed.
Proof.
  assert (fq_codel_change no_drop 4 10 (Some opts_limit_2) sch_chain
          = Ok (0, sch_trimmed)) as Hrun by (vm_compute; reflexivity).
  exact (reach_change _ _ _ _ _ _ _ sch_chain_reachable Hrun).
Qed.

(** X10. In every state of a scheduler with at least 1024 flows (1024 is
    the default) that is reached from [fq_codel_init] by enqueues,
    dequeues, resets, configuration changes and filter changes that
    return, the classifier's tables are well formed: at most 65536 flows,
    a hashtable of twice as many buckets holding 0 or a slot plus one up
    to 1024, a 32-word bitmask, and an index whose set bits all point at
    non-zero words. *)
Theorem reachable_classifier_wf sch :
  reachable sch -> 1024 <= flows_cnt (priv sch) -> classifier_wf (priv sch).
Proof. exact (reachable_wf sch). Qed.

Lemma reachable_classifier_wf_witness :
  reachable sch_trimmed /\ 1024 <= flows_cnt (priv sch_trimmed)
  /\ classifier_wf (priv sch_trimmed).
Proof.
  assert (1024 <= flows_cnt (priv sch_trimmed)) as H
    by (vm_compute; discriminate).
  split; [exact sch_trimmed_reachable|]. split; [exact H|].
  exact (reachable_classifier_wf sch_trimmed sch_trimmed_reachable H).
Defined.

(** X11. In every state reached from [fq_codel_init], whatever the number
    of flows, by enqueues, dequeues, resets, configuration changes and
    filter changes that return, the counters agree with the queues, as
    32-bit numbers: [backlogs[i]] is the byte count of the queue of flow
    [i], [sch->q.qlen] the number of queued packets, [sch->qstats.backlog]
    their bytes, [memory_usage] the sum of their [truesize]; and the flow
    and backlog arrays have [flows_cnt] entries. *)
Theorem reachable_counters_agree sch : reachable sch -> accounting_wf sch.
Proof. exact (reachable_accounting_wf sch). Qed.

Lemma reachable_counters_agree_witness :
  reachable sch_4_two /\ qlen sch_4_two = 2 /\ accounting_wf sch_4_two.
Proof.
  split; [exact sch_4_two_reachable|]. split; [vm_compute; reflexivity|].
  exact (reachable_counters_agree sch_4_two sch_4_two_reachable).
Defined.

(** X12. In every state reached from [fq_codel_init], whatever the number
    of flows, by enqueues, dequeues, resets, configuration changes and
    filter changes that return, no flow is on the scheduling lists twice,
    and every flow that holds a packet is on [new_flows] or [old_flows]:
    no queued packet is out of the scheduler's reach. *)
Theorem reachable_flows_scheduled sch :
  reachable sch -> scheduled_wf (priv sch).
Proof. exact (reachable_scheduled_wf sch). Qed.

Lemma reachable_flows_scheduled_witness :
  reachable sch_trimmed /\ qlen sch_trimmed = 2
  /\ scheduled_wf (priv sch_trimmed).
Proof.
  split; [exact sch_trimmed_reachable|]. split; [vm_compute; reflexivity|].
  exact (reachable_flows_scheduled sch_trimmed sch_trimmed_reachable).
Defined.

(** X13. When [fq_codel_dequeue] returns NULL on a state that satisfies the
    two invariants, the scheduler holds no packet: every queue is empty,
    both lists are empty, and [qlen], the backlog and [memory_usage] are
    zero. *)
Theorem dequeue_null_means_empty codel fuel sch sch' :
  scheduled_wf (priv sch) -> accounting_wf sch ->
  fq_codel_dequeue codel fuel sch = Ok (None, sch') ->
  Forall (fun fl => head fl = []) (flows (priv sch'))
  /\ new_flows (priv sch') = [] /\ old_flows (priv sch') = []
  /\ qlen sch' = 0 /\ qstats_backlog sch' = 0
  /\ memory_usage (priv sch') = 0.
Proof.
  intros HL HA Hrun.
  pose proof (fq_codel_dequeue_scheduled codel fuel _ _ _ HL Hrun) as [_ Hin].
  pose proof (fq_codel_dequeue_accounting codel fuel _ _ _ HA Hrun)
    as (_ & _ & _ & Hq & Hb & Hm).
  destruct (wp_Ok _ _ _ _ _ (fq_codel_dequeue_none codel fuel sch) Hrun eq_refl)
    as [En Eo].
  rewrite En, Eo in Hin.
  assert (Forall (fun fl => head fl = []) (flows (priv sch'))) as Hall.
  { apply Forall_lookup. intros i fl Hfl.
    destruct (head fl) as [| p rest] eqn:Hhd; [reflexivity|].
    exfalso. apply (not_elem_of_nil (Z.of_nat i)).
    apply (Hin i fl Hfl). rewrite Hhd. discriminate. }
  rewrite !flow_sum_empty in Hq, Hb, Hm by (try reflexivity; exact Hall).
  auto 10.
Qed.

Lemma dequeue_null_means_empty_witness :
  scheduled_wf (priv sch_stale) /\ accounting_wf sch_stale
  /\ fq_codel_dequeue no_drop 4 sch_stale = Ok (None, sch_idle)
  /\ Forall (fun fl => head fl = []) (flows (priv sch_idle))
  /\ new_flows (priv sch_idle) = [] /\ old_flows (priv sch_idle) = []
  /\ qlen sch_idle = 0 /\ qstats_backlog sch_idle = 0
  /\ memory_usage (priv sch_idle) = 0.
Proof.
  pose proof (reachable_scheduled_wf _ sch_stale_reachable) as H1.
  pose proof (reachable_accounting_wf _ sch_stale_reachable) as H2.
  assert (fq_codel_dequeue no_drop 4 sch_stale = Ok (None, sch_idle)) as H3
    by (vm_compute; reflexivity).
  split; [exact H1|]. split; [exact H2|]. split; [exact H3|].
  exact (dequeue_null_means_empty no_drop 4 sch_stale sch_idle H1 H2 H3).
Defined.

(** * Enqueue *)

Lemma wp_fq_codel_drop max_packets (Q : Z * list sk_buff -> Qdisc -> Prop) sch :
  (forall idx freed s',
     u32 (qlen s' + packets freed) = u32 (qlen sch) ->
     u32 (qstats_backlog s' + bytes freed) = u32 (qstats_backlog sch) ->
     freed <> [] ->
     Q (idx, freed) s') ->
  wp (fq_codel_drop max_packets) Q sch.
Proof.
  intros HQ. apply wp_intro. intros [ret to_free] sch' H.
  unfold fq_codel_drop in H.
  apply rbind_Ok_inv in H as ([m idx] & _ & H).
  apply rbind_Ok_inv in H as (flow & Hflow & H).
  apply rbind_Ok_inv in H as ([[rest freed] [[i len] mem]] & Hloop & H).
  apply rbind_Ok_inv in H as (fs & Hfs & H).
  apply rbind_Ok_inv in H as (b & Hb & H).
  apply rbind_Ok_inv in H as (bs & Hbs & H).
  inversion H; subst ret to_free sch'; clear H.
  pose proof (drop_loop_inv _ _ _ _ _ _ _ Hloop) as Hinv. cbv beta iota in Hinv.
  destruct Hinv as (_ & Hne & Hi & Hl & _). rewrite Z.add_0_l in Hi, Hl.
  apply HQ; goal_simpl; [| | exact Hne].
  - rewrite u32_add_l, <- (u32_add_r _ (packets freed)), <- Hi, u32_add_r.
    f_equal. lia.
  - rewrite u32_add_l, <- (u32_add_r _ (bytes freed)), <- Hl, u32_add_r.
    f_equal. lia.
Qed.

(** * Enqueue over the limits *)

(** ** Runs that return *)

Lemma twp_Ok {S A} (m : M S A) Q s :
  twp m Q s -> exists a s', m s = Ok (a, s') /\ Q a s'.
Proof. unfold twp. destruct (m s) as [[a s'] | f]; [eauto | tauto]. Qed.

Lemma twp_eq {S A} (m : M S A) (Q : A -> S -> Prop) s a s' :
  m s = Ok (a, s') -> Q a s' -> twp m Q s.
Proof. unfold twp. intros ->. auto. Qed.

Lemma twp_bind {S A B} (m : M S A) (k : A -> M S B) Q s :
  twp m (fun a s' => twp (k a) Q s') s -> twp (bind m k) Q s.
Proof. unfold twp, bind. destruct (m s) as [[a s'] | f]; auto. Qed.

Lemma twp_pure {S A} (a : A) (Q : A -> S -> Prop) s : Q a s -> twp (pure a) Q s.
Proof. auto. Qed.

Lemma twp_gets {S A} (f : S -> A) (Q : A -> S -> Prop) s :
  Q (f s) s -> twp (gets f) Q s.
Proof. auto. Qed.

Lemma twp_modify {S} (f : S -> S) (Q : unit -> S -> Prop) s :
  Q tt (f s) -> twp (modify f) Q s.
Proof. auto. Qed.

Lemma twp_on_priv {A} (m : M fq_codel_sched_data A) Q sch :
  twp m (fun a q' => Q a (set_priv q' sch)) (priv sch) -> twp (on_priv m) Q sch.
Proof. unfold twp, on_priv. destruct (m (priv sch)) as [[a q'] | f]; auto. Qed.

Lemma twp_flow_read idx (Q : fq_codel_flow -> fq_codel_sched_data -> Prop) q fl :
  0 <= idx -> flows q !! Z.to_nat idx = Some fl -> Q fl q ->
  twp (flow_read idx) Q q.
Proof.
  intros Hi Hfl HQ. unfold twp, flow_read, lift.
  assert (arr_get OOB_flows (flows q) idx = Ok fl) as ->
    by (apply arr_get_Ok; auto).
  exact HQ.
Qed.

Lemma twp_flow_write idx fl (Q : unit -> fq_codel_sched_data -> Prop) q :
  0 <= idx < Z.of_nat (length (flows q)) ->
  Q tt (set_flows (<[Z.to_nat idx := fl]> (flows q)) q) ->
  twp (flow_write idx fl) Q q.
Proof.
  intros Hi HQ. unfold twp, flow_write. rewrite arr_set_in by exact Hi.
  exact HQ.
Qed.

Lemma twp_backlog_read idx (Q : Z -> fq_codel_sched_data -> Prop) q b :
  0 <= idx -> backlogs q !! Z.to_nat idx = Some b -> Q b q ->
  twp (backlog_read idx) Q q.
Proof.
  intros Hi Hb HQ. unfold twp, backlog_read, lift.
  assert (arr_get OOB_backlogs (backlogs q) idx = Ok b) as ->
    by (apply arr_get_Ok; auto).
  exact HQ.
Qed.

Lemma twp_backlog_write idx v (Q : unit -> fq_codel_sched_data -> Prop) q :
  0 <= idx < Z.of_nat (length (backlogs q)) ->
  Q tt (set_backlogs (<[Z.to_nat idx := v]> (backlogs q)) q) ->
  twp (backlog_write idx v) Q q.
Proof.
  intros Hi HQ. unfold twp, backlog_write. rewrite arr_set_in by exact Hi.
  exact HQ.
Qed.

Lemma twp_mark_non_empty s (Q : unit -> fq_codel_sched_data -> Prop) q :
  mask_wf q -> 0 <= s < 1024 ->
  (forall m i, Q tt (set_flow_mask_index i (set_empty_flow_mask m q))) ->
  twp (mark_flow_as_non_empty s) Q q.
Proof.
  intros Hwf Hs HQ.
  destruct (mark_flow_slots q s Hwf Hs) as (q1 & q2 & _ & Hrun & _).
  pose proof (wp_mark_non_empty s Q q HQ) as Hwp.
  unfold wp in Hwp. unfold twp. rewrite Hrun in *. exact Hwp.
Qed.

Ltac twp_step :=
  lazymatch goal with
  | |- twp (bind _ _) _ _ => apply twp_bind
  | |- twp (pure _) _ _ => apply twp_pure
  | |- twp (gets _) _ _ => apply twp_gets
  | |- twp (sch_gets _) _ _ => apply twp_gets
  | |- twp (modify _) _ _ => apply twp_modify
  | |- twp (sch_modify _) _ _ => apply twp_modify
  | |- twp (q_modify _) _ _ => apply twp_on_priv, twp_modify
  | |- twp (on_priv _) _ _ => apply twp_on_priv
  end; wp_tidy.


(** ** The state in which the drop runs *)

Lemma enqueued_backlogs_wf q slot fl b skb q1 fl1 :
  backlogs_wf q ->
  flows q !! Z.to_nat slot = Some fl ->
  backlogs q !! Z.to_nat slot = Some b ->
  b + qdisc_pkt_len skb < 2 ^ 32 ->
  Z.of_nat (length (head fl)) + 1 < 2 ^ 32 ->
  flows q1 = <[Z.to_nat slot := fl1]> (flows q) ->
  backlogs q1 = <[Z.to_nat slot := b + qdisc_pkt_len skb]> (backlogs q) ->
  flows_cnt q1 = flows_cnt q ->
  head fl1 = head fl ++ [skb] ->
  backlogs_wf q1.
Proof.
  intros (Hbl & Hfl & Hper) Hflow Hb Hsum Hlen E1 E2 E3 Hhd.
  unfold backlogs_wf. rewrite E1, E2, E3, !length_insert.
  split; [exact Hbl|]. split; [exact Hfl|].
  intros i fl' b' Hfl' Hb'.
  destruct (Nat.eq_dec i (Z.to_nat slot)) as [-> | Hne].
  - rewrite list_lookup_insert_eq in Hfl' by (apply lookup_lt_Some in Hflow; lia).
    rewrite list_lookup_insert_eq in Hb' by (apply lookup_lt_Some in Hb; lia).
    injection Hfl' as <-. injection Hb' as <-.
    destruct (Hper _ _ _ Hflow Hb) as (-> & _ & _).
    rewrite Hhd, bytes_app, length_app. cbn [bytes fold_right length].
    split; [lia|]. split; lia.
  - rewrite list_lookup_insert_ne in Hfl' by lia.
    rewrite list_lookup_insert_ne in Hb' by lia.
    exact (Hper _ _ _ Hfl' Hb').
Qed.

Lemma enqueued_backlog_positive (bl : list Z) slot b len :
  bl !! Z.to_nat slot = Some b -> 0 <= b -> 0 <= len ->
  (0 < len \/ exists j b', bl !! j = Some b' /\ 0 < b') ->
  exists j b', <[Z.to_nat slot := b + len]> bl !! j = Some b' /\ 0 < b'.
Proof.
  intros Hb Hb0 Hlen [Hpos | (j & b' & Hj & Hb')].
  - exists (Z.to_nat slot), (b + len). split; [|lia].
    apply list_lookup_insert_eq. apply lookup_lt_Some in Hb. lia.
  - destruct (Nat.eq_dec j (Z.to_nat slot)) as [-> | Hne].
    + exists (Z.to_nat slot), (b + len). rewrite Hb in Hj. injection Hj as ->.
      split; [|lia].
      apply list_lookup_insert_eq. apply lookup_lt_Some in Hb. lia.
    + exists j, b'. split; [|exact Hb'].
      rewrite list_lookup_insert_ne by lia. exact Hj.
Qed.


(** ** The fat-flow drop of an enqueue *)

(** C7, counterexample. With [drop_batch_size] 0, which [fq_codel_change]
    stores for [TCA_FQ_CODEL_DROP_BATCH_SIZE] 0, an enqueue over the limit
    still drops one packet of the fat flow: the loop stops with a count of
    1, which is not [drop_batch_size], and with 100 bytes dropped, which
    is less than half of the backlog of 900. *)
Lemma enqueue_batch_0_frees_a_packet :
  drop_batch_size (priv sch_fat_0) = 0
  /\ limit sch_fat_0 = 10 /\ qlen sch_fat_0 = 10
  /\ backlogs (priv sch_fat_0) !! 1023%nat = Some 900
  /\ answer (fq_codel_enqueue skb_thin 0 sch_fat_0)
     = Some (NET_XMIT_SUCCESS, [skb_fat])
  /\ ~ (packets [skb_fat] = drop_batch_size (priv sch_fat_0)
        \/ 900 / 2 <= bytes [skb_fat]).
Proof.
  split; [vm_compute; reflexivity|]. split; [vm_compute; reflexivity|].
  split; [vm_compute; reflexivity|]. split; [vm_compute; reflexivity|].
  split; [vm_compute; reflexivity|].
  vm_compute. intros [H | H]; [discriminate | apply H; reflexivity].
Qed.

(** C7, as the code has it. When the packet has been queued in the slot
    its class names and [qlen] is then above [limit] or [memory_usage]
    above [memory_limit], [fq_codel_enqueue] returns after the fat-flow
    drop: the flow dropped from is the first slot with the largest
    backlog, the packets put on [to_free] are taken from the head of its
    queue, at least one, going on exactly while the count is below
    [drop_batch_size] and the bytes dropped are below half that backlog
    ([maxbacklog >> 1]). The flow's drop counter, its backlog,
    [memory_usage], [qstats.drops], [qstats.backlog], [qlen],
    [drop_overlimit] and, when the memory limit was exceeded,
    [drop_overmemory] move by what was dropped, and the result is
    [NET_XMIT_CN] when the packet's own flow was dropped from. The
    counters are those of the state the classifier leaves; the byte and
    packet counts of the queues are as [backlogs] records them and do not
    wrap, and some backlog is positive once the packet is queued. *)
Theorem enqueue_over_limit_drops_fat_flow skb ret0 sch v ret sch0 fl b :
  fq_codel_classify skb ret0 sch = Ok ((v, ret), sch0) ->
  1 <= v <= 1024 ->
  mask_wf (priv sch0) ->
  backlogs_wf (priv sch0) ->
  flows (priv sch0) !! Z.to_nat (v - 1) = Some fl ->
  backlogs (priv sch0) !! Z.to_nat (v - 1) = Some b ->
  b + qdisc_pkt_len skb < 2 ^ 32 ->
  Z.of_nat (length (head fl)) + 1 < 2 ^ 32 ->
  (0 < qdisc_pkt_len skb
   \/ exists j b', backlogs (priv sch0) !! j = Some b' /\ 0 < b') ->
  (limit sch0 < u32 (qlen sch0 + 1)
   \/ memory_limit (priv sch0)
      < u32 (memory_usage (priv sch0) + mem_usage skb)) ->
  let q0 := priv sch0 in
  let slot := v - 1 in
  let cap := drop_batch_size q0 in
  let fl1 := if flowchain_empty q0 slot
             then mk_flow (head fl ++ [skb]) (s32 (quantum q0)) 0
             else flow_queue_add fl skb in
  let flows1 := <[Z.to_nat slot := fl1]> (flows q0) in
  let backlogs1 :=
    <[Z.to_nat slot := b + qdisc_pkt_len skb]> (backlogs q0) in
  let over_memory :=
    u32 (memory_usage q0 + mem_usage skb) >? memory_limit q0 in
  exists idx maxbacklog flq freed rest sch',
    fq_codel_enqueue skb ret0 sch
    = Ok ((if idx =? slot then NET_XMIT_CN else NET_XMIT_SUCCESS, freed),
          sch')
    /\ is_fat_flow (set_backlogs backlogs1 q0) idx maxbacklog
    /\ 0 < maxbacklog
    /\ flows1 !! Z.to_nat idx = Some flq
    /\ head flq = freed ++ rest
    /\ 1 <= packets freed
    /\ (cap <= packets freed \/ maxbacklog / 2 <= bytes freed)
    /\ (forall j, 1 <= j < packets freed ->
          j < cap /\ bytes (take (Z.to_nat j) (head flq)) < maxbacklog / 2)
    /\ flows (priv sch')
       = <[Z.to_nat idx :=
             mk_flow rest (deficit flq) (u32 (dropped flq + packets freed))]>
           flows1
    /\ backlogs (priv sch')
       = <[Z.to_nat idx := maxbacklog - bytes freed]> backlogs1
    /\ memory_usage (priv sch')
       = u32 (memory_usage q0 + mem_usage skb - mem_bytes freed)
    /\ qstats_drops sch' = u32 (qstats_drops sch0 + packets freed)
    /\ qstats_backlog sch'
       = u32 (qstats_backlog sch0 + qdisc_pkt_len skb - bytes freed)
    /\ qlen sch' = u32 (qlen sch0 + 1 - packets freed)
    /\ drop_overlimit (priv sch') = u32 (drop_overlimit q0 + packets freed)
    /\ drop_overmemory (priv sch')
       = if over_memory then u32 (drop_overmemory q0 + packets freed)
         else drop_overmemory q0.
Proof.
  intros Hcls Hv Hmask Hbwf Hfl Hb Hbsum Hlen1 Hsome Hover.
  intros q0 slot cap fl1 flows1 backlogs1 over_memory. subst q0.
  pose proof Hbwf as (Hblen & Hflen & Hper).
  assert (0 <= slot < Z.of_nat (length (flows (priv sch0)))) as Hslot.
  { apply lookup_lt_Some in Hfl. unfold slot. lia. }
  assert (0 <= slot < Z.of_nat (length (backlogs (priv sch0)))) as Hslotb.
  { apply lookup_lt_Some in Hb. unfold slot. lia. }
  assert (u32 (v - 1) = slot) as Hu by (apply u32_small; unfold slot; lia).
  assert (s32 slot = slot) as Hs by (apply s32_small; unfold slot; lia).
  pose proof (Hper _ _ _ Hfl Hb) as (Hbb & Hb32 & Hl32).
  pose proof (bytes_nonneg (head fl)) as Hbnn.
  pose proof (u32_range (pkt_len skb)) as Hlr. fold (qdisc_pkt_len skb) in Hlr.
  cut (twp (fq_codel_enqueue skb ret0)
         (fun a s' =>
            exists idx maxbacklog flq freed rest,
              a = (if idx =? slot then NET_XMIT_CN else NET_XMIT_SUCCESS, freed)
              /\ is_fat_flow (set_backlogs backlogs1 (priv sch0)) idx maxbacklog
              /\ 0 < maxbacklog
              /\ flows1 !! Z.to_nat idx = Some flq
              /\ head flq = freed ++ rest
              /\ 1 <= packets freed
              /\ (cap <= packets freed \/ maxbacklog / 2 <= bytes freed)
              /\ (forall j, 1 <= j < packets freed ->
                    j < cap
                    /\ bytes (take (Z.to_nat j) (head flq)) < maxbacklog / 2)
              /\ flows (priv s')
                 = <[Z.to_nat idx :=
                       mk_flow rest (deficit flq)
                         (u32 (dropped flq + packets freed))]> flows1
              /\ backlogs (priv s')
                 = <[Z.to_nat idx := maxbacklog - bytes freed]> backlogs1
              /\ memory_usage (priv s')
                 = u32 (memory_usage (priv sch0) + mem_usage skb - mem_bytes freed)
              /\ qstats_drops s' = u32 (qstats_drops sch0 + packets freed)
              /\ qstats_backlog s'
                 = u32 (qstats_backlog sch0 + qdisc_pkt_len skb - bytes freed)
              /\ qlen s' = u32 (qlen sch0 + 1 - packets freed)
              /\ drop_overlimit (priv s')
                 = u32 (drop_overlimit (priv sch0) + packets freed)
              /\ drop_overmemory (priv s')
                 = if over_memory
                   then u32 (drop_overmemory (priv sch0) + packets freed)
                   else drop_overmemory (priv sch0)) sch).
  { intros Htwp. apply twp_Ok in Htwp as (a & s' & Hrun & Hpost).
    destruct Hpost as (idx & m & flq & freed & rest & -> & Hpost).
    exists idx, m, flq, freed, rest, s'. split; [exact Hrun | exact Hpost]. }
  unfold fq_codel_enqueue. apply twp_bind.
  apply (twp_eq _ _ _ _ _ Hcls). cbv beta iota.
  assert ((v =? 0) = false) as -> by (apply Z.eqb_neq; lia).
  rewrite Hu, Hs.
  twp_step. twp_step.
  eapply twp_flow_read; [lia | exact Hfl |].
  twp_step. twp_step.
  apply twp_flow_write; [exact Hslot|]. wp_tidy.
  twp_step. twp_step.
  eapply twp_backlog_read; [lia | exact Hb |].
  twp_step. twp_step.
  apply twp_backlog_write; [goal_simpl; exact Hslotb|]. wp_tidy.
  rewrite (u32_small (b + qdisc_pkt_len skb)) by lia.
  twp_step. twp_step. twp_step. twp_step.
  apply twp_mark_non_empty; [exact Hmask | unfold slot; lia |].
  intros mk mi. wp_tidy.
  twp_step. twp_step. twp_step.
  match goal with
  | |- context [flowchain_empty ?s slot] =>
    lazymatch s with
    | priv sch0 => fail
    | _ => change (flowchain_empty s slot)
             with (flowchain_empty (priv sch0) slot)
    end
  end.
  subst fl1 flows1.
  assert (((u32 (qlen sch0 + 1) <=? limit sch0)
           && negb (u32 (memory_usage (priv sch0) + mem_usage skb) >? memory_limit (priv sch0)))
          = false) as Hcond.
  { apply andb_false_iff.
    destruct Hover as [Hover | Hover]; [left; apply Z.leb_gt; exact Hover|].
    right. apply negb_false_iff, Z.gtb_lt. exact Hover. }
  destruct (flowchain_empty (priv sch0) slot) eqn:Hlink;
    [> repeat twp_step;
       (eapply twp_flow_read;
        [lia | goal_simpl; apply list_lookup_insert_eq; lia |]);
       repeat twp_step;
       (apply twp_flow_write; [goal_simpl; rewrite length_insert; exact Hslot|]);
       wp_tidy; rewrite list_insert_insert_eq; cbn [head flow_queue_add]
    | repeat twp_step ];
    repeat twp_step; rewrite Hcond; repeat twp_step;
    match goal with
    | |- twp (fq_codel_drop ?c) _ ?s =>
      assert (backlogs_wf (priv s)) as Hwf1
        by (eapply (enqueued_backlogs_wf (priv sch0) slot fl b skb);
            [ exact Hbwf | exact Hfl | exact Hb | exact Hbsum | exact Hlen1
            | goal_simpl; reflexivity | goal_simpl; reflexivity
            | goal_simpl; reflexivity | reflexivity ]);
      assert (exists j b', backlogs (priv s) !! j = Some b' /\ 0 < b')
        as Hpos1
        by (goal_simpl;
            apply enqueued_backlog_positive;
            [exact Hb | lia | lia | exact Hsome]);
      destruct (fq_codel_drop_fat s c Hwf1 Hpos1)
        as (idx & m & flq & freed & rest & s2 & Hdrop & Hfat & Hmpos
            & Hflq & Hsplit & Hk & Hstop & Hgo & Efl & Ebl & Emu & Edr
            & Eqb & Eql & Eol & Eom);
      destruct Hwf1 as (_ & _ & Hper1);
      destruct Hfat as (Hfat1 & Hfat2);
      apply (twp_eq _ _ _ _ _ Hdrop)
    end;
    cbv beta iota; repeat twp_step;
    unfold over_memory, cap, backlogs1, is_fat_flow;
    destruct (u32 (memory_usage (priv sch0) + mem_usage skb)
              >? memory_limit (priv sch0));
    repeat twp_step;
    destruct (idx =? slot) eqn:Hret; repeat twp_step;
    state_simpl;
    exists idx, m, flq, freed, rest; rewrite Hret;
    (split; [reflexivity|]);
    unfold packets in *;
    assert (Z.of_nat (length freed) < 2 ^ 32) as Hk32
      by (destruct Hfat2 as [[Hm0 _] | (_ & Hbm & _)]; [lia|];
          destruct (Hper1 _ _ _ Hflq Hbm) as (_ & _ & Hl);
          rewrite Hsplit, length_app in Hl; lia);
    rewrite ?Eol, ?Eom, ?Eql, ?Emu, ?Edr, ?Eqb;
    rewrite ?(u32_sub_r (u32 (qlen sch0 + 1)));
    replace (u32 (qlen sch0 + 1)
             - (u32 (qlen sch0 + 1) - Z.of_nat (length freed)))
      with (Z.of_nat (length freed)) by lia;
    rewrite ?(u32_small (Z.of_nat (length freed))) by lia;
    repeat (split; [first [assumption | reflexivity | u32_arith]|]);
    first [assumption | reflexivity | u32_arith].
Qed.

Lemma enqueue_over_limit_drops_fat_flow_witness :
  fq_codel_classify skb_thin 0 sch_fat_0 = Ok ((1016, 0), sch_fat_0)
  /\ drop_batch_size (priv sch_fat_0) = 0
  /\ limit sch_fat_0 < u32 (qlen sch_fat_0 + 1)
  /\ exists idx maxbacklog freed sch',
       fq_codel_enqueue skb_thin 0 sch_fat_0
       = Ok ((if idx =? 1015 then NET_XMIT_CN else NET_XMIT_SUCCESS, freed),
             sch')
       /\ 0 < maxbacklog
       /\ 1 <= packets freed
       /\ (drop_batch_size (priv sch_fat_0) <= packets freed
           \/ maxbacklog / 2 <= bytes freed)
       /\ backlogs (priv sch')
          = <[Z.to_nat idx := maxbacklog - bytes freed]>
              (<[1015%nat := 200]> (backlogs (priv sch_fat_0)))
       /\ qlen sch' = u32 (qlen sch_fat_0 + 1 - packets freed)
       /\ drop_overlimit (priv sch')
          = u32 (drop_overlimit (priv sch_fat_0) + packets freed).
Proof.
  assert (fq_codel_classify skb_thin 0 sch_fat_0 = Ok ((1016, 0), sch_fat_0))
    as H1 by (vm_compute; reflexivity).
  assert (mask_wf (priv sch_fat_0)) as H2
    by (apply mask_wfb_sound; vm_compute; reflexivity).
  assert (backlogs_wf (priv sch_fat_0)) as H3
    by (apply backlogs_wfb_sound; vm_compute; reflexivity).
  assert (flows (priv sch_fat_0) !! Z.to_nat (1016 - 1)
          = Some (mk_flow [skb_thin] 1500 0)) as H4
    by (vm_compute; reflexivity).
  assert (backlogs (priv sch_fat_0) !! Z.to_nat (1016 - 1) = Some 100) as H5
    by (vm_compute; reflexivity).
  assert (limit sch_fat_0 < u32 (qlen sch_fat_0 + 1)) as H6
    by (vm_compute; reflexivity).
  assert (100 + qdisc_pkt_len skb_thin < 2 ^ 32) as H7
    by (vm_compute; reflexivity).
  assert (Z.of_nat (length (head (mk_flow [skb_thin] 1500 0))) + 1 < 2 ^ 32)
    as H8 by (vm_compute; reflexivity).
  assert (0 < qdisc_pkt_len skb_thin) as H9 by (vm_compute; reflexivity).
  assert (1 <= 1016 <= 1024) as H10 by lia.
  split; [exact H1|]. split; [vm_compute; reflexivity|]. split; [exact H6|].
  destruct (enqueue_over_limit_drops_fat_flow skb_thin 0 sch_fat_0 1016 0
              sch_fat_0 (mk_flow [skb_thin] 1500 0) 100 H1 H10 H2 H3
              H4 H5 H7 H8 (or_introl H9) (or_introl H6))
    as (idx & m & flq & freed & rest & sch' & Hrun & _ & Hm & _ & _ & Hk
        & Hstop & _ & _ & Hbl & _ & _ & _ & Hq & Hol & _).
  exists idx, m, freed, sch'.
  split; [exact Hrun|]. split; [exact Hm|]. split; [exact Hk|].
  split; [exact Hstop|]. split; [exact Hbl|]. split; [exact Hq | exact Hol].
Defined.

(** X14. Every enqueue that returns accounts for its packet: the new
    [qlen] plus the number of packets handed back on [to_free] is the old
    [qlen] plus one, and the new backlog plus the bytes handed back is the
    old backlog plus the length of the packet (as 32-bit numbers). *)
Theorem enqueue_conserves_packets skb ret0 sch r to_free sch' :
  fq_codel_enqueue skb ret0 sch = Ok ((r, to_free), sch') ->
  u32 (qlen sch' + packets to_free) = u32 (qlen sch + 1)
  /\ u32 (qstats_backlog sch' + bytes to_free)
     = u32 (qstats_backlog sch + qdisc_pkt_len skb).
Proof.
  intros Hrun.
  refine (wp_Ok (fq_codel_enqueue skb ret0)
            (fun a s' =>
               u32 (qlen s' + packets (snd a)) = u32 (qlen sch + 1)
               /\ u32 (qstats_backlog s' + bytes (snd a))
                  = u32 (qstats_backlog sch + qdisc_pkt_len skb))
            sch (r, to_free) sch' _ Hrun).
  unfold fq_codel_enqueue.
  wp_step. apply wp_classify. intros v e ht Hht.
  destruct (v =? 0).
  - wp_go.
    all: cbn [snd]; change (packets [skb]) with 1;
      change (bytes [skb]) with (qdisc_pkt_len skb + 0);
      split; f_equal; lia.
  - wp_go.
    all: try (cbn [snd]; change (packets []) with 0; change (bytes []) with 0;
              split; u32_arith).
    all: apply wp_fq_codel_drop; goal_simpl; intros fat freed s2 Hq Hb _;
      wp_go; cbn [snd]; rewrite Hq, Hb; split; u32_arith.
Qed.

Lemma enqueue_conserves_packets_witness :
  fq_codel_enqueue skb_thin 0 sch_fat
  = Ok ((NET_XMIT_SUCCESS, repeat skb_fat 5), after_enqueues [skb_thin] sch_fat)
  /\ u32 (qlen (after_enqueues [skb_thin] sch_fat)
          + packets (repeat skb_fat 5))
     = u32 (qlen sch_fat + 1)
  /\ u32 (qstats_backlog (after_enqueues [skb_thin] sch_fat)
          + bytes (repeat skb_fat 5))
     = u32 (qstats_backlog sch_fat + qdisc_pkt_len skb_thin).
Proof.
  assert (fq_codel_enqueue skb_thin 0 sch_fat
          = Ok ((NET_XMIT_SUCCESS, repeat skb_fat 5),
                after_enqueues [skb_thin] sch_fat)) as H
    by (vm_compute; reflexivity).
  split; [exact H|].
  exact (enqueue_conserves_packets skb_thin 0 sch_fat _ _ _ H).
Defined.

(** The class and the state that [fq_codel_classify] gives do not depend
    on the value [qerr] holds on entry, and neither does the value it
    leaves in [qerr] when the class is 0. *)
Lemma classify_initial_qerr skb r0 r1 sch :
  classifier_wf (priv sch) ->
  match fq_codel_classify skb r0 sch, fq_codel_classify skb r1 sch with
  | Ok ((v0, e0), s0), Ok ((v1, e1), s1) =>
    v0 = v1 /\ s0 = s1 /\ (v0 = 0 -> e0 = e1)
  | Fault f0, Fault f1 => f0 = f1
  | _, _ => False
  end.
Proof.
  intros Hwf. unfold fq_codel_classify.
  destruct ((TC_H_MAJ (u32 (priority skb)) =? handle sch)
            && (TC_H_MIN (u32 (priority skb)) >? 0)
            && (TC_H_MIN (u32 (priority skb)) <=? flows_cnt (priv sch)))
    eqn:Hdirect.
  { split; [reflexivity|]. split; [reflexivity|]. intros Hz.
    apply andb_true_iff in Hdirect as [Hd _].
    apply andb_true_iff in Hd as [_ Hd].
    rewrite Hz in Hd. discriminate. }
  destruct (filter_list (priv sch)) as [filter |].
  - destruct (filter skb) as [result classid].
    repeat match goal with
           | |- context [if ?c then _ else _] => destruct c
           end; auto.
  - unfold on_priv, bind, pure.
    destruct (fq_codel_cuckoo_hash skb (priv sch)) as [[num q'] | f] eqn:Hrun;
      [|reflexivity].
    split; [reflexivity|]. split; [reflexivity|]. intros Hz.
    destruct (fq_codel_cuckoo_hash_ok (priv sch) skb Hwf
                (or_intror (ex_intro _ _ Hrun)))
      as (v & q2 & Hrun' & Hv & _).
    rewrite Hrun in Hrun'. injection Hrun' as -> _. lia.
Qed.

(** X15. [fq_codel_enqueue] never uses the uninitialised value of [ret]:
    on well-formed tables its result and the state it leaves are the same
    whatever [ret] holds on entry, because the classifier writes [*qerr]
    on every path that returns class 0. *)
Theorem enqueue_ignores_initial_ret skb r0 r1 sch :
  classifier_wf (priv sch) ->
  fq_codel_enqueue skb r0 sch = fq_codel_enqueue skb r1 sch.
Proof.
  intros Hwf. pose proof (classify_initial_qerr skb r0 r1 sch Hwf) as Hcls.
  unfold fq_codel_enqueue. unfold bind at 1. unfold bind at 24.
  destruct (fq_codel_classify skb r0 sch) as [[[v0 e0] s0] | f0];
    destruct (fq_codel_classify skb r1 sch) as [[[v1 e1] s1] | f1];
    try contradiction; [|congruence].
  destruct Hcls as (<- & <- & He).
  destruct (Z.eqb_spec v0 0) as [Hz | Hnz]; [|reflexivity].
  rewrite (He Hz). reflexivity.
Qed.

Lemma enqueue_ignores_initial_ret_witness :
  classifier_wf (priv sch_chain)
  /\ fq_codel_enqueue skb_n 0 sch_chain = fq_codel_enqueue skb_n 12345 sch_chain.
Proof.
  assert (classifier_wf (priv sch_chain)) as H
    by (apply classifier_wfb_sound; vm_compute; reflexivity).
  split; [exact H|].
  exact (enqueue_ignores_initial_ret skb_n 0 12345 sch_chain H).
Defined.

Lemma TC_H_MIN_nonneg h : 0 <= TC_H_MIN h.
Proof. unfold TC_H_MIN. apply Z.land_nonneg. right. lia. Qed.

(** X16. With an external classifier attached, [fq_codel_classify] returns
    without a fault, leaves the scheduler as it found it (no slot is
    allocated) and returns class 0 or a class from 1 to [flows_cnt]. When
    the class is 0 it has set [*qerr] to [NET_XMIT_SUCCESS] with
    [__NET_XMIT_BYPASS] or with [__NET_XMIT_STOLEN]. *)
Theorem classify_with_filter sch skb qerr filter :
  filter_list (priv sch) = Some filter ->
  exists v qerr',
    fq_codel_classify skb qerr sch = Ok ((v, qerr'), sch)
    /\ (v = 0 \/ 1 <= v <= flows_cnt (priv sch))
    /\ (v = 0 -> qerr' = Z.lor NET_XMIT_SUCCESS __NET_XMIT_BYPASS
                 \/ qerr' = Z.lor NET_XMIT_SUCCESS __NET_XMIT_STOLEN).
Proof.
  intros Hfilter. unfold fq_codel_classify. rewrite Hfilter.
  destruct ((TC_H_MAJ (u32 (priority skb)) =? handle sch)
            && (TC_H_MIN (u32 (priority skb)) >? 0)
            && (TC_H_MIN (u32 (priority skb)) <=? flows_cnt (priv sch)))
    eqn:Hdirect.
  { apply andb_true_iff in Hdirect as [Hd Hle].
    apply andb_true_iff in Hd as [_ Hpos].
    eexists _, _. split; [reflexivity|]. split; [right; lia | lia]. }
  destruct (filter skb) as [result classid].
  pose proof (TC_H_MIN_nonneg classid) as Hmin.
  repeat match goal with
         | |- context [if ?c then _ else _] => destruct c eqn:?
         end;
    eexists _, _; (split; [reflexivity|]); split; auto.
  destruct (Z.eq_dec (TC_H_MIN classid) 0); [left; assumption | right; lia].
Qed.

Lemma classify_with_filter_witness :
  filter_list (priv sch_filtered) = Some example_filter
  /\ exists v qerr',
       fq_codel_classify (example_skb 7 0 0 0) 0 sch_filtered
       = Ok ((v, qerr'), sch_filtered)
       /\ (v = 0 \/ 1 <= v <= flows_cnt (priv sch_filtered))
       /\ (v = 0 -> qerr' = Z.lor NET_XMIT_SUCCESS __NET_XMIT_BYPASS
                    \/ qerr' = Z.lor NET_XMIT_SUCCESS __NET_XMIT_STOLEN).
Proof.
  assert (filter_list (priv sch_filtered) = Some example_filter) as H
    by reflexivity.
  split; [exact H|].
  exact (classify_with_filter sch_filtered (example_skb 7 0 0 0) 0
           example_filter H).
Defined.

(** X17. A packet that the classifier gives class 0 is not queued:
    [fq_codel_enqueue] hands it back on [to_free], returns the value the
    classifier left in [qerr], and counts a drop exactly when that value
    has the [__NET_XMIT_BYPASS] bit; nothing else of the state changes. *)
Theorem enqueue_class_0_drops skb ret0 sch qerr sch1 :
  fq_codel_classify skb ret0 sch = Ok ((0, qerr), sch1) ->
  fq_codel_enqueue skb ret0 sch
  = Ok ((qerr, [skb]),
        if Z.land qerr __NET_XMIT_BYPASS =? 0 then sch1
        else set_qstats_drops (u32 (qstats_drops sch1 + 1)) sch1).
Proof.
  intros Hcls. unfold fq_codel_enqueue.
  rewrite (bind_eq _ _ _ _ _ Hcls). cbn [Z.eqb].
  destruct (Z.land qerr __NET_XMIT_BYPASS =? 0); reflexivity.
Qed.

Lemma enqueue_class_0_drops_witness :
  fq_codel_classify (example_skb 8 0 0 0) 0 sch_filtered
  = Ok ((0, 0x20000), sch_filtered)
  /\ fq_codel_classify (example_skb 9 0 0 0) 0 sch_filtered
     = Ok ((0, 0x10000), sch_filtered)
  /\ fq_codel_enqueue (example_skb 8 0 0 0) 0 sch_filtered
     = Ok ((0x20000, [example_skb 8 0 0 0]),
           set_qstats_drops (u32 (qstats_drops sch_filtered + 1)) sch_filtered)
  /\ fq_codel_enqueue (example_skb 9 0 0 0) 0 sch_filtered
     = Ok ((0x10000, [example_skb 9 0 0 0]), sch_filtered).
Proof.
  assert (fq_codel_classify (example_skb 8 0 0 0) 0 sch_filtered
          = Ok ((0, 0x20000), sch_filtered)) as H8 by reflexivity.
  assert (fq_codel_classify (example_skb 9 0 0 0) 0 sch_filtered
          = Ok ((0, 0x10000), sch_filtered)) as H9 by reflexivity.
  split; [exact H8|]. split; [exact H9|]. split.
  - exact (enqueue_class_0_drops _ 0 sch_filtered _ _ H8).
  - exact (enqueue_class_0_drops _ 0 sch_filtered _ _ H9).
Defined.

(** * Per-flow queues *)

Lemma flow_queue_add_all l : forall fl,
  fold_left flow_queue_add l fl
  = mk_flow (head fl ++ l) (deficit fl) (dropped fl).
Proof.
  induction l as [| p l IH]; intros fl; cbn [fold_left].
  - rewrite app_nil_r. destruct fl; reflexivity.
  - rewrite IH. unfold flow_queue_add. cbn [head deficit dropped].
    rewrite <- app_assoc. reflexivity.
Qed.

Lemma dequeue_heads_all l : forall rest d n,
  dequeue_heads (length l) (mk_flow (l ++ rest) d n)
  = Ok (l, mk_flow rest d n).
Proof.
  induction l as [| p l IH]; intros rest d n; cbn [length dequeue_heads];
    [reflexivity|].
  unfold dequeue_head. cbn [head app deficit dropped rbind].
  rewrite IH. reflexivity.
Qed.

(** X18. A flow queue is first in, first out: packets added with
    [flow_queue_add] behind a queue come back from [dequeue_head] after
    the packets that were there and in the order they were added, the
    deficit and the drop count of the flow are left alone, and
    [dequeue_head] on the queue emptied this way dereferences NULL. *)
Theorem flow_queue_fifo fl l :
  let fl' := fold_left flow_queue_add l fl in
  dequeue_heads (length (head fl ++ l)) fl'
  = Ok (head fl ++ l, mk_flow [] (deficit fl) (dropped fl))
  /\ dequeue_head (mk_flow [] (deficit fl) (dropped fl)) = Fault NULL_skb.
Proof.
  cbv zeta. rewrite flow_queue_add_all. split; [|reflexivity].
  rewrite <- (app_nil_r (head fl ++ l)) at 2. apply dequeue_heads_all.
Qed.

(** * Reset *)

(** Records given by their fields: the setters computed away. *)
Ltac state_cbv :=
  cbv beta iota zeta delta
    [priv handle limit qlen qstats_backlog qstats_drops
     set_priv set_limit set_qlen set_qstats_backlog set_qstats_drops
     filter_list hashtable random_seed empty_flow_mask flow_mask_index
     flows backlogs flows_cnt quantum drop_batch_size memory_limit cstats
     memory_usage drop_overmemory drop_overlimit new_flow_count new_flows
     old_flows
     set_filter_list set_hashtable set_random_seed set_empty_flow_mask
     set_flow_mask_index set_flows set_backlogs set_flows_cnt set_quantum
     set_drop_batch_size set_memory_limit set_cstats set_memory_usage
     set_drop_overmemory set_drop_overlimit set_new_flow_count
     set_new_flows set_old_flows fq_codel_reset].

Lemma fq_codel_reset_idempotent sch :
  fq_codel_reset (fq_codel_reset sch) = fq_codel_reset sch.
Proof.
  destruct sch as [h l ql qb qd q]. destruct q. state_cbv.
  rewrite map_map. reflexivity.
Qed.

(** X19. [fq_codel_reset] empties the scheduler and keeps its
    configuration: every queue and both lists are empty, [qlen], the
    backlog, [memory_usage], every per-flow backlog and every bucket are
    zero, while the limits, the quantum, the number of flows, the drop
    counters and each flow's deficit are as before. Resetting twice is
    resetting once, and a dequeue after a reset returns NULL and changes
    nothing. *)
Theorem reset_empties_scheduler sch :
  let s' := fq_codel_reset sch in
  Forall (fun fl => head fl = []) (flows (priv s'))
  /\ new_flows (priv s') = [] /\ old_flows (priv s') = []
  /\ qlen s' = 0 /\ qstats_backlog s' = 0 /\ memory_usage (priv s') = 0
  /\ Forall (fun b => b = 0) (backlogs (priv s'))
  /\ Forall (fun v => v = 0) (hashtable (priv s'))
  /\ (limit s', qstats_drops s', quantum (priv s'), flows_cnt (priv s'),
      memory_limit (priv s'), drop_batch_size (priv s'))
     = (limit sch, qstats_drops sch, quantum (priv sch), flows_cnt (priv sch),
        memory_limit (priv sch), drop_batch_size (priv sch))
  /\ map deficit (flows (priv s')) = map deficit (flows (priv sch))
  /\ fq_codel_reset s' = s'
  /\ forall codel fuel, fq_codel_dequeue codel (S fuel) s' = Ok (None, s').
Proof.
  cbv zeta. split; [apply purged_flows|].
  split; [reflexivity|]. split; [reflexivity|]. split; [reflexivity|].
  split; [reflexivity|]. split; [reflexivity|].
  split; [apply Forall_repeat; reflexivity|].
  split; [apply Forall_repeat; reflexivity|].
  split; [reflexivity|].
  split.
  { unfold fq_codel_reset. cbv zeta. goal_simpl.
    rewrite map_map. reflexivity. }
  split; [apply fq_codel_reset_idempotent|].
  intros codel fuel. cbn [fq_codel_dequeue].
  rewrite (bind_eq (on_priv (gets pick_flow)) _ _ None (fq_codel_reset sch)).
  - reflexivity.
  - unfold on_priv, gets. rewrite set_priv_priv. reflexivity.
Qed.

(** * Configuration *)

Lemma change_trim_within codel dq_fuel fuel : forall sch,
  wp (change_trim codel dq_fuel fuel)
     (fun _ s' => qlen s' <= limit s'
                  /\ memory_usage (priv s') <= memory_limit (priv s')) sch.
Proof.
  induction fuel as [| fuel IH]; intros sch; cbn [change_trim].
  - exact I.
  - wp_go.
    + apply wp_intro. intros r s2 _. wp_go. apply IH.
    + apply orb_false_iff in Heqb as [Hq Hm]. lia.
Qed.

(** X20. When [fq_codel_change] returns 0 the scheduler respects the
    limits now in force: [qlen] is at most [limit] and [memory_usage] at
    most [memory_limit], packets having been dequeued and dropped until
    both hold. *)
Theorem change_enforces_limits codel dq_fuel fuel opt sch sch' :
  fq_codel_change codel dq_fuel fuel opt sch = Ok (0, sch') ->
  qlen sch' <= limit sch'
  /\ memory_usage (priv sch') <= memory_limit (priv sch').
Proof.
  intros Hrun.
  refine (wp_Ok (fq_codel_change codel dq_fuel fuel opt)
            (fun r s' => r = 0 ->
               qlen s' <= limit s'
               /\ memory_usage (priv s') <= memory_limit (priv s'))
            sch 0 sch' _ Hrun eq_refl).
  unfold fq_codel_change.
  destruct opt as [tb |]; [|wp_step; discriminate].
  cbv zeta. wp_go; try (intros Hz; discriminate Hz).
  all: eapply wp_mono; [apply change_trim_within|]; cbv beta;
    intros [] s1 Hwithin; wp_go; intros _; exact Hwithin.
Qed.

Lemma change_enforces_limits_witness :
  fq_codel_change no_drop 4 10 (Some opts_limit_2) sch_chain
  = Ok (0, sch_trimmed)
  /\ qlen sch_chain = 5 /\ qlen sch_trimmed = 2
  /\ qlen sch_trimmed <= limit sch_trimmed
  /\ memory_usage (priv sch_trimmed) <= memory_limit (priv sch_trimmed).
Proof.
  assert (fq_codel_change no_drop 4 10 (Some opts_limit_2) sch_chain
          = Ok (0, sch_trimmed)) as H by (vm_compute; reflexivity).
  split; [exact H|]. split; [vm_compute; reflexivity|].
  split; [vm_compute; reflexivity|].
  exact (change_enforces_limits no_drop 4 10 _ sch_chain sch_trimmed H).
Defined.

Lemma on_priv_gets_eq {A} (f : fq_codel_sched_data -> A) sch :
  on_priv (gets f) sch = Ok (f (priv sch), sch).
Proof. unfold on_priv, gets. rewrite set_priv_priv. reflexivity. Qed.

(** X21. [fq_codel_change] refuses a missing option block, and refuses to
    change the number of flows once the flow table is allocated: it
    returns [-EINVAL] and leaves the scheduler untouched. On a scheduler
    without a flow table a number of flows of 0 or above 65536 is refused
    as well, but only after it has been stored in [flows_cnt]. *)
Theorem change_flows_rejected codel dq_fuel fuel tb n sch :
  TCA_FQ_CODEL_FLOWS tb = Some n ->
  fq_codel_change codel dq_fuel fuel None sch = Ok (- EINVAL, sch)
  /\ (flows (priv sch) <> [] ->
      fq_codel_change codel dq_fuel fuel (Some tb) sch = Ok (- EINVAL, sch))
  /\ (flows (priv sch) = [] ->
      nla_get_u32 n = 0 \/ 65536 < nla_get_u32 n ->
      fq_codel_change codel dq_fuel fuel (Some tb) sch
      = Ok (- EINVAL, set_priv (set_flows_cnt (nla_get_u32 n) (priv sch)) sch)).
Proof.
  intros Hflows. split; [reflexivity|].
  unfold fq_codel_change. rewrite Hflows. cbv zeta.
  rewrite (bind_eq _ _ _ _ _ (on_priv_gets_eq _ sch)).
  split.
  - intros Hne. destruct (flows (priv sch)); [contradiction | reflexivity].
  - intros -> Hbad.
    assert ((nla_get_u32 n =? 0) || (nla_get_u32 n >? 65536) = true) as Hb.
    { apply orb_true_iff. destruct Hbad as [Hz | Hbig].
      - left. apply Z.eqb_eq. exact Hz.
      - right. apply Z.gtb_lt. lia. }
    unfold q_modify, bind, on_priv, modify. rewrite Hb. reflexivity.
Qed.

Lemma change_flows_rejected_witness :
  TCA_FQ_CODEL_FLOWS (mk_opts None (Some 2048) None None None) = Some 2048
  /\ flows (priv sch_1024) <> []
  /\ fq_codel_change no_drop 1 1
       (Some (mk_opts None (Some 2048) None None None)) sch_1024
     = Ok (- EINVAL, sch_1024)
  /\ fq_codel_change no_drop 1 1
       (Some (mk_opts None (Some 0) None None None)) (qdisc_alloc 0x10000)
     = Ok (- EINVAL,
           set_priv (set_flows_cnt (nla_get_u32 0) (priv (qdisc_alloc 0x10000)))
             (qdisc_alloc 0x10000)).
Proof.
  assert (flows (priv sch_1024) <> []) as Hne by (vm_compute; discriminate).
  split; [reflexivity|]. split; [exact Hne|]. split.
  - exact (proj1 (proj2 (change_flows_rejected no_drop 1 1
                           (mk_opts None (Some 2048) None None None) 2048
                           sch_1024 eq_refl)) Hne).
  - exact (proj2 (proj2 (change_flows_rejected no_drop 1 1
                           (mk_opts None (Some 0) None None None) 0
                           (qdisc_alloc 0x10000) eq_refl))
             eq_refl (or_introl eq_refl)).
Defined.

Lemma max_u_max a b : max_u a b = Z.max a b.
Proof. unfold max_u. destruct (Z.gtb_spec a b); lia. Qed.

Lemma min_u_min a b : min_u a b = Z.min a b.
Proof. unfold min_u. destruct (Z.ltb_spec a b); lia. Qed.

(** X22. A change request without [TCA_FQ_CODEL_FLOWS] that leaves the
    queue within the limits it sets succeeds and dequeues nothing. It
    stores the limit as given, the quantum raised to at least 256 and the
    memory limit cut to at most 2^31; an attribute that is absent leaves
    its field alone; the queues, lists, buckets and [qlen] are as
    before. *)
Theorem change_applies_options codel dq_fuel fuel tb sch :
  TCA_FQ_CODEL_FLOWS tb = None ->
  qlen sch <= limit (apply_opts tb sch) ->
  memory_usage (priv sch) <= memory_limit (priv (apply_opts tb sch)) ->
  exists sch',
    fq_codel_change codel dq_fuel (S fuel) (Some tb) sch = Ok (0, sch')
    /\ limit sch' = match TCA_FQ_CODEL_LIMIT tb with
                    | Some v => u32 v
                    | None => limit sch
                    end
    /\ quantum (priv sch') = match TCA_FQ_CODEL_QUANTUM tb with
                             | Some v => Z.max 256 (u32 v)
                             | None => quantum (priv sch)
                             end
    /\ memory_limit (priv sch') = match TCA_FQ_CODEL_MEMORY_LIMIT tb with
                                  | Some v => Z.min (2 ^ 31) (u32 v)
                                  | None => memory_limit (priv sch)
                                  end
    /\ flows (priv sch') = flows (priv sch)
    /\ new_flows (priv sch') = new_flows (priv sch)
    /\ old_flows (priv sch') = old_flows (priv sch)
    /\ hashtable (priv sch') = hashtable (priv sch)
    /\ qlen sch' = qlen sch.
Proof.
  intros Hflows Hq Hm.
  assert (qlen (apply_opts tb sch) = qlen sch
          /\ memory_usage (priv (apply_opts tb sch)) = memory_usage (priv sch))
    as [Eq Em].
  { unfold apply_opts.
    destruct (TCA_FQ_CODEL_LIMIT tb), (TCA_FQ_CODEL_QUANTUM tb),
      (TCA_FQ_CODEL_DROP_BATCH_SIZE tb), (TCA_FQ_CODEL_MEMORY_LIMIT tb);
      split; reflexivity. }
  eexists. split.
  - unfold fq_codel_change. rewrite Hflows. cbv zeta.
    rewrite (bind_eq _ _ _ _ _ (on_priv_gets_eq _ sch)).
    unfold sch_modify.
    rewrite (bind_eq (modify (apply_opts tb)) _ sch tt (apply_opts tb sch)
               eq_refl).
    cbn [change_trim]. unfold sch_gets.
    assert (((qlen (apply_opts tb sch) >? limit (apply_opts tb sch))
             || (memory_usage (priv (apply_opts tb sch))
                 >? memory_limit (priv (apply_opts tb sch)))) = false) as Hover.
    { apply orb_false_iff. rewrite Eq, Em.
      split; [destruct (Z.gtb_spec (qlen sch) (limit (apply_opts tb sch)))
             | destruct (Z.gtb_spec (memory_usage (priv sch))
                           (memory_limit (priv (apply_opts tb sch))))];
        auto; lia. }
    unfold bind, gets, q_modify, on_priv, modify, pure. rewrite Hover.
    reflexivity.
  - unfold apply_opts, nla_get_u32.
    destruct (TCA_FQ_CODEL_LIMIT tb), (TCA_FQ_CODEL_QUANTUM tb),
      (TCA_FQ_CODEL_DROP_BATCH_SIZE tb), (TCA_FQ_CODEL_MEMORY_LIMIT tb);
      goal_simpl; rewrite ?max_u_max, ?min_u_min; repeat split.
Qed.

Lemma change_applies_options_witness :
  TCA_FQ_CODEL_FLOWS opts_example = None
  /\ qlen sch_1024 <= limit (apply_opts opts_example sch_1024)
  /\ exists sch',
       fq_codel_change no_drop 1 1 (Some opts_example) sch_1024 = Ok (0, sch')
       /\ limit sch' = 10 /\ quantum (priv sch') = 256
       /\ memory_limit (priv sch') = 2 ^ 31.
Proof.
  assert (qlen sch_1024 <= limit (apply_opts opts_example sch_1024)) as H1
    by (vm_compute; discriminate).
  assert (memory_usage (priv sch_1024)
          <= memory_limit (priv (apply_opts opts_example sch_1024))) as H2
    by (vm_compute; discriminate).
  split; [reflexivity|]. split; [exact H1|].
  destruct (change_applies_options no_drop 1 0 opts_example sch_1024
              eq_refl H1 H2) as (sch' & Hrun & Hl & Hq & Hm & _).
  exists sch'. split; [exact Hrun|]. split; [exact Hl|]. split; [exact Hq|].
  exact Hm.
Defined.

(** * Initialisation *)

Lemma fresh_qdisc_rejected_eq hd n mtu seed0 seed1 :
  (nla_get_u32 n =? 0) || (nla_get_u32 n >? 65536) = true ->
  fresh_qdisc hd n mtu seed0 seed1 =
  Ok (- EINVAL,
      mk_sch hd 10240 0 0 0
        (mk_q None [] (0, 0) [] 0 [] [] 0 (u32 mtu) 64 (Z.shiftl 32 20)
           (mk_cstats 0 0 0) 0 0 0 0 [] [])).
Proof.
  intros Hbad.
  cbv beta iota delta
    [fresh_qdisc fq_codel_init fq_codel_change bind sch_modify q_modify
     on_priv modify gets pure sch_gets qdisc_alloc priv set_priv set_limit
     flows set_flows_cnt set_memory_limit set_drop_batch_size set_quantum
     set_new_flows set_old_flows TCA_FQ_CODEL_FLOWS filter_list hashtable
     random_seed empty_flow_mask flow_mask_index backlogs flows_cnt quantum
     drop_batch_size memory_limit cstats memory_usage drop_overmemory
     drop_overlimit new_flow_count new_flows old_flows handle limit qlen
     qstats_backlog qstats_drops].
  rewrite Hbad. reflexivity.
Qed.

(** X23. [fq_codel_init] with a [flows] option: for 1 to 65536 flows it
    returns 0 and leaves [n] empty flows, [n] zero backlogs, [2 * n] zero
    buckets, the two seeds, the bitmask filled with the byte 1, and the
    defaults (limit 10240, quantum the MTU, batch 64, memory limit 32 MiB);
    for 0 or more than 65536 flows it returns [-EINVAL], allocates nothing
    and leaves [flows_cnt] at 0. *)
Theorem init_with_flows_option hd n mtu seed0 seed1 :
  fresh_qdisc hd n mtu seed0 seed1 =
  if (nla_get_u32 n =? 0) || (nla_get_u32 n >? 65536)
  then
    Ok (- EINVAL,
        mk_sch hd 10240 0 0 0
          (mk_q None [] (0, 0) [] 0 [] [] 0 (u32 mtu) 64 (32 * 2 ^ 20)
             (mk_cstats 0 0 0) 0 0 0 0 [] []))
  else
    Ok (0,
        mk_sch hd 10240 0 0 0
          (mk_q None (repeat 0 (2 * Z.to_nat (nla_get_u32 n))%nat)
             (u32 seed0, u32 seed1) (repeat 0x01010101 32) 0x01010101
             (repeat empty_flow (Z.to_nat (nla_get_u32 n)))
             (repeat 0 (Z.to_nat (nla_get_u32 n))) (nla_get_u32 n)
             (u32 mtu) 64 (32 * 2 ^ 20) (mk_cstats 0 0 0) 0 0 0 0 [] [])).
Proof.
  destruct ((nla_get_u32 n =? 0) || (nla_get_u32 n >? 65536)) eqn:Hbad.
  - exact (fresh_qdisc_rejected_eq hd n mtu seed0 seed1 Hbad).
  - exact (fresh_qdisc_eq hd n mtu seed0 seed1 Hbad).
Qed.

(** * Dropping from an empty scheduler *)

(** X24. [fq_codel_drop] on a scheduler whose backlogs are all zero picks
    flow 0, and with no packet queued there it dereferences the NULL head
    of that flow: the function must only be called while a packet is
    queued. *)
Theorem drop_without_backlog_faults max_packets sch fl :
  length (backlogs (priv sch)) = Z.to_nat (flows_cnt (priv sch)) ->
  Forall (fun b => b = 0) (backlogs (priv sch)) ->
  flows (priv sch) !! 0%nat = Some fl -> head fl = [] ->
  fq_codel_drop max_packets sch = Fault NULL_skb.
Proof.
  intros Hlen Hzero Hfl Hhd. unfold fq_codel_drop.
  destruct (fat_flow_scan_spec (Z.to_nat (flows_cnt (priv sch))) (priv sch)
              0 0 0 ltac:(simpl; lia) ltac:(lia))
    as (m & idx & Hscan & _ & _ & Hcase).
  assert (m = 0 /\ idx = 0) as [-> ->].
  { destruct Hcase as [Hsame | (Hpos & _ & Hb & _)]; [exact Hsame|].
    rewrite Forall_lookup in Hzero. specialize (Hzero _ _ Hb). lia. }
  rewrite Hscan. cbn [rbind].
  assert (arr_get OOB_flows (flows (priv sch)) 0 = Ok fl) as ->
    by (apply arr_get_Ok; split; [lia | exact Hfl]).
  cbn [rbind]. rewrite Hhd. reflexivity.
Qed.

Lemma drop_without_backlog_faults_witness :
  fq_codel_drop 64 sch_1024 = Fault NULL_skb.
Proof.
  apply (drop_without_backlog_faults 64 sch_1024 empty_flow).
  - vm_compute. reflexivity.
  - apply (Forall_repeat _ 0 1024). reflexivity.
  - vm_compute. reflexivity.
  - reflexivity.
Defined.

(** * Walking the classes *)

Lemma s32_small' x : - 2 ^ 31 <= x < 2 ^ 31 -> s32 x = x.
Proof.
  intros Hx. unfold s32, u32.
  destruct (Z_lt_le_dec x 0) as [Hneg | Hpos].
  - assert (x mod 2 ^ 32 = x + 2 ^ 32) as ->
      by (symmetry; apply Z.mod_unique_pos with (q := -1); lia).
    destruct (Z.ltb_spec (x + 2 ^ 32) (2 ^ 31)); lia.
  - rewrite Z.mod_small by lia. destruct (Z.ltb_spec x (2 ^ 31)); lia.
Qed.

Lemma walk_loop_spec fn sch n : forall k arg called,
  (k + n <= length (flows (priv sch)))%nat ->
  (forall cl a, 0 <= fn sch cl a) ->
  - 2 ^ 31 <= w_count arg -> w_count arg + Z.of_nat n < 2 ^ 31 ->
  walk_loop fn sch n (Z.of_nat k) arg called
  = Ok (mk_walker (w_stop arg) (w_skip arg) (w_count arg + Z.of_nat n),
        called
        ++ map (fun i => i + 1)
             (List.filter
                (fun i => negb (flowchain_empty (priv sch) i)
                          && (w_skip arg <=? w_count arg + (i - Z.of_nat k)))
                (map Z.of_nat (seq k n)))).
Proof.
  induction n as [| n IH]; intros k arg called Hlen Hfn Hlo Hhi.
  - cbn. rewrite Z.add_0_r, app_nil_r. destruct arg; reflexivity.
  - cbn [walk_loop seq map List.filter].
    destruct (lookup_lt_is_Some_2 (flows (priv sch)) k ltac:(lia)) as [fl Hfl].
    assert (arr_get OOB_flows (flows (priv sch)) (Z.of_nat k) = Ok fl) as ->
      by (apply arr_get_Ok; rewrite Nat2Z.id; split; [lia | exact Hfl]).
    cbn [rbind].
    replace (Z.of_nat k + 1) with (Z.of_nat (S k)) by lia.
    replace (w_count arg + (Z.of_nat k - Z.of_nat k)) with (w_count arg)
      by lia.
    assert (forall l,
              List.filter
                (fun i => negb (flowchain_empty (priv sch) i)
                          && (w_skip (count_inc arg)
                              <=? w_count (count_inc arg) + (i - Z.of_nat (S k))))
                l
              = List.filter
                  (fun i => negb (flowchain_empty (priv sch) i)
                            && (w_skip arg <=? w_count arg + (i - Z.of_nat k)))
                  l) as Hfilter.
    { intros l. apply List.filter_ext. intros i. cbn [count_inc w_skip w_count].
      rewrite s32_small' by lia. do 2 f_equal. lia. }
    assert (w_count (count_inc arg) + Z.of_nat n
            = w_count arg + Z.of_nat (S n)) as Hcount
      by (cbn [count_inc w_count]; rewrite s32_small' by lia; lia).
    destruct (flowchain_empty (priv sch) (Z.of_nat k)) eqn:Hempty;
      cbn [orb negb andb].
    + rewrite IH by (cbn [count_inc w_count]; try rewrite s32_small' by lia;
                     try assumption; lia).
      rewrite Hfilter, Hcount. reflexivity.
    + destruct (Z.ltb_spec (w_count arg) (w_skip arg)) as [Hskip | Hgo].
      * assert ((w_skip arg <=? w_count arg) = false) as ->
          by (apply Z.leb_gt; exact Hskip).
        rewrite IH by (cbn [count_inc w_count]; try rewrite s32_small' by lia;
                       try assumption; lia).
        rewrite Hfilter, Hcount. reflexivity.
      * assert ((w_skip arg <=? w_count arg) = true) as ->
          by (apply Z.leb_le; exact Hgo).
        assert ((fn sch (Z.of_nat (S k)) arg <? 0) = false) as ->
          by (apply Z.ltb_ge; apply Hfn).
        rewrite IH by (cbn [count_inc w_count]; try rewrite s32_small' by lia;
                       try assumption; lia).
        rewrite Hfilter, Hcount. cbn [map]. rewrite <- app_assoc.
        replace (Z.of_nat k + 1) with (Z.of_nat (S k)) by lia. reflexivity.
Qed.

(** X25. With [stop] clear, a callback that never fails and the counter in
    range, [fq_codel_walk] calls the callback on the classes [i + 1] of the
    flows [i] that are on a scheduling list, in increasing order, leaving
    out those at which the counter is still below [skip], and it advances
    the counter by [flows_cnt]. When no class is skipped and every flow
    that holds a packet is on a list, every such flow is reported. *)
Theorem walk_reports_linked_flows fn arg sch :
  w_stop arg = 0 ->
  (forall cl a, 0 <= fn sch cl a) ->
  length (flows (priv sch)) = Z.to_nat (flows_cnt (priv sch)) ->
  - 2 ^ 31 <= w_count arg ->
  w_count arg + Z.of_nat (Z.to_nat (flows_cnt (priv sch))) < 2 ^ 31 ->
  let n := Z.to_nat (flows_cnt (priv sch)) in
  let called :=
    map (fun i => i + 1)
      (List.filter
         (fun i => negb (flowchain_empty (priv sch) i)
                   && (w_skip arg <=? w_count arg + i))
         (slots_below n)) in
  fq_codel_walk fn arg sch
  = Ok (mk_walker 0 (w_skip arg) (w_count arg + Z.of_nat n), called)
  /\ (scheduled_wf (priv sch) -> w_skip arg <= w_count arg ->
      forall i fl, flows (priv sch) !! i = Some fl -> head fl <> [] ->
        In (Z.of_nat i + 1) called).
Proof.
  intros Hstop Hfn Hlen Hlo Hhi n called. split.
  - unfold fq_codel_walk. rewrite Hstop. cbn [Z.eqb negb].
    change 0 with (Z.of_nat 0) at 1.
    rewrite walk_loop_spec by (try assumption; fold n; lia).
    rewrite Hstop. cbn [app]. fold n. unfold called, slots_below.
    do 3 f_equal. apply List.filter_ext. intros i. do 2 f_equal. lia.
  - intros [_ Hin] Hskip i fl Hfl Hne. unfold called.
    apply (in_map (fun j => j + 1) _ (Z.of_nat i)), List.filter_In. split.
    + unfold slots_below. apply (in_map Z.of_nat), in_seq.
      apply lookup_lt_Some in Hfl. fold n in Hlen. lia.
    + apply andb_true_iff. split; [|apply Z.leb_le; lia].
      apply negb_true_iff.
      destruct (flowchain_empty (priv sch) (Z.of_nat i)) eqn:Hempty;
        [|reflexivity].
      apply flowchain_empty_spec in Hempty. exfalso. apply Hempty.
      exact (Hin i fl Hfl Hne).
Qed.

Lemma sch_chain_sizes :
  length (flows (priv sch_chain)) = Z.to_nat (flows_cnt (priv sch_chain))
  /\ flows_cnt (priv sch_chain) = 1024.
Proof. vm_compute. split; reflexivity. Qed.

Lemma walk_reports_linked_flows_witness :
  let n := Z.to_nat (flows_cnt (priv sch_chain)) in
  let called :=
    map (fun i => i + 1)
      (List.filter
         (fun i => negb (flowchain_empty (priv sch_chain) i)
                   && (w_skip walker_0 <=? w_count walker_0 + i))
         (slots_below n)) in
  fq_codel_walk accept_all walker_0 sch_chain
  = Ok (mk_walker 0 (w_skip walker_0) (w_count walker_0 + Z.of_nat n), called)
  /\ (scheduled_wf (priv sch_chain) -> w_skip walker_0 <= w_count walker_0 ->
      forall i fl, flows (priv sch_chain) !! i = Some fl -> head fl <> [] ->
        In (Z.of_nat i + 1) called).
Proof.
  destruct sch_chain_sizes as [Hlen Hcnt].
  apply (walk_reports_linked_flows accept_all walker_0 sch_chain).
  - reflexivity.
  - intros cl a. unfold accept_all. lia.
  - exact Hlen.
  - cbn. lia.
  - rewrite Hcnt. cbn. lia.
Defined.

(** * Class statistics *)

(** X26. On a state whose counters agree with the queues,
    [fq_codel_dump_class_stats] reports for a class from 1 to [flows_cnt]
    the number of packets in the queue of its flow, their bytes, the
    flow's drop count and its deficit; for class 0 and for classes above
    [flows_cnt] it reports zeros and copies no class statistics. *)
Theorem dump_class_stats_reports sch cl :
  accounting_wf sch -> 0 <= flows_cnt (priv sch) < 2 ^ 32 ->
  (1 <= cl <= flows_cnt (priv sch) ->
   exists fl,
     flows (priv sch) !! Z.to_nat (cl - 1) = Some fl
     /\ fq_codel_dump_class_stats cl sch
        = Ok (mk_class_dump (u32 (packets (head fl))) (u32 (bytes (head fl)))
                (dropped fl) (Some (deficit fl))))
  /\ (cl = 0 \/ flows_cnt (priv sch) < cl <= 2 ^ 32 ->
      fq_codel_dump_class_stats cl sch = Ok (mk_class_dump 0 0 0 None)).
Proof.
  intros (Hfl & Hbl & Hper & _) Hcnt. unfold fq_codel_dump_class_stats.
  cbv zeta. split.
  - intros Hcl. rewrite (u32_small (cl - 1)) by lia.
    assert ((cl - 1 <? flows_cnt (priv sch)) = true) as ->
      by (apply Z.ltb_lt; lia).
    destruct (lookup_lt_is_Some_2 (flows (priv sch)) (Z.to_nat (cl - 1))
                ltac:(lia)) as [fl Hflow].
    destruct (lookup_lt_is_Some_2 (backlogs (priv sch)) (Z.to_nat (cl - 1))
                ltac:(lia)) as [b Hb].
    exists fl. split; [exact Hflow|].
    assert (arr_get OOB_flows (flows (priv sch)) (cl - 1) = Ok fl) as ->
      by (apply arr_get_Ok; split; [lia | exact Hflow]).
    assert (arr_get OOB_backlogs (backlogs (priv sch)) (cl - 1) = Ok b) as ->
      by (apply arr_get_Ok; split; [lia | exact Hb]).
    cbn [rbind]. rewrite (Hper _ _ _ Hflow Hb). reflexivity.
  - intros Hcl.
    assert ((u32 (cl - 1) <? flows_cnt (priv sch)) = false) as ->; [|reflexivity].
    apply Z.ltb_ge. destruct Hcl as [-> | Hbig].
    + change (u32 (0 - 1)) with (2 ^ 32 - 1). lia.
    + rewrite u32_small by lia. lia.
Qed.

Lemma dump_class_stats_reports_witness :
  accounting_wf sch_chain /\ 0 <= flows_cnt (priv sch_chain) < 2 ^ 32
  /\ fq_codel_dump_class_stats 1024 sch_chain
     = Ok (mk_class_dump 1 100 0 (Some 1500))
  /\ fq_codel_dump_class_stats 0 sch_chain = Ok (mk_class_dump 0 0 0 None).
Proof.
  pose proof (reachable_accounting_wf _ sch_chain_reachable) as H1.
  assert (0 <= flows_cnt (priv sch_chain) < 2 ^ 32) as H2
    by (rewrite (proj2 sch_chain_sizes); lia).
  split; [exact H1|]. split; [exact H2|].
  destruct (dump_class_stats_reports sch_chain 1024 H1 H2) as [Hin _].
  destruct (dump_class_stats_reports sch_chain 0 H1 H2) as [_ Hout].
  split; [|exact (Hout (or_introl eq_refl))].
  destruct Hin as (fl & Hfl & Hrun);
    [rewrite (proj2 sch_chain_sizes); lia|].
  rewrite Hrun. vm_compute in Hfl. injection Hfl as <-. reflexivity.
Defined.

(** * Packets of one flow *)

Lemma classify_by_hash skb qerr sch v q1 :
  TC_H_MIN (u32 (priority skb)) = 0 ->
  filter_list (priv sch) = None ->
  fq_codel_cuckoo_hash skb (priv sch) = Ok (v, q1) ->
  fq_codel_classify skb qerr sch = Ok ((v, qerr), set_priv q1 sch).
Proof.
  intros Hmin Hfilter Hrun. unfold fq_codel_classify.
  rewrite Hmin, Hfilter. cbn [Z.gtb Z.compare andb].
  rewrite andb_false_r. cbn [andb].
  unfold on_priv, bind, pure. rewrite Hrun. reflexivity.
Qed.

Lemma enqueue_first_packet sch skb ret0 r sch' e fl :
  classifier_wf (priv sch) ->
  filter_list (priv sch) = None ->
  TC_H_MIN (u32 (priority skb)) = 0 ->
  hashtable (priv sch) !! Z.to_nat (fq_codel_hash_modified (priv sch) skb 0)
  = Some 0 ->
  hashtable (priv sch) !! Z.to_nat (fq_codel_hash_modified (priv sch) skb 1)
  = Some 0 ->
  get_next_empty_flow (priv sch) = Ok e ->
  flows (priv sch) !! Z.to_nat e = Some fl -> head fl = [] ->
  fq_codel_enqueue skb ret0 sch = Ok ((r, []), sch') ->
  r = NET_XMIT_SUCCESS
  /\ hashtable (priv sch')
     = <[Z.to_nat (fq_codel_hash_modified (priv sch) skb 0) := e + 1]>
         (hashtable (priv sch))
  /\ flows_cnt (priv sch') = flows_cnt (priv sch)
  /\ random_seed (priv sch') = random_seed (priv sch)
  /\ filter_list (priv sch') = None
  /\ exists nf, flows (priv sch') !! Z.to_nat e = Some nf /\ head nf = [skb].
Proof.
  intros Hwf Hfilter Hmin Ha Hb Hnext Hfl Hhd Hrun.
  pose proof Hwf as (Hn & Htab & Hmask & Hsound).
  destruct (cuckoo_hash_miss (priv sch) skb Hmask Hsound Ha Hb)
    as (e0 & Hnext0 & He & Hcuckoo).
  rewrite Hnext in Hnext0. injection Hnext0 as <-.
  pose proof (classify_by_hash skb ret0 sch _ _ Hmin Hfilter Hcuckoo) as Hcls.
  unfold fq_codel_enqueue in Hrun.
  rewrite (bind_eq _ _ _ _ _ Hcls) in Hrun.
  assert ((e + 1 =? 0) = false) as Hz by (apply Z.eqb_neq; lia).
  rewrite Hz in Hrun.
  replace (u32 (e + 1 - 1)) with e in Hrun
    by (rewrite u32_small by lia; lia).
  set (h1 := fq_codel_hash_modified (priv sch) skb 0) in *.
  refine (wp_Ok _
            (fun a s' =>
               snd a = [] ->
               fst a = NET_XMIT_SUCCESS
               /\ hashtable (priv s')
                  = <[Z.to_nat h1 := e + 1]> (hashtable (priv sch))
               /\ flows_cnt (priv s') = flows_cnt (priv sch)
               /\ random_seed (priv s') = random_seed (priv sch)
               /\ filter_list (priv s') = None
               /\ exists nf, flows (priv s') !! Z.to_nat e = Some nf
                             /\ head nf = [skb])
            _ (r, []) sch' _ Hrun eq_refl).
  wp_go.
  all: try (apply wp_fq_codel_drop; goal_simpl; intros fat freed s2 _ _ Hne;
            wp_go; cbn [snd]; intros Hnil; contradiction).
  all: intros _; cbn [fst]; rewrite Hfl in *;
    match goal with H : Some _ = Some _ |- _ => injection H as <- end.
  all: repeat (split; [first [reflexivity | assumption]|]).
  all: eexists; (split; [apply list_lookup_insert_eq; rewrite ?length_insert; lia|]).
  - rewrite list_lookup_insert_eq in * by lia.
    match goal with H : Some _ = Some _ |- _ => injection H as <- end.
    cbn [head flow_queue_add]. rewrite Hhd. reflexivity.
  - cbn [head flow_queue_add]. rewrite Hhd. reflexivity.
Qed.

Lemma hash_same_flow q q0 skb x t :
  flows_cnt q = flows_cnt q0 -> random_seed q = random_seed q0 ->
  same_flow skb x ->
  fq_codel_hash_modified q x t = fq_codel_hash_modified q0 skb t.
Proof.
  intros Hcnt Hseed (_ & Hkeys & _). unfold fq_codel_hash_modified, seed_of.
  rewrite Hcnt, Hseed, Hkeys. reflexivity.
Qed.

(** A packet that finds the slot of its flow through its first bucket, its
    second bucket being free, joins the queue of that slot; the hashtable
    is not written. *)
Lemma enqueue_same_flow sch x ret0 r sch' e fl p ps :
  filter_list (priv sch) = None ->
  TC_H_MIN (u32 (priority x)) = 0 ->
  hashtable (priv sch) !! Z.to_nat (fq_codel_hash_modified (priv sch) x 0)
  = Some (e + 1) ->
  hashtable (priv sch) !! Z.to_nat (fq_codel_hash_modified (priv sch) x 1)
  = Some 0 ->
  0 <= e < 1024 ->
  flows (priv sch) !! Z.to_nat e = Some fl -> head fl = p :: ps ->
  skb_get_hash p = skb_get_hash x ->
  fq_codel_enqueue x ret0 sch = Ok ((r, []), sch') ->
  hashtable (priv sch') = hashtable (priv sch)
  /\ flows_cnt (priv sch') = flows_cnt (priv sch)
  /\ random_seed (priv sch') = random_seed (priv sch)
  /\ filter_list (priv sch') = None
  /\ exists nf, flows (priv sch') !! Z.to_nat e = Some nf
                /\ head nf = (p :: ps) ++ [x].
Proof.
  intros Hfilter Hmin Ha Hb He Hfl Hhd Hhash Hrun.
  assert (fq_codel_cuckoo_hash x (priv sch) = Ok (e + 1, priv sch)) as Hhit.
  { apply (cuckoo_hash_hit (priv sch) x (e + 1) 0 fl p ps);
      try assumption; [lia | | left; reflexivity].
    replace (e + 1 - 1) with e by lia. exact Hfl. }
  pose proof (classify_by_hash x ret0 sch _ _ Hmin Hfilter Hhit) as Hcls.
  rewrite set_priv_priv in Hcls.
  unfold fq_codel_enqueue in Hrun.
  rewrite (bind_eq _ _ _ _ _ Hcls) in Hrun.
  assert ((e + 1 =? 0) = false) as Hz by (apply Z.eqb_neq; lia).
  rewrite Hz in Hrun.
  replace (u32 (e + 1 - 1)) with e in Hrun
    by (rewrite u32_small by lia; lia).
  refine (wp_Ok _
            (fun a s' =>
               snd a = [] ->
               hashtable (priv s') = hashtable (priv sch)
               /\ flows_cnt (priv s') = flows_cnt (priv sch)
               /\ random_seed (priv s') = random_seed (priv sch)
               /\ filter_list (priv s') = None
               /\ exists nf, flows (priv s') !! Z.to_nat e = Some nf
                             /\ head nf = (p :: ps) ++ [x])
            _ (r, []) sch' _ Hrun eq_refl).
  wp_go.
  all: try (apply wp_fq_codel_drop; goal_simpl; intros fat freed s2 _ _ Hne;
            wp_go; cbn [snd]; intros Hnil; contradiction).
  all: intros _; rewrite Hfl in *;
    match goal with H : Some _ = Some _ |- _ => injection H as <- end.
  all: repeat (split; [first [reflexivity | assumption]|]).
  all: eexists; (split; [apply list_lookup_insert_eq; rewrite ?length_insert; lia|]).
  - rewrite list_lookup_insert_eq in * by lia.
    match goal with H : Some _ = Some _ |- _ => injection H as <- end.
    cbn [head flow_queue_add]. rewrite Hhd. reflexivity.
  - cbn [head flow_queue_add]. rewrite Hhd. reflexivity.
Qed.

(** A burst of accepted packets of one flow is appended to the queue of the
    slot the flow has. *)
Lemma burst_same_slot q0 skb e h1 h2 l : forall s s' fl p ps,
  h1 = fq_codel_hash_modified q0 skb 0 ->
  h2 = fq_codel_hash_modified q0 skb 1 ->
  flows_cnt (priv s) = flows_cnt q0 -> random_seed (priv s) = random_seed q0 ->
  filter_list (priv s) = None ->
  hashtable (priv s) !! Z.to_nat h1 = Some (e + 1) ->
  hashtable (priv s) !! Z.to_nat h2 = Some 0 ->
  0 <= e < 1024 ->
  flows (priv s) !! Z.to_nat e = Some fl -> head fl = p :: ps ->
  skb_get_hash p = skb_get_hash skb ->
  Forall (same_flow skb) l -> accepted_all l s s' ->
  flows_cnt (priv s') = flows_cnt q0 /\ random_seed (priv s') = random_seed q0
  /\ filter_list (priv s') = None
  /\ hashtable (priv s') !! Z.to_nat h1 = Some (e + 1)
  /\ hashtable (priv s') !! Z.to_nat h2 = Some 0
  /\ exists nf, flows (priv s') !! Z.to_nat e = Some nf
                /\ head nf = (p :: ps) ++ l.
Proof.
  induction l as [| x l IH];
    intros s s' fl p ps -> -> Hcnt Hseed Hfilter Ha Hb He Hfl Hhd Hhash Hall Hrun.
  - cbn [accepted_all] in Hrun. subst s'. rewrite app_nil_r. eauto 10.
  - destruct Hrun as (ret0 & s1 & Hrun & Hrest).
    apply Forall_cons in Hall as [Hx Hall].
    pose proof (hash_same_flow (priv s) q0 skb x 0 Hcnt Hseed Hx) as E0.
    pose proof (hash_same_flow (priv s) q0 skb x 1 Hcnt Hseed Hx) as E1.
    destruct (enqueue_same_flow s x ret0 _ s1 e fl p ps Hfilter
                (proj2 (proj2 Hx)) ltac:(rewrite E0; exact Ha)
                ltac:(rewrite E1; exact Hb) He Hfl Hhd
                ltac:(rewrite (proj1 Hx); exact Hhash) Hrun)
      as (Hht & Hcnt1 & Hseed1 & Hfilter1 & nf & Hnf & Hnfhd).
    destruct (IH s1 s' nf p (ps ++ [x]) eq_refl eq_refl
                ltac:(congruence) ltac:(congruence) Hfilter1
                ltac:(rewrite Hht; exact Ha) ltac:(rewrite Hht; exact Hb)
                He Hnf Hnfhd Hhash Hall Hrest)
      as (H1 & H2 & H3 & H4 & H5 & nf' & Hnf' & Hhd').
    repeat (split; [assumption|]).
    exists nf'. split; [exact Hnf'|]. rewrite Hhd'.
    cbn [app]. rewrite <- app_assoc. reflexivity.
Qed.

(** X27. A burst of packets of one flow goes to one slot. When a packet
    finds both its buckets free, whatever follows it back to back (no
    other packet and no dequeue in between) with the same flow hash and
    keyed hashes, every packet being accepted, is queued behind it in the
    slot [e] that [get_next_empty_flow] offered, whose queue was empty,
    in the order of arrival; and a further packet of the flow is then
    classified into class [e + 1] without a write. No external classifier
    is attached and no packet names a class in its priority. *)
Theorem same_flow_same_slot sch skb l skb' qerr sch' e fl :
  classifier_wf (priv sch) ->
  filter_list (priv sch) = None ->
  TC_H_MIN (u32 (priority skb)) = 0 ->
  hashtable (priv sch) !! Z.to_nat (fq_codel_hash_modified (priv sch) skb 0)
  = Some 0 ->
  hashtable (priv sch) !! Z.to_nat (fq_codel_hash_modified (priv sch) skb 1)
  = Some 0 ->
  get_next_empty_flow (priv sch) = Ok e ->
  flows (priv sch) !! Z.to_nat e = Some fl -> head fl = [] ->
  Forall (same_flow skb) l -> same_flow skb skb' ->
  accepted_all (skb :: l) sch sch' ->
  (exists nf, flows (priv sch') !! Z.to_nat e = Some nf
              /\ head nf = skb :: l)
  /\ fq_codel_classify skb' qerr sch' = Ok ((e + 1, qerr), sch').
Proof.
  intros Hwf Hfilter Hmin Ha Hb Hnext Hfl Hhd Hall Hsame' Hrun.
  destruct Hrun as (ret0 & s1 & Hrun & Hrest).
  destruct (enqueue_first_packet sch skb ret0 _ s1 e fl
              Hwf Hfilter Hmin Ha Hb Hnext Hfl Hhd Hrun)
    as (_ & Hht & Hcnt & Hseed & Hfilter1 & nf & Hnf & Hnfhd).
  destruct Hwf as (Hn & _ & Hmask & Hsound).
  assert (0 <= e < 1024) as He.
  { destruct (get_next_empty_flow_range (priv sch) Hmask Hsound)
      as (e0 & Hnext0 & He0 & _).
    rewrite Hnext in Hnext0. injection Hnext0 as <-. exact He0. }
  pose proof (hash_modified_0_range (priv sch) skb ltac:(lia)) as H0r.
  pose proof (hash_modified_1_range (priv sch) skb ltac:(lia)) as H1r.
  destruct (burst_same_slot (priv sch) skb e _ _ l s1 sch' nf skb []
              eq_refl eq_refl Hcnt Hseed Hfilter1)
    as (Hcnt' & Hseed' & Hfilter' & Ha' & Hb' & nf' & Hnf' & Hhd');
    try assumption; try reflexivity.
  { rewrite Hht. apply list_lookup_insert_eq.
    apply lookup_lt_Some in Ha. exact Ha. }
  { rewrite Hht. rewrite list_lookup_insert_ne by lia. exact Hb. }
  split; [exists nf'; split; [exact Hnf' | exact Hhd']|].
  rewrite <- (set_priv_priv sch') at 2.
  apply (classify_by_hash skb' qerr sch' _ _ (proj2 (proj2 Hsame')) Hfilter').
  apply (cuckoo_hash_hit (priv sch') skb' (e + 1) 0 nf' skb l).
  - rewrite (hash_same_flow _ (priv sch) skb skb' 0 Hcnt' Hseed' Hsame').
    exact Ha'.
  - rewrite (hash_same_flow _ (priv sch) skb skb' 1 Hcnt' Hseed' Hsame').
    exact Hb'.
  - lia.
  - replace (e + 1 - 1) with e by lia. exact Hnf'.
  - exact Hhd'.
  - symmetry. exact (proj1 Hsame').
  - left. reflexivity.
Qed.

Lemma same_flow_same_slot_witness :
  accepted_all [skb_d; skb_d2; skb_d] sch_1024 sch_d3
  /\ get_next_empty_flow (priv sch_1024) = Ok 1023
  /\ pkt_len skb_d2 <> pkt_len skb_d
  /\ (exists nf, flows (priv sch_d3) !! Z.to_nat 1023 = Some nf
                 /\ head nf = [skb_d; skb_d2; skb_d])
  /\ fq_codel_classify skb_d2 0 sch_d3 = Ok ((1023 + 1, 0), sch_d3).
Proof.
  assert (same_flow skb_d skb_d2) as Hs2
    by (split; [reflexivity | split; [intros seed; reflexivity | reflexivity]]).
  assert (same_flow skb_d skb_d) as Hs1
    by (split; [reflexivity | split; [intros seed; reflexivity | reflexivity]]).
  assert (accepted_all [skb_d; skb_d2; skb_d] sch_1024 sch_d3) as Hrun.
  { exists 0, sch_d. split; [vm_compute; reflexivity|].
    exists 0, (after_enqueues [skb_d; skb_d2] sch_1024).
    split; [vm_compute; reflexivity|].
    exists 0, sch_d3. split; [vm_compute; reflexivity | reflexivity]. }
  assert (get_next_empty_flow (priv sch_1024) = Ok 1023) as Hnext
    by (vm_compute; reflexivity).
  split; [exact Hrun|]. split; [exact Hnext|].
  split; [vm_compute; discriminate|].
  refine (same_flow_same_slot sch_1024 skb_d [skb_d2; skb_d] skb_d2 0 sch_d3
            1023 empty_flow _ _ _ _ _ Hnext _ _ _ Hs2 Hrun).
  - apply classifier_wfb_sound. vm_compute. reflexivity.
  - vm_compute. reflexivity.
  - vm_compute. reflexivity.
  - vm_compute. reflexivity.
  - vm_compute. reflexivity.
  - vm_compute. reflexivity.
  - reflexivity.
  - repeat constructor; assumption.
Defined.

(** * Serving a flow *)

(** X28. The flow at the head of [new_flows] is served first: when its
    deficit is positive, its queue is not empty and CoDel drops nothing, a
    dequeue that returns returns the head packet of that flow, leaves the
    rest of its queue, charges the packet's length to the flow's deficit,
    takes one off [qlen] and the packet's length off the backlog, and
    leaves both scheduling lists as they were. *)
Theorem dequeue_serves_new_flow_head codel fuel sch idx rest fl p ps r sch' :
  new_flows (priv sch) = idx :: rest ->
  flows (priv sch) !! Z.to_nat idx = Some fl ->
  0 < deficit fl -> head fl = p :: ps ->
  (forall s, codel s idx = O) ->
  fq_codel_dequeue codel (S fuel) sch = Ok (r, sch') ->
  r = Some p
  /\ (exists fl', flows (priv sch') !! Z.to_nat idx = Some fl'
                  /\ head fl' = ps
                  /\ deficit fl' = s32 (deficit fl - qdisc_pkt_len p))
  /\ qlen sch' = u32 (qlen sch - 1)
  /\ qstats_backlog sch' = u32 (qstats_backlog sch - qdisc_pkt_len p)
  /\ new_flows (priv sch') = new_flows (priv sch)
  /\ old_flows (priv sch') = old_flows (priv sch).
Proof.
  intros Hnew Hfl Hdef Hhd Hcodel Hrun.
  assert (pick_flow (priv sch) = Some (true, idx)) as Hpick
    by (unfold pick_flow; rewrite Hnew; reflexivity).
  refine (wp_Ok _
            (fun r s' =>
               r = Some p
               /\ (exists fl', flows (priv s') !! Z.to_nat idx = Some fl'
                               /\ head fl' = ps
                               /\ deficit fl' = s32 (deficit fl - qdisc_pkt_len p))
               /\ qlen s' = u32 (qlen sch - 1)
               /\ qstats_backlog s' = u32 (qstats_backlog sch - qdisc_pkt_len p)
               /\ new_flows (priv s') = new_flows (priv sch)
               /\ old_flows (priv s') = old_flows (priv sch))
            sch r sch' _ Hrun).
  cbn [fq_codel_dequeue]. do 3 wp_step. rewrite Hpick.
  do 3 wp_step. rewrite Hfl in *.
  match goal with H : Some _ = Some _ |- _ => injection H as <- end.
  assert ((deficit fl <=? 0) = false) as -> by (apply Z.leb_gt; exact Hdef).
  do 9 wp_step. rewrite Hcodel. cbn [codel_dequeue].
  unfold dequeue_func, deliver, release_flow.
  wp_go;
    repeat match goal with
           | H : flows (priv sch) !! Z.to_nat idx = Some ?x |- _ =>
             lazymatch x with
             | fl => fail
             | _ => rewrite Hfl in H; injection H as <-
             end
           end;
    try congruence;
    repeat match goal with
           | H : <[_ := _]> _ !! _ = Some _ |- _ =>
             rewrite list_lookup_insert_eq in H
               by (rewrite ?length_insert; lia);
             injection H as <-
           end;
    try discriminate;
    rewrite Hhd in *;
    match goal with H : _ :: _ = _ :: _ |- _ => injection H as <- <- end;
    (split; [reflexivity|]);
    (split;
     [eexists; split;
      [apply list_lookup_insert_eq; rewrite ?length_insert; lia
      | cbn [head deficit dropped] in *; split; congruence]
     | repeat split]).
Qed.

Lemma dequeue_serves_new_flow_head_witness :
  fq_codel_dequeue no_drop 1 sch_chain = Ok (Some skb_x, sch_served)
  /\ qlen sch_served = u32 (qlen sch_chain - 1)
  /\ new_flows (priv sch_served) = new_flows (priv sch_chain).
Proof.
  assert (fq_codel_dequeue no_drop 1 sch_chain = Ok (Some skb_x, sch_served))
    as Hrun by (vm_compute; reflexivity).
  split; [exact Hrun|].
  assert (exists idx rest fl ps,
            new_flows (priv sch_chain) = idx :: rest
            /\ flows (priv sch_chain) !! Z.to_nat idx = Some fl
            /\ 0 < deficit fl /\ head fl = skb_x :: ps)
    as (idx & rest & fl & ps & Hnew & Hfl & Hdef & Hhd).
  { eexists _, _, _, _. split; [vm_compute; reflexivity|].
    split; [vm_compute; reflexivity|]. split; [reflexivity | reflexivity]. }
  destruct (dequeue_serves_new_flow_head no_drop 0 sch_chain idx rest fl
              skb_x ps _ sch_served Hnew Hfl Hdef Hhd (fun _ => eq_refl) Hrun)
    as (_ & _ & Hq & _ & Hn & _).
  split; [exact Hq | exact Hn].
Defined.
